(** * P3T-ARC hard integrator ([src/hard.hpp]): shallow embedding

    The development follows the layout of [hard.hpp]:

    - [F64Ops]: the arithmetic of [PS::F64] as an interface, with two
      instances: IEEE binary64 ([float], the machine semantics, used to run
      the model) and the real numbers ([R], exact arithmetic, used where a
      statement is an algebraic identity);
    - [F64vec], [ChangeOver], [Ptcl], [FPSoft], [PtclH4], [EPJSoft],
      [HardManager], [GroupPars]: the data the routines read and write;
    - the routines of [SystemHard], one definition per C++ function, with
      the particle arrays as lists updated in place ([alter]) and the
      collaborators that live in other headers (changeover weights, tree
      neighbour lists, the integration engines) as section variables.

    Conventions.  [PS::S32]/[PS::S64] counters and addresses that the code
    keeps non-negative are [nat]; [adr_org], which is negative for a remote
    particle, is [Z].  Signed overflow and out-of-range indexing are
    undefined behaviour in C++; the model does not wrap, a read out of range
    skips the statement and a write out of range leaves the array as it
    is.  The write-back routines, which index the store with an address
    they do not test, and the conversion to [int] in the energy check
    return [None] where the behaviour is undefined.
    [#pragma omp parallel for] loops are modelled by their sequential
    order of iterations. *)

From Stdlib Require Import ZArith List Bool Lia Reals Lra Floats.
From Stdlib Require Import String.
From stdpp Require Import base list sorting.
Import ListNotations.

(** ** [PS::F64] *)

Class F64Ops (F : Type) : Type := {
  f0 : F;
  f1 : F;
  fadd : F -> F -> F;
  fsub : F -> F -> F;
  fmul : F -> F -> F;
  fdiv : F -> F -> F;
  fopp : F -> F;
  fsqrt : F -> F;
  fabs : F -> F;
  feqb : F -> F -> bool;
  fltb : F -> F -> bool;
  of_int : Z -> F;
  (* the conversion to [int]: the value truncated toward zero, when that is
     an [int]; otherwise the conversion is undefined *)
  to_int : F -> option Z
}.

Declare Scope f64_scope.
Delimit Scope f64_scope with f64.
Infix "+" := fadd : f64_scope.
Infix "-" := fsub : f64_scope.
Infix "*" := fmul : f64_scope.
Infix "/" := fdiv : f64_scope.
Notation "- x" := (fopp x) : f64_scope.
Infix "==" := feqb (at level 70, no associativity) : f64_scope.
Infix "<?" := fltb : f64_scope.
(** [a != b] and [a > b] of the source. *)
Notation "x != y" := (negb (feqb x y)) (at level 70, no associativity) : f64_scope.
Notation "x >? y" := (fltb y x) : f64_scope.

(** [std::max(a, b)] is [(a < b) ? b : a]. *)
Definition fmax {F} `{F64Ops F} (a b : F) : F := if (a <? b)%f64 then b else a.

(** The range of [int]. *)
Definition INT_MIN : Z := -2147483648.
Definition INT_MAX : Z := 2147483647.

Definition int_range (z : Z) : option Z :=
  if (INT_MIN <=? z)%Z && (z <=? INT_MAX)%Z then Some z else None.

(** An unqualified [abs(x)] on a [PS::F64].  [hard.hpp] includes [cstdlib]
    and [algorithm] only, and [cstdlib] puts nothing but [int abs(int)] in
    the global namespace: the argument is converted to [int], the absolute
    value is taken there (undefined for [INT_MIN]), and the result is
    converted back where a [PS::F64] is expected. *)
Definition c_abs {F} `{F64Ops F} (x : F) : option F :=
  n ← to_int x;
  if (n =? INT_MIN)%Z then None else Some (of_int (Z.abs n)).

(** IEEE binary64.  A [PS::S64] converts through its magnitude. *)
Definition float_of_int (z : Z) : float :=
  match z with
  | Z0 => PrimFloat.of_uint63 (Uint63.of_Z 0)
  | Zpos _ => PrimFloat.of_uint63 (Uint63.of_Z z)
  | Zneg p => PrimFloat.opp (PrimFloat.of_uint63 (Uint63.of_Z (Zpos p)))
  end.

(** The conversion of a binary64 number to [int]: the mantissa shifted by
    the exponent drops the fraction. *)
Definition float_to_int (x : float) : option Z :=
  match Prim2SF x with
  | S754_zero _ => Some 0%Z
  | S754_finite s m e =>
      let magnitude := Z.shiftl (Zpos m) e in
      int_range (if s then (- magnitude)%Z else magnitude)
  | S754_infinity _ | S754_nan => None
  end.

#[export] Instance float_F64Ops : F64Ops float := {
  f0 := 0%float;
  f1 := 1%float;
  fadd := PrimFloat.add;
  fsub := PrimFloat.sub;
  fmul := PrimFloat.mul;
  fdiv := PrimFloat.div;
  fopp := PrimFloat.opp;
  fsqrt := PrimFloat.sqrt;
  fabs := PrimFloat.abs;
  feqb := PrimFloat.eqb;
  fltb := PrimFloat.ltb;
  of_int := float_of_int;
  to_int := float_to_int
}.

(** Exact arithmetic. *)
Definition Reqb (x y : R) : bool := if Req_dec_T x y then true else false.
Definition Rltb (x y : R) : bool := if Rlt_dec x y then true else false.

Definition R_to_int (x : R) : option Z :=
  int_range (if Rle_dec 0 x then Int_part x else (- Int_part (- x))%Z).

#[export] Instance R_F64Ops : F64Ops R := {
  f0 := 0%R;
  f1 := 1%R;
  fadd := Rplus;
  fsub := Rminus;
  fmul := Rmult;
  fdiv := Rdiv;
  fopp := Ropp;
  fsqrt := R_sqrt.sqrt;
  fabs := Rbasic_fun.Rabs;
  feqb := Reqb;
  fltb := Rltb;
  of_int := IZR;
  to_int := R_to_int
}.

(** What the comparisons of a sign test guarantee; true of binary64 (a NaN
    compares false with everything) and of the reals. *)
Class F64Order (F : Type) `{F64Ops F} : Prop := {
  pos_not_zero : forall x : F, (f0 <? x)%f64 = true -> (x == f0)%f64 = false;
  pos_not_neg : forall x : F, (f0 <? x)%f64 = true -> (x <? f0)%f64 = false;
  neg_not_zero : forall x : F, (x <? f0)%f64 = true -> (x == f0)%f64 = false
}.

(** What committing a changeover with the multiplier 1 relies on: the
    comparison with 1 is exact, and a product by 1 is the number itself;
    true of binary64 and of the reals. *)
Class F64One (F : Type) `{F64Ops F} : Prop := {
  eqb_one : forall x : F, (x == f1)%f64 = true <-> x = f1;
  mul_one_r : forall x : F, (x * f1)%f64 = x
}.

(** The identities of exact arithmetic; true of the reals only. *)
Class F64Exact (F : Type) `{F64Ops F} : Prop := {
  f64_ring : ring_theory f0 f1 fadd fmul fsub fopp (@eq F)
}.

(** ** Data model *)

Section Data.
Context {F : Type} `{F64Ops F}.

(** [PS::F64vec] (FDPS [Vector3<F64>]): componentwise [+], [-], [/ s];
    [v * w] is the inner product; [v * s] and [s * v] both scale [v] and
    compute [v.x * s], [v.y * s], [v.z * s]. *)
Record F64vec : Type := mkF64vec { vx : F; vy : F; vz : F }.

Definition vzero : F64vec := mkF64vec f0 f0 f0.
Definition vadd (a b : F64vec) : F64vec :=
  mkF64vec (vx a + vx b)%f64 (vy a + vy b)%f64 (vz a + vz b)%f64.
Definition vsub (a b : F64vec) : F64vec :=
  mkF64vec (vx a - vx b)%f64 (vy a - vy b)%f64 (vz a - vz b)%f64.
Definition vdot (a b : F64vec) : F :=
  (vx a * vx b + vy a * vy b + vz a * vz b)%f64.
Definition vscale (s : F) (v : F64vec) : F64vec :=
  mkF64vec (vx v * s)%f64 (vy v * s)%f64 (vz v * s)%f64.
Definition vdiv (v : F64vec) (s : F) : F64vec :=
  mkF64vec (vx v / s)%f64 (vy v / s)%f64 (vz v / s)%f64.
Definition vopp (v : F64vec) : F64vec :=
  mkF64vec (- vx v)%f64 (- vy v)%f64 (- vz v)%f64.

(** [ChangeOver] ([changeover.hpp], not in this header).

    Modelled from the spec: the class [ChangeOver] is missing; the state is
    the inner and outer blending radii plus the pending multiplier
    [r_scale_next]; [setR] on a fresh object sets the two radii (the
    multiplier of a fresh object is 1); [updateWithRScale] commits the staged
    radii and resets the multiplier to 1. *)
Record ChangeOver : Type := mkChangeOver {
  r_in_ : F;
  r_out_ : F;
  r_scale_next : F
}.

Definition getRin (c : ChangeOver) : F := r_in_ c.
Definition getRout (c : ChangeOver) : F := r_out_ c.
Definition setR (rin rout : F) : ChangeOver := mkChangeOver rin rout f1.
Definition updateWithRScale (c : ChangeOver) : ChangeOver :=
  mkChangeOver (r_in_ c * r_scale_next c)%f64 (r_out_ c * r_scale_next c)%f64 f1.
Definition set_r_scale_next (s : F) (c : ChangeOver) : ChangeOver :=
  mkChangeOver (r_in_ c) (r_out_ c) s.

(** [Ptcl]: the fields of a hard particle that [hard.hpp] reads and writes
    ([status] and [mass_bk] through their [.d] member). *)
Record Ptcl : Type := mkPtcl {
  mass : F;
  pos : F64vec;
  vel : F64vec;
  r_search : F;
  mass_bk : F;
  id : Z;
  status : F;
  changeover : ChangeOver
}.

Definition set_mass (m : F) (p : Ptcl) : Ptcl :=
  mkPtcl m (pos p) (vel p) (r_search p) (mass_bk p) (id p) (status p) (changeover p).
Definition set_pos (x : F64vec) (p : Ptcl) : Ptcl :=
  mkPtcl (mass p) x (vel p) (r_search p) (mass_bk p) (id p) (status p) (changeover p).
Definition set_r_search (r : F) (p : Ptcl) : Ptcl :=
  mkPtcl (mass p) (pos p) (vel p) r (mass_bk p) (id p) (status p) (changeover p).
Definition set_mass_bk (m : F) (p : Ptcl) : Ptcl :=
  mkPtcl (mass p) (pos p) (vel p) (r_search p) m (id p) (status p) (changeover p).
Definition set_status (s : F) (p : Ptcl) : Ptcl :=
  mkPtcl (mass p) (pos p) (vel p) (r_search p) (mass_bk p) (id p) s (changeover p).
Definition set_changeover (c : ChangeOver) (p : Ptcl) : Ptcl :=
  mkPtcl (mass p) (pos p) (vel p) (r_search p) (mass_bk p) (id p) (status p) c.

(** An element of the global particle store ([Tsys], [Tpsoft]): a [Ptcl]
    with the soft acceleration and potential. *)
Record FPSoft : Type := mkFPSoft {
  fp : Ptcl;
  acc : F64vec;
  pot_tot : F
}.

Definition set_fp (f : Ptcl -> Ptcl) (p : FPSoft) : FPSoft :=
  mkFPSoft (f (fp p)) (acc p) (pot_tot p).
Definition set_acc (a : F64vec) (p : FPSoft) : FPSoft :=
  mkFPSoft (fp p) a (pot_tot p).
Definition set_pot_tot (u : F) (p : FPSoft) : FPSoft :=
  mkFPSoft (fp p) (acc p) u.

(** An element of [ptcl_hard_] ([PtclH4]): a [Ptcl] with the address of its
    mirror in the global store, negative when the mirror is remote. *)
Record PtclH4 : Type := mkPtclH4 {
  hp : Ptcl;
  adr_org : Z;
  id_cluster : Z
}.

Definition set_hp (f : Ptcl -> Ptcl) (p : PtclH4) : PtclH4 :=
  mkPtclH4 (f (hp p)) (adr_org p) (id_cluster p).
Definition set_adr_org (a : Z) (p : PtclH4) : PtclH4 :=
  mkPtclH4 (hp p) a (id_cluster p).

(** A neighbour entry of the tree ([EPJSoft], [Tepj]). *)
Record EPJSoft : Type := mkEPJSoft {
  epj_id : Z;
  epj_mass : F;
  epj_pos : F64vec;
  epj_r_in : F;
  epj_r_out : F;
  epj_r_scale_next : F;
  epj_status : F;
  epj_mass_bk : F
}.

(** [HardManager], without the two engine managers. *)
Record HardManager : Type := mkHardManager {
  energy_error_max : F;
  r_tidal_tensor : F;
  r_in_base : F;
  r_out_base : F;
  eps_sq : F;
  id_offset : Z;
  n_split : nat
}.

(** [GroupPars] ([search_group.hpp], not in this header): the layout of one
    block of artificial particles and the indices decoded from it. *)
Record GroupPars : Type := mkGroupPars {
  n_ptcl_artifical : nat;
  offset_cm : nat;
  offset_orb : nat;
  offset_tt : nat;
  n_members : nat;
  i_cluster : nat;
  i_group : nat
}.

(** Modelled from the spec: the constructor [GroupPars(n_split)] is missing;
    a block holds the tidal-tensor samples, then the orbital samples, then
    the centre of mass, [2*n_split+1] particles in all (the retired code at
    the end of [correctForceWithCutoffArtificalOneClusterImp] starts the
    orbital samples at [n_split] and puts the centre of mass at
    [2*n_split]). *)
Definition GroupPars_init (n : nat) : GroupPars :=
  mkGroupPars (2 * n + 1) (2 * n) n 0 0 0 0.

End Data.

Arguments F64vec F : clear implicits.
Arguments ChangeOver F : clear implicits.
Arguments Ptcl F : clear implicits.
Arguments FPSoft F : clear implicits.
Arguments PtclH4 F : clear implicits.
Arguments EPJSoft F : clear implicits.
Arguments HardManager F : clear implicits.

(** ** Collaborators from other headers *)

(** The static members of [ChangeOver] that blend two particles' changeover
    functions at a separation: the acceleration weight and the potential
    weight. *)
Class ChangeOverFns (F : Type) : Type := {
  calcAcc0WTwo : ChangeOver F -> ChangeOver F -> F -> F;
  calcPotWTwo : ChangeOver F -> ChangeOver F -> F -> F
}.

(** [Ptcl::calcRSearch(dt)] ([ptcl.hpp]).

    Modelled from the spec: the method is missing; it recomputes the search
    radius of the particle from the particle and the step, and writes
    nothing else. *)
Class PtclFns (F : Type) : Type := {
  calcRSearch_value : Ptcl F -> F -> F
}.

Definition calcRSearch {F} `{PtclFns F} (dt : F) (p : Ptcl F) : Ptcl F :=
  set_r_search (calcRSearch_value p dt) p.

(** The tree ([Ttree]): the neighbour list of a particle. *)
Definition Tree (F : Type) : Type := FPSoft F -> list (EPJSoft F).

(** The preprocessor switches that select code in this header.  The model
    is the build without [KDKDK_4TH] (the [_acorr_flag] branches) and
    without [HARD_DEBUG] (its assertions). *)
Class Config : Type := {
  ONLY_SOFT : bool;
  HARD_CHECK_ENERGY : bool
}.

(** [for (k = a; k < b; k++) body], threading the state. *)
Definition for_range {S : Type} (a b : nat) (body : nat -> S -> S) (s : S) : S :=
  fold_left (fun s k => body k s) (seq a (b - a)) s.

(** ** Force correction *)

Section ForceCorrection.
Context {F : Type} `{F64Ops F} `{ChangeOverFns F} `{Config}.
Variable manager : HardManager F.
Local Open Scope f64_scope.

(** The body shared by the two overloads of
    [calcAccPotShortWithLinearCutoff]: they differ in how the changeover of
    the source is obtained. *)
Definition calcAccPotShortWithLinearCutoff_body (_pi : FPSoft F)
    (pj_pos : F64vec F) (pj_mass : F) (pj_changeover : ChangeOver F)
    (pj_status pj_mass_bk : F) : FPSoft F :=
  let dr := vsub (pos (fp _pi)) pj_pos in
  let dr2 := vdot dr dr in
  let dr2_eps := dr2 + eps_sq manager in
  let drinv := f1 / fsqrt dr2_eps in
  let movr := pj_mass * drinv in
  let drinv2 := drinv * drinv in
  let movr3 := movr * drinv2 in
  let dr_eps := drinv * dr2_eps in
  let k := f1 - calcAcc0WTwo (changeover (fp _pi)) pj_changeover dr_eps in
  (* linear cutoff *)
  let r_out := r_out_base manager in
  let r_out2 := r_out * r_out in
  let dr2_max := if dr2_eps >? r_out2 then dr2_eps else r_out2 in
  let drinv_max := f1 / fsqrt dr2_max in
  let movr_max := pj_mass * drinv_max in
  let drinv2_max := drinv_max * drinv_max in
  let movr3_max := movr_max * drinv2_max in
  let pot :=
    if ONLY_SOFT then
      let kpot := f1 - calcPotWTwo (changeover (fp _pi)) pj_changeover dr_eps in
      if pj_status == f0 then
        pot_tot _pi - (if dr2_eps >? r_out2 then f0 else movr * kpot - movr_max)
      else if pj_status <? f0 then
        pot_tot _pi - (if dr2_eps >? r_out2 then f0 else pj_mass_bk * drinv * kpot - movr_max)
      else pot_tot _pi + movr_max
    else
      if pj_status == f0 then pot_tot _pi - (movr - movr_max)
      else if pj_status <? f0 then pot_tot _pi - (pj_mass_bk * drinv - movr_max)
      else pot_tot _pi + movr_max in
  (* correct to changeover soft acceleration *)
  mkFPSoft (fp _pi) (vsub (acc _pi) (vscale (movr3 * k - movr3_max) dr)) pot.

(** [calcAccPotShortWithLinearCutoff(Tpi&, const Ptcl&)]. *)
Definition calcAccPotShortWithLinearCutoff (_pi : FPSoft F) (_pj : Ptcl F) : FPSoft F :=
  calcAccPotShortWithLinearCutoff_body _pi (pos _pj) (mass _pj) (changeover _pj)
    (status _pj) (mass_bk _pj).

(** [calcAccPotShortWithLinearCutoff(Tpi&, const EPJSoft&)]. *)
Definition calcAccPotShortWithLinearCutoff_epj (_pi : FPSoft F) (_pj : EPJSoft F) : FPSoft F :=
  let chj := setR (epj_r_in _pj) (epj_r_out _pj) in
  calcAccPotShortWithLinearCutoff_body _pi (epj_pos _pj) (epj_mass _pj) chj
    (epj_status _pj) (epj_mass_bk _pj).

(** The body shared by the two overloads of [calcAccChangeOverCorrection]. *)
Definition calcAccChangeOverCorrection_body (_pi : FPSoft F)
    (pj_pos : F64vec F) (pj_mass : F) (chjold chjnew : ChangeOver F) : FPSoft F :=
  let dr := vsub (pos (fp _pi)) pj_pos in
  let dr2 := vdot dr dr in
  let dr2_eps := dr2 + eps_sq manager in
  let drinv := f1 / fsqrt dr2_eps in
  let movr := pj_mass * drinv in
  let drinv2 := drinv * drinv in
  let movr3 := movr * drinv2 in
  let dr_eps := drinv * dr2_eps in
  (* old *)
  let kold := f1 - calcAcc0WTwo (changeover (fp _pi)) chjold dr_eps in
  (* new *)
  let ci := changeover (fp _pi) in
  let chinew := setR (getRin ci * r_scale_next ci) (getRout ci * r_scale_next ci) in
  let knew := f1 - calcAcc0WTwo chinew chjnew dr_eps in
  set_acc (vsub (acc _pi) (vscale (movr3 * (knew - kold)) dr)) _pi.

(** [calcAccChangeOverCorrection(Tpi&, const Ptcl&)]. *)
Definition calcAccChangeOverCorrection (_pi : FPSoft F) (_pj : Ptcl F) : FPSoft F :=
  let cj := changeover _pj in
  calcAccChangeOverCorrection_body _pi (pos _pj) (mass _pj) cj
    (setR (getRin cj * r_scale_next cj) (getRout cj * r_scale_next cj)).

(** [calcAccChangeOverCorrection(Tpi&, const EPJSoft&)]. *)
Definition calcAccChangeOverCorrection_epj (_pi : FPSoft F) (_pj : EPJSoft F) : FPSoft F :=
  calcAccChangeOverCorrection_body _pi (epj_pos _pj) (epj_mass _pj)
    (setR (epj_r_in _pj) (epj_r_out _pj))
    (setR (epj_r_in _pj * epj_r_scale_next _pj) (epj_r_out _pj * epj_r_scale_next _pj)).

(** The self-potential correction at the head of
    [correctForceWithCutoffTreeNeighborOneParticleImp] and inside
    [correctForceWithCutoffClusterImp]. *)
Definition selfPotentialCorrection (p : FPSoft F) : FPSoft F :=
  if status (fp p) == f0
  then set_pot_tot (pot_tot p + mass (fp p) / r_out_base manager) p
  else p.

(** The neighbour loop of
    [correctForceWithCutoffTreeNeighborOneParticleImp]. *)
Definition neighborLoop (ptcl_nb : list (EPJSoft F)) (_psoft : FPSoft F) : FPSoft F :=
  fold_left
    (fun p nb => if Z.eqb (epj_id nb) (id (fp p)) then p
                 else calcAccPotShortWithLinearCutoff_epj p nb)
    ptcl_nb _psoft.

Definition correctForceWithCutoffTreeNeighborOneParticleImp
    (_tree : Tree F) (_psoft : FPSoft F) : FPSoft F :=
  let ptcl_nb := _tree _psoft in
  neighborLoop ptcl_nb (selfPotentialCorrection _psoft).

End ForceCorrection.

(** [GroupPars(n_split)] and [GroupPars::getGroupIndex] ([search_group.hpp]):
    the block layout for a split factor, and the member count, the cluster
    index and the group index that [getGroupIndex] reads from the particles
    of a block. *)
Class SearchGroupFns (F : Type) : Type := {
  newGroupPars : nat -> GroupPars;
  readGroupIndex : GroupPars -> list (PtclH4 F) -> nat * nat * nat
}.

(** [gpar.getGroupIndex(&block[0])]: the indices are stored in [gpar], the
    offsets of the layout stay. *)
Definition getGroupIndex {F} `{SearchGroupFns F} (g : GroupPars) (blk : list (PtclH4 F))
    : GroupPars :=
  let '(n, c, j) := readGroupIndex g blk in
  mkGroupPars (n_ptcl_artifical g) (offset_cm g) (offset_orb g) (offset_tt g) n c j.

(** [_sys[adr]] for a [PS::S64] address: an index when it is not negative. *)
Definition sys_index (adr : Z) : option nat :=
  if (0 <=? adr)%Z then Some (Z.to_nat adr) else None.

(** [for (i = a; i < n; i += s) body] for a positive stride [s]. *)
Definition for_stride {S : Type} (a n s : nat) (body : nat -> S -> S) (st : S) : S :=
  fold_left (fun st t => body (a + t * s)%nat st)
            (seq 0 (if (s =? 0)%nat then 0 else (n - a + s - 1) / s)%nat) st.

Section ClusterCorrection.
Context {F : Type} `{F64Ops F} `{ChangeOverFns F} `{Config} `{SearchGroupFns F}.
Variable manager : HardManager F.
Local Open Scope f64_scope.

(** [calcAccPotShortWithLinearCutoff(_sys[k], pj)] on the store. *)
Definition correct_at (k : nat) (pj : option (Ptcl F)) (_sys : list (FPSoft F))
    : list (FPSoft F) :=
  match pj with
  | Some p => alter (fun _pi => calcAccPotShortWithLinearCutoff manager _pi p) k _sys
  | None => _sys
  end.

(** The closing block of the artificial-particle corrections, for the group
    whose block starts at [j_start]; [acc_cm] is a reference to
    [_sys[j_cm].acc].  The same statements close each group in
    [correctForceWithCutoffArtificalOneClusterImp] and in the two overloads
    of [correctForceWithCutoffTreeNeighborImp]. *)
Definition cmForceBlock (gpars : GroupPars) (j_start : nat) (_sys : list (FPSoft F))
    : list (FPSoft F) :=
  let j_cm := (j_start + offset_cm gpars)%nat in
  (* substract c.m. force (acc) from tidal tensor force (acc) *)
  let sys1 :=
    for_range (offset_tt gpars) (offset_orb gpars)
      (fun k sys =>
         match sys !! j_cm with
         | Some cm => alter (fun p => set_acc (vsub (acc p) (acc cm)) p) (j_start + k)%nat sys
         | None => sys
         end) _sys in
  (* After c.m. force used, it can be replaced by the averaged force on orbital particles *)
  let sys2 := alter (set_acc vzero) j_cm sys1 in
  let job_start := (j_start + offset_orb gpars)%nat in
  let '(sys3, m_ob_tot) :=
    for_range job_start j_cm
      (fun k '(sys, m) =>
         match sys !! k with
         | Some pk =>
             (alter (fun cm => set_acc (vadd (acc cm) (vscale (mass (fp pk)) (acc pk))) cm)
                    j_cm sys,
              m + mass (fp pk))
         | None => (sys, m)
         end) (sys2, f0) in
  alter (fun cm => set_acc (vdiv (acc cm) m_ob_tot) cm) j_cm sys3.

(** The pair loops on the artificial particles of the group whose block
    starts at [j_start]: every particle of the block, tidal tensor, orbital
    and c.m., against the orbital particles of every group of the cluster,
    then against the real particles of the cluster. *)
Definition artificialPairLoops (_ptcl_local : list (PtclH4 F))
    (_adr_real_start _adr_real_end _n_group : nat)
    (_adr_first_ptcl_arti_in_cluster : list nat) (j_start : nat)
    (_sys : list (FPSoft F)) : list (FPSoft F) :=
  let gpars := newGroupPars (n_split manager) in
  let j_cm := (j_start + offset_cm gpars)%nat in
  (* loop all artifical particles: tidal tensor, orbital and c.m. particle *)
  for_range j_start (S j_cm)
    (fun k sys =>
       let sys_orb :=
         for_range 0 _n_group
           (fun kj sys =>
              let kj_start := _adr_first_ptcl_arti_in_cluster !!! kj in
              let kj_cm := (kj_start + offset_cm gpars)%nat in
              for_range (kj_start + offset_orb gpars)%nat kj_cm
                (fun kk sys =>
                   if (kk =? k)%nat then sys
                   else correct_at k (fp <$> sys !! kk) sys) sys) sys in
       (* loop real particle *)
       for_range _adr_real_start _adr_real_end
         (fun kj sys => correct_at k (hp <$> _ptcl_local !! kj) sys) sys_orb) _sys.

Definition correctForceWithCutoffArtificalOneClusterImp
    (_sys : list (FPSoft F)) (_ptcl_local : list (PtclH4 F))
    (_adr_real_start _adr_real_end _n_group : nat)
    (_adr_first_ptcl_arti_in_cluster : list nat) : list (FPSoft F) :=
  let gpars := newGroupPars (n_split manager) in
  for_range 0 _n_group
    (fun j sys =>
       let j_start := _adr_first_ptcl_arti_in_cluster !!! j in
       let sys' :=
         artificialPairLoops _ptcl_local _adr_real_start _adr_real_end _n_group
           _adr_first_ptcl_arti_in_cluster j_start sys in
       cmForceBlock gpars j_start sys') _sys.

(** The two pair loops on one real particle [_sys[adr]] (member [j] of the
    cluster) in [correctForceWithCutoffClusterImp]: the other cluster
    members, then the orbital artificial particles of the cluster's
    groups. *)
Definition clusterPairLoops (_ptcl_local : list (PtclH4 F))
    (adr_real_start adr_real_end n_group : nat) (adr_first_ptcl_arti : list nat)
    (j adr : nat) (_sys : list (FPSoft F)) : list (FPSoft F) :=
  let gpars := newGroupPars (n_split manager) in
  (* cluster member *)
  let sys_mem :=
    for_range adr_real_start adr_real_end
      (fun k sys =>
         if (k =? j)%nat then sys
         else correct_at adr (hp <$> _ptcl_local !! k) sys) _sys in
  (* orbital artifical particle *)
  for_range 0 n_group
    (fun k sys =>
       let k_start := adr_first_ptcl_arti !!! k in
       let k_cm := (k_start + offset_cm gpars)%nat in
       for_range (k_start + offset_orb gpars)%nat k_cm
         (fun ki sys => correct_at adr (fp <$> sys !! ki) sys) sys) sys_mem.

(** The correction of the real particle [_sys[adr]]: the self-potential
    correction, then the pair loops. *)
Definition clusterCorrectReal (_ptcl_local : list (PtclH4 F))
    (adr_real_start adr_real_end n_group : nat) (adr_first_ptcl_arti : list nat)
    (j adr : nat) (_sys : list (FPSoft F)) : list (FPSoft F) :=
  (* self-potential correction for non-group member *)
  let sys_self := alter (selfPotentialCorrection manager) adr _sys in
  clusterPairLoops _ptcl_local adr_real_start adr_real_end n_group adr_first_ptcl_arti
    j adr sys_self.

Definition correctForceWithCutoffClusterImp
    (_sys : list (FPSoft F)) (_ptcl_local : list (PtclH4 F))
    (_n_ptcl_in_cluster _n_ptcl_in_cluster_offset : list nat)
    (_n_group_in_cluster _n_group_in_cluster_offset : list nat)
    (_adr_first_ptcl_arti_in_cluster : list nat) : list (FPSoft F) :=
  let n_cluster := length _n_ptcl_in_cluster in
  for_range 0 n_cluster
    (fun i sys =>
       let adr_real_start := _n_ptcl_in_cluster_offset !!! i in
       let adr_real_end := _n_ptcl_in_cluster_offset !!! (i + 1)%nat in
       let n_group := _n_group_in_cluster !!! i in
       let adr_first_ptcl_arti :=
         if (0 <? n_group)%nat
         then drop (_n_group_in_cluster_offset !!! i) _adr_first_ptcl_arti_in_cluster
         else [] in
       (* correction for artifical particles *)
       let sys1 :=
         correctForceWithCutoffArtificalOneClusterImp sys _ptcl_local
           adr_real_start adr_real_end n_group adr_first_ptcl_arti in
       (* obtain correction for real particles in clusters *)
       for_range adr_real_start adr_real_end
         (fun j sys =>
            match adr_org <$> _ptcl_local !! j with
            | Some adr_z =>
                match sys_index adr_z with
                | Some adr =>
                    clusterCorrectReal _ptcl_local adr_real_start adr_real_end n_group
                      adr_first_ptcl_arti j adr sys
                | None => sys
                end
            | None => sys
            end) sys1) _sys.

(** [correctForceWithCutoffTreeNeighborOneParticleImp(_sys[adr], _tree)]. *)
Definition treeCorrect_at (_tree : Tree F) (adr : nat) (_sys : list (FPSoft F))
    : list (FPSoft F) :=
  alter (correctForceWithCutoffTreeNeighborOneParticleImp manager _tree) adr _sys.

Definition correctForceWithCutoffTreeNeighborAndClusterImp
    (_sys : list (FPSoft F)) (_tree : Tree F) (_ptcl_local : list (PtclH4 F))
    (_n_ptcl_in_cluster _n_ptcl_in_cluster_offset : list nat)
    (_n_group_in_cluster _n_group_in_cluster_offset : list nat)
    (_adr_first_ptcl_arti_in_cluster : list nat) (_adr_send : list nat)
    : list (FPSoft F) :=
  let n_cluster := length _n_ptcl_in_cluster in
  let sys_cl :=
    for_range 0 n_cluster
      (fun i sys =>
         let adr_real_start := _n_ptcl_in_cluster_offset !!! i in
         let adr_real_end := _n_ptcl_in_cluster_offset !!! (i + 1)%nat in
         let n_group := _n_group_in_cluster !!! i in
         let adr_first_ptcl_arti :=
           drop (_n_group_in_cluster_offset !!! i) _adr_first_ptcl_arti_in_cluster in
         (* correction for artifical particles *)
         let sys1 :=
           correctForceWithCutoffArtificalOneClusterImp sys _ptcl_local
             adr_real_start adr_real_end n_group adr_first_ptcl_arti in
         (* real particles in clusters use tree neighbor search; only local ones *)
         for_range adr_real_start adr_real_end
           (fun j sys =>
              match adr_org <$> _ptcl_local !! j with
              | Some adr_z =>
                  match sys_index adr_z with
                  | Some adr => treeCorrect_at _tree adr sys
                  | None => sys
                  end
              | None => sys
              end) sys1) _sys in
  (* sending list to other nodes need also be corrected *)
  fold_left (fun sys adr => treeCorrect_at _tree adr sys) _adr_send sys_cl.

(** The overload with [_ptcl_local] and [_n_ptcl]. *)
Definition correctForceWithCutoffTreeNeighborImp
    (_sys : list (FPSoft F)) (_tree : Tree F) (_ptcl_local : list (PtclH4 F))
    (_n_ptcl : nat) (_adr_ptcl_artifical_start : nat) : list (FPSoft F) :=
  (* for real particle *)
  let sys_real :=
    for_range 0 _n_ptcl
      (fun i sys =>
         match adr_org <$> _ptcl_local !! i with
         | Some adr_z =>
             match sys_index adr_z with
             | Some adr => treeCorrect_at _tree adr sys
             | None => sys
             end
         | None => sys
         end) _sys in
  (* for artifical particle *)
  let n_tot := length _sys in
  let sys_art :=
    for_range _adr_ptcl_artifical_start n_tot
      (fun i sys => treeCorrect_at _tree i sys) sys_real in
  let gpars := newGroupPars (n_split manager) in
  for_stride _adr_ptcl_artifical_start n_tot (n_ptcl_artifical gpars)
    (fun i sys => cmForceBlock gpars i sys) sys_art.

(** The overload that corrects every particle of the store. *)
Definition correctForceWithCutoffTreeNeighborImp_all
    (_sys : list (FPSoft F)) (_tree : Tree F) (_adr_ptcl_artifical_start : nat)
    : list (FPSoft F) :=
  let n_tot := length _sys in
  let sys_all := for_range 0 n_tot (fun i sys => treeCorrect_at _tree i sys) _sys in
  let gpars := newGroupPars (n_split manager) in
  for_stride _adr_ptcl_artifical_start n_tot (n_ptcl_artifical gpars)
    (fun i sys => cmForceBlock gpars i sys) sys_all.

(** [correctPotWithCutoffOMP]: the self-potential of the isolated singles. *)
Definition correctPotWithCutoffOMP (_sys : list (FPSoft F)) (_ptcl_list : list nat)
    : list (FPSoft F) :=
  fold_left
    (fun sys k =>
       alter (fun p => set_pot_tot (pot_tot p + mass (fp p) / r_out_base manager) p) k sys)
    _ptcl_list _sys.

End ClusterCorrection.

(** ** [SystemHard] *)

(** The data members of [SystemHard] that the routines below use. *)
Record SystemHard (F : Type) : Type := mkSystemHard {
  ptcl_hard_ : list (PtclH4 F);
  n_ptcl_in_cluster_ : list nat;
  n_ptcl_in_cluster_disp_ : list nat;
  n_group_in_cluster_ : list nat;
  n_group_in_cluster_offset_ : list nat;
  adr_first_ptcl_arti_in_cluster_ : list nat;
  i_cluster_changeover_update_ : list nat;
  n_group_member_remote_ : nat;
  hard_dE : F
}.
Arguments mkSystemHard {F}.
Arguments ptcl_hard_ {F}.
Arguments n_ptcl_in_cluster_ {F}.
Arguments n_ptcl_in_cluster_disp_ {F}.
Arguments n_group_in_cluster_ {F}.
Arguments n_group_in_cluster_offset_ {F}.
Arguments adr_first_ptcl_arti_in_cluster_ {F}.
Arguments i_cluster_changeover_update_ {F}.
Arguments n_group_member_remote_ {F}.
Arguments hard_dE {F}.

Definition set_ptcl_hard_ {F} (l : list (PtclH4 F)) (h : SystemHard F) : SystemHard F :=
  mkSystemHard l (n_ptcl_in_cluster_ h) (n_ptcl_in_cluster_disp_ h)
    (n_group_in_cluster_ h) (n_group_in_cluster_offset_ h)
    (adr_first_ptcl_arti_in_cluster_ h) (i_cluster_changeover_update_ h)
    (n_group_member_remote_ h) (hard_dE h).

(** ** The changeover-transition correction *)

Section ChangeOverUpdate.
Context {F : Type} `{F64Ops F} `{ChangeOverFns F} `{SearchGroupFns F}.
Variable manager : HardManager F.
Local Open Scope f64_scope.

(** [calcAccChangeOverCorrection(_sys[k], pj)] on the store. *)
Definition changeover_correct_at (k : nat) (pj : option (Ptcl F)) (_sys : list (FPSoft F))
    : list (FPSoft F) :=
  match pj with
  | Some p => alter (fun _pi => calcAccChangeOverCorrection manager _pi p) k _sys
  | None => _sys
  end.

(** [c.r_scale_next != 1.0]. *)
Definition staged (c : ChangeOver F) : bool := r_scale_next c != f1.

(** The neighbour loop on one real particle [_sys[adr]], before its
    changeover is committed. *)
Definition changeOverNeighborLoop (_tree : Tree F) (p : FPSoft F) : FPSoft F :=
  let change_i := staged (changeover (fp p)) in
  let ptcl_nb := _tree p in
  fold_left
    (fun p nb =>
       if Z.eqb (epj_id nb) (id (fp p)) then p
       else if (epj_r_scale_next nb != f1) || change_i
            then calcAccChangeOverCorrection_epj manager p nb
            else p)
    ptcl_nb p.

(** [_sys[adr].changeover.updateWithRScale()]. *)
Definition commit_soft (p : FPSoft F) : FPSoft F :=
  set_fp (fun q => set_changeover (updateWithRScale (changeover q)) q) p.

(** [ptcl_hard_[j].changeover.updateWithRScale()]. *)
Definition commit_hard (p : PtclH4 F) : PtclH4 F :=
  set_hp (fun q => set_changeover (updateWithRScale (changeover q)) q) p.

(** The artificial particles of one flagged cluster. *)
Definition changeOverArtificial (hard_ptcl : list (PtclH4 F))
    (adr_real_start adr_real_end n_group : nat) (adr_first_ptcl_arti : list nat)
    (_sys : list (FPSoft F)) : list (FPSoft F) :=
  let gpars := newGroupPars (n_split manager) in
  for_range 0 n_group
    (fun j sys =>
       let j_start := adr_first_ptcl_arti !!! j in
       let j_cm := (j_start + offset_cm gpars)%nat in
       (* loop orbital particles *)
       for_range (j_start + offset_orb gpars)%nat (S j_cm)
         (fun k sys =>
            match sys !! k with
            | None => sys
            | Some pk =>
                let changek := staged (changeover (fp pk)) in
                let sys_orb :=
                  for_range 0 n_group
                    (fun kj sys =>
                       let kj_start_orb := (adr_first_ptcl_arti !!! kj + offset_orb gpars)%nat in
                       let kj_cm := (adr_first_ptcl_arti !!! kj + offset_cm gpars)%nat in
                       match sys !! kj_start_orb with
                       | None => sys
                       | Some p0 =>
                           if staged (changeover (fp p0)) || changek then
                             for_range kj_start_orb kj_cm
                               (fun kk sys =>
                                  if (kk =? k)%nat then sys
                                  else changeover_correct_at k (fp <$> sys !! kk) sys) sys
                           else sys
                       end) sys in
                (* loop real particle *)
                for_range adr_real_start adr_real_end
                  (fun kj sys =>
                     match hard_ptcl !! kj with
                     | None => sys
                     | Some pj =>
                         if staged (changeover (hp pj)) || changek
                         then changeover_correct_at k (Some (hp pj)) sys
                         else sys
                     end) sys_orb
            end) sys) _sys.

(** The real particles of one flagged cluster: correct, then commit both
    copies. *)
Definition changeOverReal (_tree : Tree F) (adr_real_start adr_real_end : nat)
    (st : list (FPSoft F) * list (PtclH4 F)) : list (FPSoft F) * list (PtclH4 F) :=
  for_range adr_real_start adr_real_end
    (fun j '(sys, hard_ptcl) =>
       match adr_org <$> hard_ptcl !! j with
       | None => (sys, hard_ptcl)
       | Some adr_z =>
           let sys1 :=
             match sys_index adr_z with
             | Some adr => alter (changeOverNeighborLoop _tree) adr sys
             | None => sys
             end in
           (* update changeover *)
           let hard_ptcl' := alter commit_hard j hard_ptcl in
           let sys2 :=
             match sys_index adr_z with
             | Some adr => alter commit_soft adr sys1
             | None => sys1
             end in
           (sys2, hard_ptcl')
       end) st.

(** One flagged cluster [i_cluster_changeover_update_[i]]. *)
Definition changeOverCluster (hard : SystemHard F) (_tree : Tree F) (i : nat)
    (st : list (FPSoft F) * list (PtclH4 F)) : list (FPSoft F) * list (PtclH4 F) :=
  let '(sys, hard_ptcl) := st in
  let i_cluster := i_cluster_changeover_update_ hard !!! i in
  let adr_real_start := n_ptcl_in_cluster_disp_ hard !!! i_cluster in
  let adr_real_end := n_ptcl_in_cluster_disp_ hard !!! (i_cluster + 1)%nat in
  let n_group := n_group_in_cluster_ hard !!! i_cluster in
  let adr_first_ptcl_arti :=
    if (0 <? n_group)%nat
    then drop (n_group_in_cluster_offset_ hard !!! i_cluster)
              (adr_first_ptcl_arti_in_cluster_ hard)
    else [] in
  (* correction for artifical particles *)
  let sys1 :=
    changeOverArtificial hard_ptcl adr_real_start adr_real_end n_group
      adr_first_ptcl_arti sys in
  (* correction for real particles *)
  changeOverReal _tree adr_real_start adr_real_end (sys1, hard_ptcl).

(** The particles of the sending list: correct, then commit. *)
Definition changeOverSend (_tree : Tree F) (_adr_send : list nat)
    (_sys : list (FPSoft F)) : list (FPSoft F) :=
  fold_left
    (fun sys adr => alter (fun p => commit_soft (changeOverNeighborLoop _tree p)) adr sys)
    _adr_send _sys.

Definition correctForceForChangeOverUpdateOMP (hard : SystemHard F)
    (_sys : list (FPSoft F)) (_tree : Tree F) (_adr_send : list nat)
    : list (FPSoft F) * SystemHard F :=
  let n_cluster := length (i_cluster_changeover_update_ hard) in
  let '(sys_cl, hard_ptcl) :=
    for_range 0 n_cluster (changeOverCluster hard _tree) (_sys, ptcl_hard_ hard) in
  (* sending list to other nodes need also be corrected *)
  (changeOverSend _tree _adr_send sys_cl, set_ptcl_hard_ hard_ptcl hard).

End ChangeOverUpdate.

(** ** The isolated single-particle drive *)

Section DriveOne.
Context {F : Type} `{F64Ops F} `{PtclFns F}.
Local Open Scope f64_scope.

(** One iteration of [driveForOneCluster]: drift, then [Ptcl::calcRSearch]. *)
Definition driftOne (_dt : F) (p : PtclH4 F) : PtclH4 F :=
  let dr := vscale _dt (vel (hp p)) in
  let p1 := set_hp (set_pos (vadd (pos (hp p)) dr)) p in
  set_hp (calcRSearch _dt) p1.

Definition driveForOneCluster (hard : SystemHard F) (_dt : F) : SystemHard F :=
  let n := length (ptcl_hard_ hard) in
  set_ptcl_hard_
    (for_range 0 n (fun i l => alter (driftOne _dt) i l) (ptcl_hard_ hard)) hard.

(** [driveForOneClusterOMP]: the same loop under [omp parallel for]. *)
Definition driveForOneClusterOMP (hard : SystemHard F) (_dt : F) : SystemHard F :=
  let n := length (ptcl_hard_ hard) in
  set_ptcl_hard_
    (for_range 0 n (fun i l => alter (driftOne _dt) i l) (ptcl_hard_ hard)) hard.

End DriveOne.

(** ** The per-cluster drive *)

(** The two integration paths of [driveForMultiClusterImpl]. *)
Inductive Route : Type :=
  | SingleGroupAR   (* AR::SymplecticIntegrator on the one group *)
  | MixedHermite.   (* H4::HermiteIntegrator on singles and groups *)

(** What leaves the routine besides its results.  Where a list of events is
    optional, [None] stands for a run that has left defined behaviour. *)
Inductive Event : Type :=
  | DataDump (name : String.string)   (* DATADUMP(name) *)
  | Abort.                            (* abort() *)

(** The two engines ([AR/symplectic_integrator.h],
    [Hermite/hermite_integrator.h]) as the routine uses them: each takes the
    cluster, its artificial particles and the step, and gives back the
    integrated cluster with the total energy before and after. *)
Record Integrated (F : Type) : Type := mkIntegrated {
  int_ptcl_local : list (PtclH4 F);
  int_ptcl_artifical : list (FPSoft F);
  etoti : F;
  etotf : F
}.
Arguments mkIntegrated {F}.
Arguments int_ptcl_local {F}.
Arguments int_ptcl_artifical {F}.
Arguments etoti {F}.
Arguments etotf {F}.

Class EngineFns (F : Type) : Type := {
  integrateSingleGroup :
    HardManager F -> list (PtclH4 F) -> list (FPSoft F) -> F -> Integrated F;
  integrateMixed :
    HardManager F -> list (PtclH4 F) -> list (FPSoft F) -> nat -> F -> Integrated F;
  (* GroupPars::getGroupIndex on artificial particles of the store *)
  getGroupIndex_soft : GroupPars -> list (FPSoft F) -> GroupPars
}.

Section DriveMulti.
Context {F : Type} `{F64Ops F} `{Config} `{SearchGroupFns F} `{EngineFns F}.
Variable manager : HardManager F.
Local Open Scope f64_scope.

(** [n_group_offset]: the prefix sums of the member counts decoded from the
    artificial blocks; entry [i] is the first member of group [i]. *)
Definition groupOffsets (_ptcl_artifical : list (FPSoft F)) (_n_group : nat) : list nat :=
  for_range 0 _n_group
    (fun i offs =>
       let g0 := newGroupPars (n_split manager) in
       let adr_first_ptcl := (i * n_ptcl_artifical g0)%nat in
       let g := getGroupIndex_soft g0 (drop adr_first_ptcl _ptcl_artifical) in
       offs ++ [(offs !!! i + n_members g)%nat]) [0%nat].

(** [n_single_init = _n_ptcl - n_group_offset[_n_group]], a [PS::S32]. *)
Definition n_single_init (_n_ptcl : nat) (_ptcl_artifical : list (FPSoft F))
    (_n_group : nat) : Z :=
  let i_single_start := groupOffsets _ptcl_artifical _n_group !!! _n_group in
  (Z.of_nat _n_ptcl - Z.of_nat i_single_start)%Z.

(** [if(_n_group==1&&n_single_init==0) ... else ...]. *)
Definition driveRoute (_n_ptcl : nat) (_ptcl_artifical : list (FPSoft F))
    (_n_group : nat) : Route :=
  if (_n_group =? 1)%nat && (n_single_init _n_ptcl _ptcl_artifical _n_group =? 0)%Z
  then SingleGroupAR else MixedHermite.

(** The [HARD_CHECK_ENERGY] block that closes the routine:
    [if (abs(hard_dE_local) > manager->energy_error_max)], with the
    unqualified [abs]. *)
Definition energyCheck (e_init e_end : F) : option (list Event) :=
  if HARD_CHECK_ENERGY then
    let hard_dE_local := e_end - e_init in
    a ← c_abs hard_dE_local;
    Some (if a >? energy_error_max manager
          then [DataDump "hard_dump"%string; Abort]
          else [])
  else Some [].

Record DriveResult : Type := mkDriveResult {
  drv_ptcl_local : list (PtclH4 F);
  drv_ptcl_artifical : list (FPSoft F);
  drv_hard_dE : F;
  drv_events : option (list Event)
}.

(** The set-up of [driveForMultiClusterImpl]: the backup mass of the
    grouped members is cleared, and every centre-of-mass particle recovers
    its mass from its backup slot. *)
Definition driveSetupLocal (_ptcl_local : list (PtclH4 F))
    (_ptcl_artifical : list (FPSoft F)) (_n_group : nat) : list (PtclH4 F) :=
  let n_group_offset := groupOffsets _ptcl_artifical _n_group in
  (* single particle start index in _ptcl_local *)
  let i_single_start := n_group_offset !!! _n_group in
  (* recover group member masses *)
  for_range 0 i_single_start
    (fun i l => alter (set_hp (set_mass_bk f0)) i l) _ptcl_local.

Definition driveSetupArtifical (_ptcl_artifical : list (FPSoft F)) (_n_group : nat)
    : list (FPSoft F) :=
  let g0 := newGroupPars (n_split manager) in
  (* pre-process for c.m. particle: recover mass *)
  for_range 0 _n_group
    (fun i a =>
       let icm := (i * n_ptcl_artifical g0 + offset_cm g0)%nat in
       alter (set_fp (fun q => set_mass (mass_bk q) q)) icm a) _ptcl_artifical.

(** The engine run of the path taken. *)
Definition driveIntegrate (_ptcl_local : list (PtclH4 F)) (_n_ptcl : nat)
    (_ptcl_artifical : list (FPSoft F)) (_n_group : nat) (_dt : F) : Integrated F :=
  let local1 := driveSetupLocal _ptcl_local _ptcl_artifical _n_group in
  let art1 := driveSetupArtifical _ptcl_artifical _n_group in
  (* Only one group with all particles in group *)
  match driveRoute _n_ptcl _ptcl_artifical _n_group with
  | SingleGroupAR => integrateSingleGroup manager local1 art1 _dt
  | MixedHermite => integrateMixed manager local1 art1 _n_group _dt
  end.

Definition driveForMultiClusterImpl (hard_dE0 : F) (_ptcl_local : list (PtclH4 F))
    (_n_ptcl : nat) (_ptcl_artifical : list (FPSoft F)) (_n_group : nat) (_dt : F)
    : DriveResult :=
  let r := driveIntegrate _ptcl_local _n_ptcl _ptcl_artifical _n_group _dt in
  mkDriveResult (int_ptcl_local r) (int_ptcl_artifical r)
    (if HARD_CHECK_ENERGY then hard_dE0 + (etotf r - etoti r) else hard_dE0)
    (energyCheck (etoti r) (etotf r)).




End DriveMulti.

(** ** The cluster builder *)

(** The store ([Tsys], [Tptcl]) as the builder uses it: the constructor of a
    store particle from a hard particle, a rank and an address, the rank of
    the process, and the content of a slot that [setNumberOfParticleLocal]
    has added and nothing has written yet. *)
Class SoftFns (F : Type) : Type := {
  newFPSoft : PtclH4 F -> Z -> nat -> FPSoft F;
  getRank : Z;
  blankFPSoft : FPSoft F
}.

(** The OpenMP runtime: the number of threads and the thread that runs an
    iteration of the cluster loop. *)
Class OmpFns : Type := {
  getNumberOfThread : nat;
  getThreadNum : nat -> nat
}.

(** [SearchGroup::searchAndMerge] followed by [SearchGroup::generateList]
    ([search_group.hpp]) on one cluster: from the cluster index, the
    particles of the cluster and the parameters, the particles reordered by
    group, the artificial particles of the groups found, and the number of
    groups. *)
Class GroupDetectorFns (F : Type) : Type := {
  generateList :
    nat -> list (PtclH4 F) -> F -> F -> F -> F -> Z -> nat ->
    list (PtclH4 F) * list (PtclH4 F) * nat
}.

(** [std::unique] on a sorted range, and [std::sort] by [<]. *)
Fixpoint unique (l : list nat) : list nat :=
  match l with
  | [] => []
  | x :: t =>
      match t with
      | y :: _ => if (x =? y)%nat then unique t else x :: unique t
      | [] => [x]
      end
  end.

Fixpoint insert_sorted (x : nat) (l : list nat) : list nat :=
  match l with
  | [] => [x]
  | y :: t => if (x <=? y)%nat then x :: l else y :: insert_sorted x t
  end.

Definition sort (l : list nat) : list nat := fold_right insert_sorted [] l.

Section Builder.
Context {F : Type} `{F64Ops F} `{SearchGroupFns F} `{SoftFns F} `{OmpFns}
        `{GroupDetectorFns F}.
Local Open Scope f64_scope.

(** What the builder writes on one copy of a group member, given the
    centre-of-mass particle [cm] of its group: the status becomes the
    negative address of [cm]; when the inner radius differs from that of
    [cm], the new radius is staged and the search radius raised; the mass
    moves to [mass_bk]. *)
Definition memberUpdate (cm : PtclH4 F) (q : Ptcl F) : Ptcl F :=
  let rsearch_cm := r_search (hp cm) in
  let changeover_cm := changeover (hp cm) in
  (* save c.m. address and shift mass to mass_bk, set rsearch *)
  let q1 := set_status (of_int (- adr_org cm)) q in
  let q2 :=
    if getRin (changeover q1) != getRin changeover_cm then
      let q' :=
        set_changeover
          (set_r_scale_next (getRin changeover_cm / getRin (changeover q1)) (changeover q1))
          q1 in
      set_r_search (fmax (r_search q') rsearch_cm) q'
    else q1 in
  let q3 := set_mass_bk (mass q2) q2 in
  set_mass f0 q3.

(** The state the member loops thread: the store, [_ptcl_local],
    [n_group_member_remote_], the clusters flagged for a changeover update
    and [_adr_first_ptcl_arti_in_cluster]. *)
Record BuilderState : Type := mkBuilderState {
  b_sys : list (FPSoft F);
  b_local : list (PtclH4 F);
  b_remote : nat;
  b_flagged : list nat;
  b_adr_first : list nat
}.

(** One iteration of the member loop, for the member at [kl] of
    [_ptcl_local]. *)
Definition updateMember (cm : PtclH4 F) (kl : nat) (st : BuilderState * bool)
    : BuilderState * bool :=
  let '(b, changeover_update_flag) := st in
  match b_local b !! kl with
  | None => st
  | Some pk =>
      let '(sys1, remote1) :=
        match sys_index (adr_org pk) with
        | Some ptcl_k => (alter (set_fp (memberUpdate cm)) ptcl_k (b_sys b), b_remote b)
        | None => (* this is remoted member *) (b_sys b, Datatypes.S (b_remote b))
        end in
      let flag :=
        if getRin (changeover (hp pk)) != getRin (changeover (hp cm))
        then true else changeover_update_flag in
      (mkBuilderState sys1 (alter (set_hp (memberUpdate cm)) kl (b_local b)) remote1
         (b_flagged b) (b_adr_first b),
       flag)
  end.

(** The loop variables of the group loop of one thread. *)
Record GroupCursor : Type := mkGroupCursor {
  group_offset : nat;
  j_group_recored : Z
}.

(** One iteration of the group loop of a thread, for the block that starts
    at [j] of the thread's artificial particles [art]; [None] is a failed
    [assert]. *)
Definition updateGroup (manager : HardManager F)
    (_n_ptcl_in_cluster_disp _n_group_in_cluster _n_group_in_cluster_offset : list nat)
    (art : list (PtclH4 F)) (j : nat) (st : BuilderState * GroupCursor)
    : option (BuilderState * GroupCursor) :=
  let '(b, cur) := st in
  let gpar := getGroupIndex (newGroupPars (n_split manager)) (drop j art) in
  let j_cm := (offset_cm gpar + j)%nat in
  let j_group := i_group gpar in
  match art !! j_cm, art !! j with
  | Some cm, Some first =>
      (* make sure group index increase one by one *)
      if negb (Z.of_nat j_group =? j_group_recored cur + 1)%Z then None
      else
        (* update member status *)
        let '(b1, changeover_update_flag) :=
          for_range 0 (n_members gpar)
            (fun k st =>
               let kl := (_n_ptcl_in_cluster_disp !!! i_cluster gpar
                          + group_offset cur + k)%nat in
               updateMember cm kl st) (b, false) in
        (* record i_cluster if changeover change *)
        let flagged :=
          if changeover_update_flag then b_flagged b1 ++ [i_cluster gpar]
          else b_flagged b1 in
        (* shift cluster *)
        let n_group := _n_group_in_cluster !!! i_cluster gpar in
        let cur' :=
          if (Z.of_nat j_group =? Z.of_nat n_group - 1)%Z
          then mkGroupCursor 0 (-1)
          else mkGroupCursor (group_offset cur + n_members gpar) (Z.of_nat j_group) in
        (* j_group should be consistent with n_group[i_cluster] *)
        if negb (j_group <=? n_group)%nat then None
        else
          (* save first address of artifical particle *)
          let adr_first :=
            match sys_index (adr_org first) with
            | Some a =>
                <[(_n_group_in_cluster_offset !!! i_cluster gpar + j_group)%nat := a]>
                  (b_adr_first b1)
            | None => b_adr_first b1
            end in
          Some (mkBuilderState (b_sys b1) (b_local b1) (b_remote b1) flagged adr_first,
                cur')
  | _, _ => Some st
  end.

(** The body of the second parallel loop for one thread: its artificial
    particles [art] go to the store from the address [offset] on, then its
    groups are walked. *)
Definition updateThread (manager : HardManager F)
    (_n_ptcl_in_cluster_disp _n_group_in_cluster _n_group_in_cluster_offset : list nat)
    (offset : nat) (art : list (PtclH4 F)) (b : BuilderState) : option BuilderState :=
  let gpar := newGroupPars (n_split manager) in
  let n_artifical_per_group := n_ptcl_artifical gpar in
  (* ptcl_artifical should be integer times of 2*n_split+1 *)
  if (n_artifical_per_group =? 0)%nat then None
  else if negb (length art mod n_artifical_per_group =? 0)%nat then None
  else
    (* Add particle to ptcl sys *)
    let art' := imap (fun j p => set_adr_org (Z.of_nat (j + offset)) p) art in
    let sys1 :=
      for_range 0 (length art)
        (fun j sys =>
           match art' !! j with
           | Some p => <[(j + offset)%nat := newFPSoft p getRank (j + offset)%nat]> sys
           | None => sys
           end) (b_sys b) in
    let b1 := mkBuilderState sys1 (b_local b) (b_remote b) (b_flagged b) (b_adr_first b) in
    (* Update the status of group members to c.m. address in ptcl sys *)
    fst <$>
      for_stride 0 (length art) n_artifical_per_group
        (fun j st =>
           st ≫= updateGroup manager _n_ptcl_in_cluster_disp _n_group_in_cluster
                    _n_group_in_cluster_offset art' j)
        (Some (b1, mkGroupCursor 0 (-1))).

(** What the first parallel loop leaves: the store and [_ptcl_local] with
    the statuses reset and each cluster reordered by the group detector, the
    artificial particles of each thread, and [_n_group_in_cluster]. *)
Record Generated : Type := mkGenerated {
  g_sys : list (FPSoft F);
  g_local : list (PtclH4 F);
  g_artifical : list (list (PtclH4 F));
  g_n_group_in_cluster : list nat
}.

(** The first parallel loop: reset the statuses, search the groups and
    generate the artificial particles, cluster by cluster. *)
Definition generateGroups (manager : HardManager F) (_sys : list (FPSoft F))
    (_ptcl_local : list (PtclH4 F)) (_n_ptcl_in_cluster _n_ptcl_in_cluster_disp : list nat)
    (_dt_tree : F) : Generated :=
  let n_cluster := length _n_ptcl_in_cluster in
  for_range 0 n_cluster
    (fun i g =>
       let ith := getThreadNum i in
       let disp := _n_ptcl_in_cluster_disp !!! i in
       let n_ptcl := _n_ptcl_in_cluster !!! i in
       (* reset status *)
       let '(sys1, local1) :=
         for_range 0 n_ptcl
           (fun j '(sys, local) =>
              match local !! (disp + j)%nat with
              | Some pj =>
                  (match sys_index (adr_org pj) with
                   | Some adr => alter (set_fp (set_status f0)) adr sys
                   | None => sys
                   end,
                   alter (set_hp (set_status f0)) (disp + j)%nat local)
              | None => (sys, local)
              end) (g_sys g, g_local g) in
       (* search groups, merge groups, generate artifical particles *)
       let '(cluster, new_artifical, n_group) :=
         generateList i (take n_ptcl (drop disp local1))
           (r_tidal_tensor manager) (r_in_base manager) (r_out_base manager) _dt_tree
           (id_offset manager) (n_split manager) in
       mkGenerated sys1
         (take disp local1 ++ cluster ++ drop (disp + n_ptcl)%nat local1)
         (alter (fun a => a ++ new_artifical) ith (g_artifical g))
         (g_n_group_in_cluster g ++ [n_group]))
    (mkGenerated _sys _ptcl_local (replicate getNumberOfThread []) []).

(** [_n_group_in_cluster_offset]: the prefix sums of [_n_group_in_cluster]. *)
Definition groupOffsetTable (_n_group_in_cluster : list nat) : list nat :=
  for_range 0 (length _n_group_in_cluster)
    (fun i offs => offs ++ [(offs !!! i + _n_group_in_cluster !!! i)%nat]) [0%nat].

(** [sys_ptcl_artifical_thread_offset]: where the artificial particles of
    each thread start in the store. *)
Definition threadOffsets (n_local : nat) (art : list (list (PtclH4 F))) : list nat :=
  for_range 0 (length art)
    (fun i offs => offs ++ [(offs !!! i + length (art !!! i))%nat]) [n_local].

(** [setNumberOfParticleLocal(n)]. *)
Definition setNumberOfParticleLocal (n : nat) (_sys : list (FPSoft F)) : list (FPSoft F) :=
  take n _sys ++ replicate (n - length _sys) blankFPSoft.

(** The second parallel loop and the bookkeeping around it. *)
Definition updateGroupMembers (manager : HardManager F) (hard : SystemHard F)
    (g : Generated) : option (list (FPSoft F) * SystemHard F) :=
  let n_group_in_cluster := g_n_group_in_cluster g in
  let n_group_in_cluster_offset := groupOffsetTable n_group_in_cluster in
  let n_cluster := length (n_ptcl_in_cluster_ hard) in
  let adr_first0 := replicate (n_group_in_cluster_offset !!! n_cluster) 0%nat in
  (* Get the address offset for new artifical ptcl array in each thread in _sys *)
  let offsets := threadOffsets (length (g_sys g)) (g_artifical g) in
  let sys0 := setNumberOfParticleLocal (offsets !!! length (g_artifical g)) (g_sys g) in
  let final :=
    for_range 0 (length (g_artifical g))
      (fun i st =>
         st ≫= updateThread manager (n_ptcl_in_cluster_disp_ hard) n_group_in_cluster
                  n_group_in_cluster_offset (offsets !!! i) (g_artifical g !!! i))
      (Some (mkBuilderState sys0 (g_local g) 0 [] adr_first0)) in
  (fun b =>
     (b_sys b,
      mkSystemHard (b_local b) (n_ptcl_in_cluster_ hard) (n_ptcl_in_cluster_disp_ hard)
        n_group_in_cluster n_group_in_cluster_offset (b_adr_first b)
        (* merge i_cluster_changeover, sort data, remove dup *)
        (unique (sort (b_flagged b)))
        (b_remote b) (hard_dE hard))) <$> final.

Definition findGroupsAndCreateArtificalParticlesImpl (manager : HardManager F)
    (hard : SystemHard F) (_sys : list (FPSoft F)) (_dt_tree : F)
    : option (list (FPSoft F) * SystemHard F) :=
  updateGroupMembers manager hard
    (generateGroups manager _sys (ptcl_hard_ hard) (n_ptcl_in_cluster_ hard)
       (n_ptcl_in_cluster_disp_ hard) _dt_tree).

End Builder.

(** ** The groups the builder walks, described independently of its loop

    The group detector leaves the members of the groups of a cluster at the
    head of the cluster, group after group, and gives each thread the
    artificial blocks of the clusters it has searched, cluster after
    cluster. *)

(** The groups of one thread: for each of its clusters, in order, the
    cluster index and the member counts of the groups of the cluster. *)
Definition GroupLayout : Type := list (nat * list nat).

(** One group: its cluster, its index in the cluster, the number of members
    of the groups before it in the cluster, and its member count. *)
Record GroupRef : Type := mkGroupRef {
  gr_cluster : nat;
  gr_index : nat;
  gr_offset : nat;
  gr_members : nat
}.

Fixpoint runGroups (c g off : nat) (ms : list nat) : list GroupRef :=
  match ms with
  | [] => []
  | m :: ms' => mkGroupRef c g off m :: runGroups c (S g) (off + m) ms'
  end.

Definition threadGroups (runs : GroupLayout) : list GroupRef :=
  flat_map (fun r => runGroups (fst r) 0 0 (snd r)) runs.

(** The indices in [_ptcl_local] of the members of a group. *)
Definition groupMemberIndices (_n_ptcl_in_cluster_disp : list nat) (gr : GroupRef)
    : list nat :=
  map (fun k => _n_ptcl_in_cluster_disp !!! gr_cluster gr + gr_offset gr + k)
      (seq 0 (gr_members gr)).

Section BuilderSpec.
Context {F : Type}.

(** The artificial particles of a thread with their addresses in the store
    stamped on them. *)
Definition stamped (offset : nat) (art : list (PtclH4 F)) : list (PtclH4 F) :=
  imap (fun j p => set_adr_org (Z.of_nat (j + offset)) p) art.

(** The members of the groups in the blocks [b0, b0+1, ...] of a thread,
    each with the centre-of-mass particle of its group. *)
Fixpoint blockMembers (gpar : GroupPars) (_n_ptcl_in_cluster_disp : list nat)
    (art' : list (PtclH4 F)) (b0 : nat) (grs : list GroupRef) : list (PtclH4 F * nat) :=
  match grs with
  | [] => []
  | gr :: grs' =>
      match art' !! (offset_cm gpar + b0 * n_ptcl_artifical gpar) with
      | Some cm => map (fun kl => (cm, kl)) (groupMemberIndices _n_ptcl_in_cluster_disp gr)
      | None => []
      end ++ blockMembers gpar _n_ptcl_in_cluster_disp art' (S b0) grs'
  end.

Definition threadMembers (gpar : GroupPars) (_n_ptcl_in_cluster_disp : list nat)
    (offset : nat) (art : list (PtclH4 F)) (runs : GroupLayout) : list (PtclH4 F * nat) :=
  blockMembers gpar _n_ptcl_in_cluster_disp (stamped offset art) 0 (threadGroups runs).

(** The members of all threads, in the order of the threads. *)
Fixpoint allMembers (gpar : GroupPars) (_n_ptcl_in_cluster_disp : list nat)
    (offsets : list nat) (t : nat) (arts : list (list (PtclH4 F)))
    (layout : list GroupLayout) : list (PtclH4 F * nat) :=
  match arts, layout with
  | art :: arts', runs :: layout' =>
      threadMembers gpar _n_ptcl_in_cluster_disp (offsets !!! t) art runs
      ++ allMembers gpar _n_ptcl_in_cluster_disp offsets (S t) arts' layout'
  | _, _ => []
  end.

(** The address of the mirror of the particle at [kl] of [_ptcl_local], when
    the mirror is local. *)
Definition mirrorOf (local : list (PtclH4 F)) (kl : nat) : option nat :=
  local !! kl ≫= fun p => sys_index (adr_org p).

(** The particle at [kl] is a remote one. *)
Definition isRemote (local : list (PtclH4 F)) (kl : nat) : bool :=
  match local !! kl with
  | Some p => (adr_org p <? 0)%Z
  | None => false
  end.

End BuilderSpec.

Section BuilderInvariant.
Context {F : Type} `{F64Ops F}.

(** [M] lists the members written so far, each with the centre of mass of
    its group; [local0], [sys0] and [remote0] are [_ptcl_local], the store
    and the remote count before the first of them, and [n0] is the number of
    particles the store had before the artificial ones were added.  The
    invariant of the member loops: the members in [M] carry the update of
    their group on both copies, every other particle of [_ptcl_local] and
    every other particle of the store below [n0] is as before, and the
    remote members in [M] have been counted. *)
Record MembersDone (local0 : list (PtclH4 F)) (sys0 : list (FPSoft F)) (n0 remote0 : nat)
    (M : list (PtclH4 F * nat)) (b : BuilderState) : Prop := {
  md_local : forall cm kl p,
    (cm, kl) ∈ M -> local0 !! kl = Some p ->
    b_local b !! kl = Some (set_hp (memberUpdate cm) p);
  md_local_frame : forall i, i ∉ M.*2 -> b_local b !! i = local0 !! i;
  md_sys : forall cm kl a q,
    (cm, kl) ∈ M -> mirrorOf local0 kl = Some a -> a < n0 -> sys0 !! a = Some q ->
    b_sys b !! a = Some (set_fp (memberUpdate cm) q);
  md_sys_frame : forall a,
    a < n0 -> Some a ∉ mirrorOf local0 <$> M.*2 -> b_sys b !! a = sys0 !! a;
  md_remote :
    b_remote b = remote0 + length (filter (fun m => isRemote local0 m.2 = true) M)
}.

(** The cursor of the group loop walks the groups of a thread: at each group
    the recorded index is the one before the group's, the offset is the
    number of members of the earlier groups of the cluster, and after the
    last group of a cluster both are reset. *)
Definition nextCursor (_n_group_in_cluster : list nat) (cur : GroupCursor) (gr : GroupRef)
    : GroupCursor :=
  if (Z.of_nat (gr_index gr) =? Z.of_nat (_n_group_in_cluster !!! gr_cluster gr) - 1)%Z
  then mkGroupCursor 0 (-1)
  else mkGroupCursor (group_offset cur + gr_members gr) (Z.of_nat (gr_index gr)).

Fixpoint CursorChain (_n_group_in_cluster : list nat) (cur : GroupCursor)
    (grs : list GroupRef) : Prop :=
  match grs with
  | [] => cur = mkGroupCursor 0 (-1)
  | gr :: grs' =>
      Z.of_nat (gr_index gr) = (j_group_recored cur + 1)%Z
      /\ gr_offset gr = group_offset cur
      /\ gr_index gr <= _n_group_in_cluster !!! gr_cluster gr
      /\ CursorChain _n_group_in_cluster (nextCursor _n_group_in_cluster cur gr) grs'
  end.

End BuilderInvariant.

Section BuilderWellFormed.
Context {F : Type} `{F64Ops F} `{SearchGroupFns F}.

(** What the builder relies on in the artificial particles [art] of one
    thread, stamped from [offset] on, for the layout [runs]: one block per
    group; each block decodes to the member count, the cluster and the index
    of its group; and every cluster of the thread comes with all its groups,
    at least one. *)
Record ThreadWF (manager : HardManager F) (_n_group_in_cluster : list nat)
    (offset : nat) (art : list (PtclH4 F)) (runs : GroupLayout) : Prop := {
  twf_length :
    length art =
    n_ptcl_artifical (newGroupPars (n_split manager)) * length (threadGroups runs);
  twf_decode : forall i gr,
    threadGroups runs !! i = Some gr ->
    readGroupIndex (newGroupPars (n_split manager))
      (drop (i * n_ptcl_artifical (newGroupPars (n_split manager))) (stamped offset art)) =
    (gr_members gr, gr_cluster gr, gr_index gr);
  twf_runs : forall c ms,
    (c, ms) ∈ runs -> ms <> [] /\ _n_group_in_cluster !!! c = length ms
}.

(** What the builder relies on in the output [g] of the group detector, for
    the layout [layout] (one entry per thread): a block is not empty and
    holds its centre of mass; every thread is well formed; no particle is a
    member of two groups, and no two members share a mirror in the store. *)
Record BuilderWF (manager : HardManager F) (hard : SystemHard F) (g : Generated)
    (layout : list GroupLayout) : Prop := {
  wf_block : 0 < n_ptcl_artifical (newGroupPars (n_split manager));
  wf_cm :
    offset_cm (newGroupPars (n_split manager)) <
    n_ptcl_artifical (newGroupPars (n_split manager));
  wf_threads : length layout = length (g_artifical g);
  wf_thread : forall t art runs,
    g_artifical g !! t = Some art -> layout !! t = Some runs ->
    ThreadWF manager (g_n_group_in_cluster g)
      (threadOffsets (length (g_sys g)) (g_artifical g) !!! t) art runs;
  wf_members :
    NoDup (allMembers (newGroupPars (n_split manager)) (n_ptcl_in_cluster_disp_ hard)
             (threadOffsets (length (g_sys g)) (g_artifical g)) 0
             (g_artifical g) layout).*2;
  wf_mirrors :
    NoDup (omap (mirrorOf (g_local g))
             (allMembers (newGroupPars (n_split manager)) (n_ptcl_in_cluster_disp_ hard)
                (threadOffsets (length (g_sys g)) (g_artifical g)) 0
                (g_artifical g) layout).*2)
}.

End BuilderWellFormed.

(** ** The particles the changeover-transition correction commits *)

Section Committed.
Context {F : Type}.

(** The addresses in the store of the local mirrors of the real particles
    of the flagged clusters. *)
Definition flaggedMirrors (hard : SystemHard F) : list nat :=
  flat_map
    (fun i_cluster =>
       let adr_real_start := n_ptcl_in_cluster_disp_ hard !!! i_cluster in
       let adr_real_end := n_ptcl_in_cluster_disp_ hard !!! (i_cluster + 1) in
       omap (mirrorOf (ptcl_hard_ hard))
            (seq adr_real_start (adr_real_end - adr_real_start)))
    (i_cluster_changeover_update_ hard).

(** The particles of the store whose staged radii one call commits: these
    mirrors and the particles of the sending list. *)
Definition committedAddresses (hard : SystemHard F) (_adr_send : list nat) : list nat :=
  flaggedMirrors hard ++ _adr_send.

(** A particle of the store, or of [ptcl_hard_], carries no staged
    multiplier. *)
Definition QuietSoft `{F64Ops F} (_sys : list (FPSoft F)) (a : nat) : Prop :=
  forall q, _sys !! a = Some q -> r_scale_next (changeover (fp q)) = f1.
Definition QuietHard `{F64Ops F} (hard_ptcl : list (PtclH4 F)) (j : nat) : Prop :=
  forall p, hard_ptcl !! j = Some p -> r_scale_next (changeover (hp p)) = f1.

(** Quiet particles stay quiet from one state to a later one, and the
    hard particles keep their addresses. *)
Definition QuietKept `{F64Ops F} (sysA : list (FPSoft F)) (hpA : list (PtclH4 F))
    (sysB : list (FPSoft F)) (hpB : list (PtclH4 F)) : Prop :=
  (forall a, QuietSoft sysA a -> QuietSoft sysB a) /\
  (forall j, QuietHard hpA j -> QuietHard hpB j) /\
  adr_org <$> hpB = adr_org <$> hpA.

(** The real particles of the flagged clusters carry none. *)
Definition FlaggedQuiet `{F64Ops F} (hard : SystemHard F) (hard_ptcl : list (PtclH4 F))
    : Prop :=
  forall i_cluster j,
    i_cluster ∈ i_cluster_changeover_update_ hard ->
    n_ptcl_in_cluster_disp_ hard !!! i_cluster <= j
      < n_ptcl_in_cluster_disp_ hard !!! (i_cluster + 1) ->
    QuietHard hard_ptcl j.

End Committed.

(** ** The terms of the specification's correction formula *)

Section SpecTerms.
Context {F : Type} `{F64Ops F} `{ChangeOverFns F}.
Variable manager : HardManager F.
Local Open Scope f64_scope.

(** The Newtonian acceleration of a particle due to a mass [m] from which it
    is separated by [dr] (pointing from the mass to the particle), at squared
    distance [r2]: [- m dr / r^3], towards the mass. *)
Definition newtonian_accel (m : F) (dr : F64vec F) (r2 : F) : F64vec F :=
  let rinv := f1 / fsqrt r2 in
  vopp (vscale (m * rinv * (rinv * rinv)) dr).

(** The softened squared separation of [i] and [j]. *)
Definition softened_dr2 (pi_pos pj_pos : F64vec F) : F :=
  let dr := vsub pi_pos pj_pos in vdot dr dr + eps_sq manager.

(** The same, clamped up to [r_out_base^2]. *)
Definition clamped_dr2 (pi_pos pj_pos : F64vec F) : F :=
  let d := softened_dr2 pi_pos pj_pos in
  let r_out2 := r_out_base manager * r_out_base manager in
  if d >? r_out2 then d else r_out2.

(** [exact_pairwise_accel(i,j)]: the softened Newtonian acceleration of [i]
    due to [j]'s mass. *)
Definition exact_pairwise_accel (_pi : FPSoft F) (_pj : Ptcl F) : F64vec F :=
  newtonian_accel (mass _pj) (vsub (pos (fp _pi)) (pos _pj))
    (softened_dr2 (pos (fp _pi)) (pos _pj)).

(** [linear_cutoff_term(i,j)]: the same acceleration with the separation
    clamped up to [r_out_base]. *)
Definition linear_cutoff_term (_pi : FPSoft F) (_pj : Ptcl F) : F64vec F :=
  newtonian_accel (mass _pj) (vsub (pos (fp _pi)) (pos _pj))
    (clamped_dr2 (pos (fp _pi)) (pos _pj)).

(** [changeover_weight(i,j)]: the two-sided acceleration weight at the
    softened separation. *)
Definition changeover_weight (_pi : FPSoft F) (_pj : Ptcl F) : F :=
  let d := softened_dr2 (pos (fp _pi)) (pos _pj) in
  calcAcc0WTwo (changeover (fp _pi)) (changeover _pj) (f1 / fsqrt d * d).

(** The inverse softened separation and the inverse clamped separation. *)
Definition inv_separation (pi_pos pj_pos : F64vec F) : F :=
  f1 / fsqrt (softened_dr2 pi_pos pj_pos).
Definition inv_clamped_separation (pi_pos pj_pos : F64vec F) : F :=
  f1 / fsqrt (clamped_dr2 pi_pos pj_pos).

(** [dr2_eps > r_out2]: the pair is beyond the base outer radius. *)
Definition beyond_r_out (pi_pos pj_pos : F64vec F) : bool :=
  softened_dr2 pi_pos pj_pos >? r_out_base manager * r_out_base manager.

(** The two-sided potential weight at the softened separation. *)
Definition potential_weight (ci cj : ChangeOver F) (pi_pos pj_pos : F64vec F) : F :=
  let d := softened_dr2 pi_pos pj_pos in
  calcPotWTwo ci cj (f1 / fsqrt d * d).

End SpecTerms.



(** The change of acceleration as the specification writes it:
    [(changeover_weight - 1) * exact_pairwise_accel - linear_cutoff_term]. *)
Definition spec_delta_accel {F} `{F64Ops F} `{ChangeOverFns F}
    (manager : HardManager F) (_pi : FPSoft F) (_pj : Ptcl F) : F64vec F :=
  vsub (vscale (changeover_weight manager _pi _pj - f1)%f64
               (exact_pairwise_accel manager _pi _pj))
       (linear_cutoff_term manager _pi _pj).

(** Modelled from the spec: [ChangeOver::calcAcc0WTwo] and [calcPotWTwo] are
    missing; a changeover function blends the exact force (weight 1 inside
    the inner radius) into the softened force (weight 0 beyond the outer
    radius).  This instance, used to run the model on concrete particles,
    blends linearly and takes, of two particles, the changeover with the
    larger outer radius. *)
Definition ramp_weight {F} `{F64Ops F} (c : ChangeOver F) (r : F) : F :=
  if (r <? r_in_ c)%f64 then f1
  else if (r_out_ c <? r)%f64 then f0
  else ((r_out_ c - r) / (r_out_ c - r_in_ c))%f64.

Definition ramp_two {F} `{F64Ops F} (c1 c2 : ChangeOver F) (r : F) : F :=
  if (r_out_ c1 >? r_out_ c2)%f64 then ramp_weight c1 r else ramp_weight c2 r.

Definition ramp_ChangeOverFns {F} `{F64Ops F} : ChangeOverFns F :=
  {| calcAcc0WTwo := ramp_two; calcPotWTwo := ramp_two |}.

(** Modelled from the spec: [GroupPars(n_split)] lays a block out as in
    [GroupPars_init]; [getGroupIndex] is missing, and this instance, used to
    run the model, reads the member count, the cluster index and the group
    index as given by [decode]. *)
Definition layout_SearchGroupFns {F} (decode : list (PtclH4 F) -> nat * nat * nat)
    : SearchGroupFns F :=
  {| newGroupPars := GroupPars_init;
     readGroupIndex := fun _ blk => decode blk |}.

(** ** Filling [ptcl_hard_] and writing it back *)

(** An entry of the mediator array ([Tmediator]) as
    [setPtclForConnectedCluster] reads it. *)
Record Mediator : Type := mkMediator {
  adr_sys_ : Z;
  rank_send_ : Z;
  id_cluster_ : Z
}.

(** The particle classes of the other headers as the routines below use
    them: the received particles ([Tptcl]) with their [id_cluster]; the
    constructor [PtclHard(p, id_cluster, adr_org)], from a store particle and
    from a received one; [DataCopy] from a store particle to a hard particle
    and back; the method [calcRSearch] of a hard particle; the content of a
    slot that [resizeNoInitialize] has added and nothing has written yet;
    and [std::sort] with [OPLessIDCluster]. *)
Class ClusterFns (F : Type) : Type := {
  Tptcl : Type;
  tptcl_id_cluster : Tptcl -> Z;
  PtclHard_soft : FPSoft F -> Z -> Z -> PtclH4 F;
  PtclHard_recv : Tptcl -> Z -> Z -> PtclH4 F;
  DataCopy_hard : PtclH4 F -> FPSoft F -> PtclH4 F;
  DataCopy_soft : FPSoft F -> PtclH4 F -> FPSoft F;
  calcRSearch_hard : F -> PtclH4 F -> PtclH4 F;
  blankPtclH4 : PtclH4 F;
  sort_id_cluster : list (PtclH4 F) -> list (PtclH4 F)
}.

(** What the routines rely on: the constructor stores the cluster and the
    address it is given, and [std::sort] returns its input in an order in
    which [id_cluster] does not decrease (the order of the particles of one
    cluster is left open, as in C++). *)
Class ClusterLaws (F : Type) `{ClusterFns F} : Prop := {
  PtclHard_soft_id_cluster : forall p c a, id_cluster (PtclHard_soft p c a) = c;
  PtclHard_soft_adr_org : forall p c a, adr_org (PtclHard_soft p c a) = a;
  PtclHard_recv_id_cluster : forall p c a, id_cluster (PtclHard_recv p c a) = c;
  PtclHard_recv_adr_org : forall p c a, adr_org (PtclHard_recv p c a) = a;
  sort_id_cluster_perm : forall l, sort_id_cluster l ≡ₚ l;
  sort_id_cluster_sorted :
    forall l, Sorted (fun a b => (id_cluster a <= id_cluster b)%Z) (sort_id_cluster l)
}.

(** [DataCopy] carries the particle data: copying a store particle to a
    hard particle and back gives the store particle, whatever address the
    hard particle holds. *)
Class CopyLaws (F : Type) `{ClusterFns F} : Prop := {
  DataCopy_round_trip :
    forall (s : FPSoft F) (h : PtclH4 F) (a : Z),
      DataCopy_soft s (set_adr_org a (DataCopy_hard h s)) = s
}.

(** [resizeNoInitialize(n)]: the entries below [n] stay; the entries added
    hold [d], which stands for whatever the memory holds. *)
Definition resizeNoInitialize {A : Type} (d : A) (n : nat) (l : list A) : list A :=
  take n l ++ replicate (n - length l) d.

(** [n_ptcl_in_cluster_.back()++]; [None] on an empty array, where [back()]
    is undefined. *)
Definition back_incr (n : list nat) : option (list nat) :=
  match n with
  | [] => None
  | _ => Some (alter S (length n - 1) n)
  end.

(** The loop that sets [n_ptcl_in_cluster_disp_] from [n_ptcl_in_cluster_];
    [old] is the array before [resizeNoInitialize(n_cluster+1)]. *)
Definition clusterDisp (old n_ptcl_in_cluster : list nat) : list nat :=
  let n_cluster := length n_ptcl_in_cluster in
  let disp0 := <[0 := 0]> (resizeNoInitialize 0 (n_cluster + 1) old) in
  for_range 0 n_cluster
    (fun i disp => <[S i := (disp !!! i + n_ptcl_in_cluster !!! i)%nat]> disp) disp0.

Section SetPtcl.
Context {F : Type} `{F64Ops F} `{PtclFns F} `{SoftFns F} `{ClusterFns F} `{Config}.

(** The first loop of [setPtclForConnectedCluster]: the particles of the
    mediator entries that are local and sent by this process. *)
Definition pushMediated (sys : list (FPSoft F)) (med : list Mediator)
    (l : list (PtclH4 F)) : list (PtclH4 F) :=
  fold_left
    (fun l m =>
       if (adr_sys_ m <? 0)%Z then l
       else if negb (rank_send_ m =? getRank)%Z then l
       else
         match sys !! Z.to_nat (adr_sys_ m) with
         | Some p => l ++ [PtclHard_soft p (id_cluster_ m) (adr_sys_ m)]
         | None => l
         end) med l.

(** The second loop: the received particles, with the addresses -1, -2,
    ... *)
Definition pushReceived (ptcl_recv : list Tptcl) (l : list (PtclH4 F)) : list (PtclH4 F) :=
  for_range 0 (length ptcl_recv)
    (fun i l =>
       match ptcl_recv !! i with
       | Some p => l ++ [PtclHard_recv p (tptcl_id_cluster p) (- (Z.of_nat i + 1))]
       | None => l
       end) l.

(** One iteration of the counting loop over the sorted particles; the
    state is [n_ptcl_in_cluster_] and the reference [id_cluster_ref]. *)
Definition countStep (st : option (list nat * Z)) (p : PtclH4 F)
    : option (list nat * Z) :=
  st ≫= fun '(n, id_cluster_ref) =>
    let '(n1, ref1) :=
      if negb (id_cluster_ref =? id_cluster p)%Z
      then (n ++ [0%nat], id_cluster p)
      else (n, id_cluster_ref) in
    (fun n2 => (n2, ref1)) <$> back_incr n1.

(** The counting loop; the reference starts at -999. *)
Definition countClusters (l : list (PtclH4 F)) : option (list nat) :=
  fst <$> fold_left countStep l (Some ([], (-999)%Z)).

Definition setPtclForConnectedCluster (hard : SystemHard F) (sys : list (FPSoft F))
    (med : list Mediator) (ptcl_recv : list Tptcl) : option (SystemHard F) :=
  let pushed := pushReceived ptcl_recv (pushMediated sys med []) in
  if (length pushed =? 0)%nat then
    Some (mkSystemHard [] [] (n_ptcl_in_cluster_disp_ hard)
            (n_group_in_cluster_ hard) (n_group_in_cluster_offset_ hard)
            (adr_first_ptcl_arti_in_cluster_ hard) (i_cluster_changeover_update_ hard)
            (n_group_member_remote_ hard) (hard_dE hard))
  else
    let sorted := sort_id_cluster pushed in
    (fun n =>
       mkSystemHard sorted n (clusterDisp (n_ptcl_in_cluster_disp_ hard) n)
         (n_group_in_cluster_ hard) (n_group_in_cluster_offset_ hard)
         (adr_first_ptcl_arti_in_cluster_ hard) (i_cluster_changeover_update_ hard)
         (n_group_member_remote_ hard) (hard_dE hard)) <$> countClusters sorted.

(** [initializeForOneCluster]. *)
Definition initializeForOneCluster (hard : SystemHard F) (n : nat) : SystemHard F :=
  set_ptcl_hard_ (resizeNoInitialize blankPtclH4 n (ptcl_hard_ hard)) hard.

(** The copy loop shared by [setPtclForOneCluster], its OMP twin and the
    two routines for isolated clusters:
    [ptcl_hard_[i].DataCopy(sys[adr]); ptcl_hard_[i].adr_org = adr]. *)
Definition copyFromStore (sys : list (FPSoft F)) (adr_array : list nat)
    (l : list (PtclH4 F)) : list (PtclH4 F) :=
  for_range 0 (length adr_array)
    (fun i l =>
       let adr := adr_array !!! i in
       match sys !! adr with
       | Some s => alter (fun h => set_adr_org (Z.of_nat adr) (DataCopy_hard h s)) i l
       | None => l
       end) l.

Definition setPtclForOneCluster (hard : SystemHard F) (sys : list (FPSoft F))
    (adr_array : list nat) : SystemHard F :=
  set_ptcl_hard_ (copyFromStore sys adr_array (ptcl_hard_ hard)) hard.

Definition setPtclForOneClusterOMP (hard : SystemHard F) (sys : list (FPSoft F))
    (adr_array : list nat) : SystemHard F :=
  set_ptcl_hard_ (copyFromStore sys adr_array (ptcl_hard_ hard)) hard.

(** The loop of the two routines for isolated clusters that copies the
    cluster sizes and accumulates the displacements. *)
Definition clusterTables (old_n old_disp _n_ptcl_in_cluster : list nat)
    : list nat * list nat :=
  let n_cluster := length _n_ptcl_in_cluster in
  let n0 := resizeNoInitialize 0%nat n_cluster old_n in
  let disp0 := <[0 := 0%nat]> (resizeNoInitialize 0%nat (n_cluster + 1) old_disp) in
  for_range 0 n_cluster
    (fun i '(n, disp) =>
       let n' := <[i := _n_ptcl_in_cluster !!! i]> n in
       (n', <[S i := (disp !!! i + n' !!! i)%nat]> disp)) (n0, disp0).

Definition setPtclForIsolatedMultiCluster (hard : SystemHard F) (sys : list (FPSoft F))
    (_adr_array _n_ptcl_in_cluster : list nat) : SystemHard F :=
  let '(n, disp) :=
    clusterTables (n_ptcl_in_cluster_ hard) (n_ptcl_in_cluster_disp_ hard)
      _n_ptcl_in_cluster in
  let n_ptcl := length _adr_array in
  let l0 := resizeNoInitialize blankPtclH4 n_ptcl (ptcl_hard_ hard) in
  mkSystemHard (copyFromStore sys _adr_array l0) n disp
    (n_group_in_cluster_ hard) (n_group_in_cluster_offset_ hard)
    (adr_first_ptcl_arti_in_cluster_ hard) (i_cluster_changeover_update_ hard)
    (n_group_member_remote_ hard) (hard_dE hard).

Definition initailizeForIsolatedMultiCluster (hard : SystemHard F) (_n_ptcl : nat)
    (_n_ptcl_in_cluster : list nat) : SystemHard F :=
  let l0 := resizeNoInitialize blankPtclH4 _n_ptcl (ptcl_hard_ hard) in
  let '(n, disp) :=
    clusterTables (n_ptcl_in_cluster_ hard) (n_ptcl_in_cluster_disp_ hard)
      _n_ptcl_in_cluster in
  mkSystemHard l0 n disp
    (n_group_in_cluster_ hard) (n_group_in_cluster_offset_ hard)
    (adr_first_ptcl_arti_in_cluster_ hard) (i_cluster_changeover_update_ hard)
    (n_group_member_remote_ hard) (hard_dE hard).

Definition setPtclForIsolatedMultiClusterOMP (hard : SystemHard F) (sys : list (FPSoft F))
    (_adr_array _n_ptcl_in_cluster : list nat) : SystemHard F :=
  set_ptcl_hard_ (copyFromStore sys _adr_array (ptcl_hard_ hard)) hard.

(** [writeBackPtclForOneCluster]: every hard particle goes back to its
    address in the store; the addresses of the particles that come back
    with a negative identifier and a negative status are appended to
    [removelist].  The routine does not test the address: with a negative
    [adr_org], or one beyond the store, [sys[adr]] is an access out of
    range, after which nothing is defined ([None]). *)
Definition writeBackPtclForOneCluster (hard : SystemHard F) (sys : list (FPSoft F))
    (removelist : list nat) : option (list (FPSoft F) * list nat) :=
  for_range 0 (length (ptcl_hard_ hard))
    (fun i st =>
       st ≫= fun '(sys, removelist) =>
         match ptcl_hard_ hard !! i with
         | Some p =>
             adr ← sys_index (adr_org p);
             s ← sys !! adr;
             let s' := DataCopy_soft s p in
             Some (<[adr := s']> sys,
                   if (id (fp s') <? 0)%Z && (status (fp s') <? f0)%f64
                   then removelist ++ [adr]
                   else removelist)
         | None => Some (sys, removelist)
         end) (Some (sys, removelist)).

(** [writeBackPtclForOneClusterOMP]: the same copy, without the removal
    list and, as above, without a test of the address. *)
Definition writeBackPtclForOneClusterOMP (hard : SystemHard F) (sys : list (FPSoft F))
    : option (list (FPSoft F)) :=
  for_range 0 (length (ptcl_hard_ hard))
    (fun i st =>
       st ≫= fun sys =>
         match ptcl_hard_ hard !! i with
         | Some p =>
             adr ← sys_index (adr_org p);
             s ← sys !! adr;
             Some (<[adr := DataCopy_soft s p]> sys)
         | None => Some sys
         end) (Some sys).

(** [writeBackPtclLocalOnlyOMP]: [if(adr>=0) sys[adr].DataCopy(...)]. *)
Definition writeBackPtclLocalOnlyOMP (hard : SystemHard F) (sys : list (FPSoft F))
    : list (FPSoft F) :=
  for_range 0 (length (ptcl_hard_ hard))
    (fun i sys =>
       match ptcl_hard_ hard !! i with
       | Some p =>
           if (0 <=? adr_org p)%Z
           then alter (fun s => DataCopy_soft s p) (Z.to_nat (adr_org p)) sys
           else sys
       | None => sys
       end) sys.

Definition writeBackPtclForMultiCluster (hard : SystemHard F) (sys : list (FPSoft F))
    (removelist : list nat) : option (list (FPSoft F) * list nat) :=
  writeBackPtclForOneCluster hard sys removelist.

Definition writeBackPtclForMultiClusterOMP (hard : SystemHard F) (sys : list (FPSoft F))
    : option (list (FPSoft F)) :=
  writeBackPtclForOneClusterOMP hard sys.

(** One iteration of the [ONLY_SOFT] branch of [driveForMultiCluster]:
    drift, clear the status and the backup mass (both halves of each union
    are set to zero), and [calcRSearch]. *)
Definition driftSoftOnly (dt : F) (p : PtclH4 F) : PtclH4 F :=
  let dr := vscale dt (vel (hp p)) in
  let p1 := set_hp (set_pos (vadd (pos (hp p)) dr)) p in
  let p2 := set_hp (set_status f0) p1 in
  let p3 := set_hp (set_mass_bk f0) p2 in
  calcRSearch_hard dt p3.

End SetPtcl.

(** ** The drive over all clusters *)

Section DriveClusters.
Context {F : Type} `{F64Ops F} `{Config} `{SearchGroupFns F} `{EngineFns F}
        `{ClusterFns F}.
Variable manager : HardManager F.

(** What the cluster loop of [driveForMultiCluster] threads: [ptcl_hard_],
    the store [_ptcl_soft], [hard_dE] and what has left the routine. *)
Record DriveState : Type := mkDriveState {
  ds_ptcl_hard : list (PtclH4 F);
  ds_ptcl_soft : list (FPSoft F);
  ds_hard_dE : F;
  ds_events : option (list Event)
}.

(** One cluster.  A pointer into an array is the array from that element
    on; what [driveForMultiClusterImpl] returns for it takes its place.
    Nothing runs after [abort()]. *)
Definition driveCluster (hard : SystemHard F) (dt : F) (i : nat) (st : DriveState)
    : DriveState :=
  match ds_events st with
  | Some [] =>
      let adr_head := n_ptcl_in_cluster_disp_ hard !!! i in
      let n_ptcl := n_ptcl_in_cluster_ hard !!! i in
      if ONLY_SOFT then
        mkDriveState
          (for_range 0 n_ptcl
             (fun j l => alter (driftSoftOnly dt) (adr_head + j)%nat l) (ds_ptcl_hard st))
          (ds_ptcl_soft st) (ds_hard_dE st) (ds_events st)
      else
        let n_group := n_group_in_cluster_ hard !!! i in
        let adr_arti :=
          adr_first_ptcl_arti_in_cluster_ hard !!! (n_group_in_cluster_offset_ hard !!! i) in
        let ptcl_artifical :=
          if (0 <? n_group)%nat then drop adr_arti (ds_ptcl_soft st) else [] in
        let r :=
          driveForMultiClusterImpl manager (ds_hard_dE st)
            (drop adr_head (ds_ptcl_hard st)) n_ptcl ptcl_artifical n_group dt in
        mkDriveState
          (take adr_head (ds_ptcl_hard st) ++ drv_ptcl_local r)
          (if (0 <? n_group)%nat
           then take adr_arti (ds_ptcl_soft st) ++ drv_ptcl_artifical r
           else ds_ptcl_soft st)
          (drv_hard_dE r) (drv_events r)
  | _ => st
  end.

Definition driveForMultiCluster (hard : SystemHard F) (dt : F)
    (_ptcl_soft : list (FPSoft F)) : DriveState :=
  let n_cluster := length (n_ptcl_in_cluster_ hard) in
  for_range 0 n_cluster (driveCluster hard dt)
    (mkDriveState (ptcl_hard_ hard) _ptcl_soft (hard_dE hard) (Some [])).

(** [driveForMultiClusterOMP]: the same loop under [omp parallel for], each
    cluster with the number of its thread. *)
Definition driveForMultiClusterOMP (hard : SystemHard F) (dt : F)
    (_ptcl_soft : list (FPSoft F)) : DriveState :=
  let n_cluster := length (n_ptcl_in_cluster_ hard) in
  for_range 0 n_cluster (driveCluster hard dt)
    (mkDriveState (ptcl_hard_ hard) _ptcl_soft (hard_dE hard) (Some [])).

End DriveClusters.

(** ** Runs of equal cluster identifiers

    The lengths and the identifiers of the maximal runs of equal entries of
    a list, described by recursion on the list; [ref] is the identifier of
    the run being read and [c] the number of its entries read so far. *)

Fixpoint runLengthsFrom (ref : Z) (c : nat) (ids : list Z) : list nat :=
  match ids with
  | [] => [c]
  | x :: t =>
      if (ref =? x)%Z then runLengthsFrom ref (S c) t
      else c :: runLengthsFrom x 1 t
  end.

Fixpoint runKeysFrom (ref : Z) (ids : list Z) : list Z :=
  match ids with
  | [] => [ref]
  | x :: t =>
      if (ref =? x)%Z then runKeysFrom ref t
      else ref :: runKeysFrom x t
  end.

Definition runLengths (ids : list Z) : list nat :=
  match ids with
  | [] => []
  | x :: t => runLengthsFrom x 1 t
  end.

Definition runKeys (ids : list Z) : list Z :=
  match ids with
  | [] => []
  | x :: t => runKeysFrom x t
  end.

(** The mediator entries that [setPtclForConnectedCluster] takes. *)
Definition mediated `{SoftFns F} (m : Mediator) : Prop :=
  (0 <= adr_sys_ m)%Z /\ rank_send_ m = getRank.

#[export] Instance mediated_dec `{SoftFns F} (m : Mediator) : Decision (mediated m).
Proof. unfold mediated. apply _. Defined.

(** ** The particles the force corrections work on *)

(** The number of times [a] comes in a list of addresses. *)
Definition occurrences (a : nat) (l : list nat) : nat :=
  length (filter (fun x => x = a) l).

Section CorrectionTargets.
Context {F : Type} `{F64Ops F} `{ChangeOverFns F} `{Config} `{SearchGroupFns F}.
Variable manager : HardManager F.

(** The indices in [_ptcl_local] of the particles of the clusters, cluster
    after cluster, as the cluster loops of the force corrections walk
    them. *)
Definition clusterIndices (_n_ptcl_in_cluster _n_ptcl_in_cluster_offset : list nat)
    : list nat :=
  flat_map
    (fun i =>
       let adr_real_start := _n_ptcl_in_cluster_offset !!! i in
       let adr_real_end := _n_ptcl_in_cluster_offset !!! (i + 1)%nat in
       seq adr_real_start (adr_real_end - adr_real_start))
    (seq 0 (length _n_ptcl_in_cluster)).

(** The addresses in the store of their local mirrors, in the same order. *)
Definition clusterMirrors (_ptcl_local : list (PtclH4 F))
    (_n_ptcl_in_cluster _n_ptcl_in_cluster_offset : list nat) : list nat :=
  omap (mirrorOf _ptcl_local) (clusterIndices _n_ptcl_in_cluster _n_ptcl_in_cluster_offset).

(** The addresses that the artificial-particle routine writes for the group
    whose block starts at [j_start]: the pair loops run from the first
    particle of the block to its centre of mass, and the closing block
    writes the tidal-tensor particles and the centre of mass. *)
Definition blockAddresses (gpars : GroupPars) (j_start : nat) : list nat :=
  seq j_start (S (offset_cm gpars))
  ++ ((fun k => (j_start + k)%nat) <$> seq (offset_tt gpars) (offset_orb gpars - offset_tt gpars)).

(** The same for the groups of all clusters. *)
Definition artificialAddresses (n_cluster : nat)
    (_n_group_in_cluster _n_group_in_cluster_offset : list nat)
    (_adr_first_ptcl_arti_in_cluster : list nat) : list nat :=
  let gpars := newGroupPars (n_split manager) in
  flat_map
    (fun i =>
       flat_map
         (fun j =>
            blockAddresses gpars
              (_adr_first_ptcl_arti_in_cluster
                 !!! (_n_group_in_cluster_offset !!! i + j)%nat))
         (seq 0 (_n_group_in_cluster !!! i)))
    (seq 0 n_cluster).

(** The particles that the overload of [correctForceWithCutoffTreeNeighborImp]
    with [_ptcl_local] hands to the per-particle routine: the local mirrors
    of the first [_n_ptcl] hard particles, then the store from
    [_adr_ptcl_artifical_start] on. *)
Definition treeTargets (_ptcl_local : list (PtclH4 F)) (_n_ptcl : nat)
    (_adr_ptcl_artifical_start n_tot : nat) : list nat :=
  omap (mirrorOf _ptcl_local) (seq 0 _n_ptcl)
  ++ seq _adr_ptcl_artifical_start (n_tot - _adr_ptcl_artifical_start).

(** A run of pair corrections on one particle, source after source. *)
Definition pairCorrections (srcs : list (Ptcl F)) (p : FPSoft F) : FPSoft F :=
  fold_left (calcAccPotShortWithLinearCutoff manager) srcs p.

(** [src] is the data of another particle: of a hard particle, other than
    the one at [j] of [_ptcl_local] when [j] is given, or of a particle of
    the store at an address other than [a]. *)
Definition otherParticle (_sys : list (FPSoft F)) (_ptcl_local : list (PtclH4 F))
    (a : nat) (j : option nat) (src : Ptcl F) : Prop :=
  (exists k p, Some k <> j /\ _ptcl_local !! k = Some p /\ src = hp p)
  \/ (exists kk q, kk <> a /\ _sys !! kk = Some q /\ src = fp q).

End CorrectionTargets.

(** ** Concrete particles

    Data on which the model is run.  All numbers are small dyadic
    rationals, so binary64 computes on them without rounding. *)

Section ExampleData.
Context {F : Type} `{F64Ops F}.
Local Open Scope f64_scope.

Definition f2 : F := f1 + f1.
Definition f3 : F := f2 + f1.
Definition f4 : F := f2 + f2.
Definition f8 : F := f4 + f4.

(** [r_in_base = 1], [r_out_base = 4], no softening, split factor 2,
    energy threshold 1. *)
Definition ex_manager : HardManager F :=
  mkHardManager f1 f1 f1 f4 f0 1%Z 2%nat.


Definition ex_changeover : ChangeOver F := mkChangeOver f1 f3 f1.

(** A particle of mass [m] at [(x, 0, 0)] at rest. *)
Definition ex_ptcl (ident : Z) (m x st : F) (c : ChangeOver F) : Ptcl F :=
  mkPtcl m (mkF64vec x f0 f0) vzero f8 f0 ident st c.

Definition ex_soft (ident : Z) (m x st : F) (c : ChangeOver F) : FPSoft F :=
  mkFPSoft (ex_ptcl ident m x st c) vzero f0.

End ExampleData.

(** An artificial particle of mass [m] at [(x, 0, 0)] with status 1 and the
    soft acceleration [(a, 0, 0)]. *)
Definition ex_arti {F} `{F64Ops F} (m x a : F) : FPSoft F :=
  mkFPSoft (ex_ptcl 0 m x f1 ex_changeover) (mkF64vec a f0 f0) f0.


Definition ex_config : Config := {| ONLY_SOFT := false; HARD_CHECK_ENERGY := true |}.
Definition ex_config_soft : Config := {| ONLY_SOFT := true; HARD_CHECK_ENERGY := true |}.

(** Stand-ins for the collaborators, used to run the model: a search radius
    [|v| dt + r_out]; block decoders that read the member count from the
    identifier of the first particle of the block, the cluster index from its
    [id_cluster] and the group index from the [id_cluster] of the second
    particle; engines that return the particles as they are and report the
    energies 0 and [dt]. *)
Definition ex_PtclFns {F} `{F64Ops F} : PtclFns F :=
  {| calcRSearch_value := fun p dt =>
       (fsqrt (vdot (vel p) (vel p)) * dt + getRout (changeover p))%f64 |}.

Definition ex_decode_soft {F} (g : GroupPars) (blk : list (FPSoft F)) : GroupPars :=
  mkGroupPars (n_ptcl_artifical g) (offset_cm g) (offset_orb g) (offset_tt g)
    (match blk with p :: _ => Z.to_nat (id (fp p)) | [] => 0 end) 0 0.

Definition ex_EngineFns {F} `{F64Ops F} : EngineFns F :=
  {| integrateSingleGroup := fun _ l a dt => mkIntegrated l a f0 dt;
     integrateMixed := fun _ l a _ dt => mkIntegrated l a f0 dt;
     getGroupIndex_soft := ex_decode_soft |}.

Definition ex_decode_hard {F} (blk : list (PtclH4 F)) : nat * nat * nat :=
  match blk with
  | p0 :: p1 :: _ =>
      (Z.to_nat (id (hp p0)), Z.to_nat (id_cluster p0), Z.to_nat (id_cluster p1))
  | _ => (0, 0, 0)
  end.

Definition ex_SearchGroupFns {F} : SearchGroupFns F :=
  layout_SearchGroupFns ex_decode_hard.

(** A store particle built from a hard particle starts with no soft force;
    an unwritten slot is modelled as a particle of zeros. *)
Definition ex_SoftFns {F} `{F64Ops F} : SoftFns F :=
  {| newFPSoft := fun p _ _ => mkFPSoft (hp p) vzero f0;
     getRank := 0%Z;
     blankFPSoft := mkFPSoft (mkPtcl f0 vzero vzero f0 f0 0 f0 (mkChangeOver f0 f0 f0))
                      vzero f0 |}.

Definition ex_OmpFns : OmpFns := {| getNumberOfThread := 1; getThreadNum := fun _ => 0 |}.

(** A cluster of three particles: the first two, of masses 1 and 3, are the
    members of a group, the second of them a remote particle; the third is a
    single.  The store holds the mirrors of the first and of the third at
    the addresses 0 and 2. *)
Definition ex_hard_ptcl {F} `{F64Ops F} (m x : F) (adr : Z) : PtclH4 F :=
  mkPtclH4 (ex_ptcl 0 m x f0 ex_changeover) adr 0.

Definition ex_cluster {F} `{F64Ops F} : list (PtclH4 F) :=
  [ ex_hard_ptcl f1 f0 0; ex_hard_ptcl f3 f1 (-1); ex_hard_ptcl f2 f8 2 ].

Definition ex_store {F} `{F64Ops F} : list (FPSoft F) :=
  [ ex_soft 0 f1 f0 f0 ex_changeover;
    ex_soft 0 f4 f4 f0 ex_changeover;
    ex_soft 0 f2 f8 f0 ex_changeover ].

(** The artificial block of the group, for the split factor 2: the first
    particle carries the member count 2 as its identifier; the last is the
    centre of mass, with the changeover radii 2 and 6 and the search radius
    16. *)
Definition ex_art_ptcl {F} `{F64Ops F} (ident : Z) (c : ChangeOver F) (rs : F) : PtclH4 F :=
  mkPtclH4 (mkPtcl f1 vzero vzero rs f0 ident f1 c) 0 0.

Definition ex_art_block {F} `{F64Ops F} : list (PtclH4 F) :=
  [ ex_art_ptcl 2 ex_changeover f8; ex_art_ptcl 0 ex_changeover f8;
    ex_art_ptcl 0 ex_changeover f8; ex_art_ptcl 0 ex_changeover f8;
    ex_art_ptcl 0 (mkChangeOver f2 (f4 + f2)%f64 f1) (f8 + f8)%f64 ].

(** A detector stand-in: it leaves the cluster in its order and reports the
    one group of [ex_art_block]. *)
Definition ex_GroupDetectorFns {F} `{F64Ops F} : GroupDetectorFns F :=
  {| generateList := fun _ cluster _ _ _ _ _ _ => (cluster, ex_art_block, 1) |}.

Definition ex_hard {F} `{F64Ops F} : SystemHard F :=
  mkSystemHard ex_cluster [3] [0; 3] [] [] [] [] 0 f0.

(** A detector stand-in that reports one group and hands over only three
    of the five artificial particles of its block. *)
Definition ex_partial_GroupDetectorFns {F} `{F64Ops F} : GroupDetectorFns F :=
  {| generateList := fun _ cluster _ _ _ _ _ _ => (cluster, take 3 ex_art_block, 1) |}.

(** The artificial block of a group of two members as the drive receives
    it: the first particle carries the member count 2, the centre of mass
    has the mass 0 and the backup mass 4. *)
Definition ex_drive_block {F} `{F64Ops F} : list (FPSoft F) :=
  [ ex_soft 2 f1 f0 f1 ex_changeover;
    ex_arti f1 f8 f0;
    ex_arti f1 (f8 + f8)%f64 f0;
    ex_arti f3 (f8 + f8 + f8)%f64 f0;
    mkFPSoft (mkPtcl f0 vzero vzero f8 f4 0 f1 ex_changeover) vzero f0 ].

(** One thread, whose only cluster, 0, has one group of two members. *)
Definition ex_layout : list GroupLayout := [[(0, [2])]].

(** A flagged cluster for the changeover-transition correction: two real
    members at [x = 0] and [x = 1], their mass zeroed by the builder, with
    mirrors at the addresses 0 and 1, and behind them the artificial block
    of their group (split factor 2, addresses 2 to 6).  The orbital samples,
    of masses 1 and 3, sit at [x = 8] and [x = 12] and carry the staged
    multiplier 2 on the radii 1 and 3. *)
Definition ex_staged {F} `{F64Ops F} : ChangeOver F := mkChangeOver f1 f3 f2.

Definition ex_co_store {F} `{F64Ops F} : list (FPSoft F) :=
  [ ex_soft 1 f0 f0 (- f1)%f64 ex_staged;
    ex_soft 2 f0 f1 (- f1)%f64 ex_staged;
    ex_soft 0 f1 (f8 + f8 + f8)%f64 f1 ex_changeover;
    ex_soft 0 f1 (f8 + f8 + f8 + f8)%f64 f1 ex_changeover;
    ex_soft 0 f1 f8 f1 ex_staged;
    ex_soft 0 f3 (f8 + f4)%f64 f1 ex_staged;
    ex_soft 0 f4 (f8 + f3)%f64 f1 ex_changeover ].

Definition ex_co_hard {F} `{F64Ops F} : SystemHard F :=
  mkSystemHard
    [ mkPtclH4 (ex_ptcl 1 f0 f0 (- f1)%f64 ex_staged) 0 0;
      mkPtclH4 (ex_ptcl 2 f0 f1 (- f1)%f64 ex_staged) 1 0 ]
    [2] [0; 2] [1] [0; 1] [2] [0] 0 f0.

(** The same cluster with a quiet artificial block: only the mirrors of the
    two real members carry a staged multiplier. *)
Definition ex_co_store_real {F} `{F64Ops F} : list (FPSoft F) :=
  [ ex_soft 1 f0 f0 (- f1)%f64 ex_staged;
    ex_soft 2 f0 f1 (- f1)%f64 ex_staged;
    ex_soft 0 f1 (f8 + f8 + f8)%f64 f1 ex_changeover;
    ex_soft 0 f1 (f8 + f8 + f8 + f8)%f64 f1 ex_changeover;
    ex_soft 0 f1 f8 f1 ex_changeover;
    ex_soft 0 f3 (f8 + f4)%f64 f1 ex_changeover;
    ex_soft 0 f4 (f8 + f3)%f64 f1 ex_changeover ].

(** A tree stand-in with one quiet neighbour entry, of identifier 9 and unit
    mass at [(2, 0, 0)], for every particle. *)
Definition ex_quiet_tree {F} `{F64Ops F} : Tree F :=
  fun _ => [ mkEPJSoft 9 f1 (mkF64vec f2 f0 f0) f1 f3 f1 f0 f0 ].

(** A flagged cluster with a group of two members and a single (status 0,
    unit mass, at [x = 2], mirror at the address 2); the artificial block of
    the group is quiet and sits at the addresses 3 to 7.  The tree returns
    the first member, with its staged multiplier, as the neighbour of every
    particle. *)
Definition ex_mixed_store {F} `{F64Ops F} : list (FPSoft F) :=
  [ ex_soft 1 f0 f0 (- f1)%f64 ex_staged;
    ex_soft 2 f0 f1 (- f1)%f64 ex_staged;
    ex_soft 3 f1 f2 f0 ex_changeover;
    ex_soft 0 f1 (f8 + f8 + f8)%f64 f1 ex_changeover;
    ex_soft 0 f1 (f8 + f8 + f8 + f8)%f64 f1 ex_changeover;
    ex_soft 0 f1 f8 f1 ex_changeover;
    ex_soft 0 f3 (f8 + f4)%f64 f1 ex_changeover;
    ex_soft 0 f4 (f8 + f3)%f64 f1 ex_changeover ].

Definition ex_mixed_hard {F} `{F64Ops F} : SystemHard F :=
  mkSystemHard
    [ mkPtclH4 (ex_ptcl 1 f0 f0 (- f1)%f64 ex_staged) 0 0;
      mkPtclH4 (ex_ptcl 2 f0 f1 (- f1)%f64 ex_staged) 1 0;
      mkPtclH4 (ex_ptcl 3 f1 f2 f0 ex_changeover) 2 0 ]
    [3] [0; 3] [1] [0; 1] [3] [0] 0 f0.

Definition ex_member_tree {F} `{F64Ops F} : Tree F :=
  fun _ => [ mkEPJSoft 1 f0 vzero f1 f3 f2 (- f1)%f64 f1 ].

(** A tree stand-in that has not been rebuilt since a commit: for every
    particle it returns one neighbour entry, of identifier 9 and unit mass
    at [(8, 0, 0)], which still carries the staged multiplier 2 on the
    radii 4 and 12. *)
Definition ex_stale_tree {F} `{F64Ops F} : Tree F :=
  fun _ => [ mkEPJSoft 9 f1 (mkF64vec f8 f0 f0) f4 (f8 + f4)%f64 f2 f0 f0 ].

(** A tree stand-in without neighbours. *)
Definition ex_empty_tree {F} : Tree F := fun _ => [].

(** [OPLessIDCluster], as the order that the sort leaves. *)
Definition le_id_cluster {F} (a b : PtclH4 F) : Prop := (id_cluster a <= id_cluster b)%Z.

#[export] Instance le_id_cluster_dec {F} : RelDecision (@le_id_cluster F).
Proof. intros a b. unfold le_id_cluster. apply _. Defined.

(** Stand-ins for the particle classes: a received particle is a hard
    particle; the constructor and [DataCopy] carry the particle data;
    [calcRSearch] of a hard particle is the one of its particle data; the
    sort is a merge sort. *)
Definition ex_ClusterFns {F} `{F64Ops F} `{PtclFns F} : ClusterFns F :=
  {| Tptcl := PtclH4 F;
     tptcl_id_cluster := id_cluster;
     PtclHard_soft := fun p c a => mkPtclH4 (fp p) a c;
     PtclHard_recv := fun p c a => mkPtclH4 (hp p) a c;
     DataCopy_hard := fun h s => set_hp (fun _ => fp s) h;
     DataCopy_soft := fun s h => set_fp (fun _ => hp h) s;
     calcRSearch_hard := fun dt p => set_hp (calcRSearch dt) p;
     blankPtclH4 :=
       mkPtclH4 (mkPtcl f0 vzero vzero f0 f0 0 f0 (mkChangeOver f0 f0 f0)) 0 0;
     sort_id_cluster := merge_sort le_id_cluster |}.

(** Five mediator entries for the store [ex_store] on the process of rank
    0: the particle 2 in the cluster 7, an entry without local address, an
    entry sent by the process 1, and the particles 0 and 1 in the cluster 5;
    and one received particle of the cluster 7. *)
Definition ex_med : list Mediator :=
  [ mkMediator 2 0 7; mkMediator (-1) 0 7; mkMediator 0 1 5;
    mkMediator 0 0 5; mkMediator 1 0 5 ].

Definition ex_recv {F} `{F64Ops F} : list (PtclH4 F) :=
  [ mkPtclH4 (ex_ptcl 9 f1 f4 f0 ex_changeover) 0 7 ].

(** The same with the sentinel of the counting loop as the smallest
    cluster identifier. *)
Definition ex_med_sentinel : list Mediator :=
  [ mkMediator 2 0 7; mkMediator 0 0 (-999) ].

(** Three hard particles to write back to [ex_store]: one that has become
    a ghost (negative identifier and status) with the mirror 1, one with the
    mirror 0, and a remote one. *)
Definition ex_wb_hard {F} `{F64Ops F} : SystemHard F :=
  mkSystemHard
    [ mkPtclH4 (ex_ptcl (-3) f1 f0 (- f1)%f64 ex_changeover) 1 0;
      mkPtclH4 (ex_ptcl 5 f2 f8 f0 ex_changeover) 0 0;
      mkPtclH4 (ex_ptcl 6 f2 f4 f0 ex_changeover) (-1) 0 ]
    [3] [0; 3] [] [] [] [] 0 f0.

(** The two local particles of [ex_wb_hard] alone. *)
Definition ex_wb_local {F} `{F64Ops F} : SystemHard F :=
  mkSystemHard
    [ mkPtclH4 (ex_ptcl (-3) f1 f0 (- f1)%f64 ex_changeover) 1 0;
      mkPtclH4 (ex_ptcl 5 f2 f8 f0 ex_changeover) 0 0 ]
    [2] [0; 2] [] [] [] [] 0 f0.

(** The particles of [ex_cluster] as two clusters, of two and of one. *)
Definition ex_two_clusters {F} `{F64Ops F} : SystemHard F :=
  mkSystemHard ex_cluster [2; 1] [0; 2; 3] [] [] [] [] 0 f0.

(** * Properties *)

(** ** The arithmetic instances *)

#[export] Instance float_F64Order : F64Order float.
Proof.
  split; intros x; cbn [fltb feqb f0 float_F64Ops];
    rewrite ?FloatAxioms.ltb_spec, ?FloatAxioms.eqb_spec;
    replace (Prim2SF 0%float) with (S754_zero false) by reflexivity;
    destruct (Prim2SF x) as [s|s| |s m e]; try destruct s; cbn; congruence.
Qed.

#[export] Instance R_F64Order : F64Order R.
Proof.
  split; intros x; cbn [fltb feqb f0 R_F64Ops]; unfold Rltb, Reqb;
    repeat match goal with
           | |- context [Rlt_dec ?a ?b] => destruct (Rlt_dec a b)
           | |- context [Req_dec_T ?a ?b] => destruct (Req_dec_T a b)
           end; intros; try reflexivity; try discriminate; exfalso; lra.
Qed.

#[export] Instance R_F64Exact : F64Exact R.
Proof. split. exact RTheory. Qed.

#[export] Instance R_F64One : F64One R.
Proof.
  split; intros x; cbn [feqb fmul f1 R_F64Ops].
  - unfold Reqb. destruct (Req_dec_T x 1); split; intros Hx;
      try reflexivity; try assumption; try discriminate; contradiction.
  - apply Rmult_1_r.
Qed.

(** In binary64 the comparison with 1 holds of 1 alone. *)
Lemma float_eqb_one (x : float) : PrimFloat.eqb x 1%float = true <-> x = 1%float.
Proof.
  split.
  - intros Hx. rewrite FloatAxioms.eqb_spec in Hx.
    rewrite <- (FloatAxioms.SF2Prim_Prim2SF x).
    rewrite <- (FloatAxioms.SF2Prim_Prim2SF 1%float).
    f_equal.
    replace (Prim2SF 1%float) with (S754_finite false 4503599627370496 (-52)) in *
      by reflexivity.
    unfold SFeqb, SFcompare in Hx.
    destruct (Prim2SF x) as [s|s| |s m e]; try (destruct s; discriminate Hx);
      try discriminate Hx.
    destruct s; [discriminate Hx|].
    destruct (Z.compare_spec e (-52)) as [He|He|He]; try discriminate Hx.
    destruct (Pos.compare_cont Eq m 4503599627370496) eqn:Hm; try discriminate Hx.
    apply Pos.compare_eq in Hm.
    subst. reflexivity.
  - intros ->. reflexivity.
Qed.

Lemma digits2_pos_shift (m : positive) :
  Zpos (digits2_pos (m * 4503599627370496)) = (Zpos (digits2_pos m) + 52)%Z.
Proof.
  change 4503599627370496%positive with (Pos.iter xO 1 52)%positive.
  cbn [Pos.iter]. rewrite !Pos.mul_xO_r, Pos.mul_1_r.
  cbn [digits2_pos]. rewrite !Pos2Z.inj_succ. lia.
Qed.

(** In binary64 a product by 1 is exact: the mantissa comes back from the
    rounding as it went in, and zeros, infinities and NaN are kept. *)
Lemma float_mul_one_r (x : float) : PrimFloat.mul x 1%float = x.
Proof.
  rewrite <- (FloatAxioms.SF2Prim_Prim2SF (PrimFloat.mul x 1)).
  rewrite <- (FloatAxioms.SF2Prim_Prim2SF x) at 2.
  f_equal. rewrite FloatAxioms.mul_spec.
  pose proof (FloatAxioms.Prim2SF_valid x) as Hv.
  replace (Prim2SF 1%float) with (S754_finite false 4503599627370496 (-52)) by reflexivity.
  destruct (Prim2SF x) as [s|s| |s m e]; try (destruct s; reflexivity); try reflexivity.
  cbn [valid_binary] in Hv. unfold bounded, canonical_mantissa in Hv.
  apply andb_prop in Hv as [Hc0 Hb0]. apply Z.eqb_eq in Hc0.
  assert (Hc : fexp prec emax (Z.pos (digits2_pos m) + e)%Z = e) by exact Hc0.
  assert (Hb : (e <=? emax - prec)%Z = true) by exact Hb0.
  unfold SF64mul, SFmul. rewrite xorb_false_r.
  unfold binary_round_aux, shr_fexp.
  unfold Zdigits2. rewrite digits2_pos_shift.
  replace (Z.pos (digits2_pos m) + 52 + (e + -52))%Z with (Z.pos (digits2_pos m) + e)%Z
    by lia.
  rewrite Hc.
  replace (e - (e + -52))%Z with 52%Z by lia.
  change 4503599627370496%positive with (Pos.iter xO 1 52)%positive.
  cbn [Pos.iter]. rewrite !Pos.mul_xO_r, Pos.mul_1_r.
  cbn [shr shr_record_of_loc SpecFloat.iter_pos shr_1 orb shr_m loc_of_shr_record
       round_nearest_even].
  replace (e + -52 + 52)%Z with e by lia.
  first [rewrite Hc|rewrite Hc0]. rewrite Z.sub_diag. cbn [shr shr_m].
  first [rewrite Hb|rewrite Hb0]. reflexivity.
Qed.

#[export] Instance float_F64One : F64One float.
Proof.
  split; intros x; cbn [feqb fmul f1 float_F64Ops].
  - apply float_eqb_one.
  - apply float_mul_one_r.
Qed.

(** ** General lemmas *)

Lemma F64vec_eq {F : Type} (a b : F64vec F) :
  vx a = vx b -> vy a = vy b -> vz a = vz b -> a = b.
Proof. destruct a, b; cbn; intros; subst; reflexivity. Qed.

Lemma for_range_nil {S : Type} (a b : nat) (body : nat -> S -> S) (s : S) :
  b <= a -> for_range a b body s = s.
Proof.
  intros Hle. unfold for_range.
  replace (b - a) with 0 by lia. reflexivity.
Qed.

Lemma for_range_snoc {S : Type} (a b : nat) (body : nat -> S -> S) (s : S) :
  a <= b -> for_range a (Datatypes.S b) body s = body b (for_range a b body s).
Proof.
  intros Hle. unfold for_range.
  replace (Datatypes.S b - a) with (Datatypes.S (b - a)) by lia.
  rewrite seq_S, fold_left_app. cbn.
  replace (a + (b - a)) with b by lia. reflexivity.
Qed.

Lemma for_range_cons {S : Type} (a b : nat) (body : nat -> S -> S) (s : S) :
  a < b -> for_range a b body s = for_range (Datatypes.S a) b body (body a s).
Proof.
  intros Hlt. unfold for_range.
  replace (b - a) with (Datatypes.S (b - Datatypes.S a)) by lia. reflexivity.
Qed.

(** A loop invariant over [for_range]. *)
Lemma for_range_ind {S : Type} (P : nat -> S -> Prop) (a b : nat)
    (body : nat -> S -> S) (s : S) :
  a <= b ->
  P a s ->
  (forall k st, a <= k < b -> P k st -> P (Datatypes.S k) (body k st)) ->
  P b (for_range a b body s).
Proof.
  intros Hle H0 Hstep.
  induction b as [|b IH].
  - assert (a = 0) by lia. subst. rewrite for_range_nil by lia. exact H0.
  - destruct (decide (a = Datatypes.S b)) as [->|Hne].
    + rewrite for_range_nil by lia. exact H0.
    + rewrite for_range_snoc by lia. apply Hstep; [lia|].
      apply IH; [lia|]. intros k st Hk. apply Hstep. lia.
Qed.

(** ** The pairwise correction primitive *)

Section PairwiseProps.
Context {F : Type} `{F64Ops F} `{ChangeOverFns F} `{Config}.
Variable manager : HardManager F.
Local Open Scope f64_scope.

(** The primitive writes the acceleration and the potential of [_pi] only. *)
Lemma calcAccPotShortWithLinearCutoff_fp (_pi : FPSoft F) (_pj : Ptcl F) :
  fp (calcAccPotShortWithLinearCutoff manager _pi _pj) = fp _pi.
Proof. reflexivity. Qed.

Lemma calcAccPotShortWithLinearCutoff_epj_fp (_pi : FPSoft F) (_pj : EPJSoft F) :
  fp (calcAccPotShortWithLinearCutoff_epj manager _pi _pj) = fp _pi.
Proof. reflexivity. Qed.

(** On the store, [correct_at k] leaves every other particle as it is. *)
Lemma correct_at_other (k i : nat) (pj : option (Ptcl F))
    (_sys : list (FPSoft F)) :
  i <> k -> correct_at manager k pj _sys !! i = _sys !! i.
Proof.
  intros Hne. unfold correct_at. destruct pj; [|reflexivity].
  apply list_lookup_alter_ne. congruence.
Qed.

Lemma correct_at_length (k : nat) (pj : option (Ptcl F))
    (_sys : list (FPSoft F)) :
  length (correct_at manager k pj _sys) = length _sys.
Proof. unfold correct_at. destruct pj; [apply length_alter|reflexivity]. Qed.

(** The acceleration after one call, in the terms of the specification. *)
Lemma calcAccPotShortWithLinearCutoff_acc (_pi : FPSoft F) (_pj : Ptcl F) :
  acc (calcAccPotShortWithLinearCutoff manager _pi _pj) =
  let dr := vsub (pos (fp _pi)) (pos _pj) in
  let rinv := inv_separation manager (pos (fp _pi)) (pos _pj) in
  let rinv_max := inv_clamped_separation manager (pos (fp _pi)) (pos _pj) in
  let k := f1 - changeover_weight manager _pi _pj in
  vsub (acc _pi)
       (vscale (mass _pj * rinv * (rinv * rinv) * k
                - mass _pj * rinv_max * (rinv_max * rinv_max)) dr).
Proof. reflexivity. Qed.

End PairwiseProps.

Section PairwiseExact.
Context {F : Type} `{F64Exact F} `{ChangeOverFns F} `{Config}.
Variable manager : HardManager F.
Local Open Scope f64_scope.

Add Ring f64_ring_inst : f64_ring.

(** C2 (as amended).  In exact arithmetic one call of the pairwise
    correction primitive changes the acceleration of [i] by
    [(1 - changeover_weight(i,j)) * exact_pairwise_accel(i,j)
     - linear_cutoff_term(i,j)], both accelerations pointing from [i] towards
    [j]; the particle data of [i] other than acceleration and potential are
    unchanged, and on the store no particle other than [i] changes. *)
Theorem pairwise_correction_acc (_pi : FPSoft F) (_pj : Ptcl F) :
  acc (calcAccPotShortWithLinearCutoff manager _pi _pj) =
    vadd (acc _pi)
         (vsub (vscale (f1 - changeover_weight manager _pi _pj)
                       (exact_pairwise_accel manager _pi _pj))
               (linear_cutoff_term manager _pi _pj))
  /\ fp (calcAccPotShortWithLinearCutoff manager _pi _pj) = fp _pi
  /\ forall (k i : nat) (_sys : list (FPSoft F)),
       i <> k -> correct_at manager k (Some _pj) _sys !! i = _sys !! i.
Proof.
  split; [|split].
  - rewrite calcAccPotShortWithLinearCutoff_acc.
    unfold exact_pairwise_accel, linear_cutoff_term, newtonian_accel,
      inv_separation, inv_clamped_separation.
    cbv zeta.
    apply F64vec_eq; cbn [vx vy vz vadd vsub vscale vopp]; ring.
  - reflexivity.
  - intros k i _sys Hne. apply correct_at_other. exact Hne.
Qed.

End PairwiseExact.

(** The witness of [pairwise_correction_acc]: a unit mass at the origin
    acting on a particle at [(2,0,0)], in exact arithmetic. *)
Lemma pairwise_correction_acc_witness :
  let _pi := ex_soft (F:=R) 1 f1 f2 f0 ex_changeover in
  let _pj := ex_ptcl (F:=R) 2 f1 f0 f0 ex_changeover in
  acc (@calcAccPotShortWithLinearCutoff R _ ramp_ChangeOverFns ex_config ex_manager _pi _pj) =
    vadd (acc _pi)
         (vsub (vscale (f1 - @changeover_weight R _ ramp_ChangeOverFns ex_manager _pi _pj)%f64
                       (exact_pairwise_accel ex_manager _pi _pj))
               (linear_cutoff_term ex_manager _pi _pj)).
Proof.
  intros _pi _pj.
  exact (proj1 (@pairwise_correction_acc R R_F64Ops R_F64Exact ramp_ChangeOverFns
                  ex_config ex_manager _pi _pj)).
Defined.

(** C2 (as stated) fails.  In binary64, with no rounding involved: a unit
    mass at the origin, a particle at [(2,0,0)], both with changeover radii
    1 and 3, and [r_out_base = 4].  The weight at separation 2 is 1/2; the
    call changes the acceleration by [-3/32] along x, whereas
    [(changeover_weight - 1) * exact_pairwise_accel - linear_cutoff_term]
    is [+5/32]. *)
Lemma pairwise_correction_spec_sign_counterexample :
  let _pi := ex_soft (F:=float) 1 f1 f2 f0 ex_changeover in
  let _pj := ex_ptcl (F:=float) 2 f1 f0 f0 ex_changeover in
  acc (@calcAccPotShortWithLinearCutoff float _ ramp_ChangeOverFns ex_config ex_manager _pi _pj)
  <> vadd (acc _pi) (@spec_delta_accel float _ ramp_ChangeOverFns ex_manager _pi _pj).
Proof.
  intros _pi _pj Heq.
  apply (f_equal (fun v => PrimFloat.ltb (vx v) 0%float)) in Heq.
  vm_compute in Heq. discriminate Heq.
Qed.

Section PotentialProps.
Context {F : Type} `{F64Order F} `{ChangeOverFns F} `{Config}.
Variable manager : HardManager F.
Local Open Scope f64_scope.

(** The potential after one call, by the status of the source: the shared
    body of the two overloads. *)
Lemma potential_by_status_body (_pi : FPSoft F) (pj_pos : F64vec F) (pj_mass : F)
    (pj_changeover : ChangeOver F) (pj_status pj_mass_bk : F) :
  let rinv := inv_separation manager (pos (fp _pi)) pj_pos in
  let movr_max := pj_mass * inv_clamped_separation manager (pos (fp _pi)) pj_pos in
  let kpot := f1 - potential_weight manager (changeover (fp _pi)) pj_changeover
                     (pos (fp _pi)) pj_pos in
  let far := beyond_r_out manager (pos (fp _pi)) pj_pos in
  let pot' := pot_tot (calcAccPotShortWithLinearCutoff_body manager _pi pj_pos pj_mass
                         pj_changeover pj_status pj_mass_bk) in
  ((pj_status == f0) = true ->
     pot' = pot_tot _pi -
            (if ONLY_SOFT
             then (if far then f0 else pj_mass * rinv * kpot - movr_max)
             else pj_mass * rinv - movr_max))
  /\ ((pj_status <? f0) = true ->
     pot' = pot_tot _pi -
            (if ONLY_SOFT
             then (if far then f0 else pj_mass_bk * rinv * kpot - movr_max)
             else pj_mass_bk * rinv - movr_max))
  /\ ((f0 <? pj_status) = true -> pot' = pot_tot _pi + movr_max).
Proof.
  cbv zeta.
  unfold calcAccPotShortWithLinearCutoff_body, inv_separation, inv_clamped_separation,
    potential_weight, beyond_r_out, clamped_dr2, softened_dr2.
  cbn [pot_tot].
  repeat split.
  - intros Hz. rewrite Hz. destruct ONLY_SOFT; reflexivity.
  - intros Hneg. rewrite (neg_not_zero _ Hneg), Hneg. destruct ONLY_SOFT; reflexivity.
  - intros Hpos. rewrite (pos_not_zero _ Hpos), (pos_not_neg _ Hpos).
    destruct ONLY_SOFT; reflexivity.
Qed.

(** C7.  The potential correction of the pairwise primitive selects by the
    status of the source [j], in both overloads and in both builds: for
    status 0 it uses the live mass of [j]; for a negative status it uses the
    backup mass [mass_bk]; for a positive status [j] contributes only the
    cancelling linear-cutoff term, the potential of [i] increasing by the
    mass of [j] over the clamped separation. *)
Theorem potential_correction_by_status (_pi : FPSoft F) :
  (forall _pj : Ptcl F,
     let rinv := inv_separation manager (pos (fp _pi)) (pos _pj) in
     let movr_max := mass _pj * inv_clamped_separation manager (pos (fp _pi)) (pos _pj) in
     let kpot := f1 - potential_weight manager (changeover (fp _pi)) (changeover _pj)
                        (pos (fp _pi)) (pos _pj) in
     let far := beyond_r_out manager (pos (fp _pi)) (pos _pj) in
     let pot' := pot_tot (calcAccPotShortWithLinearCutoff manager _pi _pj) in
     ((status _pj == f0) = true ->
        pot' = pot_tot _pi -
               (if ONLY_SOFT
                then (if far then f0 else mass _pj * rinv * kpot - movr_max)
                else mass _pj * rinv - movr_max))
     /\ ((status _pj <? f0) = true ->
        pot' = pot_tot _pi -
               (if ONLY_SOFT
                then (if far then f0 else mass_bk _pj * rinv * kpot - movr_max)
                else mass_bk _pj * rinv - movr_max))
     /\ ((f0 <? status _pj) = true -> pot' = pot_tot _pi + movr_max))
  /\
  (forall _pj : EPJSoft F,
     let chj := setR (epj_r_in _pj) (epj_r_out _pj) in
     let rinv := inv_separation manager (pos (fp _pi)) (epj_pos _pj) in
     let movr_max :=
       epj_mass _pj * inv_clamped_separation manager (pos (fp _pi)) (epj_pos _pj) in
     let kpot := f1 - potential_weight manager (changeover (fp _pi)) chj
                        (pos (fp _pi)) (epj_pos _pj) in
     let far := beyond_r_out manager (pos (fp _pi)) (epj_pos _pj) in
     let pot' := pot_tot (calcAccPotShortWithLinearCutoff_epj manager _pi _pj) in
     ((epj_status _pj == f0) = true ->
        pot' = pot_tot _pi -
               (if ONLY_SOFT
                then (if far then f0 else epj_mass _pj * rinv * kpot - movr_max)
                else epj_mass _pj * rinv - movr_max))
     /\ ((epj_status _pj <? f0) = true ->
        pot' = pot_tot _pi -
               (if ONLY_SOFT
                then (if far then f0 else epj_mass_bk _pj * rinv * kpot - movr_max)
                else epj_mass_bk _pj * rinv - movr_max))
     /\ ((f0 <? epj_status _pj) = true -> pot' = pot_tot _pi + movr_max)).
Proof.
  split; intros _pj.
  - apply (potential_by_status_body _pi (pos _pj) (mass _pj) (changeover _pj)
             (status _pj) (mass_bk _pj)).
  - apply (potential_by_status_body _pi (epj_pos _pj) (epj_mass _pj)
             (setR (epj_r_in _pj) (epj_r_out _pj)) (epj_status _pj) (epj_mass_bk _pj)).
Qed.

End PotentialProps.

(** The witness of [potential_correction_by_status], in binary64: a
    particle at [(2,0,0)] and, at the origin, a single of mass 1, then a
    group member whose live mass is 0 and whose backup mass is 1, then an
    artificial particle of mass 1 (status 1).  The separation is 2 and the
    clamped separation 4. *)
Lemma potential_correction_by_status_witness :
  let _pi := ex_soft (F:=float) 1 f1 f2 f0 ex_changeover in
  let single := ex_ptcl (F:=float) 2 f1 f0 f0 ex_changeover in
  let member := set_mass_bk f1 (ex_ptcl (F:=float) 2 f0 f0 (- f1)%f64 ex_changeover) in
  let orbital := ex_ptcl (F:=float) 2 f1 f0 f1 ex_changeover in
  let run := @calcAccPotShortWithLinearCutoff float _ ramp_ChangeOverFns ex_config ex_manager in
  pot_tot (run _pi single) = (f0 - (f1 * (f1 / f2) - f1 * (f1 / f4)))%f64
  /\ pot_tot (run _pi member) = (f0 - (f1 * (f1 / f2) - f0 * (f1 / f4)))%f64
  /\ pot_tot (run _pi orbital) = (f0 + f1 * (f1 / f4))%f64.
Proof.
  intros _pi single member orbital run.
  pose proof (@potential_correction_by_status float float_F64Ops float_F64Order
                ramp_ChangeOverFns ex_config ex_manager _pi) as [Hp _].
  split; [|split].
  - destruct (Hp single) as [Hs _].
    etransitivity; [exact (Hs eq_refl)|vm_compute; reflexivity].
  - destruct (Hp member) as [_ [Hm _]].
    etransitivity; [exact (Hm eq_refl)|vm_compute; reflexivity].
  - destruct (Hp orbital) as [_ [_ Ho]].
    etransitivity; [exact (Ho eq_refl)|vm_compute; reflexivity].
Defined.

(** ** The isolated single-particle drive *)

Lemma for_range_alter_prefix {A : Type} (f : A -> A) (l : list A) (n : nat) :
  n <= length l ->
  for_range 0 n (fun i l => alter f i l) l = (f <$> take n l) ++ drop n l.
Proof.
  induction n as [|n IH]; intros Hn.
  - rewrite for_range_nil by lia. reflexivity.
  - rewrite for_range_snoc by lia. rewrite IH by lia.
    destruct (lookup_lt_is_Some_2 l n ltac:(lia)) as [x Hx].
    rewrite (take_S_r _ _ _ Hx), fmap_app. cbn.
    rewrite (drop_S _ _ _ Hx).
    rewrite alter_app_r_alt by (rewrite length_fmap, length_take; lia).
    rewrite length_fmap, length_take.
    replace (n - n `min` length l) with 0 by lia. cbn.
    rewrite <- app_assoc. reflexivity.
Qed.

Lemma for_range_alter_all {A : Type} (f : A -> A) (l : list A) :
  for_range 0 (length l) (fun i l => alter f i l) l = f <$> l.
Proof.
  rewrite for_range_alter_prefix by lia.
  rewrite firstn_all, drop_all, app_nil_r. reflexivity.
Qed.

Section DriveOneProps.
Context {F : Type} `{F64Ops F} `{PtclFns F}.
Local Open Scope f64_scope.

Lemma driveForOneCluster_ptcl (hard : SystemHard F) (_dt : F) :
  ptcl_hard_ (driveForOneCluster hard _dt) = driftOne _dt <$> ptcl_hard_ hard.
Proof. unfold driveForOneCluster. cbn. apply for_range_alter_all. Qed.

(** C10.  For every particle of [ptcl_hard_], the isolated single-particle
    drive with step [dt] (both [driveForOneCluster] and
    [driveForOneClusterOMP]) sets the position to [pos + vel * dt] and
    recomputes the search radius, and leaves mass, velocity, id, status,
    [mass_bk], [adr_org] and the changeover state unchanged. *)
Theorem driveForOneCluster_frame (hard : SystemHard F) (_dt : F) (i : nat) (p : PtclH4 F) :
  ptcl_hard_ hard !! i = Some p ->
  forall drive, drive = driveForOneCluster \/ drive = driveForOneClusterOMP ->
  exists p' : PtclH4 F,
    ptcl_hard_ (drive hard _dt) !! i = Some p'
    /\ pos (hp p') = vadd (pos (hp p)) (vscale _dt (vel (hp p)))
    /\ r_search (hp p') =
         calcRSearch_value (set_pos (vadd (pos (hp p)) (vscale _dt (vel (hp p)))) (hp p)) _dt
    /\ mass (hp p') = mass (hp p)
    /\ vel (hp p') = vel (hp p)
    /\ id (hp p') = id (hp p)
    /\ status (hp p') = status (hp p)
    /\ mass_bk (hp p') = mass_bk (hp p)
    /\ adr_org p' = adr_org p
    /\ changeover (hp p') = changeover (hp p).
Proof.
  intros Hp drive Hdrive.
  exists (driftOne _dt p). split.
  - assert (Hd : ptcl_hard_ (drive hard _dt) = driftOne _dt <$> ptcl_hard_ hard).
    { destruct Hdrive as [-> | ->]; apply driveForOneCluster_ptcl. }
    rewrite Hd, list_lookup_fmap, Hp. reflexivity.
  - repeat split.
Qed.

End DriveOneProps.

(** The witness of [driveForOneCluster_frame]: one particle at [(2,0,0)]
    moving with velocity [(1,0,0)], stepped by [dt = 2]. *)
Lemma driveForOneCluster_frame_witness :
  let p := mkPtclH4 (mkPtcl (f1 : float) (mkF64vec f2 f0 f0) (mkF64vec f1 f0 f0)
                       f8 f0 7%Z f0 ex_changeover) 0%Z 0%Z in
  let hard := mkSystemHard [p] [1] [0; 1] [0] [0; 0] [] [] 0 (f0 : float) in
  exists p' : PtclH4 float,
    ptcl_hard_ (@driveForOneCluster float _ ex_PtclFns hard f2) !! 0 = Some p'
    /\ pos (hp p') = mkF64vec f4 f0 f0
    /\ mass (hp p') = f1.
Proof.
  intros p hard.
  destruct (@driveForOneCluster_frame float _ ex_PtclFns hard f2 0 p eq_refl
              driveForOneCluster (or_introl eq_refl))
    as (p' & Hl & Hpos & _ & Hm & _).
  exists p'. split; [exact Hl|]. split.
  - rewrite Hpos. vm_compute. reflexivity.
  - rewrite Hm. reflexivity.
Defined.

(** ** The per-cluster drive: route and energy check *)

Section DriveMultiProps.
Context {F : Type} `{F64Ops F} `{Config} `{SearchGroupFns F} `{EngineFns F}.
Variable manager : HardManager F.
Local Open Scope f64_scope.





End DriveMultiProps.


(** ** The self-potential correction *)

Section SelfPotentialProps.
Context {F : Type} `{F64Order F} `{ChangeOverFns F} `{Config} `{SearchGroupFns F}.
Variable manager : HardManager F.
Local Open Scope f64_scope.

Lemma selfPotentialCorrection_single (p : FPSoft F) :
  (status (fp p) == f0) = true ->
  selfPotentialCorrection manager p =
  set_pot_tot (pot_tot p + mass (fp p) / r_out_base manager) p.
Proof. intros Hs. unfold selfPotentialCorrection. rewrite Hs. reflexivity. Qed.

Lemma selfPotentialCorrection_other (p : FPSoft F) :
  (status (fp p) == f0) = false -> selfPotentialCorrection manager p = p.
Proof. intros Hs. unfold selfPotentialCorrection. rewrite Hs. reflexivity. Qed.

(** The two places that correct the potential of a particle for its own
    mass, adding [mass / r_out_base], do it if and only if the status of the
    particle is exactly 0: in the per-particle routine of the tree-based
    variants and in the per-particle step of the cluster-scoped variant, a
    particle of status 0 enters the pair loops with the corrected potential
    and any other particle enters them as it is; group members (status < 0)
    and artificial particles (status > 0) are among the latter. *)
Lemma self_potential_guard (_tree : Tree F) (p : FPSoft F) :
  let corrected := set_pot_tot (pot_tot p + mass (fp p) / r_out_base manager) p in
  ((status (fp p) == f0) = true ->
     correctForceWithCutoffTreeNeighborOneParticleImp manager _tree p =
     neighborLoop manager (_tree p) corrected)
  /\ ((status (fp p) == f0) = false ->
     correctForceWithCutoffTreeNeighborOneParticleImp manager _tree p =
     neighborLoop manager (_tree p) p)
  /\ (forall (_sys : list (FPSoft F)) (_ptcl_local : list (PtclH4 F))
        (adr_real_start adr_real_end n_group : nat) (adr_first : list nat) (j adr : nat),
        _sys !! adr = Some p ->
        ((status (fp p) == f0) = true ->
           clusterCorrectReal manager _ptcl_local adr_real_start adr_real_end n_group
             adr_first j adr _sys =
           clusterPairLoops manager _ptcl_local adr_real_start adr_real_end n_group
             adr_first j adr (<[adr := corrected]> _sys))
        /\ ((status (fp p) == f0) = false ->
           clusterCorrectReal manager _ptcl_local adr_real_start adr_real_end n_group
             adr_first j adr _sys =
           clusterPairLoops manager _ptcl_local adr_real_start adr_real_end n_group
             adr_first j adr _sys))
  /\ ((status (fp p) <? f0) = true -> (status (fp p) == f0) = false)
  /\ ((f0 <? status (fp p)) = true -> (status (fp p) == f0) = false).
Proof.
  cbv zeta. split; [|split; [|split; [|split]]].
  - intros Hs. unfold correctForceWithCutoffTreeNeighborOneParticleImp.
    rewrite (selfPotentialCorrection_single p Hs). reflexivity.
  - intros Hs. unfold correctForceWithCutoffTreeNeighborOneParticleImp.
    rewrite (selfPotentialCorrection_other p Hs). reflexivity.
  - intros _sys _ptcl_local a b n adr_first j adr Hp. split; intros Hs.
    + unfold clusterCorrectReal. f_equal.
      apply list_eq. intros i.
      destruct (decide (i = adr)) as [->|Hne].
      * rewrite list_lookup_alter_eq, Hp. cbn.
        rewrite (selfPotentialCorrection_single p Hs).
        rewrite list_lookup_insert_eq by (eapply lookup_lt_Some; exact Hp). reflexivity.
      * rewrite list_lookup_alter_ne, list_lookup_insert_ne by congruence. reflexivity.
    + unfold clusterCorrectReal. f_equal.
      apply list_eq. intros i.
      destruct (decide (i = adr)) as [->|Hne].
      * rewrite list_lookup_alter_eq, Hp. cbn.
        rewrite (selfPotentialCorrection_other p Hs). reflexivity.
      * rewrite list_lookup_alter_ne by congruence. reflexivity.
  - apply neg_not_zero.
  - apply pos_not_zero.
Qed.

End SelfPotentialProps.


(** ** The centre-of-mass force of a group *)

Section CmForceProps.
Context {F : Type} `{F64Ops F}.
Local Open Scope f64_scope.





End CmForceProps.


Section CmForceBlock.
Context {F : Type} `{F64Ops F}.
Local Open Scope f64_scope.


End CmForceBlock.

Section CmForceVariants.
Context {F : Type} `{F64Ops F} `{ChangeOverFns F} `{Config} `{SearchGroupFns F}.
Variable manager : HardManager F.

(** Each variant runs the closing block on every group after the group's
    corrections: the cluster-scoped and the combined variant through
    [correctForceWithCutoffArtificalOneClusterImp], group by group ... *)
Lemma artificial_one_cluster_steps (_sys : list (FPSoft F)) (_ptcl_local : list (PtclH4 F))
    (a b n_group : nat) (adr_first : list nat) :
  correctForceWithCutoffArtificalOneClusterImp manager _sys _ptcl_local a b n_group adr_first =
  for_range 0 n_group
    (fun j sys =>
       cmForceBlock (newGroupPars (n_split manager)) (adr_first !!! j)
         (artificialPairLoops manager _ptcl_local a b n_group adr_first (adr_first !!! j) sys))
    _sys.
Proof. reflexivity. Qed.

(** ... and the tree-based variants block by block, once every particle has
    been corrected through the tree. *)
Lemma tree_neighbor_steps (_sys : list (FPSoft F)) (_tree : Tree F) (adr_start : nat) :
  correctForceWithCutoffTreeNeighborImp_all manager _sys _tree adr_start =
  for_stride adr_start (length _sys) (n_ptcl_artifical (newGroupPars (n_split manager)))
    (fun i sys => cmForceBlock (newGroupPars (n_split manager)) i sys)
    (for_range 0 (length _sys) (fun i sys => treeCorrect_at manager _tree i sys) _sys).
Proof. reflexivity. Qed.

End CmForceVariants.



(** ** The cluster builder *)

Lemma filter_snoc_length {A : Type} (P : A -> Prop) `{forall x, Decision (P x)}
    (M : list A) (x : A) :
  length (filter P (M ++ [x])) = length (filter P M) + (if decide (P x) then 1 else 0).
Proof.
  rewrite filter_app, length_app. f_equal.
  rewrite filter_cons, filter_nil. destruct (decide (P x)); reflexivity.
Qed.

Section BuilderProps.
Context {F : Type} `{F64Ops F}.
Local Open Scope f64_scope.



Lemma memberUpdate_radius (cm : PtclH4 F) (q : Ptcl F) :
  r_in_ (changeover (memberUpdate cm q)) = r_in_ (changeover q)
  /\ r_out_ (changeover (memberUpdate cm q)) = r_out_ (changeover q)
  /\ (if getRin (changeover q) != getRin (changeover (hp cm))
      then r_scale_next (changeover (memberUpdate cm q)) =
             getRin (changeover (hp cm)) / getRin (changeover q)
           /\ r_search (memberUpdate cm q) = fmax (r_search q) (r_search (hp cm))
      else r_scale_next (changeover (memberUpdate cm q)) = r_scale_next (changeover q)
           /\ r_search (memberUpdate cm q) = r_search q).
Proof.
  unfold memberUpdate. cbn.
  destruct (negb (getRin (changeover q) == getRin (changeover (hp cm)))); cbn; auto.
Qed.

Lemma memberUpdate_frame (cm : PtclH4 F) (q : Ptcl F) :
  pos (memberUpdate cm q) = pos q /\ vel (memberUpdate cm q) = vel q
  /\ id (memberUpdate cm q) = id q.
Proof. unfold memberUpdate. cbn. destruct (negb _); auto. Qed.

(** The member loop does not read the flag to write the particles. *)
Definition updateMemberCore (cm : PtclH4 F) (kl : nat) (b : BuilderState) : BuilderState :=
  (updateMember cm kl (b, false)).1.

Lemma updateMember_core (cm : PtclH4 F) (kl : nat) (b : BuilderState) (flag : bool) :
  (updateMember cm kl (b, flag)).1 = updateMemberCore cm kl b.
Proof.
  unfold updateMemberCore, updateMember.
  destruct (b_local b !! kl) as [pk|]; [|reflexivity].
  destruct (sys_index (adr_org pk)); reflexivity.
Qed.

Lemma sys_index_None (z : Z) : sys_index z = None <-> (z <? 0)%Z = true.
Proof.
  unfold sys_index. destruct (Z.leb_spec 0 z); split; intros Hx; try discriminate.
  - apply Z.ltb_lt in Hx. lia.
  - apply Z.ltb_lt. lia.
  - reflexivity.
Qed.

Lemma MembersDone_snoc (local0 : list (PtclH4 F)) (sys0 : list (FPSoft F))
    (n0 remote0 : nat) (M : list (PtclH4 F * nat)) (b : BuilderState)
    (cm : PtclH4 F) (kl : nat) :
  MembersDone local0 sys0 n0 remote0 M b ->
  kl ∉ M.*2 ->
  (forall a, mirrorOf local0 kl = Some a -> Some a ∉ mirrorOf local0 <$> M.*2) ->
  MembersDone local0 sys0 n0 remote0 (M ++ [(cm, kl)]) (updateMemberCore cm kl b).
Proof.
  intros [Hl Hlf Hs Hsf Hr] Hkl Hmir.
  assert (Hcur : b_local b !! kl = local0 !! kl) by (apply Hlf; exact Hkl).
  unfold updateMemberCore, updateMember. rewrite Hcur.
  destruct (local0 !! kl) as [pk|] eqn:Hpk.
  - (* the member is in range *)
    assert (Hrem : isRemote local0 kl = (adr_org pk <? 0)%Z).
    { unfold isRemote. rewrite Hpk. reflexivity. }
    assert (Hmk : mirrorOf local0 kl = sys_index (adr_org pk)).
    { unfold mirrorOf. rewrite Hpk. reflexivity. }
    destruct (sys_index (adr_org pk)) as [a|] eqn:Ha; cbn [fst].
    + (* local mirror *)
      assert (Hnr : (adr_org pk <? 0)%Z = false).
      { destruct (adr_org pk <? 0)%Z eqn:E; [|reflexivity].
        apply sys_index_None in E. congruence. }
      split; cbn [b_local b_sys b_remote].
      * intros cm' kl' p Hin Hp. rewrite elem_of_app in Hin.
        destruct Hin as [Hin|Hin].
        -- assert (kl' <> kl).
           { intros ->. apply Hkl. apply list_elem_of_fmap. exists (cm', kl). auto. }
           rewrite list_lookup_alter_ne by congruence. eapply Hl; eassumption.
        -- apply list_elem_of_singleton in Hin. inversion Hin; subst.
           rewrite list_lookup_alter_eq, Hcur. rewrite Hpk in Hp. inversion Hp; subst.
           reflexivity.
      * intros i Hi. rewrite fmap_app, elem_of_app in Hi. cbn in Hi.
        rewrite list_lookup_alter_ne.
        -- apply Hlf. tauto.
        -- intros ->. apply Hi. right. apply list_elem_of_singleton. reflexivity.
      * intros cm' kl' a' q Hin Ha' Hlt Hq. rewrite elem_of_app in Hin.
        destruct Hin as [Hin|Hin].
        -- assert (a' <> a).
           { intros ->. apply (Hmir a Hmk). apply list_elem_of_fmap.
             exists kl'. split; [congruence|]. apply list_elem_of_fmap.
             exists (cm', kl'). auto. }
           rewrite list_lookup_alter_ne by congruence. eapply Hs; eassumption.
        -- apply list_elem_of_singleton in Hin. inversion Hin; subst.
           assert (a' = a) by congruence. subst a'.
           rewrite list_lookup_alter_eq, (Hsf a Hlt (Hmir a Hmk)), Hq. reflexivity.
      * intros a' Hlt Hnot. rewrite !fmap_app, elem_of_app in Hnot. cbn in Hnot.
        rewrite list_lookup_alter_ne.
        -- apply Hsf; tauto.
        -- intros ->. apply Hnot. right. apply list_elem_of_singleton. congruence.
      * rewrite filter_snoc_length, Hr. cbn [snd]. rewrite Hrem, Hnr.
        destruct (decide (false = true)); [discriminate|]. lia.
    + (* remote member *)
      assert (Hisr : (adr_org pk <? 0)%Z = true) by (apply sys_index_None; exact Ha).
      split; cbn [b_local b_sys b_remote].
      * intros cm' kl' p Hin Hp. rewrite elem_of_app in Hin.
        destruct Hin as [Hin|Hin].
        -- assert (kl' <> kl).
           { intros ->. apply Hkl. apply list_elem_of_fmap. exists (cm', kl). auto. }
           rewrite list_lookup_alter_ne by congruence. eapply Hl; eassumption.
        -- apply list_elem_of_singleton in Hin. inversion Hin; subst.
           rewrite list_lookup_alter_eq, Hcur. rewrite Hpk in Hp. inversion Hp; subst.
           reflexivity.
      * intros i Hi. rewrite fmap_app, elem_of_app in Hi. cbn in Hi.
        rewrite list_lookup_alter_ne.
        -- apply Hlf. tauto.
        -- intros ->. apply Hi. right. apply list_elem_of_singleton. reflexivity.
      * intros cm' kl' a' q Hin Ha' Hlt Hq. rewrite elem_of_app in Hin.
        destruct Hin as [Hin|Hin].
        -- eapply Hs; eassumption.
        -- apply list_elem_of_singleton in Hin. inversion Hin; subst. congruence.
      * intros a' Hlt Hnot. rewrite !fmap_app, elem_of_app in Hnot.
        apply Hsf; tauto.
      * rewrite filter_snoc_length, Hr. cbn [snd]. rewrite Hrem, Hisr.
        destruct (decide (true = true)); [|congruence]. lia.
  - (* out of range: the statement is skipped *)
    cbn [fst].
    assert (Hrem : isRemote local0 kl = false).
    { unfold isRemote. rewrite Hpk. reflexivity. }
    assert (Hmk : mirrorOf local0 kl = None).
    { unfold mirrorOf. rewrite Hpk. reflexivity. }
    split.
    + intros cm' kl' p Hin Hp. rewrite elem_of_app in Hin.
      destruct Hin as [Hin|Hin]; [eapply Hl; eassumption|].
      apply list_elem_of_singleton in Hin. inversion Hin; subst. congruence.
    + intros i Hi. rewrite fmap_app, elem_of_app in Hi. apply Hlf. tauto.
    + intros cm' kl' a' q Hin Ha' Hlt Hq. rewrite elem_of_app in Hin.
      destruct Hin as [Hin|Hin]; [eapply Hs; eassumption|].
      apply list_elem_of_singleton in Hin. inversion Hin; subst. congruence.
    + intros a' Hlt Hnot. rewrite !fmap_app, elem_of_app in Hnot.
      apply Hsf; tauto.
    + rewrite filter_snoc_length, Hr. cbn [snd]. rewrite Hrem.
      destruct (decide (false = true)); [discriminate|]. lia.
Qed.

(** The invariant reads the store, [_ptcl_local] and the remote count only. *)
Lemma MembersDone_core (local0 : list (PtclH4 F)) (sys0 : list (FPSoft F))
    (n0 remote0 : nat) (M : list (PtclH4 F * nat)) (b b' : BuilderState) :
  MembersDone local0 sys0 n0 remote0 M b ->
  b_sys b' = b_sys b -> b_local b' = b_local b -> b_remote b' = b_remote b ->
  MembersDone local0 sys0 n0 remote0 M b'.
Proof.
  intros [Hl Hlf Hs Hsf Hr] Es El Er.
  split; rewrite ?Es, ?El, ?Er; assumption.
Qed.

(** Writes to the store at or above [n0] preserve the invariant. *)
Lemma MembersDone_store_above (local0 : list (PtclH4 F)) (sys0 : list (FPSoft F))
    (n0 remote0 : nat) (M : list (PtclH4 F * nat)) (b b' : BuilderState) :
  MembersDone local0 sys0 n0 remote0 M b ->
  (forall a, a < n0 -> b_sys b' !! a = b_sys b !! a) ->
  b_local b' = b_local b -> b_remote b' = b_remote b ->
  MembersDone local0 sys0 n0 remote0 M b'.
Proof.
  intros [Hl Hlf Hs Hsf Hr] Es El Er.
  split; rewrite ?El, ?Er; try assumption.
  - intros cm kl a q Hin Hm Hlt Hq. rewrite Es by exact Hlt. eapply Hs; eassumption.
  - intros a Hlt Hnot. rewrite Es by exact Hlt. apply Hsf; assumption.
Qed.

Lemma NoDup_snoc_not_in {A : Type} (l1 l2 : list A) (x : A) :
  NoDup (l1 ++ x :: l2) -> x ∉ l1.
Proof.
  intros Hnd Hin. apply NoDup_app in Hnd as (_ & Hdis & _).
  apply (Hdis x Hin). left.
Qed.

Lemma MembersDone_fold (local0 : list (PtclH4 F)) (sys0 : list (FPSoft F))
    (n0 remote0 : nat) (cm : PtclH4 F) (kls : list nat) :
  forall (M : list (PtclH4 F * nat)) (b : BuilderState),
    MembersDone local0 sys0 n0 remote0 M b ->
    NoDup (M.*2 ++ kls) ->
    NoDup (omap (mirrorOf local0) (M.*2 ++ kls)) ->
    MembersDone local0 sys0 n0 remote0 (M ++ map (pair cm) kls)
      (fold_left (fun b kl => updateMemberCore cm kl b) kls b).
Proof.
  induction kls as [|kl rest IH]; intros M b Hdone Hnd Hmir.
  - cbn. rewrite app_nil_r. exact Hdone.
  - cbn [fold_left map].
    replace (M ++ (cm, kl) :: map (pair cm) rest)
      with ((M ++ [(cm, kl)]) ++ map (pair cm) rest) by (rewrite <- app_assoc; reflexivity).
    apply IH.
    + apply MembersDone_snoc; [exact Hdone| |].
      * eapply NoDup_snoc_not_in. exact Hnd.
      * intros a Ha Hin.
        rewrite omap_app in Hmir. cbn in Hmir. rewrite Ha in Hmir.
        apply NoDup_snoc_not_in in Hmir. apply Hmir.
        apply list_elem_of_fmap in Hin as (kl' & Hkl' & Hin').
        apply list_elem_of_omap. exists kl'. split; [exact Hin'|congruence].
    + rewrite fmap_app. cbn. rewrite <- app_assoc. exact Hnd.
    + rewrite fmap_app. cbn. rewrite <- app_assoc. exact Hmir.
Qed.

Lemma member_loop_core (cm : PtclH4 F) (f : nat -> nat) (ks : list nat) :
  forall (b : BuilderState) (flag : bool),
    (fold_left (fun st k => updateMember cm (f k) st) ks (b, flag)).1 =
    fold_left (fun b kl => updateMemberCore cm kl b) (map f ks) b.
Proof.
  induction ks as [|k ks IH]; intros b flag; [reflexivity|].
  cbn [fold_left map].
  destruct (updateMember cm (f k) (b, flag)) as [b1 flag1] eqn:E.
  rewrite IH. f_equal.
  rewrite <- (updateMember_core cm (f k) b flag), E. reflexivity.
Qed.

End BuilderProps.

Section BuilderGroupProps.
Context {F : Type} `{F64Ops F} `{SearchGroupFns F}.
Variable manager : HardManager F.
Variables local0 : list (PtclH4 F).
Variables (sys0 : list (FPSoft F)) (n0 remote0 : nat).
Variables _n_ptcl_in_cluster_disp _n_group_in_cluster _n_group_in_cluster_offset : list nat.

(** One iteration of the group loop, on a block that decodes to the group
    [gr] the cursor points at: no assertion fails, the members of [gr] are
    written and the cursor moves on. *)
Lemma updateGroup_done (art' : list (PtclH4 F)) (t : nat) (gr : GroupRef)
    (cm first : PtclH4 F) (M : list (PtclH4 F * nat)) (b : BuilderState)
    (cur : GroupCursor) :
  let gp0 := newGroupPars (n_split manager) in
  let j := t * n_ptcl_artifical gp0 in
  readGroupIndex gp0 (drop j art') = (gr_members gr, gr_cluster gr, gr_index gr) ->
  art' !! (offset_cm gp0 + j) = Some cm ->
  art' !! j = Some first ->
  Z.of_nat (gr_index gr) = (j_group_recored cur + 1)%Z ->
  gr_offset gr = group_offset cur ->
  gr_index gr <= _n_group_in_cluster !!! gr_cluster gr ->
  MembersDone local0 sys0 n0 remote0 M b ->
  NoDup (M.*2 ++ groupMemberIndices _n_ptcl_in_cluster_disp gr) ->
  NoDup (omap (mirrorOf local0) (M.*2 ++ groupMemberIndices _n_ptcl_in_cluster_disp gr)) ->
  exists b',
    updateGroup manager _n_ptcl_in_cluster_disp _n_group_in_cluster
      _n_group_in_cluster_offset art' j (b, cur) =
    Some (b', nextCursor _n_group_in_cluster cur gr)
    /\ MembersDone local0 sys0 n0 remote0
         (M ++ map (pair cm) (groupMemberIndices _n_ptcl_in_cluster_disp gr)) b'.
Proof.
  intros gp0 j Hdec Hcm Hfirst Hidx Hoff Hle Hdone Hnd Hmir.
  unfold updateGroup, getGroupIndex. fold gp0. rewrite Hdec.
  cbn [offset_cm i_group i_cluster n_members]. rewrite Hcm, Hfirst.
  rewrite Hidx, Z.eqb_refl. cbn [negb].
  unfold for_range. rewrite Nat.sub_0_r.
  pose proof (member_loop_core cm
                (fun k => _n_ptcl_in_cluster_disp !!! gr_cluster gr + group_offset cur + k)
                (seq 0 (gr_members gr)) b false) as Hcore.
  destruct (fold_left _ (seq 0 (gr_members gr)) (b, false)) as [b1 flag] eqn:Eloop.
  cbn [fst] in Hcore.
  assert (Hb1 : MembersDone local0 sys0 n0 remote0
                  (M ++ map (pair cm) (groupMemberIndices _n_ptcl_in_cluster_disp gr)) b1).
  { rewrite Hcore. unfold groupMemberIndices in *. rewrite Hoff in *.
    apply MembersDone_fold; assumption. }
  destruct (Nat.leb_spec (gr_index gr) (_n_group_in_cluster !!! gr_cluster gr)) as [_|Hgt];
    [|lia].
  cbn [negb].
  eexists. split.
  - unfold nextCursor. rewrite <- Hidx. reflexivity.
  - eapply MembersDone_core; [exact Hb1| | |]; reflexivity.
Qed.

Lemma snd_map_pair (cm : PtclH4 F) (kls : list nat) : (map (pair cm) kls).*2 = kls.
Proof. induction kls as [|k ks IH]; [reflexivity|]. cbn. rewrite IH. reflexivity. Qed.

(** The group loop of a thread, from block [b0] on, over the groups [grs]
    the blocks decode to. *)
Lemma thread_groups_done (art' : list (PtclH4 F)) (nb : nat) :
  let gp0 := newGroupPars (n_split manager) in
  0 < n_ptcl_artifical gp0 ->
  offset_cm gp0 < n_ptcl_artifical gp0 ->
  length art' = n_ptcl_artifical gp0 * nb ->
  forall (grs : list GroupRef) (b0 : nat) (M : list (PtclH4 F * nat))
         (b : BuilderState) (cur : GroupCursor),
    b0 + length grs <= nb ->
    (forall i gr, grs !! i = Some gr ->
       readGroupIndex gp0 (drop ((b0 + i) * n_ptcl_artifical gp0) art') =
       (gr_members gr, gr_cluster gr, gr_index gr)) ->
    CursorChain _n_group_in_cluster cur grs ->
    MembersDone local0 sys0 n0 remote0 M b ->
    NoDup (M.*2 ++ (blockMembers gp0 _n_ptcl_in_cluster_disp art' b0 grs).*2) ->
    NoDup (omap (mirrorOf local0)
             (M.*2 ++ (blockMembers gp0 _n_ptcl_in_cluster_disp art' b0 grs).*2)) ->
    exists b',
      fold_left
        (fun st t =>
           st ≫= updateGroup manager _n_ptcl_in_cluster_disp _n_group_in_cluster
                    _n_group_in_cluster_offset art' (0 + t * n_ptcl_artifical gp0))
        (seq b0 (length grs)) (Some (b, cur)) =
      Some (b', mkGroupCursor 0 (-1))
      /\ MembersDone local0 sys0 n0 remote0
           (M ++ blockMembers gp0 _n_ptcl_in_cluster_disp art' b0 grs) b'.
Proof.
  intros gp0 Hpos Hcmlt Hlen. subst gp0.
  set (gp0 := newGroupPars (n_split manager)) in *.
  induction grs as [|gr grs IH]; intros b0 M b cur Hnb Hdec Hchain Hdone Hnd Hmir.
  - cbn in Hchain. subst cur. cbn. exists b. rewrite app_nil_r. auto.
  - cbn [length seq fold_left]. cbn [CursorChain] in Hchain.
    destruct Hchain as (Hidx & Hoff & Hle & Hchain).
    cbn [length] in Hnb.
    assert (Hin1 : offset_cm gp0 + b0 * n_ptcl_artifical gp0 < length art').
    { rewrite Hlen. nia. }
    assert (Hin2 : b0 * n_ptcl_artifical gp0 < length art').
    { rewrite Hlen. nia. }
    destruct (lookup_lt_is_Some_2 _ _ Hin1) as [cm Hcm].
    destruct (lookup_lt_is_Some_2 _ _ Hin2) as [first Hfirst].
    cbn [blockMembers] in Hnd, Hmir |- *.
    rewrite Hcm in Hnd, Hmir |- *.
    rewrite fmap_app, snd_map_pair in Hnd, Hmir.
    rewrite !app_assoc in Hnd, Hmir.
    assert (Hnd1 : NoDup (M.*2 ++ groupMemberIndices _n_ptcl_in_cluster_disp gr)).
    { apply NoDup_app in Hnd as (Hx & _ & _). exact Hx. }
    assert (Hmir1 : NoDup (omap (mirrorOf local0)
                             (M.*2 ++ groupMemberIndices _n_ptcl_in_cluster_disp gr))).
    { rewrite omap_app in Hmir. apply NoDup_app in Hmir as (Hx & _ & _). exact Hx. }
    pose proof (Hdec 0 gr eq_refl) as Hdec0. rewrite Nat.add_0_r in Hdec0.
    destruct (updateGroup_done art' b0 gr cm first M b cur Hdec0 Hcm Hfirst Hidx Hoff Hle
                Hdone Hnd1 Hmir1) as (b1 & Hstep & Hdone1).
    cbn [mbind option_bind].
    change (0 + b0 * n_ptcl_artifical gp0) with (b0 * n_ptcl_artifical gp0).
    unfold gp0 in Hstep |- *. rewrite Hstep. fold gp0.
    destruct (IH (S b0) (M ++ map (pair cm) (groupMemberIndices _n_ptcl_in_cluster_disp gr))
                b1 (nextCursor _n_group_in_cluster cur gr)) as (b2 & Hfold & Hdone2).
    + lia.
    + intros i gr' Hi. replace (S b0 + i) with (b0 + S i) by lia. apply Hdec. exact Hi.
    + exact Hchain.
    + exact Hdone1.
    + rewrite fmap_app, snd_map_pair. exact Hnd.
    + rewrite fmap_app, snd_map_pair. exact Hmir.
    + exists b2. split; [exact Hfold|]. rewrite app_assoc. exact Hdone2.
Qed.

(** The groups of a thread, as the detector lays them out, are walked by the
    cursor from and to its reset state. *)
Lemma runGroups_chain (c : nat) (rest : list GroupRef) (ms : list nat) :
  CursorChain _n_group_in_cluster (mkGroupCursor 0 (-1)) rest ->
  forall g off,
    ms <> [] ->
    g + length ms = _n_group_in_cluster !!! c ->
    CursorChain _n_group_in_cluster (mkGroupCursor off (Z.of_nat g - 1))
      (runGroups c g off ms ++ rest).
Proof.
  intros Hrest. induction ms as [|m ms IH]; intros g off Hne Hlen; [congruence|].
  cbn [runGroups app CursorChain gr_index gr_offset gr_cluster gr_members
       j_group_recored group_offset].
  cbn [length] in Hlen.
  split; [lia|]. split; [reflexivity|]. split; [lia|].
  unfold nextCursor. cbn [gr_index gr_cluster gr_members group_offset].
  destruct ms as [|m' ms'].
  - cbn [length] in Hlen.
    destruct (Z.eqb_spec (Z.of_nat g) (Z.of_nat (_n_group_in_cluster !!! c) - 1)) as [_|Hne'];
      [|lia].
    cbn. exact Hrest.
  - cbn [length] in Hlen.
    destruct (Z.eqb_spec (Z.of_nat g) (Z.of_nat (_n_group_in_cluster !!! c) - 1)) as [He|_];
      [lia|].
    replace (Z.of_nat g) with (Z.of_nat (S g) - 1)%Z by lia.
    apply IH; [discriminate|cbn [length]; lia].
Qed.

Lemma threadGroups_chain (runs : GroupLayout) :
  (forall c ms, (c, ms) ∈ runs -> ms <> [] /\ _n_group_in_cluster !!! c = length ms) ->
  CursorChain _n_group_in_cluster (mkGroupCursor 0 (-1)) (threadGroups runs).
Proof.
  induction runs as [|[c ms] runs IH]; intros Hwf; [reflexivity|].
  unfold threadGroups. cbn [flat_map fst snd].
  destruct (Hwf c ms ltac:(left)) as [Hne Hlen].
  assert (Hrest : CursorChain _n_group_in_cluster (mkGroupCursor 0 (-1))
                    (threadGroups runs)).
  { apply IH. intros c' ms' Hin. apply Hwf. right. exact Hin. }
  exact (runGroups_chain c (threadGroups runs) ms Hrest 0 0 Hne ltac:(lia)).
Qed.

Context `{SoftFns F}.

(** The body of the second parallel loop for one thread. *)
Lemma updateThread_done (offset : nat) (art : list (PtclH4 F)) (runs : GroupLayout)
    (M : list (PtclH4 F * nat)) (b : BuilderState) :
  let gp0 := newGroupPars (n_split manager) in
  0 < n_ptcl_artifical gp0 ->
  offset_cm gp0 < n_ptcl_artifical gp0 ->
  ThreadWF manager _n_group_in_cluster offset art runs ->
  n0 <= offset ->
  MembersDone local0 sys0 n0 remote0 M b ->
  NoDup (M.*2 ++ (threadMembers gp0 _n_ptcl_in_cluster_disp offset art runs).*2) ->
  NoDup (omap (mirrorOf local0)
           (M.*2 ++ (threadMembers gp0 _n_ptcl_in_cluster_disp offset art runs).*2)) ->
  exists b',
    updateThread manager _n_ptcl_in_cluster_disp _n_group_in_cluster
      _n_group_in_cluster_offset offset art b = Some b'
    /\ MembersDone local0 sys0 n0 remote0
         (M ++ threadMembers gp0 _n_ptcl_in_cluster_disp offset art runs) b'.
Proof.
  intros gp0 Hpos Hcmlt [Hlen Hdec Hruns] Hoff Hdone Hnd Hmir. subst gp0.
  set (gp0 := newGroupPars (n_split manager)) in *.
  unfold updateThread. fold gp0.
  destruct (Nat.eqb_spec (n_ptcl_artifical gp0) 0) as [Hz|_]; [lia|].
  assert (Hmod : length art mod n_ptcl_artifical gp0 = 0).
  { rewrite Hlen, Nat.mul_comm. apply Nat.Div0.mod_mul. }
  rewrite Hmod. cbn [Nat.eqb negb].
  fold (stamped offset art).
  set (sys1 := for_range 0 (length art) _ (b_sys b)).
  assert (Hsys1 : forall a, a < n0 -> sys1 !! a = b_sys b !! a).
  { intros a Ha. unfold sys1.
    pose (P := fun (k : nat) (st : list (FPSoft F)) => st !! a = b_sys b !! a).
    apply (for_range_ind P); subst P; cbv beta; [lia|reflexivity|].
    intros k st Hk IH. destruct (stamped offset art !! k); [|exact IH].
    rewrite list_lookup_insert_ne by lia. exact IH. }
  set (b1 := mkBuilderState sys1 (b_local b) (b_remote b) (b_flagged b) (b_adr_first b)).
  assert (Hdone1 : MembersDone local0 sys0 n0 remote0 M b1).
  { eapply MembersDone_store_above; [exact Hdone|exact Hsys1|reflexivity|reflexivity]. }
  unfold for_stride.
  destruct (Nat.eqb_spec (n_ptcl_artifical gp0) 0) as [Hz|_]; [lia|].
  assert (Hcount : (length art - 0 + n_ptcl_artifical gp0 - 1) / n_ptcl_artifical gp0 =
                   length (threadGroups runs)).
  { symmetry. apply (Nat.div_unique _ _ _ (n_ptcl_artifical gp0 - 1)); [lia|].
    rewrite Hlen. lia. }
  rewrite Hcount.
  assert (Hlen' : length (stamped offset art) =
                  n_ptcl_artifical gp0 * length (threadGroups runs)).
  { unfold stamped. rewrite length_imap. exact Hlen. }
  destruct (thread_groups_done (stamped offset art) (length (threadGroups runs))
              Hpos Hcmlt Hlen' (threadGroups runs) 0 M b1 (mkGroupCursor 0 (-1))
              (le_n _) Hdec (threadGroups_chain runs Hruns) Hdone1 Hnd Hmir)
    as (b2 & Hfold & Hdone2).
  exists b2. split; [|exact Hdone2].
  unfold gp0 in Hfold |- *. rewrite Hfold. reflexivity.
Qed.

(** The threads, from thread [t] on. *)
Lemma threads_done (offsets : list nat) (arts : list (list (PtclH4 F))) :
  let gp0 := newGroupPars (n_split manager) in
  0 < n_ptcl_artifical gp0 ->
  offset_cm gp0 < n_ptcl_artifical gp0 ->
  forall (rest : list (list (PtclH4 F))) (layout : list GroupLayout) (t : nat)
         (M : list (PtclH4 F * nat)) (b : BuilderState),
    length layout = length rest ->
    (forall i art, rest !! i = Some art -> arts !! (t + i) = Some art) ->
    (forall i art runs, rest !! i = Some art -> layout !! i = Some runs ->
       ThreadWF manager _n_group_in_cluster (offsets !!! (t + i)) art runs
       /\ n0 <= offsets !!! (t + i)) ->
    MembersDone local0 sys0 n0 remote0 M b ->
    NoDup (M.*2 ++ (allMembers gp0 _n_ptcl_in_cluster_disp offsets t rest layout).*2) ->
    NoDup (omap (mirrorOf local0)
             (M.*2 ++ (allMembers gp0 _n_ptcl_in_cluster_disp offsets t rest layout).*2)) ->
    exists b',
      fold_left
        (fun st i =>
           st ≫= updateThread manager _n_ptcl_in_cluster_disp _n_group_in_cluster
                    _n_group_in_cluster_offset (offsets !!! i) (arts !!! i))
        (seq t (length rest)) (Some b) = Some b'
      /\ MembersDone local0 sys0 n0 remote0
           (M ++ allMembers gp0 _n_ptcl_in_cluster_disp offsets t rest layout) b'.
Proof.
  intros gp0 Hpos Hcmlt. subst gp0.
  set (gp0 := newGroupPars (n_split manager)) in *.
  induction rest as [|art rest IH]; intros layout t M b Hlen Harts Hwf Hdone Hnd Hmir.
  - cbn. exists b. rewrite app_nil_r. auto.
  - destruct layout as [|runs layout]; [discriminate|].
    cbn [length seq fold_left allMembers] in *.
    destruct (Hwf 0 art runs eq_refl eq_refl) as [Htwf Hoff].
    rewrite Nat.add_0_r in Htwf, Hoff.
    rewrite fmap_app, !app_assoc in Hnd, Hmir.
    assert (Hnd1 : NoDup (M.*2 ++ (threadMembers gp0 _n_ptcl_in_cluster_disp
                                     (offsets !!! t) art runs).*2)).
    { apply NoDup_app in Hnd as (Hx & _ & _). exact Hx. }
    assert (Hmir1 : NoDup (omap (mirrorOf local0)
                      (M.*2 ++ (threadMembers gp0 _n_ptcl_in_cluster_disp
                                  (offsets !!! t) art runs).*2))).
    { rewrite omap_app in Hmir. apply NoDup_app in Hmir as (Hx & _ & _). exact Hx. }
    destruct (updateThread_done (offsets !!! t) art runs M b Hpos Hcmlt Htwf Hoff Hdone
                Hnd1 Hmir1) as (b1 & Hstep & Hdone1).
    assert (Hart : arts !!! t = art).
    { apply list_lookup_total_correct. rewrite <- (Nat.add_0_r t). apply Harts. reflexivity. }
    cbn [mbind option_bind]. rewrite Hart.
    unfold gp0 in Hstep |- *. rewrite Hstep. fold gp0.
    destruct (IH layout (S t)
                (M ++ threadMembers gp0 _n_ptcl_in_cluster_disp (offsets !!! t) art runs) b1)
      as (b2 & Hfold & Hdone2).
    + cbn in Hlen. lia.
    + intros i art' Hi. replace (S t + i) with (t + S i) by lia. apply Harts. exact Hi.
    + intros i art' runs' Hi Hr. replace (S t + i) with (t + S i) by lia.
      apply Hwf; assumption.
    + exact Hdone1.
    + rewrite fmap_app. exact Hnd.
    + rewrite fmap_app. exact Hmir.
    + exists b2. split; [exact Hfold|]. rewrite app_assoc. exact Hdone2.
Qed.

End BuilderGroupProps.

Section BuilderMain.
Context {F : Type} `{F64Ops F} `{SearchGroupFns F} `{SoftFns F}.
Variable manager : HardManager F.

(** Every thread offset is at or above the number of real particles. *)
Lemma threadOffsets_ge (n_local : nat) (arts : list (list (PtclH4 F))) (i : nat) :
  i <= length arts -> n_local <= threadOffsets n_local arts !!! i.
Proof.
  intros Hi. unfold threadOffsets.
  pose (P := fun (k : nat) (offs : list nat) =>
               length offs = S k /\ Forall (fun x => n_local <= x) offs).
  assert (HP : P (length arts)
                 (for_range 0 (length arts)
                    (fun i offs => offs ++ [offs !!! i + length (arts !!! i)]) [n_local])).
  { apply (for_range_ind P); subst P; cbv beta; [lia| |].
    - split; [reflexivity|]. repeat constructor.
    - intros k offs Hk [Hlen Hall]. split.
      + rewrite length_app, Hlen. cbn. lia.
      + apply Forall_app. split; [exact Hall|].
        constructor; [|constructor].
        destruct (lookup_lt_is_Some_2 offs k ltac:(lia)) as [x Hx].
        rewrite (list_lookup_total_correct _ _ _ Hx).
        pose proof (Forall_lookup_1 _ _ _ _ Hall Hx). cbn in *. lia. }
  destruct HP as [Hlen Hall].
  destruct (lookup_lt_is_Some_2 _ i ltac:(rewrite Hlen; lia)) as [x Hx].
  rewrite (list_lookup_total_correct _ _ _ Hx).
  exact (Forall_lookup_1 _ _ _ _ Hall Hx).
Qed.

Lemma setNumberOfParticleLocal_below (n : nat) (_sys : list (FPSoft F)) (a : nat) :
  length _sys <= n -> a < length _sys ->
  setNumberOfParticleLocal n _sys !! a = _sys !! a.
Proof.
  intros Hn Ha. unfold setNumberOfParticleLocal.
  rewrite take_ge by lia. apply lookup_app_l. exact Ha.
Qed.

(** The second parallel loop on a well-formed output of the detector: no
    assertion fails, and every member of every group has been written once,
    with the centre of mass of its group. *)
Lemma updateGroupMembers_done (hard : SystemHard F) (g : Generated)
    (layout : list GroupLayout) :
  BuilderWF manager hard g layout ->
  exists (b' : BuilderState) (hard' : SystemHard F),
    updateGroupMembers manager hard g = Some (b_sys b', hard')
    /\ ptcl_hard_ hard' = b_local b'
    /\ n_group_member_remote_ hard' = b_remote b'
    /\ MembersDone (g_local g) (g_sys g) (length (g_sys g)) 0
         (allMembers (newGroupPars (n_split manager)) (n_ptcl_in_cluster_disp_ hard)
            (threadOffsets (length (g_sys g)) (g_artifical g)) 0 (g_artifical g) layout)
         b'.
Proof.
  intros [Hpos Hcmlt Hthreads Hthread Hnd Hmir].
  unfold updateGroupMembers.
  set (offsets := threadOffsets (length (g_sys g)) (g_artifical g)) in *.
  set (b0 := mkBuilderState _ (g_local g) 0 [] _).
  assert (Hdone0 : MembersDone (g_local g) (g_sys g) (length (g_sys g)) 0 [] b0).
  { split; cbn.
    - intros cm kl p Hin. inversion Hin.
    - reflexivity.
    - intros cm kl a q Hin. inversion Hin.
    - intros a Ha _. apply setNumberOfParticleLocal_below; [|exact Ha].
      apply threadOffsets_ge. lia.
    - reflexivity. }
  unfold for_range. rewrite Nat.sub_0_r.
  destruct (threads_done manager (g_local g) (g_sys g) (length (g_sys g)) 0
              (n_ptcl_in_cluster_disp_ hard) (g_n_group_in_cluster g)
              (groupOffsetTable (g_n_group_in_cluster g)) offsets (g_artifical g)
              Hpos Hcmlt (g_artifical g) layout 0 [] b0 Hthreads)
    as (b' & Hfold & Hdone); try assumption.
  - intros i art Hi. exact Hi.
  - intros i art runs Hi Hr. split.
    + apply Hthread; assumption.
    + apply threadOffsets_ge. apply lookup_lt_Some in Hi. cbn. lia.
  - rewrite Hfold. cbn. eexists b', _. split; [reflexivity|]. cbn. auto.
Qed.

End BuilderMain.

Section BuilderClaims.
Context {F : Type} `{F64Ops F} `{SearchGroupFns F} `{SoftFns F} `{OmpFns}
        `{GroupDetectorFns F}.
Variable manager : HardManager F.

(** The centre of mass that comes with a member is a particle of a thread's
    artificial list, stamped with the address at which the builder stores
    it. *)
Lemma blockMembers_cm (gpar : GroupPars) (disp : list nat) (art' : list (PtclH4 F))
    (grs : list GroupRef) :
  forall b0 cm kl,
    (cm, kl) ∈ blockMembers gpar disp art' b0 grs -> exists j, art' !! j = Some cm.
Proof.
  induction grs as [|gr grs IH]; intros b0 cm kl Hin; [inversion Hin|].
  cbn [blockMembers] in Hin. apply elem_of_app in Hin as [Hin|Hin].
  - destruct (art' !! _) as [cm'|] eqn:E; [|inversion Hin].
    apply list_elem_of_fmap in Hin as (kl' & Heq & _). inversion Heq; subst.
    eexists. exact E.
  - eapply IH. exact Hin.
Qed.

Lemma allMembers_cm (gpar : GroupPars) (disp offsets : list nat)
    (arts : list (list (PtclH4 F))) :
  forall (layout : list GroupLayout) (t0 : nat) cm kl,
    (cm, kl) ∈ allMembers gpar disp offsets t0 arts layout ->
    exists i art j,
      arts !! i = Some art /\ j < length art
      /\ adr_org cm = Z.of_nat (j + offsets !!! (t0 + i)).
Proof.
  induction arts as [|art arts IH]; intros layout t0 cm kl Hin; [inversion Hin|].
  destruct layout as [|runs layout]; [inversion Hin|].
  cbn [allMembers] in Hin. apply elem_of_app in Hin as [Hin|Hin].
  - apply blockMembers_cm in Hin as [j Hj].
    unfold stamped in Hj. rewrite list_lookup_imap in Hj.
    destruct (art !! j) as [p|] eqn:E; [|discriminate].
    cbn in Hj. inversion Hj; subst.
    exists 0, art, j. rewrite Nat.add_0_r.
    split; [reflexivity|]. split; [eapply lookup_lt_Some; exact E|reflexivity].
  - destruct (IH layout (S t0) cm kl Hin) as (i & art' & j & Hi & Hj & Hadr).
    exists (S i), art', j. replace (t0 + S i) with (S t0 + i) by lia. auto.
Qed.

Local Open Scope f64_scope.

(** C6.  In the cluster builder, a group member whose changeover inner
    radius differs from that of the centre of mass of its group has the new
    radius staged, [r_scale_next] being the inner radius of the centre of
    mass over its own, with its committed radii unchanged, and its search
    radius raised to the maximum of its old value and the search radius of
    the centre of mass; a member whose inner radius equals that of the
    centre of mass keeps [r_scale_next] and [r_search].  This holds of the
    local copy and of the mirror in the store. *)
Theorem builder_member_staged_radius (hard : SystemHard F) (_sys : list (FPSoft F))
    (_dt_tree : F) (layout : list GroupLayout) :
  let g := generateGroups manager _sys (ptcl_hard_ hard) (n_ptcl_in_cluster_ hard)
             (n_ptcl_in_cluster_disp_ hard) _dt_tree in
  let offsets := threadOffsets (length (g_sys g)) (g_artifical g) in
  let members :=
    allMembers (newGroupPars (n_split manager)) (n_ptcl_in_cluster_disp_ hard) offsets 0
      (g_artifical g) layout in
  let staged_as (cm : PtclH4 F) (old new : Ptcl F) : Prop :=
    r_in_ (changeover new) = r_in_ (changeover old)
    /\ r_out_ (changeover new) = r_out_ (changeover old)
    /\ (if getRin (changeover old) != getRin (changeover (hp cm))
        then r_scale_next (changeover new) =
               getRin (changeover (hp cm)) / getRin (changeover old)
             /\ r_search new = fmax (r_search old) (r_search (hp cm))
        else r_scale_next (changeover new) = r_scale_next (changeover old)
             /\ r_search new = r_search old) in
  BuilderWF manager hard g layout ->
  exists (sys' : list (FPSoft F)) (hard' : SystemHard F),
    findGroupsAndCreateArtificalParticlesImpl manager hard _sys _dt_tree = Some (sys', hard')
    /\ forall cm kl p,
         (cm, kl) ∈ members -> g_local g !! kl = Some p ->
         (exists p', ptcl_hard_ hard' !! kl = Some p' /\ staged_as cm (hp p) (hp p'))
         /\ (forall adr q,
               sys_index (adr_org p) = Some adr -> g_sys g !! adr = Some q ->
               exists q', sys' !! adr = Some q' /\ staged_as cm (fp q) (fp q')).
Proof.
  intros g offsets members staged_as Hwf.
  destruct (updateGroupMembers_done manager hard g layout Hwf)
    as (b' & hard' & Hrun & Hlocal & Hremote & [Hl Hlf Hs Hsf Hr]).
  exists (b_sys b'), hard'. split; [exact Hrun|].
  intros cm kl p Hin Hp. split.
  - exists (set_hp (memberUpdate cm) p). rewrite Hlocal.
    split; [eapply Hl; eassumption|]. apply memberUpdate_radius.
  - intros adr q Hadr Hq. exists (set_fp (memberUpdate cm) q). split.
    + eapply Hs; [exact Hin| |eapply lookup_lt_Some; exact Hq|exact Hq].
      unfold mirrorOf. rewrite Hp. exact Hadr.
    + apply memberUpdate_radius.
Qed.

End BuilderClaims.

(** The example cluster is a well-formed input of the member loops. *)
Lemma ex_BuilderWF :
  @BuilderWF float ex_SearchGroupFns ex_manager ex_hard
    (@generateGroups float _ ex_OmpFns ex_GroupDetectorFns ex_manager ex_store
       (ptcl_hard_ ex_hard) (n_ptcl_in_cluster_ ex_hard) (n_ptcl_in_cluster_disp_ ex_hard) f1)
    ex_layout.
Proof.
  split.
  - vm_compute. lia.
  - vm_compute. lia.
  - reflexivity.
  - intros t art runs Ht Hr.
    destruct t as [|t]; [|vm_compute in Hr; discriminate].
    vm_compute in Hr. inversion Hr; subst runs. clear Hr.
    vm_compute in Ht. inversion Ht; subst art. clear Ht.
    split.
    + reflexivity.
    + intros i gr Hi. destruct i as [|i]; [|vm_compute in Hi; discriminate].
      vm_compute in Hi. inversion Hi; subst gr. vm_compute. reflexivity.
    + intros c ms Hin. apply list_elem_of_singleton in Hin. inversion Hin; subst.
      split; [discriminate|reflexivity].
  - vm_compute. apply NoDup_cons. split; [|apply NoDup_singleton].
    intros Hin. apply list_elem_of_singleton in Hin. discriminate.
  - vm_compute. apply NoDup_singleton.
Qed.

(** The witness of [builder_member_staged_radius], in binary64: the members
    of [ex_cluster] have the inner radius 1 and the search radius 8, the
    centre of mass of their group the inner radius 2 and the search radius
    16; the mirror of the first member ends with [r_scale_next = 2], its
    radii 1 and 3 unchanged, and the search radius 16. *)
Lemma builder_member_staged_radius_witness :
  exists (sys' : list (FPSoft float)) (hard' : SystemHard float),
    @findGroupsAndCreateArtificalParticlesImpl float _ ex_SearchGroupFns ex_SoftFns
      ex_OmpFns ex_GroupDetectorFns ex_manager ex_hard ex_store f1 = Some (sys', hard')
    /\ exists q', sys' !! 0 = Some q'
                  /\ r_scale_next (changeover (fp q')) = f2
                  /\ r_in_ (changeover (fp q')) = f1
                  /\ r_out_ (changeover (fp q')) = f3
                  /\ r_search (fp q') = (f8 + f8)%f64.
Proof.
  destruct (@builder_member_staged_radius float _ ex_SearchGroupFns ex_SoftFns
              ex_OmpFns ex_GroupDetectorFns ex_manager ex_hard ex_store f1 ex_layout
              ex_BuilderWF) as (sys' & hard' & Hrun & Hmem).
  exists sys', hard'. split; [exact Hrun|].
  destruct (Hmem (set_adr_org 7 (ex_art_ptcl 0 (mkChangeOver f2 (f4 + f2)%f64 f1)
                                   (f8 + f8)%f64))
                 0 (ex_hard_ptcl f1 f0 0)) as (_ & Hq).
  - vm_compute. left.
  - reflexivity.
  - destruct (Hq 0 (ex_soft 0 f1 f0 f0 ex_changeover) eq_refl eq_refl)
      as (q' & Hq' & Hin & Hout & Hst).
    exists q'. split; [exact Hq'|].
    match type of Hst with
    | if ?c then _ else _ => destruct c eqn:E; [|vm_compute in E; discriminate E]
    end.
    destruct Hst as [Hsc Hrs].
    rewrite Hsc, Hin, Hout, Hrs. vm_compute. auto.
Defined.

(** ** The changeover-transition correction *)

Lemma alter_id_at {A : Type} (f : A -> A) (i : nat) (l : list A) :
  (forall x, l !! i = Some x -> f x = x) -> alter f i l = l.
Proof.
  intros Hf. apply list_eq. intros j.
  destruct (decide (j = i)) as [->|Hne].
  - rewrite list_lookup_alter_eq. destruct (l !! i) as [x|] eqn:E; [|reflexivity].
    cbn. rewrite (Hf x eq_refl). reflexivity.
  - rewrite list_lookup_alter_ne by congruence. reflexivity.
Qed.

Lemma for_range_fix {S : Type} (a b : nat) (body : nat -> S -> S) (s : S) :
  (forall k, a <= k < b -> body k s = s) -> for_range a b body s = s.
Proof.
  intros Hfix. destruct (le_lt_dec a b) as [Hle|Hgt].
  - pose (P := fun (_ : nat) (st : S) => st = s).
    apply (for_range_ind P); subst P; cbv beta; [exact Hle|reflexivity|].
    intros k st Hk ->. apply Hfix. exact Hk.
  - apply for_range_nil. lia.
Qed.

Section ChangeOverQuiet.
Context {F : Type} `{F64One F} `{ChangeOverFns F} `{SearchGroupFns F}.
Variable manager : HardManager F.
Local Open Scope f64_scope.

(** A particle is quiet when it carries no staged multiplier. *)
Lemma staged_false (c : ChangeOver F) : r_scale_next c = f1 -> staged c = false.
Proof.
  intros Hc. unfold staged. rewrite Hc.
  rewrite (proj2 (eqb_one f1) eq_refl). reflexivity.
Qed.

Lemma staged_true (c : ChangeOver F) : r_scale_next c <> f1 -> staged c = true.
Proof.
  intros Hc. unfold staged. destruct (r_scale_next c == f1) eqn:E; [|reflexivity].
  apply eqb_one in E. contradiction.
Qed.

(** Committing a quiet changeover leaves it as it is. *)
Lemma updateWithRScale_quiet (c : ChangeOver F) :
  r_scale_next c = f1 -> updateWithRScale c = c.
Proof.
  intros Hc. destruct c as [rin rout rs]. cbn in Hc. subst rs.
  unfold updateWithRScale. cbn. rewrite !mul_one_r. reflexivity.
Qed.

Lemma updateWithRScale_commits (c : ChangeOver F) :
  r_scale_next (updateWithRScale c) = f1.
Proof. reflexivity. Qed.

Lemma commit_soft_quiet (p : FPSoft F) :
  r_scale_next (changeover (fp p)) = f1 -> commit_soft p = p.
Proof.
  intros Hp. unfold commit_soft, set_fp, set_changeover.
  rewrite (updateWithRScale_quiet _ Hp). destruct p as [[] ? ?]. reflexivity.
Qed.

Lemma commit_hard_quiet (p : PtclH4 F) :
  r_scale_next (changeover (hp p)) = f1 -> commit_hard p = p.
Proof.
  intros Hp. unfold commit_hard, set_hp, set_changeover.
  rewrite (updateWithRScale_quiet _ Hp). destruct p as [[] ? ?]. reflexivity.
Qed.

(** The neighbour loop writes the acceleration only, and nothing at all on a
    quiet particle whose neighbour entries are quiet. *)
Lemma changeOverNeighborLoop_fp (_tree : Tree F) (p : FPSoft F) :
  fp (changeOverNeighborLoop manager _tree p) = fp p.
Proof.
  unfold changeOverNeighborLoop.
  generalize (staged (changeover (fp p))). intros change_i.
  generalize (_tree p). intros nbs. revert p.
  induction nbs as [|nb nbs IH]; intros p; [reflexivity|].
  cbn [fold_left]. rewrite IH.
  destruct (Z.eqb _ _); [reflexivity|].
  destruct (_ || _); reflexivity.
Qed.

Lemma changeOverNeighborLoop_quiet (_tree : Tree F) (p : FPSoft F) :
  (forall nb, nb ∈ _tree p -> epj_r_scale_next nb = f1) ->
  r_scale_next (changeover (fp p)) = f1 ->
  changeOverNeighborLoop manager _tree p = p.
Proof.
  intros Hnb Hp. unfold changeOverNeighborLoop.
  rewrite (staged_false _ Hp).
  induction (_tree p) as [|nb nbs IH]; [reflexivity|].
  cbn [fold_left].
  assert (Hq : epj_r_scale_next nb = f1) by (apply Hnb; left).
  rewrite Hq, (proj2 (eqb_one f1) eq_refl). cbn [negb orb].
  destruct (Z.eqb _ _); apply IH; intros nb' Hin; apply Hnb; right; exact Hin.
Qed.

(** The corrections on the store leave the particle data of every particle
    as they are. *)
Lemma changeover_correct_at_fp (k : nat) (pj : option (Ptcl F)) (_sys : list (FPSoft F)) :
  fp <$> changeover_correct_at manager k pj _sys = fp <$> _sys.
Proof.
  unfold changeover_correct_at. destruct pj as [p|]; [|reflexivity].
  apply list_eq. intros i. rewrite !list_lookup_fmap.
  destruct (decide (i = k)) as [->|Hne].
  - rewrite list_lookup_alter_eq. destruct (_sys !! k); reflexivity.
  - rewrite list_lookup_alter_ne by congruence. reflexivity.
Qed.

Lemma for_range_fp (a b : nat) (body : nat -> list (FPSoft F) -> list (FPSoft F))
    (_sys : list (FPSoft F)) :
  (forall k st, fp <$> body k st = fp <$> st) ->
  fp <$> for_range a b body _sys = fp <$> _sys.
Proof.
  intros Hbody. destruct (le_lt_dec a b) as [Hle|Hgt].
  - pose (P := fun (_ : nat) (st : list (FPSoft F)) => fp <$> st = fp <$> _sys).
    apply (for_range_ind P); subst P; cbv beta; [exact Hle|reflexivity|].
    intros k st _ IH. rewrite Hbody. exact IH.
  - rewrite for_range_nil by lia. reflexivity.
Qed.

Lemma changeOverArtificial_fp (hard_ptcl : list (PtclH4 F)) (a b n_group : nat)
    (adr_first : list nat) (_sys : list (FPSoft F)) :
  fp <$> changeOverArtificial manager hard_ptcl a b n_group adr_first _sys = fp <$> _sys.
Proof.
  unfold changeOverArtificial.
  apply for_range_fp. intros j st.
  apply for_range_fp. intros k st1.
  destruct (st1 !! k) as [pk|]; [|reflexivity].
  rewrite for_range_fp.
  - apply for_range_fp. intros kj st2.
    destruct (st2 !! _) as [p0|]; [|reflexivity].
    destruct (_ || _); [|reflexivity].
    apply for_range_fp. intros kk st3.
    destruct (kk =? k)%nat; [reflexivity|]. apply changeover_correct_at_fp.
  - intros kj st2. destruct (hard_ptcl !! kj) as [pj|]; [|reflexivity].
    destruct (_ || _); [|reflexivity]. apply changeover_correct_at_fp.
Qed.

(** On a quiet store the artificial particles of a cluster are left as they
    are ... *)
Lemma changeOverArtificial_quiet (hard_ptcl : list (PtclH4 F)) (a b n_group : nat)
    (adr_first : list nat) (_sys : list (FPSoft F)) :
  (forall k, QuietSoft _sys k) ->
  (forall kj, (a <= kj < b)%nat -> QuietHard hard_ptcl kj) ->
  changeOverArtificial manager hard_ptcl a b n_group adr_first _sys = _sys.
Proof.
  intros Hsys Hhard. unfold changeOverArtificial.
  apply for_range_fix. intros j _.
  apply for_range_fix. intros k _.
  destruct (_sys !! k) as [pk|] eqn:Ek; [|reflexivity].
  rewrite (staged_false _ (Hsys k pk Ek)). cbv zeta.
  match goal with
  | |- for_range _ _ _ (for_range 0 n_group ?body _sys) = _ =>
      assert (Horb : for_range 0 n_group body _sys = _sys)
  end.
  { apply for_range_fix. intros kj _. cbv beta.
    match goal with
    | |- match _sys !! ?i with _ => _ end = _ =>
        destruct (_sys !! i) as [p0|] eqn:E0; [|reflexivity];
        rewrite (staged_false _ (Hsys i p0 E0)); reflexivity
    end. }
  rewrite Horb. apply for_range_fix. intros kj Hkj.
  destruct (hard_ptcl !! kj) as [pj|] eqn:Ej; [|reflexivity].
  rewrite (staged_false _ (Hhard kj Hkj pj Ej)). reflexivity.
Qed.

(** ... and so are its real particles, in the store and in [ptcl_hard_]. *)
Lemma changeOverReal_quiet (_tree : Tree F) (a b : nat) (_sys : list (FPSoft F))
    (hard_ptcl : list (PtclH4 F)) :
  (forall p nb, nb ∈ _tree p -> epj_r_scale_next nb = f1) ->
  (forall k, QuietSoft _sys k) ->
  (forall kj, (a <= kj < b)%nat -> QuietHard hard_ptcl kj) ->
  changeOverReal manager _tree a b (_sys, hard_ptcl) = (_sys, hard_ptcl).
Proof.
  intros Htree Hsys Hhard. unfold changeOverReal.
  apply for_range_fix. intros j Hj.
  destruct (hard_ptcl !! j) as [pj|] eqn:Ej; [|reflexivity]. cbn [fmap option_fmap option_map].
  assert (Hh : alter commit_hard j hard_ptcl = hard_ptcl).
  { apply alter_id_at. intros x Hx. apply commit_hard_quiet. exact (Hhard j Hj x Hx). }
  rewrite Hh.
  destruct (sys_index (adr_org pj)) as [adr|]; [|reflexivity].
  assert (Hs1 : alter (changeOverNeighborLoop manager _tree) adr _sys = _sys).
  { apply alter_id_at. intros x Hx. apply changeOverNeighborLoop_quiet.
    - apply Htree.
    - exact (Hsys adr x Hx). }
  rewrite Hs1.
  assert (Hs2 : alter commit_soft adr _sys = _sys).
  { apply alter_id_at. intros x Hx. apply commit_soft_quiet. exact (Hsys adr x Hx). }
  rewrite Hs2. reflexivity.
Qed.

(** A call on a quiet store, with quiet neighbour entries and quiet real
    particles in the flagged clusters, changes nothing. *)
Lemma changeover_update_quiet (hard : SystemHard F) (_sys : list (FPSoft F))
    (_tree : Tree F) (_adr_send : list nat) :
  (forall p nb, nb ∈ _tree p -> epj_r_scale_next nb = f1) ->
  (forall k, QuietSoft _sys k) ->
  FlaggedQuiet hard (ptcl_hard_ hard) ->
  correctForceForChangeOverUpdateOMP manager hard _sys _tree _adr_send = (_sys, hard).
Proof.
  intros Htree Hsys Hhard. unfold correctForceForChangeOverUpdateOMP.
  rewrite for_range_fix.
  - assert (Hsend : changeOverSend manager _tree _adr_send _sys = _sys).
    { unfold changeOverSend.
      induction _adr_send as [|adr rest IH]; [reflexivity|].
      cbn [fold_left]. rewrite alter_id_at; [exact IH|].
      intros x Hx. rewrite changeOverNeighborLoop_quiet.
      - apply commit_soft_quiet. exact (Hsys adr x Hx).
      - apply Htree.
      - exact (Hsys adr x Hx). }
    rewrite Hsend. destruct hard. reflexivity.
  - intros i Hi. unfold changeOverCluster.
    destruct (lookup_lt_is_Some_2 (i_cluster_changeover_update_ hard) i ltac:(lia))
      as [c Hc].
    rewrite (list_lookup_total_correct _ _ _ Hc).
    assert (Hrange : forall kj,
              (n_ptcl_in_cluster_disp_ hard !!! c <= kj
               < n_ptcl_in_cluster_disp_ hard !!! (c + 1))%nat ->
              QuietHard (ptcl_hard_ hard) kj).
    { intros kj Hkj. eapply Hhard; [|exact Hkj]. eapply list_elem_of_lookup_2. exact Hc. }
    rewrite changeOverArtificial_quiet by assumption.
    apply changeOverReal_quiet; assumption.
Qed.

End ChangeOverQuiet.

(** ** What one call commits *)

Section ChangeOverCommit.
Context {F : Type} `{F64One F} `{ChangeOverFns F} `{SearchGroupFns F}.
Variable manager : HardManager F.

Lemma commit_soft_commits (p : FPSoft F) :
  r_scale_next (changeover (fp (commit_soft p))) = f1.
Proof. destruct p as [[] ? ?]. reflexivity. Qed.

Lemma commit_hard_commits (p : PtclH4 F) :
  r_scale_next (changeover (hp (commit_hard p))) = f1.
Proof. destruct p as [[] ? ?]. reflexivity. Qed.

Lemma QuietSoft_fp (sysA sysB : list (FPSoft F)) (a : nat) :
  fp <$> sysB = fp <$> sysA -> QuietSoft sysA a -> QuietSoft sysB a.
Proof.
  intros Hfp HA q Hq.
  assert (Hl : (fp <$> sysA) !! a = Some (fp q)).
  { rewrite <- Hfp, list_lookup_fmap, Hq. reflexivity. }
  rewrite list_lookup_fmap in Hl.
  destruct (sysA !! a) as [q0|] eqn:E; [|discriminate Hl].
  cbn in Hl. injection Hl as Hl. rewrite <- Hl. exact (HA q0 E).
Qed.

Lemma QuietSoft_alter (f : FPSoft F -> FPSoft F) (adr : nat) (sys : list (FPSoft F))
    (a : nat) :
  (forall x, r_scale_next (changeover (fp x)) = f1 ->
             r_scale_next (changeover (fp (f x))) = f1) ->
  QuietSoft sys a -> QuietSoft (alter f adr sys) a.
Proof.
  intros Hf Ha q Hq. destruct (decide (a = adr)) as [->|Hne].
  - rewrite list_lookup_alter_eq in Hq.
    destruct (sys !! adr) as [x|] eqn:E; [|discriminate Hq].
    cbn in Hq. injection Hq as <-. apply Hf. exact (Ha x E).
  - rewrite list_lookup_alter_ne in Hq by congruence. exact (Ha q Hq).
Qed.

Lemma QuietSoft_alter_at (f : FPSoft F -> FPSoft F) (adr : nat) (sys : list (FPSoft F)) :
  (forall x, r_scale_next (changeover (fp (f x))) = f1) ->
  QuietSoft (alter f adr sys) adr.
Proof.
  intros Hf q Hq. rewrite list_lookup_alter_eq in Hq.
  destruct (sys !! adr) as [x|]; [|discriminate Hq].
  cbn in Hq. injection Hq as <-. apply Hf.
Qed.

Lemma QuietHard_commit (j : nat) (hard_ptcl : list (PtclH4 F)) (k : nat) :
  QuietHard hard_ptcl k -> QuietHard (alter commit_hard j hard_ptcl) k.
Proof.
  intros Hk p Hp. destruct (decide (k = j)) as [->|Hne].
  - rewrite list_lookup_alter_eq in Hp.
    destruct (hard_ptcl !! j) as [x|]; [|discriminate Hp].
    cbn in Hp. injection Hp as <-. apply commit_hard_commits.
  - rewrite list_lookup_alter_ne in Hp by congruence. exact (Hk p Hp).
Qed.

Lemma QuietHard_commit_at (j : nat) (hard_ptcl : list (PtclH4 F)) :
  QuietHard (alter commit_hard j hard_ptcl) j.
Proof.
  intros p Hp. rewrite list_lookup_alter_eq in Hp.
  destruct (hard_ptcl !! j) as [x|]; [|discriminate Hp].
  cbn in Hp. injection Hp as <-. apply commit_hard_commits.
Qed.

Lemma adr_org_commit (j : nat) (hard_ptcl : list (PtclH4 F)) :
  adr_org <$> alter commit_hard j hard_ptcl = adr_org <$> hard_ptcl.
Proof.
  apply list_eq. intros i. rewrite !list_lookup_fmap.
  destruct (decide (i = j)) as [->|Hne].
  - rewrite list_lookup_alter_eq. destruct (hard_ptcl !! j) as [[]|]; reflexivity.
  - rewrite list_lookup_alter_ne by congruence. reflexivity.
Qed.

Lemma mirrorOf_fmap (hard_ptcl : list (PtclH4 F)) (j : nat) :
  mirrorOf hard_ptcl j = (adr_org <$> hard_ptcl) !! j ≫= sys_index.
Proof.
  unfold mirrorOf. rewrite list_lookup_fmap.
  destruct (hard_ptcl !! j); reflexivity.
Qed.

Lemma QuietKept_refl (sys : list (FPSoft F)) (hard_ptcl : list (PtclH4 F)) :
  QuietKept sys hard_ptcl sys hard_ptcl.
Proof. repeat split; auto. Qed.

Lemma QuietKept_trans (sysA sysB sysC : list (FPSoft F))
    (hpA hpB hpC : list (PtclH4 F)) :
  QuietKept sysA hpA sysB hpB -> QuietKept sysB hpB sysC hpC ->
  QuietKept sysA hpA sysC hpC.
Proof.
  intros (Hs1 & Hh1 & Ha1) (Hs2 & Hh2 & Ha2). repeat split.
  - intros a Ha. apply Hs2, Hs1, Ha.
  - intros j Hj. apply Hh2, Hh1, Hj.
  - rewrite Ha2. exact Ha1.
Qed.

Lemma commit_after_loop_quiet (_tree : Tree F) (adr : nat) (sys : list (FPSoft F))
    (a : nat) :
  QuietSoft sys a ->
  QuietSoft (alter commit_soft adr (alter (changeOverNeighborLoop manager _tree) adr sys)) a.
Proof.
  intros Ha. apply QuietSoft_alter; [intros; apply commit_soft_commits|].
  apply QuietSoft_alter; [|exact Ha].
  intros x Hx. rewrite changeOverNeighborLoop_fp. exact Hx.
Qed.

(** The loop over the real particles of a cluster commits each of them and
    its mirror in the store, and leaves quiet particles quiet. *)
Lemma changeOverReal_commits (_tree : Tree F) (s e : nat) (sysA : list (FPSoft F))
    (hpA : list (PtclH4 F)) :
  QuietKept sysA hpA (changeOverReal manager _tree s e (sysA, hpA)).1
                     (changeOverReal manager _tree s e (sysA, hpA)).2 /\
  forall j, (s <= j < e)%nat ->
    QuietHard (changeOverReal manager _tree s e (sysA, hpA)).2 j /\
    forall adr, mirrorOf hpA j = Some adr ->
      QuietSoft (changeOverReal manager _tree s e (sysA, hpA)).1 adr.
Proof.
  unfold changeOverReal. destruct (le_lt_dec s e) as [Hle|Hgt].
  2:{ rewrite for_range_nil by lia. split; [apply QuietKept_refl|intros; lia]. }
  pose (P := fun (K : nat) (st : list (FPSoft F) * list (PtclH4 F)) =>
    QuietKept sysA hpA st.1 st.2 /\
    forall j, (s <= j < K)%nat ->
      QuietHard st.2 j /\
      forall adr, mirrorOf hpA j = Some adr -> QuietSoft st.1 adr).
  apply (for_range_ind P); subst P; cbv beta;
    [exact Hle|split; [apply QuietKept_refl|intros; lia]|].
  intros K [sys hard_ptcl] HK [Hkept Hdone]. cbn [fst snd] in Hkept, Hdone.
  pose proof Hkept as (Hks & Hkh & Hadr).
  assert (HmK : mirrorOf hpA K = hard_ptcl !! K ≫= fun p => sys_index (adr_org p)).
  { rewrite mirrorOf_fmap, <- Hadr, list_lookup_fmap.
    destruct (hard_ptcl !! K); reflexivity. }
  destruct (hard_ptcl !! K) as [pK|] eqn:EK; cbn [fmap option_fmap option_map].
  - cbn in HmK.
    assert (Hstep : QuietKept sys hard_ptcl sys (alter commit_hard K hard_ptcl)).
    { repeat split; [auto|intros j Hj; apply QuietHard_commit, Hj|apply adr_org_commit]. }
    destruct (sys_index (adr_org pK)) as [adr|] eqn:Eadr; cbn [fst snd].
    + split.
      * eapply QuietKept_trans; [exact Hkept|]. repeat split.
        -- intros a Ha. apply commit_after_loop_quiet, Ha.
        -- intros j Hj. apply QuietHard_commit, Hj.
        -- apply adr_org_commit.
      * intros j Hj. destruct (decide (j = K)) as [->|Hne].
        -- split; [apply QuietHard_commit_at|].
           intros adr' Hm. rewrite HmK in Hm. injection Hm as <-.
           apply QuietSoft_alter_at. intros; apply commit_soft_commits.
        -- destruct (Hdone j ltac:(lia)) as [Hh Hs].
           split; [apply QuietHard_commit, Hh|].
           intros adr' Hm. apply commit_after_loop_quiet, Hs, Hm.
    + split.
      * eapply QuietKept_trans; [exact Hkept|exact Hstep].
      * intros j Hj. destruct (decide (j = K)) as [->|Hne].
        -- split; [apply QuietHard_commit_at|].
           intros adr' Hm. rewrite HmK in Hm. discriminate Hm.
        -- destruct (Hdone j ltac:(lia)) as [Hh Hs].
           split; [apply QuietHard_commit, Hh|exact Hs].
  - cbn in HmK. cbn [fst snd]. split; [exact Hkept|].
    intros j Hj. destruct (decide (j = K)) as [->|Hne].
    + split; [intros p Hp; rewrite EK in Hp; discriminate Hp|].
      intros adr' Hm. rewrite HmK in Hm. discriminate Hm.
    + apply Hdone. lia.
Qed.

(** One flagged cluster. *)
Lemma changeOverCluster_commits (hard : SystemHard F) (_tree : Tree F) (i c : nat)
    (sys : list (FPSoft F)) (hard_ptcl : list (PtclH4 F)) :
  i_cluster_changeover_update_ hard !! i = Some c ->
  QuietKept sys hard_ptcl (changeOverCluster manager hard _tree i (sys, hard_ptcl)).1
                          (changeOverCluster manager hard _tree i (sys, hard_ptcl)).2 /\
  forall j, (n_ptcl_in_cluster_disp_ hard !!! c <= j
             < n_ptcl_in_cluster_disp_ hard !!! (c + 1))%nat ->
    QuietHard (changeOverCluster manager hard _tree i (sys, hard_ptcl)).2 j /\
    forall adr, mirrorOf hard_ptcl j = Some adr ->
      QuietSoft (changeOverCluster manager hard _tree i (sys, hard_ptcl)).1 adr.
Proof.
  intros Hc. unfold changeOverCluster.
  rewrite (list_lookup_total_correct _ _ _ Hc). cbv zeta.
  match goal with
  | |- context [changeOverReal manager _tree ?s ?e (?sys1, hard_ptcl)] =>
      destruct (changeOverReal_commits _tree s e sys1 hard_ptcl) as [Hk Hd];
      assert (Hart : QuietKept sys hard_ptcl sys1 hard_ptcl)
  end.
  { repeat split; [|auto].
    intros a Ha. eapply QuietSoft_fp; [apply changeOverArtificial_fp|exact Ha]. }
  split; [eapply QuietKept_trans; [exact Hart|exact Hk]|exact Hd].
Qed.

(** All flagged clusters. *)
Lemma changeOverClusters_commit (hard : SystemHard F) (_tree : Tree F)
    (_sys : list (FPSoft F)) (r : list (FPSoft F) * list (PtclH4 F)) :
  for_range 0 (length (i_cluster_changeover_update_ hard))
    (changeOverCluster manager hard _tree) (_sys, ptcl_hard_ hard) = r ->
  QuietKept _sys (ptcl_hard_ hard) r.1 r.2 /\
  forall c j,
    c ∈ i_cluster_changeover_update_ hard ->
    (n_ptcl_in_cluster_disp_ hard !!! c <= j
     < n_ptcl_in_cluster_disp_ hard !!! (c + 1))%nat ->
    QuietHard r.2 j /\
    forall adr, mirrorOf (ptcl_hard_ hard) j = Some adr -> QuietSoft r.1 adr.
Proof.
  intros <-.
  pose (P := fun (K : nat) (st : list (FPSoft F) * list (PtclH4 F)) =>
    QuietKept _sys (ptcl_hard_ hard) st.1 st.2 /\
    forall i c j,
      (i < K)%nat -> i_cluster_changeover_update_ hard !! i = Some c ->
      (n_ptcl_in_cluster_disp_ hard !!! c <= j
       < n_ptcl_in_cluster_disp_ hard !!! (c + 1))%nat ->
      QuietHard st.2 j /\
      forall adr, mirrorOf (ptcl_hard_ hard) j = Some adr -> QuietSoft st.1 adr).
  assert (HP : P (length (i_cluster_changeover_update_ hard))
                 (for_range 0 (length (i_cluster_changeover_update_ hard))
                    (changeOverCluster manager hard _tree) (_sys, ptcl_hard_ hard))).
  { apply (for_range_ind P); subst P; cbv beta;
      [lia|split; [apply QuietKept_refl|intros; lia]|].
    intros K [sys hard_ptcl] HK [Hkept Hdone]. cbn [fst snd] in Hkept, Hdone.
    destruct (lookup_lt_is_Some_2 (i_cluster_changeover_update_ hard) K ltac:(lia))
      as [cK HcK].
    destruct (changeOverCluster_commits hard _tree K cK sys hard_ptcl HcK) as [Hk Hd].
    split; [eapply QuietKept_trans; [exact Hkept|exact Hk]|].
    intros i c j Hi Hc Hj.
    destruct (decide (i = K)) as [->|Hne].
    - assert (c = cK) by congruence. subst c.
      destruct (Hd j Hj) as [Hh Hs]. split; [exact Hh|].
      intros adr Hm. apply Hs.
      destruct Hkept as (_ & _ & Hadr).
      rewrite mirrorOf_fmap, Hadr, <- mirrorOf_fmap. exact Hm.
    - destruct (Hdone i c j ltac:(lia) Hc Hj) as [Hh Hs].
      destruct Hk as (Hks & Hkh & _).
      split; [apply Hkh, Hh|]. intros adr Hm. apply Hks, Hs, Hm. }
  subst P. cbv beta in HP. destruct HP as [Hkept Hdone].
  split; [exact Hkept|].
  intros c j Hc Hj. apply list_elem_of_lookup_1 in Hc as [i Hi].
  apply (Hdone i c j); [|exact Hi|exact Hj].
  apply lookup_lt_Some in Hi. exact Hi.
Qed.

(** The sending list. *)
Lemma changeOverSend_commits (_tree : Tree F) (_adr_send : list nat)
    (_sys : list (FPSoft F)) :
  (forall a, QuietSoft _sys a -> QuietSoft (changeOverSend manager _tree _adr_send _sys) a) /\
  (forall adr, adr ∈ _adr_send ->
     QuietSoft (changeOverSend manager _tree _adr_send _sys) adr).
Proof.
  unfold changeOverSend. revert _sys.
  induction _adr_send as [|adr rest IH]; intros _sys.
  - split; [auto|]. intros adr Hadr. inversion Hadr.
  - cbn [fold_left].
    destruct (IH (alter (fun p => commit_soft (changeOverNeighborLoop manager _tree p))
                        adr _sys)) as [IH1 IH2].
    split.
    + intros a Ha. apply IH1.
      apply QuietSoft_alter; [intros; apply commit_soft_commits|exact Ha].
    + intros adr' Hadr. apply elem_of_cons in Hadr as [->|Hadr].
      * apply IH1. apply QuietSoft_alter_at. intros; apply commit_soft_commits.
      * apply IH2, Hadr.
Qed.

(** After one call, no particle of the store carries a staged multiplier,
    nor does a real particle of a flagged cluster, provided that the
    particles that carried one were among those the call commits. *)
Lemma changeover_update_commits (hard : SystemHard F) (_sys : list (FPSoft F))
    (_tree : Tree F) (_adr_send : list nat) :
  (forall a q, _sys !! a = Some q -> r_scale_next (changeover (fp q)) <> f1 ->
               a ∈ committedAddresses hard _adr_send) ->
  (forall k,
     QuietSoft (correctForceForChangeOverUpdateOMP manager hard _sys _tree _adr_send).1 k) /\
  FlaggedQuiet (correctForceForChangeOverUpdateOMP manager hard _sys _tree _adr_send).2
    (ptcl_hard_ (correctForceForChangeOverUpdateOMP manager hard _sys _tree _adr_send).2).
Proof.
  intros Hcover. unfold correctForceForChangeOverUpdateOMP.
  destruct (for_range 0 _ _ _) as [sys_cl hard_ptcl] eqn:Ecl.
  destruct (changeOverClusters_commit hard _tree _sys _ Ecl) as [(Hks & _ & _) Hdone].
  cbn [fst snd] in Hks, Hdone.
  destruct (changeOverSend_commits _tree _adr_send sys_cl) as [Hs1 Hs2].
  cbn [fst snd]. split.
  - intros k. destruct (_sys !! k) as [q0|] eqn:E0.
    + destruct (r_scale_next (changeover (fp q0)) == f1)%f64 eqn:Eq.
      * apply eqb_one in Eq. apply Hs1, Hks.
        intros q Hq. rewrite E0 in Hq. injection Hq as <-. exact Eq.
      * assert (Hin : k ∈ committedAddresses hard _adr_send).
        { apply (Hcover k q0 E0). intros Heq.
          apply eqb_one in Heq. rewrite Heq in Eq. discriminate Eq. }
        unfold committedAddresses in Hin. apply elem_of_app in Hin as [Hin|Hin].
        -- apply Hs1. unfold flaggedMirrors in Hin.
           apply list_elem_of_In, in_flat_map in Hin as (c & Hc & Hin).
           apply list_elem_of_In in Hc, Hin.
           apply list_elem_of_omap in Hin as (j & Hj & Hm).
           apply elem_of_seq in Hj.
           destruct (Hdone c j Hc ltac:(lia)) as [_ Hs]. apply Hs, Hm.
        -- apply Hs2, Hin.
    + apply Hs1, Hks. intros q Hq. rewrite E0 in Hq. discriminate Hq.
  - intros c j Hc Hj. cbn in Hc, Hj |- *. apply (Hdone c j Hc Hj).
Qed.

End ChangeOverCommit.

(** ** Two calls in a row *)

(** C5 (amended): if every particle of the store that carries a staged
    multiplier ([r_scale_next <> 1]) is the mirror of a real particle of a
    flagged cluster or a particle of the sending list, then the first call
    of [correctForceForChangeOverUpdateOMP], whatever tree it is given,
    leaves no staged multiplier in the store nor on the real particles of
    the flagged clusters; and a second call, with a tree none of whose
    neighbour entries carries a staged multiplier (a tree rebuilt after the
    first call), returns the state of the first unchanged: no acceleration
    and no changeover state is modified.  This holds in every arithmetic in
    which the comparison with 1 is exact and [x * 1 = x]: binary64 and the
    reals. *)
Theorem changeover_update_second_call_noop {F : Type} `{F64One F} `{ChangeOverFns F}
    `{SearchGroupFns F} (manager : HardManager F) (hard : SystemHard F)
    (_sys : list (FPSoft F)) (_tree _tree_rebuilt : Tree F) (_adr_send : list nat) :
  (forall a q, _sys !! a = Some q -> r_scale_next (changeover (fp q)) <> f1 ->
               a ∈ committedAddresses hard _adr_send) ->
  (forall p nb, nb ∈ _tree_rebuilt p -> epj_r_scale_next nb = f1) ->
  let r1 := correctForceForChangeOverUpdateOMP manager hard _sys _tree _adr_send in
  (forall a, QuietSoft r1.1 a) /\
  FlaggedQuiet r1.2 (ptcl_hard_ r1.2) /\
  correctForceForChangeOverUpdateOMP manager r1.2 r1.1 _tree_rebuilt _adr_send = r1.
Proof.
  intros Hcover Htree r1.
  destruct (changeover_update_commits manager hard _sys _tree _adr_send Hcover)
    as [Hsoft Hhard].
  fold r1 in Hsoft, Hhard.
  split; [exact Hsoft|]. split; [exact Hhard|].
  rewrite (changeover_update_quiet manager r1.2 r1.1 _tree_rebuilt _adr_send
             Htree Hsoft Hhard).
  destruct r1; reflexivity.
Qed.

(** In binary64, on the flagged cluster [ex_co_hard] with a quiet
    artificial block: the first call runs with the tree [ex_stale_tree],
    whose neighbour entry carries a staged multiplier, the second with the
    quiet [ex_quiet_tree]. *)
Lemma changeover_update_second_call_noop_witness :
  let run := @correctForceForChangeOverUpdateOMP float _ ramp_ChangeOverFns
               ex_SearchGroupFns ex_manager in
  let r1 := run ex_co_hard ex_co_store_real ex_stale_tree [] in
  run r1.2 r1.1 ex_quiet_tree [] = r1.
Proof.
  intros run r1.
  apply (@changeover_update_second_call_noop float float_F64Ops float_F64One
           ramp_ChangeOverFns ex_SearchGroupFns ex_manager ex_co_hard ex_co_store_real
           ex_stale_tree ex_quiet_tree []).
  - intros a q Hq Hne.
    assert (Hc : committedAddresses (ex_co_hard (F:=float)) [] = [0; 1]) by reflexivity.
    rewrite Hc.
    destruct a as [|[|a]]; [left|right; left|].
    exfalso. apply Hne.
    do 5 (destruct a as [|a]; [injection Hq as <-; reflexivity|]).
    discriminate Hq.
  - intros p nb Hnb. apply list_elem_of_singleton in Hnb. subst nb. reflexivity.
Defined.

(** The two calls in exact real arithmetic, with the quiet tree in both. *)
Lemma changeover_update_second_call_real :
  let run := @correctForceForChangeOverUpdateOMP R _ ramp_ChangeOverFns ex_SearchGroupFns
               ex_manager in
  let r1 := run ex_co_hard ex_co_store_real ex_quiet_tree [] in
  run r1.2 r1.1 ex_quiet_tree [] = r1.
Proof.
  intros run r1.
  apply (changeover_update_quiet ex_manager r1.2 r1.1 ex_quiet_tree []).
  - intros p nb Hnb. apply list_elem_of_singleton in Hnb. subst nb. reflexivity.
  - apply (changeover_update_commits ex_manager ex_co_hard ex_co_store_real
             ex_quiet_tree []).
    intros a q Hq Hne.
    assert (Hc : committedAddresses (ex_co_hard (F:=R)) [] = [0; 1]) by reflexivity.
    rewrite Hc.
    destruct a as [|[|a]]; [left|right; left|].
    exfalso. apply Hne.
    do 5 (destruct a as [|a]; [injection Hq as <-; reflexivity|]).
    discriminate Hq.
  - apply (changeover_update_commits ex_manager ex_co_hard ex_co_store_real
             ex_quiet_tree []).
    intros a q Hq Hne.
    assert (Hc : committedAddresses (ex_co_hard (F:=R)) [] = [0; 1]) by reflexivity.
    rewrite Hc.
    destruct a as [|[|a]]; [left|right; left|].
    exfalso. apply Hne.
    do 5 (destruct a as [|a]; [injection Hq as <-; reflexivity|]).
    discriminate Hq.
Qed.

(** The same two calls in binary64, where no product by 1 and no comparison
    with 1 rounds: the second call returns the state of the first. *)
Lemma changeover_update_second_call_binary64 :
  let run := @correctForceForChangeOverUpdateOMP float _ ramp_ChangeOverFns ex_SearchGroupFns
               ex_manager in
  let r1 := run ex_co_hard ex_co_store_real ex_quiet_tree [] in
  run r1.2 r1.1 ex_quiet_tree [] = r1
  /\ r1.1 <> ex_co_store_real.
Proof.
  intros run r1. split; [vm_compute; reflexivity|].
  intros Heq.
  apply (f_equal (fun l => match l !! 0 with
                           | Some q => PrimFloat.eqb (r_scale_next (changeover (fp q))) 1%float
                           | None => false
                           end)) in Heq.
  vm_compute in Heq. discriminate Heq.
Qed.

(** C5 (as stated) fails: the call commits neither the artificial particles
    nor the neighbour entries of the tree, and reads the staged multipliers
    of both.  In binary64, on [ex_co_hard]:

    - with the store [ex_co_store], whose orbital samples carry the staged
      multiplier 2, and a tree without neighbours: after the first call the
      first orbital sample (address 4) still carries the multiplier 2 and
      has the acceleration [-3/32] along x; the second call applies the same
      correction again and leaves it with [-3/16];
    - with the store [ex_co_store_real], in which only the mirrors of the
      two real members are staged, and the tree [ex_stale_tree] in both
      calls: the first call leaves no staged multiplier in the store and
      the first member (address 0) with the acceleration [-1/128] along x;
      the second call meets the staged neighbour entry again and leaves it
      with [-1/64]. *)
Lemma changeover_update_twice_counterexample :
  let run := @correctForceForChangeOverUpdateOMP float _ ramp_ChangeOverFns ex_SearchGroupFns
               ex_manager in
  (let r1 := run ex_co_hard ex_co_store ex_empty_tree [] in
   let r2 := run r1.2 r1.1 ex_empty_tree [] in
   (fun p => r_scale_next (changeover (fp p))) <$> r1.1 !! 4 = Some f2
   /\ acc <$> r2.1 !! 4 <> acc <$> r1.1 !! 4)
  /\ (let r1 := run ex_co_hard ex_co_store_real ex_stale_tree [] in
      let r2 := run r1.2 r1.1 ex_stale_tree [] in
      (fun p => r_scale_next (changeover (fp p))) <$> r1.1 = replicate 7 f1
      /\ (fun p => r_scale_next (changeover (hp p))) <$> ptcl_hard_ r1.2 = replicate 2 f1
      /\ acc <$> r2.1 !! 0 <> acc <$> r1.1 !! 0).
Proof.
  intros run. split.
  - intros r1 r2. split.
    + vm_compute. reflexivity.
    + intros Heq.
      apply (f_equal (fun o => match o with
                               | Some v => PrimFloat.ltb (vx v) (-0.125)%float
                               | None => false
                               end)) in Heq.
      vm_compute in Heq. discriminate Heq.
  - intros r1 r2. split; [vm_compute; reflexivity|].
    split; [vm_compute; reflexivity|].
    intros Heq.
    apply (f_equal (fun o => match o with
                             | Some v => PrimFloat.ltb (vx v) (-0.01171875)%float
                             | None => false
                             end)) in Heq.
    vm_compute in Heq. discriminate Heq.
Qed.

(** ** The potential under the changeover-transition correction *)

Lemma fmap_alter_inv {A B : Type} (f : A -> B) (g : A -> A) (k : nat) (l : list A) :
  (forall x, f (g x) = f x) -> f <$> alter g k l = f <$> l.
Proof.
  intros Hg. apply list_eq. intros i. rewrite !list_lookup_fmap.
  destruct (decide (i = k)) as [->|Hne].
  - rewrite list_lookup_alter_eq. destruct (l !! k) as [x|]; [|reflexivity].
    cbn. rewrite Hg. reflexivity.
  - rewrite list_lookup_alter_ne by congruence. reflexivity.
Qed.

Lemma for_range_inv {S : Type} (P : S -> Prop) (a b : nat) (body : nat -> S -> S) (s : S) :
  P s -> (forall k st, P st -> P (body k st)) -> P (for_range a b body s).
Proof.
  intros Hs Hbody. destruct (le_lt_dec a b) as [Hle|Hgt].
  - pose (Q := fun (_ : nat) (st : S) => P st).
    apply (for_range_ind Q); subst Q; cbv beta; [exact Hle|exact Hs|].
    intros k st _ Hst. apply Hbody, Hst.
  - rewrite for_range_nil by lia. exact Hs.
Qed.

Section ChangeOverPotential.
Context {F : Type} `{F64Ops F} `{ChangeOverFns F} `{SearchGroupFns F}.
Variable manager : HardManager F.

Lemma calcAccChangeOverCorrection_pot (_pi : FPSoft F) (_pj : Ptcl F) :
  pot_tot (calcAccChangeOverCorrection manager _pi _pj) = pot_tot _pi.
Proof. destruct _pi. reflexivity. Qed.

Lemma calcAccChangeOverCorrection_epj_pot (_pi : FPSoft F) (_pj : EPJSoft F) :
  pot_tot (calcAccChangeOverCorrection_epj manager _pi _pj) = pot_tot _pi.
Proof. destruct _pi. reflexivity. Qed.

Lemma changeOverNeighborLoop_pot (_tree : Tree F) (p : FPSoft F) :
  pot_tot (changeOverNeighborLoop manager _tree p) = pot_tot p.
Proof.
  unfold changeOverNeighborLoop.
  generalize (staged (changeover (fp p))). intros change_i.
  generalize (_tree p). intros nbs. revert p.
  induction nbs as [|nb nbs IH]; intros p; [reflexivity|].
  cbn [fold_left]. rewrite IH.
  destruct (Z.eqb _ _); [reflexivity|].
  destruct (_ || _); [apply calcAccChangeOverCorrection_epj_pot|reflexivity].
Qed.

Lemma commit_soft_pot (p : FPSoft F) : pot_tot (commit_soft p) = pot_tot p.
Proof. destruct p. reflexivity. Qed.

Lemma changeover_correct_at_pot (k : nat) (pj : option (Ptcl F)) (_sys : list (FPSoft F)) :
  pot_tot <$> changeover_correct_at manager k pj _sys = pot_tot <$> _sys.
Proof.
  unfold changeover_correct_at. destruct pj as [p|]; [|reflexivity].
  apply fmap_alter_inv. intros x. apply calcAccChangeOverCorrection_pot.
Qed.

Lemma changeOverArtificial_pot (hard_ptcl : list (PtclH4 F)) (a b n_group : nat)
    (adr_first : list nat) (_sys : list (FPSoft F)) :
  pot_tot <$> changeOverArtificial manager hard_ptcl a b n_group adr_first _sys
  = pot_tot <$> _sys.
Proof.
  unfold changeOverArtificial.
  apply (for_range_inv (fun st => pot_tot <$> st = pot_tot <$> _sys)); [reflexivity|].
  intros j st Hst. rewrite <- Hst.
  apply (for_range_inv (fun st1 => pot_tot <$> st1 = pot_tot <$> st)); [reflexivity|].
  intros k st1 Hst1. rewrite <- Hst1.
  destruct (st1 !! k) as [pk|]; [|reflexivity]. cbv zeta.
  apply (for_range_inv (fun st2 => pot_tot <$> st2 = pot_tot <$> st1)).
  - apply (for_range_inv (fun st2 => pot_tot <$> st2 = pot_tot <$> st1)); [reflexivity|].
    intros kj st2 Hst2. rewrite <- Hst2.
    destruct (st2 !! _) as [p0|]; [|reflexivity].
    destruct (_ || _); [|reflexivity].
    apply (for_range_inv (fun st3 => pot_tot <$> st3 = pot_tot <$> st2)); [reflexivity|].
    intros kk st3 Hst3. rewrite <- Hst3.
    destruct (kk =? k)%nat; [reflexivity|]. apply changeover_correct_at_pot.
  - intros kj st2 Hst2. rewrite <- Hst2.
    destruct (hard_ptcl !! kj) as [pj|]; [|reflexivity].
    destruct (_ || _); [|reflexivity]. apply changeover_correct_at_pot.
Qed.

Lemma changeOverReal_pot (_tree : Tree F) (a b : nat) (_sys : list (FPSoft F))
    (hard_ptcl : list (PtclH4 F)) :
  pot_tot <$> (changeOverReal manager _tree a b (_sys, hard_ptcl)).1 = pot_tot <$> _sys.
Proof.
  unfold changeOverReal.
  apply (for_range_inv
           (fun st : list (FPSoft F) * list (PtclH4 F) =>
              pot_tot <$> st.1 = pot_tot <$> _sys)); [reflexivity|].
  intros j [sys hp0] Hst. cbn [fst] in Hst. rewrite <- Hst.
  destruct (hp0 !! j) as [pj|]; [|reflexivity]. cbn [fmap option_fmap option_map].
  destruct (sys_index (adr_org pj)) as [adr|]; [|reflexivity]. cbn [fst].
  rewrite fmap_alter_inv by apply commit_soft_pot.
  apply fmap_alter_inv. apply changeOverNeighborLoop_pot.
Qed.

Lemma changeOverSend_pot (_tree : Tree F) (_adr_send : list nat) (_sys : list (FPSoft F)) :
  pot_tot <$> changeOverSend manager _tree _adr_send _sys = pot_tot <$> _sys.
Proof.
  unfold changeOverSend. revert _sys.
  induction _adr_send as [|adr rest IH]; intros _sys; [reflexivity|].
  cbn [fold_left]. rewrite IH. apply fmap_alter_inv.
  intros x. rewrite commit_soft_pot. apply changeOverNeighborLoop_pot.
Qed.

(** The changeover-transition correction writes accelerations and changeover
    radii only: the potential of every particle of the store is the one it
    had, whatever its status; no correction for the particle's own mass is
    made here. *)
Theorem changeover_update_keeps_potential (hard : SystemHard F) (_sys : list (FPSoft F))
    (_tree : Tree F) (_adr_send : list nat) :
  pot_tot <$> (correctForceForChangeOverUpdateOMP manager hard _sys _tree _adr_send).1
  = pot_tot <$> _sys.
Proof.
  unfold correctForceForChangeOverUpdateOMP.
  destruct (for_range 0 _ _ _) as [sys_cl hard_ptcl] eqn:Ecl. cbn [fst].
  rewrite changeOverSend_pot.
  change sys_cl with (sys_cl, hard_ptcl).1. rewrite <- Ecl.
  apply (for_range_inv
           (fun st : list (FPSoft F) * list (PtclH4 F) =>
              pot_tot <$> st.1 = pot_tot <$> _sys)); [reflexivity|].
  intros i [sys hp0] Hst. cbn [fst] in Hst. rewrite <- Hst.
  unfold changeOverCluster. cbv zeta.
  rewrite changeOverReal_pot. apply changeOverArtificial_pot.
Qed.

End ChangeOverPotential.

(** * Further properties of the routines *)

(** ** What the force corrections leave alone *)

Lemma for_range_fmap_inv {A B : Type} (f : A -> B) (a b : nat)
    (body : nat -> list A -> list A) (l : list A) :
  (forall k st, f <$> body k st = f <$> st) ->
  f <$> for_range a b body l = f <$> l.
Proof.
  intros Hbody.
  apply (for_range_inv (fun st => f <$> st = f <$> l)); [reflexivity|].
  intros k st Hst. rewrite Hbody. exact Hst.
Qed.

Lemma fold_left_fmap_inv {A B C : Type} (f : A -> B) (body : list A -> C -> list A)
    (xs : list C) (l : list A) :
  (forall st x, f <$> body st x = f <$> st) ->
  f <$> fold_left body xs l = f <$> l.
Proof.
  intros Hbody. revert l. induction xs as [|x xs IH]; intros l; [reflexivity|].
  cbn [fold_left]. rewrite IH. apply Hbody.
Qed.

Lemma for_stride_fmap_inv {A B : Type} (f : A -> B) (a n s : nat)
    (body : nat -> list A -> list A) (l : list A) :
  (forall k st, f <$> body k st = f <$> st) ->
  f <$> for_stride a n s body l = f <$> l.
Proof.
  intros Hbody. unfold for_stride. apply fold_left_fmap_inv.
  intros st t. apply Hbody.
Qed.

Section CorrectionFrame.
Context {F : Type} `{F64Ops F} `{ChangeOverFns F} `{Config} `{SearchGroupFns F}.
Variable manager : HardManager F.

Lemma correct_at_fp (k : nat) (pj : option (Ptcl F)) (_sys : list (FPSoft F)) :
  fp <$> correct_at manager k pj _sys = fp <$> _sys.
Proof.
  unfold correct_at. destruct pj as [p|]; [|reflexivity].
  apply fmap_alter_inv. intros x. reflexivity.
Qed.

Lemma cmForceBlock_fp (gpars : GroupPars) (j_start : nat) (_sys : list (FPSoft F)) :
  fp <$> cmForceBlock gpars j_start _sys = fp <$> _sys.
Proof.
  unfold cmForceBlock. cbv zeta.
  match goal with
  | |- context [for_range ?a ?b ?body (?s2, f0)] =>
      assert (Hloop : fp <$> (for_range a b body (s2, f0)).1 = fp <$> _sys);
      [|destruct (for_range a b body (s2, f0)) as [sys3 m_ob_tot]]
  end.
  - apply (for_range_inv
             (fun st : list (FPSoft F) * F => fp <$> st.1 = fp <$> _sys)).
    + cbn [fst]. rewrite fmap_alter_inv by (intros x; reflexivity).
      apply for_range_fmap_inv. intros k st.
      destruct (st !! _) as [cm|]; [|reflexivity].
      apply fmap_alter_inv. intros x. reflexivity.
    + intros k [st m] Hst. cbn [fst] in Hst |- *.
      destruct (st !! k) as [pk|]; [|exact Hst]. cbn [fst].
      rewrite fmap_alter_inv by (intros x; reflexivity). exact Hst.
  - cbn [fst] in Hloop. rewrite fmap_alter_inv by (intros x; reflexivity). exact Hloop.
Qed.

Lemma artificialPairLoops_fp (_ptcl_local : list (PtclH4 F)) (a b n_group : nat)
    (adr_first : list nat) (j_start : nat) (_sys : list (FPSoft F)) :
  fp <$> artificialPairLoops manager _ptcl_local a b n_group adr_first j_start _sys
  = fp <$> _sys.
Proof.
  unfold artificialPairLoops. cbv zeta.
  apply for_range_fmap_inv. intros k st.
  rewrite for_range_fmap_inv by (intros kj st1; apply correct_at_fp).
  apply for_range_fmap_inv. intros kj st1.
  apply for_range_fmap_inv. intros kk st2.
  destruct (kk =? k)%nat; [reflexivity|apply correct_at_fp].
Qed.

Lemma correctForceWithCutoffArtificalOneClusterImp_fp (_sys : list (FPSoft F))
    (_ptcl_local : list (PtclH4 F)) (a b n_group : nat) (adr_first : list nat) :
  fp <$> correctForceWithCutoffArtificalOneClusterImp manager _sys _ptcl_local a b n_group
           adr_first
  = fp <$> _sys.
Proof.
  unfold correctForceWithCutoffArtificalOneClusterImp. cbv zeta.
  apply for_range_fmap_inv. intros j st.
  rewrite cmForceBlock_fp. apply artificialPairLoops_fp.
Qed.

Lemma selfPotentialCorrection_fp (p : FPSoft F) :
  fp (selfPotentialCorrection manager p) = fp p.
Proof. unfold selfPotentialCorrection. destruct (_ == _)%f64; reflexivity. Qed.

Lemma neighborLoop_fp (nbs : list (EPJSoft F)) (p : FPSoft F) :
  fp (neighborLoop manager nbs p) = fp p.
Proof.
  unfold neighborLoop. revert p.
  induction nbs as [|nb nbs IH]; intros p; [reflexivity|].
  cbn [fold_left]. rewrite IH. destruct (Z.eqb _ _); reflexivity.
Qed.

Lemma treeCorrect_at_fp (_tree : Tree F) (adr : nat) (_sys : list (FPSoft F)) :
  fp <$> treeCorrect_at manager _tree adr _sys = fp <$> _sys.
Proof.
  unfold treeCorrect_at. apply fmap_alter_inv. intros x.
  unfold correctForceWithCutoffTreeNeighborOneParticleImp.
  rewrite neighborLoop_fp. apply selfPotentialCorrection_fp.
Qed.

Lemma clusterCorrectReal_fp (_ptcl_local : list (PtclH4 F)) (a b n_group : nat)
    (adr_first : list nat) (j adr : nat) (_sys : list (FPSoft F)) :
  fp <$> clusterCorrectReal manager _ptcl_local a b n_group adr_first j adr _sys
  = fp <$> _sys.
Proof.
  unfold clusterCorrectReal, clusterPairLoops. cbv zeta.
  rewrite for_range_fmap_inv.
  - rewrite for_range_fmap_inv.
    + apply fmap_alter_inv. apply selfPotentialCorrection_fp.
    + intros k st. destruct (k =? j)%nat; [reflexivity|apply correct_at_fp].
  - intros k st. apply for_range_fmap_inv. intros ki st1. apply correct_at_fp.
Qed.

(** X1.  None of the force corrections touches the particle data: after the
    cluster-scoped routine, the combined routine and the two tree-based
    routines, every particle of the store has the mass, position, velocity,
    radii, status and identifier it had, and the store has the size it had;
    only accelerations and potentials change. *)
Theorem force_corrections_keep_particle_data (_sys : list (FPSoft F)) (_tree : Tree F)
    (_ptcl_local : list (PtclH4 F))
    (_n_ptcl_in_cluster _n_ptcl_in_cluster_offset : list nat)
    (_n_group_in_cluster _n_group_in_cluster_offset : list nat)
    (_adr_first_ptcl_arti_in_cluster _adr_send : list nat)
    (_n_ptcl _adr_ptcl_artifical_start : nat) :
  fp <$> correctForceWithCutoffClusterImp manager _sys _ptcl_local _n_ptcl_in_cluster
           _n_ptcl_in_cluster_offset _n_group_in_cluster _n_group_in_cluster_offset
           _adr_first_ptcl_arti_in_cluster
  = fp <$> _sys
  /\ fp <$> correctForceWithCutoffTreeNeighborAndClusterImp manager _sys _tree _ptcl_local
              _n_ptcl_in_cluster _n_ptcl_in_cluster_offset _n_group_in_cluster
              _n_group_in_cluster_offset _adr_first_ptcl_arti_in_cluster _adr_send
     = fp <$> _sys
  /\ fp <$> correctForceWithCutoffTreeNeighborImp manager _sys _tree _ptcl_local _n_ptcl
              _adr_ptcl_artifical_start
     = fp <$> _sys
  /\ fp <$> correctForceWithCutoffTreeNeighborImp_all manager _sys _tree
              _adr_ptcl_artifical_start
     = fp <$> _sys.
Proof.
  split; [|split; [|split]].
  - unfold correctForceWithCutoffClusterImp. cbv zeta.
    apply for_range_fmap_inv. intros i st.
    rewrite for_range_fmap_inv.
    + apply correctForceWithCutoffArtificalOneClusterImp_fp.
    + intros j st1. destruct (_ <$> _ !! j) as [adr_z|]; [|reflexivity].
      destruct (sys_index adr_z) as [adr|]; [|reflexivity].
      apply clusterCorrectReal_fp.
  - unfold correctForceWithCutoffTreeNeighborAndClusterImp. cbv zeta.
    rewrite fold_left_fmap_inv by (intros st adr; apply treeCorrect_at_fp).
    apply for_range_fmap_inv. intros i st.
    rewrite for_range_fmap_inv.
    + apply correctForceWithCutoffArtificalOneClusterImp_fp.
    + intros j st1. destruct (_ <$> _ !! j) as [adr_z|]; [|reflexivity].
      destruct (sys_index adr_z) as [adr|]; [|reflexivity].
      apply treeCorrect_at_fp.
  - unfold correctForceWithCutoffTreeNeighborImp. cbv zeta.
    rewrite for_stride_fmap_inv by (intros i st; apply cmForceBlock_fp).
    rewrite for_range_fmap_inv by (intros i st; apply treeCorrect_at_fp).
    apply for_range_fmap_inv. intros i st.
    destruct (_ <$> _ !! i) as [adr_z|]; [|reflexivity].
    destruct (sys_index adr_z) as [adr|]; [|reflexivity].
    apply treeCorrect_at_fp.
  - unfold correctForceWithCutoffTreeNeighborImp_all. cbv zeta.
    rewrite for_stride_fmap_inv by (intros i st; apply cmForceBlock_fp).
    apply for_range_fmap_inv. intros i st. apply treeCorrect_at_fp.
Qed.

End CorrectionFrame.

(** ** What the changeover-transition correction leaves alone *)

Lemma Forall2_of_fmap_family {A B C : Type} (f : C -> A -> B) (c0 : C) (l l' : list A)
    (P : A -> A -> Prop) :
  (forall c, f c <$> l' = f c <$> l) ->
  (forall x y, (forall c, f c y = f c x) -> P x y) ->
  Forall2 P l l'.
Proof.
  intros Heq HP.
  apply Forall2_same_length_lookup_2.
  - pose proof (f_equal length (Heq c0)) as Hl.
    rewrite !length_fmap in Hl. symmetry. exact Hl.
  - intros i x y Hx Hy. apply HP. intros c.
    pose proof (f_equal (fun t => t !! i) (Heq c)) as Hi. cbv beta in Hi.
    rewrite !list_lookup_fmap, Hx, Hy in Hi. cbn in Hi. congruence.
Qed.

Lemma set_changeover_self {F : Type} (p : Ptcl F) : set_changeover (changeover p) p = p.
Proof. destruct p. reflexivity. Qed.

Section ChangeOverFrame.
Context {F : Type} `{F64Ops F} `{ChangeOverFns F} `{SearchGroupFns F}.
Variable manager : HardManager F.

(** The particle data of a store particle with the changeover masked. *)
Let soft_masked (c : ChangeOver F) (q : FPSoft F) : Ptcl F := set_changeover c (fp q).
Let hard_masked (c : ChangeOver F) (p : PtclH4 F) : PtclH4 F := set_hp (set_changeover c) p.

Lemma changeOverReal_masked (c : ChangeOver F) (_tree : Tree F) (a b : nat)
    (_sys : list (FPSoft F)) (hard_ptcl : list (PtclH4 F)) :
  soft_masked c <$> (changeOverReal manager _tree a b (_sys, hard_ptcl)).1
  = soft_masked c <$> _sys
  /\ hard_masked c <$> (changeOverReal manager _tree a b (_sys, hard_ptcl)).2
     = hard_masked c <$> hard_ptcl.
Proof.
  unfold changeOverReal.
  apply (for_range_inv
           (fun st : list (FPSoft F) * list (PtclH4 F) =>
              soft_masked c <$> st.1 = soft_masked c <$> _sys
              /\ hard_masked c <$> st.2 = hard_masked c <$> hard_ptcl));
    [split; reflexivity|].
  intros j [sys hp0] [Hs Hh]. cbn [fst snd] in Hs, Hh.
  destruct (hp0 !! j) as [pj|]; [|split; assumption].
  cbn [fmap option_fmap option_map].
  assert (Hhard : hard_masked c <$> alter commit_hard j hp0 = hard_masked c <$> hard_ptcl).
  { rewrite fmap_alter_inv; [exact Hh|]. intros [[] ? ?]. reflexivity. }
  destruct (sys_index (adr_org pj)) as [adr|]; cbn [fst snd]; (split; [|exact Hhard]).
  - rewrite fmap_alter_inv by (intros [[] ? ?]; reflexivity).
    rewrite fmap_alter_inv; [exact Hs|].
    intros x. unfold soft_masked. rewrite changeOverNeighborLoop_fp. reflexivity.
  - exact Hs.
Qed.

Lemma changeover_update_masked (c : ChangeOver F) (hard : SystemHard F)
    (_sys : list (FPSoft F)) (_tree : Tree F) (_adr_send : list nat) :
  soft_masked c <$> (correctForceForChangeOverUpdateOMP manager hard _sys _tree _adr_send).1
  = soft_masked c <$> _sys
  /\ hard_masked c
       <$> ptcl_hard_ (correctForceForChangeOverUpdateOMP manager hard _sys _tree _adr_send).2
     = hard_masked c <$> ptcl_hard_ hard.
Proof.
  unfold correctForceForChangeOverUpdateOMP.
  assert (Hcl : soft_masked c
                  <$> (for_range 0 (length (i_cluster_changeover_update_ hard))
                         (changeOverCluster manager hard _tree) (_sys, ptcl_hard_ hard)).1
                = soft_masked c <$> _sys
                /\ hard_masked c
                     <$> (for_range 0 (length (i_cluster_changeover_update_ hard))
                            (changeOverCluster manager hard _tree) (_sys, ptcl_hard_ hard)).2
                   = hard_masked c <$> ptcl_hard_ hard).
  { apply (for_range_inv
             (fun st : list (FPSoft F) * list (PtclH4 F) =>
                soft_masked c <$> st.1 = soft_masked c <$> _sys
                /\ hard_masked c <$> st.2 = hard_masked c <$> ptcl_hard_ hard));
      [split; reflexivity|].
    intros i [sys hp0] [Hs Hh]. cbn [fst snd] in Hs, Hh.
    unfold changeOverCluster. cbv zeta.
    match goal with
    | |- context [changeOverReal manager _tree ?a ?b (?s1, hp0)] =>
        destruct (changeOverReal_masked c _tree a b s1 hp0) as [Hs1 Hh1];
        assert (Hart : soft_masked c <$> s1 = soft_masked c <$> sys)
    end.
    { unfold soft_masked.
      change (fun q : FPSoft F => set_changeover c (fp q))
        with (set_changeover c ∘ (@fp F)).
      rewrite !list_fmap_compose, changeOverArtificial_fp. reflexivity. }
    split; [rewrite Hs1, Hart; exact Hs|rewrite Hh1; exact Hh]. }
  destruct (for_range 0 _ _ _) as [sys_cl hard_ptcl]. cbn [fst snd] in Hcl |- *.
  destruct Hcl as [Hs Hh]. split; [|exact Hh].
  unfold changeOverSend. rewrite fold_left_fmap_inv; [exact Hs|].
  intros st adr. apply fmap_alter_inv. intros x. unfold soft_masked.
  destruct (changeOverNeighborLoop manager _tree x) as [[] ? ?] eqn:E.
  pose proof (changeOverNeighborLoop_fp manager _tree x) as Hfp. rewrite E in Hfp.
  cbn in Hfp |- *. rewrite <- Hfp. reflexivity.
Qed.

(** X2.  The changeover-transition correction changes accelerations and
    changeover radii only: every particle of the store keeps its potential
    and, the changeover aside, its particle data; every particle of
    [ptcl_hard_] is the particle it was with at most another changeover; the
    cluster and group tables are the ones it started with, and neither array
    changes its size. *)
Theorem changeover_update_frame (hard : SystemHard F) (_sys : list (FPSoft F))
    (_tree : Tree F) (_adr_send : list nat) :
  let r := correctForceForChangeOverUpdateOMP manager hard _sys _tree _adr_send in
  Forall2 (fun q q' => pot_tot q' = pot_tot q
                       /\ fp q' = set_changeover (changeover (fp q')) (fp q)) _sys r.1
  /\ Forall2 (fun p p' => p' = set_hp (set_changeover (changeover (hp p'))) p)
       (ptcl_hard_ hard) (ptcl_hard_ r.2)
  /\ r.2 = set_ptcl_hard_ (ptcl_hard_ r.2) hard.
Proof.
  intros r. split; [|split].
  - apply (Forall2_of_fmap_family
             (fun (c : option (ChangeOver F)) (q : FPSoft F) =>
                match c with
                | Some c => inr (soft_masked c q)
                | None => inl (pot_tot q)
                end) None).
    + intros [c|].
      * pose proof (proj1 (changeover_update_masked c hard _sys _tree _adr_send)) as Hm.
        fold r in Hm.
        change (fun q : FPSoft F => @inr F (Ptcl F) (soft_masked c q))
          with (@inr F (Ptcl F) ∘ soft_masked c).
        rewrite !list_fmap_compose, Hm. reflexivity.
      * pose proof (changeover_update_keeps_potential manager hard _sys _tree _adr_send)
          as Hp.
        fold r in Hp.
        change (fun q : FPSoft F => @inl F (Ptcl F) (pot_tot q))
          with (@inl F (Ptcl F) ∘ (@pot_tot F)).
        rewrite !list_fmap_compose, Hp. reflexivity.
    + intros x y Hxy. split.
      * specialize (Hxy None). cbn in Hxy. congruence.
      * specialize (Hxy (Some (changeover (fp y)))). cbn in Hxy.
        unfold soft_masked in Hxy. rewrite set_changeover_self in Hxy. congruence.
  - apply (Forall2_of_fmap_family hard_masked (mkChangeOver f0 f0 f0)).
    + intros c. apply (proj2 (changeover_update_masked c hard _sys _tree _adr_send)).
    + intros x y Hxy. specialize (Hxy (changeover (hp y))). unfold hard_masked in Hxy.
      rewrite <- Hxy. destruct y as [[] ? ?]. reflexivity.
  - unfold r, correctForceForChangeOverUpdateOMP.
    destruct (for_range 0 _ _ _) as [sys_cl hard_ptcl]. reflexivity.
Qed.

End ChangeOverFrame.

(** ** Pairs that need no correction *)

Section PairwiseZero.
Context {F : Type} `{F64Exact F} `{ChangeOverFns F} `{Config}.
Variable manager : HardManager F.
Local Open Scope f64_scope.

Add Ring f64_ring_zero : f64_ring.

Lemma setR_unstaged (c : ChangeOver F) :
  r_scale_next c = f1 ->
  setR (getRin c * r_scale_next c) (getRout c * r_scale_next c) = c.
Proof.
  intros Hc. destruct c as [rin rout s]. cbn in Hc |- *. subst s.
  unfold setR. f_equal; ring.
Qed.

Lemma calcAccChangeOverCorrection_body_same (_pi : FPSoft F) (pj_pos : F64vec F)
    (pj_mass : F) (chj : ChangeOver F) :
  r_scale_next (changeover (fp _pi)) = f1 ->
  calcAccChangeOverCorrection_body manager _pi pj_pos pj_mass chj chj = _pi.
Proof.
  intros Hi. unfold calcAccChangeOverCorrection_body. cbv zeta.
  rewrite (setR_unstaged _ Hi).
  destruct _pi as [p a u]. unfold set_acc. cbn [fp acc pot_tot]. f_equal.
  apply F64vec_eq; cbn [vx vy vz vsub vscale]; ring.
Qed.

(** X3.  In exact arithmetic the changeover correction of a pair is zero
    when neither particle has a staged multiplier: for both overloads, with
    [r_scale_next = 1] on both sides, the call leaves the particle as it is.
    The tests on [r_scale_next] in the changeover-transition correction skip
    only such pairs. *)
Theorem changeover_correction_unstaged_pair (_pi : FPSoft F) :
  r_scale_next (changeover (fp _pi)) = f1 ->
  (forall _pj : Ptcl F,
     r_scale_next (changeover _pj) = f1 ->
     calcAccChangeOverCorrection manager _pi _pj = _pi)
  /\ (forall _pj : EPJSoft F,
        epj_r_scale_next _pj = f1 ->
        calcAccChangeOverCorrection_epj manager _pi _pj = _pi).
Proof.
  intros Hi. split.
  - intros _pj Hj. unfold calcAccChangeOverCorrection. cbv zeta.
    rewrite (setR_unstaged _ Hj).
    apply calcAccChangeOverCorrection_body_same. exact Hi.
  - intros _pj Hj. unfold calcAccChangeOverCorrection_epj. rewrite Hj.
    replace (epj_r_in _pj * f1) with (epj_r_in _pj) by ring.
    replace (epj_r_out _pj * f1) with (epj_r_out _pj) by ring.
    apply calcAccChangeOverCorrection_body_same. exact Hi.
Qed.

(** X4.  In exact arithmetic a source of mass zero exerts no correction on
    the acceleration: for both overloads of the pairwise primitive, the
    acceleration of the particle is the one it had.  The builder zeroes the
    mass of group members, so that in the tree force and its correction they
    count through their group's artificial particles only; in the potential
    they count through [mass_bk]. *)
Theorem zero_mass_source_keeps_acceleration (_pi : FPSoft F) :
  (forall _pj : Ptcl F,
     mass _pj = f0 ->
     acc (calcAccPotShortWithLinearCutoff manager _pi _pj) = acc _pi)
  /\ (forall _pj : EPJSoft F,
        epj_mass _pj = f0 ->
        acc (calcAccPotShortWithLinearCutoff_epj manager _pi _pj) = acc _pi).
Proof.
  split; intros _pj Hm.
  - unfold calcAccPotShortWithLinearCutoff, calcAccPotShortWithLinearCutoff_body.
    cbv zeta. cbn [acc]. rewrite Hm.
    apply F64vec_eq; cbn [vx vy vz vsub vscale]; ring.
  - unfold calcAccPotShortWithLinearCutoff_epj, calcAccPotShortWithLinearCutoff_body.
    cbv zeta. cbn [acc]. rewrite Hm.
    apply F64vec_eq; cbn [vx vy vz vsub vscale]; ring.
Qed.

End PairwiseZero.

(** On the reals: a unit mass at [(2,0,0)] against a particle at the origin,
    both with the radii 1 and 3 and no staged multiplier. *)
Lemma changeover_correction_unstaged_pair_witness :
  let _pi := ex_soft (F:=R) 1 f1 f2 f0 ex_changeover in
  let _pj := ex_ptcl (F:=R) 2 f1 f0 f0 ex_changeover in
  @calcAccChangeOverCorrection R _ ramp_ChangeOverFns ex_manager _pi _pj = _pi.
Proof.
  intros _pi _pj.
  apply (proj1 (@changeover_correction_unstaged_pair R R_F64Ops R_F64Exact
                  ramp_ChangeOverFns ex_manager _pi eq_refl)).
  reflexivity.
Defined.

(** On the reals: a group member at the origin, its mass moved to
    [mass_bk], as the source. *)
Lemma zero_mass_source_keeps_acceleration_witness :
  let _pi := ex_soft (F:=R) 1 f1 f2 f0 ex_changeover in
  let _pj := ex_ptcl (F:=R) 2 f0 f0 (- f1)%f64 ex_changeover in
  acc (@calcAccPotShortWithLinearCutoff R _ ramp_ChangeOverFns ex_config ex_manager _pi _pj)
  = acc _pi.
Proof.
  intros _pi _pj.
  apply (proj1 (@zero_mass_source_keeps_acceleration R R_F64Ops R_F64Exact
                  ramp_ChangeOverFns ex_config ex_manager _pi)).
  reflexivity.
Defined.

(** ** Neighbour lists and the particle itself *)

Section NeighbourSelf.
Context {F : Type} `{F64Ops F} `{ChangeOverFns F} `{Config}.
Variable manager : HardManager F.

Lemma neighborLoop_skip (nbs : list (EPJSoft F)) (ident : Z) (p : FPSoft F) :
  id (fp p) = ident ->
  neighborLoop manager nbs p =
  neighborLoop manager (filter (fun nb => epj_id nb <> ident) nbs) p.
Proof.
  revert p. induction nbs as [|nb nbs IH]; intros p Hid; [reflexivity|].
  unfold neighborLoop in *. cbn [fold_left]. rewrite filter_cons.
  destruct (decide (epj_id nb <> ident)) as [Hne|Heq].
  - cbn [fold_left].
    assert (Hb : Z.eqb (epj_id nb) (id (fp p)) = false).
    { apply Z.eqb_neq. congruence. }
    rewrite Hb. apply IH. exact Hid.
  - assert (Hb : Z.eqb (epj_id nb) (id (fp p)) = true).
    { apply Z.eqb_eq. destruct (decide (epj_id nb = ident)); [congruence|contradiction]. }
    rewrite Hb. apply IH. exact Hid.
Qed.

(** X5.  The tree-based correction of a particle never pairs the particle
    with itself: the neighbour entries that carry the identifier of the
    particle are skipped, whatever their place in the list, so the result is
    the one for the list without them; a particle whose neighbour list holds
    nothing but itself gets the self-potential correction and nothing
    else. *)
Theorem tree_neighbor_skips_own_id (_tree : Tree F) (p : FPSoft F) :
  correctForceWithCutoffTreeNeighborOneParticleImp manager _tree p =
  neighborLoop manager (filter (fun nb => epj_id nb <> id (fp p)) (_tree p))
    (selfPotentialCorrection manager p)
  /\ ((forall nb, nb ∈ _tree p -> epj_id nb = id (fp p)) ->
      correctForceWithCutoffTreeNeighborOneParticleImp manager _tree p =
      selfPotentialCorrection manager p).
Proof.
  assert (Hid : id (fp (selfPotentialCorrection manager p)) = id (fp p)).
  { unfold selfPotentialCorrection. destruct (_ == _)%f64; reflexivity. }
  assert (Hfirst : correctForceWithCutoffTreeNeighborOneParticleImp manager _tree p =
                   neighborLoop manager
                     (filter (fun nb => epj_id nb <> id (fp p)) (_tree p))
                     (selfPotentialCorrection manager p)).
  { unfold correctForceWithCutoffTreeNeighborOneParticleImp. cbv zeta.
    apply neighborLoop_skip. exact Hid. }
  split; [exact Hfirst|].
  intros Hall. rewrite Hfirst.
  assert (Hnil : filter (fun nb => epj_id nb <> id (fp p)) (_tree p) = []).
  { revert Hall. generalize (_tree p). intros nbs.
    induction nbs as [|nb nbs IH]; intros Hall; [reflexivity|].
    rewrite filter_cons. destruct (decide (epj_id nb <> id (fp p))) as [Hne|_].
    - exfalso. apply Hne, Hall. left.
    - apply IH. intros nb' Hnb'. apply Hall. right. exact Hnb'. }
  rewrite Hnil. reflexivity.
Qed.

End NeighbourSelf.

(** In binary64: a single whose tree returns the particle itself. *)
Lemma tree_neighbor_skips_own_id_witness :
  let self_tree : Tree float :=
    fun p => [mkEPJSoft (id (fp p)) (mass (fp p)) (pos (fp p)) f1 f3 f1
                (status (fp p)) (mass_bk (fp p))] in
  let single := ex_soft (F:=float) 1 f1 f2 f0 ex_changeover in
  @correctForceWithCutoffTreeNeighborOneParticleImp float _ ramp_ChangeOverFns ex_config
    ex_manager self_tree single
  = selfPotentialCorrection ex_manager single.
Proof.
  intros self_tree single.
  apply (proj2 (@tree_neighbor_skips_own_id float _ ramp_ChangeOverFns ex_config
                  ex_manager self_tree single)).
  intros nb Hnb. apply list_elem_of_singleton in Hnb. subst nb. reflexivity.
Defined.

(** ** The potential of the isolated singles *)

Section IsolatedPotential.
Context {F : Type} `{F64Ops F} `{ChangeOverFns F} `{Config} `{SearchGroupFns F}.
Variable manager : HardManager F.
Local Open Scope f64_scope.

Lemma correctPotWithCutoffOMP_other (_ptcl_list : list nat) (_sys : list (FPSoft F))
    (k : nat) :
  k ∉ _ptcl_list ->
  correctPotWithCutoffOMP manager _sys _ptcl_list !! k = _sys !! k.
Proof.
  unfold correctPotWithCutoffOMP. revert _sys.
  induction _ptcl_list as [|a l IH]; intros _sys Hk; [reflexivity|].
  cbn [fold_left]. rewrite IH by (intros Hin; apply Hk; right; exact Hin).
  apply list_lookup_alter_ne. intros ->. apply Hk. left.
Qed.

(** X6.  [correctPotWithCutoffOMP] adds [mass / r_out_base] to the potential
    of every particle it is given, whatever the status of the particle (the
    status test of the other routines is not made here), and changes nothing
    else: for a list without repetition, a listed particle ends with its
    potential raised by that amount and its acceleration and particle data
    as they were, and a particle that is not listed is untouched. *)
Theorem correctPot_raises_listed_only (_sys : list (FPSoft F)) (_ptcl_list : list nat) :
  NoDup _ptcl_list ->
  (forall k p, k ∈ _ptcl_list -> _sys !! k = Some p ->
     correctPotWithCutoffOMP manager _sys _ptcl_list !! k =
     Some (set_pot_tot (pot_tot p + mass (fp p) / r_out_base manager) p))
  /\ (forall k, k ∉ _ptcl_list ->
        correctPotWithCutoffOMP manager _sys _ptcl_list !! k = _sys !! k).
Proof.
  intros Hnd. split; [|intros k Hk; apply correctPotWithCutoffOMP_other; exact Hk].
  revert _sys. induction Hnd as [|a l Ha Hnd IH]; intros _sys k p Hk Hp.
  - inversion Hk.
  - apply elem_of_cons in Hk as [->|Hk].
    + change (correctPotWithCutoffOMP manager _sys (a :: l))
        with (correctPotWithCutoffOMP manager
                (alter (fun p => set_pot_tot (pot_tot p + mass (fp p) / r_out_base manager) p)
                       a _sys) l).
      rewrite correctPotWithCutoffOMP_other by exact Ha.
      rewrite list_lookup_alter_eq, Hp. reflexivity.
    + change (correctPotWithCutoffOMP manager _sys (a :: l))
        with (correctPotWithCutoffOMP manager
                (alter (fun p => set_pot_tot (pot_tot p + mass (fp p) / r_out_base manager) p)
                       a _sys) l).
      apply IH; [exact Hk|].
      rewrite list_lookup_alter_ne; [exact Hp|].
      intros ->. contradiction.
Qed.

End IsolatedPotential.

(** In binary64: on [ex_store] with the particles 0 and 2 listed, the
    potential of 2 is raised and the particle 1, not listed, is kept. *)
Lemma correctPot_raises_listed_only_witness :
  let run := @correctPotWithCutoffOMP float _ ex_manager in
  run ex_store [0; 2] !! 2 =
    Some (set_pot_tot (f2 / f4)%f64 (ex_soft 0 f2 f8 f0 ex_changeover))
  /\ run ex_store [0; 2] !! 1 = ex_store !! 1.
Proof.
  intros run.
  destruct (@correctPot_raises_listed_only float _ ex_manager ex_store [0; 2])
    as [Hin Hout].
  { apply (bool_decide_unpack _). vm_compute. exact I. }
  split.
  - unfold run.
    rewrite (Hin 2 (ex_soft 0 f2 f8 f0 ex_changeover));
      [|apply (bool_decide_unpack _); vm_compute; exact I|reflexivity].
    vm_compute. reflexivity.
  - apply Hout. apply (bool_decide_unpack _). vm_compute. exact I.
Defined.

(** ** The tables the cluster builder leaves *)

Lemma fold_left_bind_None {S C : Type} (g : C -> S -> option S) (xs : list C) :
  fold_left (fun st x => st ≫= g x) xs None = None.
Proof. induction xs as [|x xs IH]; [reflexivity|exact IH]. Qed.

Lemma fold_left_bind_inv {S C : Type} (P : S -> Prop) (g : C -> S -> option S)
    (xs : list C) (s r : S) :
  P s ->
  (forall x st st', P st -> g x st = Some st' -> P st') ->
  fold_left (fun st x => st ≫= g x) xs (Some s) = Some r -> P r.
Proof.
  intros Hs Hstep. revert s Hs. induction xs as [|x xs IH]; intros s Hs Hr.
  - cbn in Hr. injection Hr as <-. exact Hs.
  - cbn [fold_left] in Hr. cbn [mbind option_bind] in Hr.
    destruct (g x s) as [s1|] eqn:E.
    + exact (IH s1 (Hstep x s s1 Hs E) Hr).
    + rewrite fold_left_bind_None in Hr. discriminate Hr.
Qed.

(** The table of the prefix sums that a loop [t[i+1] = t[i] + f(i)] builds. *)
Lemma prefix_table (f : nat -> nat) (n x0 : nat) :
  length (for_range 0 n (fun i offs => offs ++ [(offs !!! i + f i)%nat]) [x0]) = S n
  /\ forall i, (i <= n)%nat ->
       for_range 0 n (fun i offs => offs ++ [(offs !!! i + f i)%nat]) [x0] !! i
       = Some (x0 + sum_list (f <$> seq 0 i))%nat.
Proof.
  pose (P := fun (K : nat) (offs : list nat) =>
    length offs = S K
    /\ forall i, (i <= K)%nat -> offs !! i = Some (x0 + sum_list (f <$> seq 0 i))%nat).
  apply (for_range_ind P); subst P; cbv beta; [lia| |].
  - split; [reflexivity|]. intros i Hi. assert (i = 0)%nat by lia. subst i.
    cbn. f_equal. lia.
  - intros K offs HK [Hlen Hlook]. split.
    + rewrite length_app, Hlen. cbn. lia.
    + intros i Hi. destruct (decide (i = S K)) as [->|Hne].
      * rewrite lookup_app_r by lia. rewrite Hlen, Nat.sub_diag.
        rewrite seq_S, fmap_app, sum_list_with_app.
        rewrite (list_lookup_total_correct _ _ _ (Hlook K (le_n K))).
        cbn. f_equal. lia.
      * rewrite lookup_app_l by lia. apply Hlook. lia.
Qed.

Lemma fmap_lookup_total_seq (l : list nat) (i : nat) :
  (i <= length l)%nat -> (fun k => l !!! k) <$> seq 0 i = take i l.
Proof.
  intros Hi. apply list_eq. intros k.
  rewrite list_lookup_fmap.
  destruct (decide (k < i)%nat) as [Hk|Hk].
  - rewrite lookup_seq_lt by exact Hk. cbn.
    rewrite lookup_take_lt by exact Hk.
    destruct (lookup_lt_is_Some_2 l k ltac:(lia)) as [x Hx].
    rewrite Hx. f_equal. apply list_lookup_total_correct. exact Hx.
  - rewrite lookup_seq_ge by lia. cbn. symmetry.
    apply lookup_ge_None_2. rewrite length_take. lia.
Qed.

Lemma insert_sorted_Sorted (x : nat) (l : list nat) :
  Sorted le l -> Sorted le (insert_sorted x l).
Proof.
  induction l as [|y t IH]; intros Hs; cbn.
  - repeat constructor.
  - destruct (x <=? y)%nat eqn:E.
    + apply Nat.leb_le in E. constructor; [exact Hs|constructor; exact E].
    + apply Nat.leb_gt in E. inversion Hs as [|? ? Ht Hhd]; subst.
      constructor; [apply IH; exact Ht|].
      destruct t as [|z t']; cbn.
      * constructor. lia.
      * destruct (x <=? z)%nat; constructor; [lia|].
        inversion Hhd; subst. assumption.
Qed.

Lemma sort_Sorted (l : list nat) : Sorted le (sort l).
Proof.
  induction l as [|x l IH]; cbn; [constructor|].
  apply insert_sorted_Sorted, IH.
Qed.

Lemma insert_sorted_elem (x y : nat) (l : list nat) :
  y ∈ insert_sorted x l <-> y = x \/ y ∈ l.
Proof.
  induction l as [|z t IH]; cbn.
  - rewrite list_elem_of_singleton. split; [auto|intros [?|Hin]; [assumption|inversion Hin]].
  - destruct (x <=? z)%nat.
    + rewrite elem_of_cons. tauto.
    + rewrite !elem_of_cons, IH. tauto.
Qed.

Lemma sort_elem (y : nat) (l : list nat) : y ∈ sort l <-> y ∈ l.
Proof.
  induction l as [|x l IH]; cbn; [tauto|].
  rewrite insert_sorted_elem, elem_of_cons, IH. tauto.
Qed.

Lemma unique_elem (y : nat) (l : list nat) : y ∈ unique l <-> y ∈ l.
Proof.
  induction l as [|x t IH]; [tauto|].
  destruct t as [|z t'].
  - cbn. tauto.
  - change (unique (x :: z :: t'))
      with (if (x =? z)%nat then unique (z :: t') else x :: unique (z :: t')).
    destruct (x =? z)%nat eqn:E.
    + apply Nat.eqb_eq in E. subst z. rewrite IH, !elem_of_cons. tauto.
    + rewrite !elem_of_cons, IH, !elem_of_cons. tauto.
Qed.

Lemma unique_StronglySorted (l : list nat) :
  Sorted le l -> StronglySorted lt (unique l).
Proof.
  intros Hs. apply Sorted_StronglySorted in Hs; [|intros a b c; lia].
  induction l as [|x t IH]; [constructor|].
  apply StronglySorted_inv in Hs as [Ht Hall].
  destruct t as [|z t'].
  - cbn. repeat constructor.
  - change (unique (x :: z :: t'))
      with (if (x =? z)%nat then unique (z :: t') else x :: unique (z :: t')).
    destruct (x =? z)%nat eqn:E; [apply IH; exact Ht|].
    apply Nat.eqb_neq in E. constructor; [apply IH; exact Ht|].
    apply Forall_forall. intros y Hy. apply (proj1 (unique_elem _ _)) in Hy.
    rewrite Forall_forall in Hall.
    pose proof (Hall z ltac:(left)) as Hz.
    apply elem_of_cons in Hy as [->|Hy]; [lia|].
    apply StronglySorted_inv in Ht as [_ Hallz]. rewrite Forall_forall in Hallz.
    pose proof (Hallz y Hy). lia.
Qed.

Section BuilderTables.
Context {F : Type} `{F64Ops F} `{SearchGroupFns F} `{SoftFns F} `{OmpFns}
        `{GroupDetectorFns F}.
Variable manager : HardManager F.

(** The first loop keeps the size of the store, gives every cluster its
    number of groups and every thread its artificial particles. *)
Lemma generateGroups_shape (_sys : list (FPSoft F)) (_ptcl_local : list (PtclH4 F))
    (_n_ptcl_in_cluster _n_ptcl_in_cluster_disp : list nat) (_dt_tree : F) :
  length (g_sys (generateGroups manager _sys _ptcl_local _n_ptcl_in_cluster
                   _n_ptcl_in_cluster_disp _dt_tree)) = length _sys
  /\ length (g_artifical (generateGroups manager _sys _ptcl_local _n_ptcl_in_cluster
                            _n_ptcl_in_cluster_disp _dt_tree)) = getNumberOfThread
  /\ length (g_n_group_in_cluster (generateGroups manager _sys _ptcl_local
                                     _n_ptcl_in_cluster _n_ptcl_in_cluster_disp _dt_tree))
     = length _n_ptcl_in_cluster.
Proof.
  unfold generateGroups. cbv zeta.
  pose (P := fun (K : nat) (g : @Generated F) =>
    length (g_sys g) = length _sys
    /\ length (g_artifical g) = getNumberOfThread
    /\ length (g_n_group_in_cluster g) = K).
  apply (for_range_ind P); subst P; cbv beta; [lia| |].
  - cbn. rewrite length_replicate. auto.
  - intros K g HK (Hs & Ha & Hn).
    match goal with
    | |- context [for_range 0 ?n ?body (g_sys g, g_local g)] =>
        assert (Hreset : length (for_range 0 n body (g_sys g, g_local g)).1
                         = length (g_sys g));
        [|destruct (for_range 0 n body (g_sys g, g_local g)) as [sys1 local1]]
    end.
    { apply (for_range_inv
               (fun st : list (FPSoft F) * list (PtclH4 F) =>
                  length st.1 = length (g_sys g))); [reflexivity|].
      intros j [sys local] Hst. cbn [fst] in Hst |- *.
      destruct (local !! _) as [pj|]; [|exact Hst]. cbn [fst].
      destruct (sys_index (adr_org pj)); [rewrite length_alter|]; exact Hst. }
    cbn [fst] in Hreset.
    destruct (generateList _ _ _ _ _ _ _ _) as [[cluster new_artifical] n_group].
    cbn [g_sys g_artifical g_n_group_in_cluster].
    rewrite Hreset, length_alter, length_app. cbn. split; [exact Hs|]. split; [exact Ha|lia].
Qed.

(** The sizes of the store and of the table of first addresses. *)
Let shape (b : @BuilderState F) : nat * nat := (length (b_sys b), length (b_adr_first b)).

Lemma updateMember_shape (cm : PtclH4 F) (kl : nat) (st : @BuilderState F * bool) :
  shape (updateMember cm kl st).1 = shape st.1.
Proof.
  destruct st as [b flag]. unfold updateMember.
  destruct (b_local b !! kl) as [pk|]; [|reflexivity].
  destruct (sys_index (adr_org pk)); unfold shape; cbn; [rewrite length_alter|]; reflexivity.
Qed.

Lemma updateGroup_shape
    (_n_ptcl_in_cluster_disp _n_group_in_cluster _n_group_in_cluster_offset : list nat)
    (art : list (PtclH4 F)) (j : nat) (st st' : @BuilderState F * GroupCursor) :
  updateGroup manager _n_ptcl_in_cluster_disp _n_group_in_cluster
    _n_group_in_cluster_offset art j st = Some st' ->
  shape st'.1 = shape st.1.
Proof.
  destruct st as [b cur]. unfold updateGroup. cbv zeta.
  destruct (art !! _) as [cm|]; [|intros [= <-]; reflexivity].
  destruct (art !! j) as [first|]; [|intros [= <-]; reflexivity].
  destruct (negb _); [discriminate|].
  match goal with
  | |- context [for_range 0 ?n ?body (b, false)] =>
      assert (Hloop : shape (for_range 0 n body (b, false)).1 = shape b);
      [|destruct (for_range 0 n body (b, false)) as [b1 flag]]
  end.
  { apply (for_range_inv (fun st : @BuilderState F * bool => shape st.1 = shape b));
      [reflexivity|].
    intros k st Hst. rewrite updateMember_shape. exact Hst. }
  cbn [fst] in Hloop.
  destruct (negb _); [discriminate|].
  intros [= <-]. cbn [fst]. rewrite <- Hloop. unfold shape. cbn.
  destruct (sys_index (adr_org first)); [rewrite length_insert|]; reflexivity.
Qed.

Lemma updateThread_shape
    (_n_ptcl_in_cluster_disp _n_group_in_cluster _n_group_in_cluster_offset : list nat)
    (offset : nat) (art : list (PtclH4 F)) (b b' : @BuilderState F) :
  updateThread manager _n_ptcl_in_cluster_disp _n_group_in_cluster
    _n_group_in_cluster_offset offset art b = Some b' ->
  shape b' = shape b.
Proof.
  unfold updateThread. cbv zeta.
  destruct (_ =? 0)%nat; [discriminate|].
  destruct (negb _); [discriminate|].
  unfold for_stride.
  match goal with
  | |- fst <$> fold_left _ ?xs (Some (?b1, ?c0)) = Some b' -> _ =>
      destruct (fold_left _ xs (Some (b1, c0))) as [[bf cf]|] eqn:E; [|discriminate];
      intros [= <-];
      assert (Hb1 : shape b1 = shape b)
  end.
  { unfold shape. cbn. f_equal.
    apply (for_range_inv (fun sys : list (FPSoft F) => length sys = length (b_sys b)));
      [reflexivity|].
    intros j sys Hsys. destruct (_ !! j); [rewrite length_insert|]; exact Hsys. }
  rewrite <- Hb1.
  change bf with (bf, cf).1.
  eapply (fold_left_bind_inv
            (fun st : @BuilderState F * GroupCursor => shape st.1 = shape _)); [| |exact E].
  - reflexivity.
  - intros t st st' Hst Hg. cbv beta in Hg.
    rewrite (updateGroup_shape _ _ _ _ _ _ _ Hg). exact Hst.
Qed.

Lemma length_setNumberOfParticleLocal (n : nat) (_sys : list (FPSoft F)) :
  length (setNumberOfParticleLocal n _sys) = n.
Proof.
  unfold setNumberOfParticleLocal.
  rewrite length_app, length_take, length_replicate. lia.
Qed.

(** What [updateGroupMembers] returns, in terms of the state its loop ends
    with. *)
Lemma updateGroupMembers_inv (hard : SystemHard F) (g : @Generated F)
    (sys' : list (FPSoft F)) (hard' : SystemHard F) :
  updateGroupMembers manager hard g = Some (sys', hard') ->
  exists b : @BuilderState F,
    sys' = b_sys b
    /\ hard' = mkSystemHard (b_local b) (n_ptcl_in_cluster_ hard)
                 (n_ptcl_in_cluster_disp_ hard) (g_n_group_in_cluster g)
                 (groupOffsetTable (g_n_group_in_cluster g)) (b_adr_first b)
                 (unique (sort (b_flagged b))) (b_remote b) (hard_dE hard)
    /\ length (b_sys b)
       = threadOffsets (length (g_sys g)) (g_artifical g) !!! length (g_artifical g)
    /\ length (b_adr_first b)
       = groupOffsetTable (g_n_group_in_cluster g) !!! length (n_ptcl_in_cluster_ hard).
Proof.
  unfold updateGroupMembers. cbv zeta.
  match goal with
  | |- _ <$> for_range 0 ?n ?body (Some ?b0) = _ -> _ =>
      destruct (for_range 0 n body (Some b0)) as [b|] eqn:E; [|discriminate];
      assert (Hshape : shape b = shape b0)
  end.
  { unfold for_range in E.
    eapply (fold_left_bind_inv (fun st : @BuilderState F => shape st = shape _));
      [| |exact E].
    - reflexivity.
    - intros i st st' Hst Hg. cbv beta in Hg.
      rewrite (updateThread_shape _ _ _ _ _ _ _ Hg). exact Hst. }
  cbn [fmap option_fmap option_map]. intros [= <- <-]. exists b.
  unfold shape in Hshape. cbn [b_sys b_adr_first] in Hshape.
  rewrite length_setNumberOfParticleLocal, length_replicate in Hshape.
  injection Hshape as Hs Ha. auto.
Qed.

(** X7.  The clusters that the builder flags for a changeover update come
    out in increasing order and without repetition, however the threads have
    recorded them. *)
Theorem builder_flagged_clusters_sorted (hard : SystemHard F) (_sys : list (FPSoft F))
    (_dt_tree : F) (sys' : list (FPSoft F)) (hard' : SystemHard F) :
  findGroupsAndCreateArtificalParticlesImpl manager hard _sys _dt_tree = Some (sys', hard') ->
  StronglySorted lt (i_cluster_changeover_update_ hard').
Proof.
  unfold findGroupsAndCreateArtificalParticlesImpl. intros Hrun.
  destruct (updateGroupMembers_inv _ _ _ _ Hrun) as (b & _ & -> & _ & _).
  cbn [i_cluster_changeover_update_].
  apply unique_StronglySorted, sort_Sorted.
Qed.

(** X8.  The builder leaves the cluster tables as they were and the group
    tables consistent with one another: one group count per cluster; the
    offsets are the running sums of the counts, from 0, with one entry more
    than there are clusters; and the table of first addresses has one slot
    per group. *)
Theorem builder_group_tables (hard : SystemHard F) (_sys : list (FPSoft F))
    (_dt_tree : F) (sys' : list (FPSoft F)) (hard' : SystemHard F) :
  findGroupsAndCreateArtificalParticlesImpl manager hard _sys _dt_tree = Some (sys', hard') ->
  n_ptcl_in_cluster_ hard' = n_ptcl_in_cluster_ hard
  /\ n_ptcl_in_cluster_disp_ hard' = n_ptcl_in_cluster_disp_ hard
  /\ length (n_group_in_cluster_ hard') = length (n_ptcl_in_cluster_ hard)
  /\ length (n_group_in_cluster_offset_ hard') = S (length (n_ptcl_in_cluster_ hard))
  /\ (forall i, (i <= length (n_ptcl_in_cluster_ hard))%nat ->
        n_group_in_cluster_offset_ hard' !! i
        = Some (sum_list (take i (n_group_in_cluster_ hard'))))
  /\ length (adr_first_ptcl_arti_in_cluster_ hard') = sum_list (n_group_in_cluster_ hard').
Proof.
  unfold findGroupsAndCreateArtificalParticlesImpl. intros Hrun.
  destruct (updateGroupMembers_inv _ _ _ _ Hrun) as (b & _ & -> & _ & Hadr).
  cbn [n_ptcl_in_cluster_ n_ptcl_in_cluster_disp_ n_group_in_cluster_
       n_group_in_cluster_offset_ adr_first_ptcl_arti_in_cluster_].
  destruct (generateGroups_shape _sys (ptcl_hard_ hard) (n_ptcl_in_cluster_ hard)
              (n_ptcl_in_cluster_disp_ hard) _dt_tree) as (_ & _ & Hn).
  set (g := generateGroups manager _sys (ptcl_hard_ hard) (n_ptcl_in_cluster_ hard)
              (n_ptcl_in_cluster_disp_ hard) _dt_tree) in *.
  destruct (prefix_table (fun i => g_n_group_in_cluster g !!! i)
              (length (g_n_group_in_cluster g)) 0) as [Hlen Hlook].
  fold (groupOffsetTable (g_n_group_in_cluster g)) in Hlen, Hlook.
  assert (Hsum : forall i, (i <= length (g_n_group_in_cluster g))%nat ->
            groupOffsetTable (g_n_group_in_cluster g) !! i
            = Some (sum_list (take i (g_n_group_in_cluster g)))).
  { intros i Hi. rewrite (Hlook i Hi), fmap_lookup_total_seq by exact Hi. reflexivity. }
  split; [reflexivity|]. split; [reflexivity|]. split; [exact Hn|].
  split; [rewrite Hlen, Hn; reflexivity|].
  split; [intros i Hi; apply Hsum; lia|].
  rewrite Hadr, <- Hn.
  rewrite (list_lookup_total_correct _ _ _ (Hsum _ (le_n _))).
  rewrite firstn_all. reflexivity.
Qed.

Lemma fmap_length_lookup_total_seq (arts : list (list (PtclH4 F))) :
  (fun i => length (arts !!! i)) <$> seq 0 (length arts) = length <$> arts.
Proof.
  apply list_eq. intros k. rewrite !list_lookup_fmap.
  destruct (decide (k < length arts)%nat) as [Hk|Hk].
  - rewrite lookup_seq_lt by exact Hk. cbn.
    destruct (lookup_lt_is_Some_2 arts k Hk) as [x Hx].
    rewrite Hx. cbn. f_equal. f_equal. apply list_lookup_total_correct. exact Hx.
  - rewrite lookup_seq_ge by lia. cbn.
    rewrite (lookup_ge_None_2 arts k) by lia. reflexivity.
Qed.

(** X9.  The builder appends the artificial particles to the store and
    nothing else: the store grows by exactly the number of artificial
    particles that the group detector has produced, all threads together. *)
Theorem builder_store_size (hard : SystemHard F) (_sys : list (FPSoft F))
    (_dt_tree : F) (sys' : list (FPSoft F)) (hard' : SystemHard F) :
  let g := generateGroups manager _sys (ptcl_hard_ hard) (n_ptcl_in_cluster_ hard)
             (n_ptcl_in_cluster_disp_ hard) _dt_tree in
  findGroupsAndCreateArtificalParticlesImpl manager hard _sys _dt_tree = Some (sys', hard') ->
  length sys' = (length _sys + sum_list (length <$> g_artifical g))%nat.
Proof.
  intros g. unfold findGroupsAndCreateArtificalParticlesImpl. fold g. intros Hrun.
  destruct (updateGroupMembers_inv _ _ _ _ Hrun) as (b & -> & _ & Hsys & _).
  destruct (generateGroups_shape _sys (ptcl_hard_ hard) (n_ptcl_in_cluster_ hard)
              (n_ptcl_in_cluster_disp_ hard) _dt_tree) as (Hs & _ & _).
  fold g in Hs.
  destruct (prefix_table (fun i => length (g_artifical g !!! i))
              (length (g_artifical g)) (length (g_sys g))) as [_ Hlook].
  fold (threadOffsets (length (g_sys g)) (g_artifical g)) in Hlook.
  rewrite Hsys, (list_lookup_total_correct _ _ _ (Hlook _ (le_n _))).
  rewrite fmap_length_lookup_total_seq, Hs. reflexivity.
Qed.

Lemma for_range_bind_None {S : Type} (a b : nat) (g : nat -> S -> option S) :
  for_range a b (fun i st => st ≫= g i) None = None.
Proof. unfold for_range. apply fold_left_bind_None. Qed.

(** X10.  The builder stops on a thread whose artificial particles do not
    come in whole blocks: when the number of artificial particles that a
    thread has collected is not a multiple of the block length
    [n_ptcl_artifical], the assertion at the head of the second loop fails
    and the builder returns nothing. *)
Theorem builder_rejects_partial_block (hard : SystemHard F) (_sys : list (FPSoft F))
    (_dt_tree : F) (i : nat) (art : list (PtclH4 F)) :
  let g := generateGroups manager _sys (ptcl_hard_ hard) (n_ptcl_in_cluster_ hard)
             (n_ptcl_in_cluster_disp_ hard) _dt_tree in
  let n_artifical_per_group := n_ptcl_artifical (newGroupPars (n_split manager)) in
  g_artifical g !! i = Some art ->
  n_artifical_per_group <> 0%nat ->
  (length art mod n_artifical_per_group)%nat <> 0%nat ->
  findGroupsAndCreateArtificalParticlesImpl manager hard _sys _dt_tree = None.
Proof.
  intros g n Hart Hn Hmod.
  unfold findGroupsAndCreateArtificalParticlesImpl. fold g.
  unfold updateGroupMembers. cbv zeta.
  match goal with
  | |- _ <$> for_range 0 ?m ?body (Some ?b0) = None =>
      assert (Hnone : for_range 0 m body (Some b0) = None); [|rewrite Hnone; reflexivity];
      pose (P := fun (K : nat) (st : option (@BuilderState F)) =>
                   (i < K)%nat -> st = None);
      apply (for_range_ind P 0 m body (Some b0) ltac:(lia))
  end; subst P; cbv beta.
  - intros Hlt. lia.
  - intros K st HK Hst HiK.
    destruct (decide (i = K)) as [->|Hne].
    + destruct st as [b|]; [|reflexivity]. cbn [mbind option_bind].
      rewrite (list_lookup_total_correct _ _ _ Hart).
      unfold updateThread. cbv zeta. fold n.
      destruct (n =? 0)%nat eqn:E0; [reflexivity|].
      destruct (length art mod n =? 0)%nat eqn:Em; [|reflexivity].
      apply Nat.eqb_eq in Em. contradiction.
    + rewrite Hst by lia. reflexivity.
  - apply lookup_lt_Some in Hart. exact Hart.
Qed.

End BuilderTables.

(** In binary64, on the cluster [ex_cluster]: the builder flags the one
    cluster, leaves the offsets 0 and 1 for its one group and appends the
    five artificial particles of the group to the three particles of the
    store. *)
Lemma builder_flagged_clusters_sorted_witness :
  match @findGroupsAndCreateArtificalParticlesImpl float _ ex_SearchGroupFns ex_SoftFns
          ex_OmpFns ex_GroupDetectorFns ex_manager ex_hard ex_store f1 with
  | Some (_, hard') =>
      StronglySorted lt (i_cluster_changeover_update_ hard')
      /\ i_cluster_changeover_update_ hard' = [0]
  | None => False
  end.
Proof.
  destruct (@findGroupsAndCreateArtificalParticlesImpl float _ ex_SearchGroupFns
              ex_SoftFns ex_OmpFns ex_GroupDetectorFns ex_manager ex_hard ex_store f1)
    as [[sys' hard']|] eqn:E; [|vm_compute in E; discriminate E].
  split.
  - exact (@builder_flagged_clusters_sorted float _ ex_SearchGroupFns ex_SoftFns
             ex_OmpFns ex_GroupDetectorFns ex_manager ex_hard ex_store f1 sys' hard' E).
  - vm_compute in E. injection E as _ <-. reflexivity.
Defined.

Lemma builder_group_tables_witness :
  match @findGroupsAndCreateArtificalParticlesImpl float _ ex_SearchGroupFns ex_SoftFns
          ex_OmpFns ex_GroupDetectorFns ex_manager ex_hard ex_store f1 with
  | Some (_, hard') =>
      n_group_in_cluster_offset_ hard' !! 1
      = Some (sum_list (take 1 (n_group_in_cluster_ hard')))
      /\ length (adr_first_ptcl_arti_in_cluster_ hard') = sum_list (n_group_in_cluster_ hard')
  | None => False
  end.
Proof.
  destruct (@findGroupsAndCreateArtificalParticlesImpl float _ ex_SearchGroupFns
              ex_SoftFns ex_OmpFns ex_GroupDetectorFns ex_manager ex_hard ex_store f1)
    as [[sys' hard']|] eqn:E; [|vm_compute in E; discriminate E].
  destruct (@builder_group_tables float _ ex_SearchGroupFns ex_SoftFns ex_OmpFns
              ex_GroupDetectorFns ex_manager ex_hard ex_store f1 sys' hard' E)
    as (_ & _ & _ & _ & Hoff & Hadr).
  split; [apply Hoff; vm_compute; lia|exact Hadr].
Defined.

Lemma builder_store_size_witness :
  match @findGroupsAndCreateArtificalParticlesImpl float _ ex_SearchGroupFns ex_SoftFns
          ex_OmpFns ex_GroupDetectorFns ex_manager ex_hard ex_store f1 with
  | Some (sys', _) => length sys' = 8
  | None => False
  end.
Proof.
  destruct (@findGroupsAndCreateArtificalParticlesImpl float _ ex_SearchGroupFns
              ex_SoftFns ex_OmpFns ex_GroupDetectorFns ex_manager ex_hard ex_store f1)
    as [[sys' hard']|] eqn:E; [|vm_compute in E; discriminate E].
  rewrite (@builder_store_size float _ ex_SearchGroupFns ex_SoftFns ex_OmpFns
             ex_GroupDetectorFns ex_manager ex_hard ex_store f1 sys' hard' E).
  vm_compute. reflexivity.
Defined.

(** In binary64, with the split factor 2 (blocks of five): the detector
    stand-in that hands over three artificial particles. *)
Lemma builder_rejects_partial_block_witness :
  @findGroupsAndCreateArtificalParticlesImpl float _ ex_SearchGroupFns ex_SoftFns
    ex_OmpFns ex_partial_GroupDetectorFns ex_manager ex_hard ex_store f1 = None.
Proof.
  apply (@builder_rejects_partial_block float _ ex_SearchGroupFns ex_SoftFns ex_OmpFns
           ex_partial_GroupDetectorFns ex_manager ex_hard ex_store f1 0
           (take 3 ex_art_block)).
  - vm_compute. reflexivity.
  - vm_compute. lia.
  - vm_compute. lia.
Defined.

(** ** Where the builder stores the artificial particles *)

Lemma sys_index_Some (z : Z) (a : nat) : sys_index z = Some a -> z = Z.of_nat a.
Proof.
  unfold sys_index. destruct (0 <=? z)%Z eqn:E; [|discriminate].
  intros [= <-]. apply Z.leb_le in E. lia.
Qed.


Section BuilderStore.
Context {F : Type} `{F64Ops F} `{SearchGroupFns F} `{SoftFns F} `{OmpFns}
        `{GroupDetectorFns F}.
Variable manager : HardManager F.












Local Open Scope f64_scope.


End BuilderStore.


(** ** What the per-cluster drive hands to the integrators *)

Lemma for_range_alter_idem {A : Type} (f : A -> A) (idx : nat -> nat) (n : nat)
    (l : list A) :
  (forall x, f (f x) = f x) ->
  (forall i, i < n ->
     for_range 0 n (fun i st => alter f (idx i) st) l !! idx i = f <$> l !! idx i)
  /\ (forall k, (forall i, i < n -> k <> idx i) ->
        for_range 0 n (fun i st => alter f (idx i) st) l !! k = l !! k).
Proof.
  intros Hidem.
  pose (P := fun (K : nat) (st : list A) =>
    forall k, st !! k = if existsb (fun i => idx i =? k) (seq 0 K)
                        then f <$> l !! k else l !! k).
  assert (HP : P n (for_range 0 n (fun i st => alter f (idx i) st) l)).
  { apply (for_range_ind P); subst P; cbv beta; [lia|intros k; reflexivity|].
    intros K st _ Hst k. rewrite seq_S, existsb_app. cbn [existsb Nat.add].
    rewrite orb_false_r.
    destruct (decide (k = idx K)) as [->|Hne].
    - rewrite Nat.eqb_refl, orb_true_r, list_lookup_alter_eq, Hst.
      destruct (existsb _ _); [|reflexivity].
      destruct (l !! idx K) as [x|]; [|reflexivity]. cbn. rewrite Hidem. reflexivity.
    - rewrite list_lookup_alter_ne by congruence.
      assert (Hb : (idx K =? k) = false) by (apply Nat.eqb_neq; congruence).
      rewrite Hb, orb_false_r. apply Hst. }
  subst P. cbv beta in HP. split.
  - intros i Hi. rewrite HP.
    assert (Hb : existsb (fun j => idx j =? idx i) (seq 0 n) = true).
    { apply existsb_exists. exists i. split; [apply in_seq; lia|apply Nat.eqb_refl]. }
    rewrite Hb. reflexivity.
  - intros k Hk. rewrite HP.
    assert (Hb : existsb (fun j => idx j =? k) (seq 0 n) = false).
    { apply not_true_is_false. intros Hex. apply existsb_exists in Hex as (i & Hi & Heq).
      apply in_seq in Hi. apply Nat.eqb_eq in Heq. apply (Hk i); [lia|congruence]. }
    rewrite Hb. reflexivity.
Qed.

Section DriveSetup.
Context {F : Type} `{F64Ops F} `{Config} `{SearchGroupFns F} `{EngineFns F}.
Variable manager : HardManager F.

(** X11.  Before the integrators run, the per-cluster drive clears the
    backup mass of the grouped members, the particles before
    [i_single_start], and gives the centre-of-mass particle of every group
    its mass back from the backup slot; the singles behind the members and
    every other artificial particle go to the integrator as they are. *)
Theorem drive_setup_masses (_ptcl_local : list (PtclH4 F))
    (_ptcl_artifical : list (FPSoft F)) (_n_group : nat) :
  let i_single_start := groupOffsets manager _ptcl_artifical _n_group !!! _n_group in
  let gpars := newGroupPars (n_split manager) in
  let icm := fun i => (i * n_ptcl_artifical gpars + offset_cm gpars)%nat in
  let local1 := driveSetupLocal manager _ptcl_local _ptcl_artifical _n_group in
  let art1 := driveSetupArtifical manager _ptcl_artifical _n_group in
  (forall i, (i < i_single_start)%nat ->
     local1 !! i = set_hp (set_mass_bk f0) <$> _ptcl_local !! i)
  /\ (forall i, (i_single_start <= i)%nat -> local1 !! i = _ptcl_local !! i)
  /\ (forall i, (i < _n_group)%nat ->
        art1 !! icm i = set_fp (fun q => set_mass (mass_bk q) q) <$> _ptcl_artifical !! icm i)
  /\ (forall k, (forall i, (i < _n_group)%nat -> k <> icm i) ->
        art1 !! k = _ptcl_artifical !! k).
Proof.
  intros i_single_start gpars icm local1 art1.
  destruct (for_range_alter_idem (set_hp (set_mass_bk (F:=F) f0)) (fun i => i)
              i_single_start _ptcl_local) as [Hl1 Hl2].
  { intros [[] ? ?]. reflexivity. }
  destruct (for_range_alter_idem (set_fp (fun q : Ptcl F => set_mass (mass_bk q) q)) icm
              _n_group _ptcl_artifical) as [Ha1 Ha2].
  { intros [[] ? ?]. reflexivity. }
  split; [|split; [|split]].
  - intros i Hi. exact (Hl1 i Hi).
  - intros i Hi. apply Hl2. intros j Hj. lia.
  - intros i Hi. exact (Ha1 i Hi).
  - intros k Hk. exact (Ha2 k Hk).
Qed.

End DriveSetup.

(** In binary64, on [ex_cluster] with the block [ex_drive_block]: the first
    member loses its backup mass, the single at 2 is untouched, and the
    centre of mass gets the mass 4. *)
Lemma drive_setup_masses_witness :
  let local1 :=
    @driveSetupLocal float _ ex_SearchGroupFns ex_EngineFns ex_manager ex_cluster
      ex_drive_block 1 in
  let art1 :=
    @driveSetupArtifical float ex_SearchGroupFns ex_manager ex_drive_block 1 in
  local1 !! 0 = set_hp (set_mass_bk f0) <$> ex_cluster !! 0
  /\ local1 !! 2 = ex_cluster !! 2
  /\ (fun q => mass (fp q)) <$> art1 !! 4 = Some f4.
Proof.
  intros local1 art1.
  destruct (@drive_setup_masses float _ ex_SearchGroupFns ex_EngineFns ex_manager
              ex_cluster ex_drive_block 1) as (Hm & Hs & Hcm & _).
  split; [apply Hm; vm_compute; lia|].
  split; [apply Hs; vm_compute; lia|].
  unfold art1.
  assert (H4 : @driveSetupArtifical float ex_SearchGroupFns ex_manager ex_drive_block 1 !! 4
               = set_fp (fun q => set_mass (mass_bk q) q) <$> ex_drive_block !! 4).
  { exact (Hcm 0 ltac:(lia)). }
  rewrite H4. vm_compute. reflexivity.
Defined.

(** ** The clusters of the connected particles *)

Lemma length_resizeNoInitialize {A : Type} (d : A) (n : nat) (l : list A) :
  length (resizeNoInitialize d n l) = n.
Proof.
  unfold resizeNoInitialize. rewrite length_app, length_take, length_replicate. lia.
Qed.

Lemma sum_list_take_S (n : list nat) (K x : nat) :
  n !! K = Some x -> sum_list (take (S K) n) = (sum_list (take K n) + x)%nat.
Proof.
  intros Hx. rewrite (take_S_r _ _ _ Hx), sum_list_with_app. cbn. lia.
Qed.

(** The displacements are the running sums of the cluster sizes, whatever
    the array held before. *)
Lemma clusterDisp_spec (old n : list nat) :
  length (clusterDisp old n) = S (length n)
  /\ forall i, i <= length n -> clusterDisp old n !! i = Some (sum_list (take i n)).
Proof.
  unfold clusterDisp. cbv zeta.
  pose (P := fun (K : nat) (d : list nat) =>
    length d = S (length n)
    /\ forall i, i <= K -> d !! i = Some (sum_list (take i n))).
  apply (for_range_ind P); subst P; cbv beta; [lia| |].
  - split.
    + rewrite length_insert, length_resizeNoInitialize. lia.
    + intros i Hi. assert (i = 0) by lia. subst i.
      rewrite list_lookup_insert_eq by (rewrite length_resizeNoInitialize; lia).
      reflexivity.
  - intros K d HK [Hlen Hlook]. split; [rewrite length_insert; exact Hlen|].
    intros i Hi. destruct (decide (i = S K)) as [->|Hne].
    + rewrite list_lookup_insert_eq by lia.
      destruct (lookup_lt_is_Some_2 n K ltac:(lia)) as [x Hx].
      rewrite (list_lookup_total_correct _ _ _ (Hlook K (le_n K))).
      rewrite (list_lookup_total_correct _ _ _ Hx).
      rewrite (sum_list_take_S _ _ _ Hx). reflexivity.
    + rewrite list_lookup_insert_ne by congruence. apply Hlook. lia.
Qed.

Lemma back_incr_snoc (n : list nat) (c : nat) :
  back_incr (n ++ [c]) = Some (n ++ [S c]).
Proof.
  unfold back_incr. destruct (n ++ [c]) as [|y t] eqn:E.
  - destruct n; discriminate E.
  - rewrite <- E. f_equal. rewrite length_app. cbn [length].
    replace (length n + 1 - 1) with (length n + 0) by lia.
    rewrite alter_app_r. reflexivity.
Qed.

Lemma fold_countStep_None {F : Type} (l : list (PtclH4 F)) :
  fold_left countStep l None = None.
Proof. induction l as [|p l IH]; [reflexivity|exact IH]. Qed.

Lemma countClusters_from {F : Type} (l : list (PtclH4 F)) (n : list nat) (c : nat)
    (ref : Z) :
  fst <$> fold_left countStep l (Some (n ++ [c], ref))
  = Some (n ++ runLengthsFrom ref c (id_cluster <$> l)).
Proof.
  revert n c ref. induction l as [|p l IH]; intros n c ref; [reflexivity|].
  cbn [fold_left fmap list_fmap runLengthsFrom].
  unfold countStep at 2. cbn [mbind option_bind].
  destruct (ref =? id_cluster p)%Z eqn:E; cbn [negb].
  - rewrite back_incr_snoc. cbn [fmap option_fmap option_map]. apply IH.
  - rewrite back_incr_snoc. cbn [fmap option_fmap option_map].
    rewrite IH, <- app_assoc. reflexivity.
Qed.

(** The counting loop returns the run lengths of the cluster identifiers,
    unless the first identifier is the sentinel. *)
Lemma countClusters_runs {F : Type} (l : list (PtclH4 F)) :
  countClusters l =
  match l with
  | [] => Some []
  | p :: _ =>
      if (id_cluster p =? -999)%Z then None else Some (runLengths (id_cluster <$> l))
  end.
Proof.
  unfold countClusters. destruct l as [|p l]; [reflexivity|].
  cbn [fold_left]. unfold countStep at 2. cbn [mbind option_bind].
  rewrite (Z.eqb_sym (id_cluster p)).
  destruct (-999 =? id_cluster p)%Z eqn:E; cbn [negb].
  - cbn. rewrite fold_countStep_None. reflexivity.
  - change ([] ++ [0]) with ([] ++ [0]). rewrite (back_incr_snoc [] 0).
    cbn [fmap option_fmap option_map].
    rewrite (countClusters_from l [] 1 (id_cluster p)). reflexivity.
Qed.

Lemma runLengthsFrom_sum (ref : Z) (c : nat) (ids : list Z) :
  sum_list (runLengthsFrom ref c ids) = c + length ids.
Proof.
  revert ref c. induction ids as [|x t IH]; intros ref c; cbn.
  - lia.
  - destruct (ref =? x)%Z; [rewrite IH; lia|cbn; rewrite IH; lia].
Qed.

Lemma runLengthsFrom_pos (ref : Z) (c : nat) (ids : list Z) :
  0 < c -> Forall (lt 0) (runLengthsFrom ref c ids).
Proof.
  revert ref c. induction ids as [|x t IH]; intros ref c Hc; cbn.
  - repeat constructor. exact Hc.
  - destruct (ref =? x)%Z; [apply IH; lia|].
    constructor; [exact Hc|apply IH; lia].
Qed.

Lemma runKeysFrom_length (ref : Z) (c : nat) (ids : list Z) :
  length (runKeysFrom ref ids) = length (runLengthsFrom ref c ids).
Proof.
  revert ref c. induction ids as [|x t IH]; intros ref c; cbn; [reflexivity|].
  destruct (ref =? x)%Z; [apply IH|cbn; f_equal; apply IH].
Qed.

(** The list is its runs laid end to end. *)
Lemma runs_decode (ref : Z) (c : nat) (ids : list Z) :
  replicate c ref ++ ids
  = concat (zip_with replicate (runLengthsFrom ref c ids) (runKeysFrom ref ids)).
Proof.
  revert ref c. induction ids as [|x t IH]; intros ref c; cbn.
  - rewrite app_nil_r. reflexivity.
  - destruct (ref =? x)%Z eqn:E.
    + apply Z.eqb_eq in E. subst x. rewrite <- IH.
      change (ref :: t) with ([ref] ++ t). rewrite app_assoc. f_equal.
      rewrite <- replicate_cons_app. reflexivity.
    + cbn. rewrite <- IH. reflexivity.
Qed.

Lemma runKeysFrom_ge (ref : Z) (ids : list Z) :
  Sorted Z.le (ref :: ids) -> Forall (Z.le ref) (runKeysFrom ref ids).
Proof.
  intros Hs. apply Sorted_StronglySorted in Hs; [|intros a b c; lia].
  apply StronglySorted_inv in Hs as [Ht Hall].
  revert ref Hall. induction ids as [|x t IH]; intros ref Hall; cbn.
  - repeat constructor. lia.
  - apply StronglySorted_inv in Ht as [Ht Hx].
    apply Forall_cons in Hall as [Hrx Hall].
    destruct (ref =? x)%Z.
    + apply IH; assumption.
    + constructor; [lia|].
      eapply Forall_impl; [apply IH; assumption|].
      intros k Hk. cbv beta in Hk. lia.
Qed.

(** In a sorted list the runs have strictly increasing identifiers. *)
Lemma runKeysFrom_increasing (ref : Z) (ids : list Z) :
  Sorted Z.le (ref :: ids) -> StronglySorted Z.lt (runKeysFrom ref ids).
Proof.
  revert ref. induction ids as [|x t IH]; intros ref Hs; cbn.
  - repeat constructor.
  - assert (Hrx : (ref <= x)%Z).
    { inversion Hs as [|? ? _ Hhd]; subst. inversion Hhd; subst. assumption. }
    assert (Hxt : Sorted Z.le (x :: t)) by (inversion Hs; assumption).
    destruct (ref =? x)%Z eqn:E.
    + apply Z.eqb_eq in E. subst x. apply IH. exact Hxt.
    + apply Z.eqb_neq in E. constructor; [apply IH; exact Hxt|].
      eapply Forall_impl; [apply runKeysFrom_ge; exact Hxt|].
      intros k Hk. cbv beta in Hk. lia.
Qed.

Section ConnectedCluster.
Context {F : Type} `{F64Ops F} `{SoftFns F} `{ClusterFns F}.

Lemma pushMediated_app (sys : list (FPSoft F)) (med : list Mediator)
    (l : list (PtclH4 F)) :
  pushMediated sys med l = l ++ pushMediated sys med [].
Proof.
  unfold pushMediated. revert l. induction med as [|m med IH]; intros l.
  - cbn. rewrite app_nil_r. reflexivity.
  - cbn [fold_left].
    destruct (adr_sys_ m <? 0)%Z; [apply IH|].
    destruct (negb _); [apply IH|].
    destruct (sys !! _) as [p|]; [|apply IH].
    rewrite IH. rewrite (IH ([] ++ _)). rewrite <- app_assoc. reflexivity.
Qed.

Lemma pushReceived_imap (ptcl_recv : list Tptcl) (l : list (PtclH4 F)) :
  pushReceived ptcl_recv l
  = l ++ imap (fun i p => PtclHard_recv p (tptcl_id_cluster p) (- (Z.of_nat i + 1)))
             ptcl_recv.
Proof.
  unfold pushReceived.
  pose (P := fun (K : nat) (st : list (PtclH4 F)) =>
    st = l ++ imap (fun i p => PtclHard_recv p (tptcl_id_cluster p) (- (Z.of_nat i + 1)))
                   (take K ptcl_recv)).
  assert (HP : P (length ptcl_recv)
                 (for_range 0 (length ptcl_recv)
                    (fun i l =>
                       match ptcl_recv !! i with
                       | Some p =>
                           l ++ [PtclHard_recv p (tptcl_id_cluster p) (- (Z.of_nat i + 1))]
                       | None => l
                       end) l)).
  { apply (for_range_ind P); subst P; cbv beta; [lia| |].
    - cbn. rewrite app_nil_r. reflexivity.
    - intros K st HK ->.
      destruct (lookup_lt_is_Some_2 ptcl_recv K ltac:(lia)) as [p Hp].
      rewrite Hp, (take_S_r _ _ _ Hp), imap_app. cbn.
      rewrite length_take, Nat.min_l by lia. rewrite Nat.add_0_r, <- app_assoc.
      reflexivity. }
  subst P. cbv beta in HP. rewrite firstn_all in HP. exact HP.
Qed.

(** What [setPtclForConnectedCluster] returns when it returns. *)
Lemma setPtclForConnectedCluster_inv (hard : SystemHard F) (sys : list (FPSoft F))
    (med : list Mediator) (ptcl_recv : list Tptcl) (hard' : SystemHard F) :
  setPtclForConnectedCluster hard sys med ptcl_recv = Some hard' ->
  (ptcl_hard_ hard' = [] /\ n_ptcl_in_cluster_ hard' = [])
  \/ exists p l,
       sort_id_cluster (pushReceived ptcl_recv (pushMediated sys med [])) = p :: l
       /\ ptcl_hard_ hard' = p :: l
       /\ n_ptcl_in_cluster_ hard' = runLengthsFrom (id_cluster p) 1 (id_cluster <$> l)
       /\ n_ptcl_in_cluster_disp_ hard'
          = clusterDisp (n_ptcl_in_cluster_disp_ hard) (n_ptcl_in_cluster_ hard').
Proof.
  unfold setPtclForConnectedCluster. cbv zeta.
  destruct (length _ =? 0)%nat.
  { intros [= <-]. left. split; reflexivity. }
  rewrite countClusters_runs.
  destruct (sort_id_cluster _) as [|p l] eqn:Es.
  { intros [= <-]. left. split; reflexivity. }
  destruct (id_cluster p =? -999)%Z; [discriminate|].
  intros [= <-]. right. exists p, l. repeat split; reflexivity.
Qed.

(** X12.  After [setPtclForConnectedCluster] every cluster counts at least
    one particle and the sizes add up to the number of particles in
    [ptcl_hard_]; when there is a particle at all, the displacements are the
    running sums of the sizes, from 0 up to the number of particles, with
    one entry more than there are clusters, whatever the array held
    before. *)
Theorem connected_cluster_tables (hard : SystemHard F) (sys : list (FPSoft F))
    (med : list Mediator) (ptcl_recv : list Tptcl) (hard' : SystemHard F) :
  setPtclForConnectedCluster hard sys med ptcl_recv = Some hard' ->
  sum_list (n_ptcl_in_cluster_ hard') = length (ptcl_hard_ hard')
  /\ Forall (lt 0) (n_ptcl_in_cluster_ hard')
  /\ (ptcl_hard_ hard' <> [] ->
      length (n_ptcl_in_cluster_disp_ hard') = S (length (n_ptcl_in_cluster_ hard'))
      /\ (forall i, i <= length (n_ptcl_in_cluster_ hard') ->
            n_ptcl_in_cluster_disp_ hard' !! i
            = Some (sum_list (take i (n_ptcl_in_cluster_ hard'))))
      /\ n_ptcl_in_cluster_disp_ hard' !! length (n_ptcl_in_cluster_ hard')
         = Some (length (ptcl_hard_ hard'))).
Proof.
  intros Hrun.
  destruct (setPtclForConnectedCluster_inv _ _ _ _ _ Hrun)
    as [[Hl Hn]|(p & l & _ & Hl & Hn & Hd)].
  { rewrite Hl, Hn. split; [reflexivity|]. split; [constructor|]. congruence. }
  assert (Hsum : sum_list (n_ptcl_in_cluster_ hard') = length (ptcl_hard_ hard')).
  { rewrite Hn, Hl, runLengthsFrom_sum, length_fmap. reflexivity. }
  destruct (clusterDisp_spec (n_ptcl_in_cluster_disp_ hard) (n_ptcl_in_cluster_ hard'))
    as [Hlen Hlook].
  rewrite <- Hd in Hlen, Hlook.
  split; [exact Hsum|].
  split; [rewrite Hn; apply runLengthsFrom_pos; lia|].
  intros _. split; [exact Hlen|]. split; [exact Hlook|].
  rewrite (Hlook _ (le_n _)), firstn_all, Hsum. reflexivity.
Qed.

Section Laws.
Context `{!ClusterLaws F}.

(** X13.  After [setPtclForConnectedCluster] the particles of one cluster
    lie side by side: [ptcl_hard_] is a sequence of blocks, block [i] of
    [n_ptcl_in_cluster_[i]] particles with one cluster identifier, and the
    identifiers of the blocks increase strictly, so that no cluster is split
    over two blocks. *)
Theorem connected_clusters_are_runs (hard : SystemHard F) (sys : list (FPSoft F))
    (med : list Mediator) (ptcl_recv : list Tptcl) (hard' : SystemHard F) :
  setPtclForConnectedCluster hard sys med ptcl_recv = Some hard' ->
  exists keys : list Z,
    length keys = length (n_ptcl_in_cluster_ hard')
    /\ StronglySorted Z.lt keys
    /\ id_cluster <$> ptcl_hard_ hard'
       = concat (zip_with replicate (n_ptcl_in_cluster_ hard') keys).
Proof.
  intros Hrun.
  destruct (setPtclForConnectedCluster_inv _ _ _ _ _ Hrun)
    as [[Hl Hn]|(p & l & Hs & Hl & Hn & _)].
  { exists []. rewrite Hl, Hn. cbn. repeat split; constructor. }
  pose proof (sort_id_cluster_sorted
                (pushReceived ptcl_recv (pushMediated sys med []))) as Hsorted.
  rewrite Hs in Hsorted.
  assert (Hids : Sorted Z.le (id_cluster p :: (id_cluster <$> l))).
  { change (Sorted Z.le (id_cluster <$> p :: l)).
    eapply Sorted_fmap; [|exact Hsorted]. intros x y Hxy. exact Hxy. }
  exists (runKeysFrom (id_cluster p) (id_cluster <$> l)).
  rewrite Hn, Hl.
  split; [apply runKeysFrom_length|].
  split; [apply runKeysFrom_increasing; exact Hids|].
  rewrite <- runs_decode. reflexivity.
Qed.

(** X14.  The counting loop of [setPtclForConnectedCluster] starts from the
    reference identifier -999.  When no particle carries it, the routine
    completes; when it is the smallest cluster identifier present, the first
    particle opens no cluster and the increment of [back()] meets an empty
    array, where it is undefined. *)
Theorem connected_cluster_sentinel (hard : SystemHard F) (sys : list (FPSoft F))
    (med : list Mediator) (ptcl_recv : list Tptcl) :
  let pushed := pushReceived ptcl_recv (pushMediated sys med []) in
  ((forall p, p ∈ pushed -> id_cluster p <> (-999)%Z) ->
   is_Some (setPtclForConnectedCluster hard sys med ptcl_recv))
  /\ ((exists p, p ∈ pushed /\ id_cluster p = (-999)%Z) ->
      (forall q, q ∈ pushed -> (-999 <= id_cluster q)%Z) ->
      setPtclForConnectedCluster hard sys med ptcl_recv = None).
Proof.
  intros pushed.
  pose proof (sort_id_cluster_perm pushed) as Hperm.
  pose proof (sort_id_cluster_sorted pushed) as Hsorted.
  unfold setPtclForConnectedCluster. cbv zeta. fold pushed.
  split.
  - intros Hno. destruct (length pushed =? 0)%nat; [eexists; reflexivity|].
    rewrite countClusters_runs.
    destruct (sort_id_cluster pushed) as [|p l] eqn:Es; [eexists; reflexivity|].
    assert (Hp : p ∈ pushed) by (rewrite <- Hperm; left).
    destruct (id_cluster p =? -999)%Z eqn:E; [|eexists; reflexivity].
    apply Z.eqb_eq in E. exfalso. exact (Hno p Hp E).
  - intros (p & Hp & Hid) Hmin.
    destruct (length pushed =? 0)%nat eqn:El.
    { apply Nat.eqb_eq in El. destruct pushed; [inversion Hp|discriminate El]. }
    rewrite countClusters_runs.
    destruct (sort_id_cluster pushed) as [|h l] eqn:Es.
    { rewrite <- Hperm in Hp. inversion Hp. }
    assert (Hh : h ∈ pushed) by (rewrite <- Hperm; left).
    assert (Hle : (id_cluster h <= id_cluster p)%Z).
    { apply Sorted_StronglySorted in Hsorted; [|intros a b c; cbv beta; lia].
      apply StronglySorted_inv in Hsorted as [_ Hall].
      rewrite <- Hperm in Hp. apply elem_of_cons in Hp as [->|Hp]; [lia|].
      rewrite Forall_forall in Hall. exact (Hall p Hp). }
    pose proof (Hmin h Hh) as Hge.
    assert (E : (id_cluster h =? -999)%Z = true) by (apply Z.eqb_eq; lia).
    rewrite E. reflexivity.
Qed.

Lemma setPtclForConnectedCluster_perm (hard : SystemHard F) (sys : list (FPSoft F))
    (med : list Mediator) (ptcl_recv : list Tptcl) (hard' : SystemHard F) :
  setPtclForConnectedCluster hard sys med ptcl_recv = Some hard' ->
  ptcl_hard_ hard' ≡ₚ pushReceived ptcl_recv (pushMediated sys med []).
Proof.
  unfold setPtclForConnectedCluster. cbv zeta.
  destruct (length _ =? 0)%nat eqn:El.
  { apply Nat.eqb_eq in El. intros [= <-].
    destruct (pushReceived _ _); [reflexivity|discriminate El]. }
  destruct (countClusters _) as [n|]; [|discriminate].
  intros [= <-]. apply sort_id_cluster_perm.
Qed.

Lemma pushMediated_adr (sys : list (FPSoft F)) (med : list Mediator) :
  (forall m, m ∈ med -> mediated m -> (Z.to_nat (adr_sys_ m) < length sys)%nat) ->
  adr_org <$> pushMediated sys med [] = adr_sys_ <$> filter mediated med.
Proof.
  induction med as [|m med IH]; intros Hrange; [reflexivity|].
  assert (IH' : adr_org <$> pushMediated sys med [] = adr_sys_ <$> filter mediated med).
  { apply IH. intros m' Hm'. apply Hrange. right. exact Hm'. }
  rewrite filter_cons.
  change (pushMediated sys (m :: med) [])
    with (pushMediated sys med
            (if (adr_sys_ m <? 0)%Z then []
             else if negb (rank_send_ m =? getRank)%Z then []
             else match sys !! Z.to_nat (adr_sys_ m) with
                  | Some p => [] ++ [PtclHard_soft p (id_cluster_ m) (adr_sys_ m)]
                  | None => []
                  end)).
  destruct (adr_sys_ m <? 0)%Z eqn:E1.
  { apply Z.ltb_lt in E1. destruct (decide (mediated m)) as [[Hm _]|_]; [lia|exact IH']. }
  apply Z.ltb_ge in E1.
  destruct (rank_send_ m =? getRank)%Z eqn:E2; cbn [negb].
  2:{ apply Z.eqb_neq in E2.
      destruct (decide (mediated m)) as [[_ Hm]|_]; [contradiction|exact IH']. }
  apply Z.eqb_eq in E2.
  assert (Hm : mediated m) by (split; assumption).
  destruct (decide (mediated m)) as [_|Hno]; [|contradiction].
  destruct (lookup_lt_is_Some_2 sys (Z.to_nat (adr_sys_ m))
              (Hrange m ltac:(left) Hm)) as [p Hp].
  rewrite Hp, pushMediated_app, fmap_app, IH'. cbn.
  rewrite PtclHard_soft_adr_org. reflexivity.
Qed.

Lemma pushReceived_adr (ptcl_recv : list Tptcl) :
  adr_org <$> imap (fun i p => PtclHard_recv p (tptcl_id_cluster p) (- (Z.of_nat i + 1)))
                   ptcl_recv
  = (fun i => (- (Z.of_nat i + 1))%Z) <$> seq 0 (length ptcl_recv).
Proof.
  apply list_eq. intros k. rewrite !list_lookup_fmap, list_lookup_imap.
  destruct (ptcl_recv !! k) as [p|] eqn:E.
  - rewrite lookup_seq_lt by (eapply lookup_lt_Some; exact E). cbn.
    rewrite PtclHard_recv_adr_org. reflexivity.
  - rewrite lookup_seq_ge by (apply lookup_ge_None_1; exact E). reflexivity.
Qed.

(** X15.  [setPtclForConnectedCluster] holds, in some order, one particle
    for every mediator entry that has a local address and is sent by this
    process, with that address, and one for every received particle, the
    [i]-th of them with the address [-(i+1)]; nothing else, and nothing
    twice.  The received particles are thus the ones with a negative
    address. *)
Theorem connected_cluster_addresses (hard : SystemHard F) (sys : list (FPSoft F))
    (med : list Mediator) (ptcl_recv : list Tptcl) (hard' : SystemHard F) :
  (forall m, m ∈ med -> mediated m -> (Z.to_nat (adr_sys_ m) < length sys)%nat) ->
  setPtclForConnectedCluster hard sys med ptcl_recv = Some hard' ->
  adr_org <$> ptcl_hard_ hard'
  ≡ₚ (adr_sys_ <$> filter mediated med)
     ++ ((fun i => (- (Z.of_nat i + 1))%Z) <$> seq 0 (length ptcl_recv)).
Proof.
  intros Hrange Hrun.
  rewrite (setPtclForConnectedCluster_perm _ _ _ _ _ Hrun).
  rewrite pushReceived_imap, fmap_app, pushReceived_adr, pushMediated_adr by exact Hrange.
  reflexivity.
Qed.

End Laws.

Lemma pushMediated_none (sys : list (FPSoft F)) (med : list Mediator) :
  (forall m, m ∈ med -> ~ mediated m) -> pushMediated sys med [] = [].
Proof.
  induction med as [|m med IH]; intros Hno; [reflexivity|].
  unfold pushMediated in *. cbn [fold_left].
  destruct (adr_sys_ m <? 0)%Z eqn:E1; [apply IH; intros m' Hm'; apply Hno; right; exact Hm'|].
  destruct (rank_send_ m =? getRank)%Z eqn:E2; cbn [negb];
    [|apply IH; intros m' Hm'; apply Hno; right; exact Hm'].
  exfalso. apply (Hno m); [left|].
  split; [apply Z.ltb_ge; exact E1|apply Z.eqb_eq; exact E2].
Qed.

(** X16.  With no mediator entry to take and nothing received,
    [setPtclForConnectedCluster] returns early: [ptcl_hard_] and
    [n_ptcl_in_cluster_] are empty, and [n_ptcl_in_cluster_disp_] is not
    written; it keeps the displacements of the previous call. *)
Theorem connected_cluster_empty (hard : SystemHard F) (sys : list (FPSoft F))
    (med : list Mediator) :
  (forall m, m ∈ med -> ~ mediated m) ->
  exists hard' : SystemHard F,
    setPtclForConnectedCluster hard sys med [] = Some hard'
    /\ ptcl_hard_ hard' = []
    /\ n_ptcl_in_cluster_ hard' = []
    /\ n_ptcl_in_cluster_disp_ hard' = n_ptcl_in_cluster_disp_ hard.
Proof.
  intros Hno. unfold setPtclForConnectedCluster. cbv zeta.
  rewrite (pushMediated_none sys med Hno). cbn.
  eexists. split; [reflexivity|]. repeat split; reflexivity.
Qed.

End ConnectedCluster.

#[export] Instance le_id_cluster_total {F : Type} : Total (@le_id_cluster F).
Proof. intros a b. unfold le_id_cluster. lia. Qed.

#[export] Instance ex_ClusterLaws {F : Type} `{F64Ops F} `{PtclFns F} :
  @ClusterLaws F ex_ClusterFns.
Proof.
  split; try reflexivity.
  - intros l. apply merge_sort_Permutation.
  - intros l. apply (Sorted_merge_sort le_id_cluster).
Qed.

#[export] Instance ex_CopyLaws {F : Type} `{F64Ops F} `{PtclFns F} :
  @CopyLaws F ex_ClusterFns.
Proof. split. intros [? ? ?] [? ? ?] a. reflexivity. Qed.

(** In binary64, on [ex_store] with the mediator entries [ex_med] and the
    received particle [ex_recv]: the clusters 5 and 7 of two particles each,
    the displacements 0, 2 and 4, and the addresses 0, 1, 2 and -1. *)
Lemma connected_cluster_tables_witness :
  match @setPtclForConnectedCluster float ex_SoftFns (@ex_ClusterFns float _ ex_PtclFns)
          ex_hard ex_store ex_med ex_recv with
  | Some hard' =>
      sum_list (n_ptcl_in_cluster_ hard') = 4
      /\ n_ptcl_in_cluster_disp_ hard' !! 2 = Some 4
  | None => False
  end.
Proof.
  destruct (@setPtclForConnectedCluster float ex_SoftFns (@ex_ClusterFns float _ ex_PtclFns)
              ex_hard ex_store ex_med ex_recv) as [hard'|] eqn:E;
    [|vm_compute in E; discriminate E].
  destruct (@connected_cluster_tables float ex_SoftFns (@ex_ClusterFns float _ ex_PtclFns)
              ex_hard ex_store ex_med ex_recv hard' E) as (Hsum & _ & Hdisp).
  assert (Hl : length (ptcl_hard_ hard') = 4).
  { vm_compute in E. injection E as <-. reflexivity. }
  assert (Hn : length (n_ptcl_in_cluster_ hard') = 2).
  { vm_compute in E. injection E as <-. reflexivity. }
  split; [rewrite Hsum; exact Hl|].
  destruct Hdisp as (_ & _ & Hlast).
  - intros Hnil. rewrite Hnil in Hl. discriminate Hl.
  - rewrite Hn, Hl in Hlast. exact Hlast.
Defined.

Lemma connected_clusters_are_runs_witness :
  match @setPtclForConnectedCluster float ex_SoftFns (@ex_ClusterFns float _ ex_PtclFns)
          ex_hard ex_store ex_med ex_recv with
  | Some hard' =>
      exists keys : list Z,
        StronglySorted Z.lt keys
        /\ id_cluster <$> ptcl_hard_ hard'
           = concat (zip_with replicate (n_ptcl_in_cluster_ hard') keys)
  | None => False
  end.
Proof.
  destruct (@setPtclForConnectedCluster float ex_SoftFns (@ex_ClusterFns float _ ex_PtclFns)
              ex_hard ex_store ex_med ex_recv) as [hard'|] eqn:E;
    [|vm_compute in E; discriminate E].
  destruct (@connected_clusters_are_runs float ex_SoftFns
              (@ex_ClusterFns float _ ex_PtclFns) ex_ClusterLaws
              ex_hard ex_store ex_med ex_recv hard' E) as (keys & _ & Hs & Hruns).
  exists keys. split; assumption.
Defined.

(** In binary64: with the cluster -999 beside the cluster 7, the counting
    loop meets the empty array. *)
Lemma connected_cluster_sentinel_witness :
  @setPtclForConnectedCluster float ex_SoftFns (@ex_ClusterFns float _ ex_PtclFns)
    ex_hard ex_store ex_med_sentinel [] = None.
Proof.
  apply (proj2 (@connected_cluster_sentinel float ex_SoftFns
                  (@ex_ClusterFns float _ ex_PtclFns) ex_ClusterLaws
                  ex_hard ex_store ex_med_sentinel [])).
  - eexists. split.
    + apply (list_elem_of_lookup_2 _ 1). vm_compute. reflexivity.
    + reflexivity.
  - intros q Hq. apply list_elem_of_lookup_1 in Hq as [i Hi].
    destruct i as [|[|i]]; vm_compute in Hi; [| |discriminate Hi];
      injection Hi as <-; vm_compute; discriminate.
Defined.

Lemma connected_cluster_addresses_witness :
  match @setPtclForConnectedCluster float ex_SoftFns (@ex_ClusterFns float _ ex_PtclFns)
          ex_hard ex_store ex_med ex_recv with
  | Some hard' => adr_org <$> ptcl_hard_ hard' ≡ₚ [2; 0; 1; -1]%Z
  | None => False
  end.
Proof.
  destruct (@setPtclForConnectedCluster float ex_SoftFns (@ex_ClusterFns float _ ex_PtclFns)
              ex_hard ex_store ex_med ex_recv) as [hard'|] eqn:E;
    [|vm_compute in E; discriminate E].
  apply (@connected_cluster_addresses float ex_SoftFns
           (@ex_ClusterFns float _ ex_PtclFns) ex_ClusterLaws
           ex_hard ex_store ex_med ex_recv hard'); [|exact E].
  intros m Hm [Hge Hrank].
  repeat (apply elem_of_cons in Hm as [->|Hm]); cbn in *; try lia.
  inversion Hm.
Defined.

(** In binary64: an entry without local address and an entry of another
    process; the displacements 0 and 3 of [ex_hard] stay. *)
Lemma connected_cluster_empty_witness :
  exists hard' : SystemHard float,
    @setPtclForConnectedCluster float ex_SoftFns (@ex_ClusterFns float _ ex_PtclFns)
      ex_hard ex_store [mkMediator (-1) 0 7; mkMediator 0 1 5] [] = Some hard'
    /\ ptcl_hard_ hard' = []
    /\ n_ptcl_in_cluster_disp_ hard' = [0; 3].
Proof.
  destruct (@connected_cluster_empty float ex_SoftFns (@ex_ClusterFns float _ ex_PtclFns)
              ex_hard ex_store [mkMediator (-1) 0 7; mkMediator 0 1 5])
    as (hard' & Hrun & Hl & _ & Hd).
  - intros m Hm [Hge Hrank].
    repeat (apply elem_of_cons in Hm as [->|Hm]); cbn in *; try lia; try discriminate.
    inversion Hm.
  - exists hard'. split; [exact Hrun|]. split; [exact Hl|]. rewrite Hd. reflexivity.
Defined.

(** ** Copies between the store and [ptcl_hard_] *)

Lemma sys_index_of_nat (a : nat) : sys_index (Z.of_nat a) = Some a.
Proof.
  unfold sys_index. destruct (0 <=? Z.of_nat a)%Z eqn:E.
  - rewrite Nat2Z.id. reflexivity.
  - apply Z.leb_gt in E. lia.
Qed.

(** The sizes are copied and the displacements are their running sums,
    whatever the two arrays held before. *)
Lemma clusterTables_spec (old_n old_disp _n_ptcl_in_cluster : list nat) :
  (clusterTables old_n old_disp _n_ptcl_in_cluster).1 = _n_ptcl_in_cluster
  /\ length (clusterTables old_n old_disp _n_ptcl_in_cluster).2
     = S (length _n_ptcl_in_cluster)
  /\ forall i, i <= length _n_ptcl_in_cluster ->
       (clusterTables old_n old_disp _n_ptcl_in_cluster).2 !! i
       = Some (sum_list (take i _n_ptcl_in_cluster)).
Proof.
  unfold clusterTables. cbv zeta.
  set (N := length _n_ptcl_in_cluster).
  pose (P := fun (K : nat) (st : list nat * list nat) =>
    length st.1 = N
    /\ (forall i, i < K -> st.1 !! i = _n_ptcl_in_cluster !! i)
    /\ length st.2 = S N
    /\ (forall i, i <= K -> st.2 !! i = Some (sum_list (take i _n_ptcl_in_cluster)))).
  match goal with
  | |- context [for_range 0 N ?body ?s0] =>
      assert (HP : P N (for_range 0 N body s0))
  end.
  { apply (for_range_ind P); subst P; cbv beta; [lia| |].
    - cbn [fst snd]. split; [apply length_resizeNoInitialize|].
      split; [intros i Hi; lia|].
      split; [rewrite length_insert, length_resizeNoInitialize; lia|].
      intros i Hi. assert (i = 0) by lia. subst i.
      rewrite list_lookup_insert_eq by (rewrite length_resizeNoInitialize; lia).
      reflexivity.
    - intros K [n d] HK (Hn & Hnl & Hd & Hdl). cbn [fst snd] in *.
      destruct (lookup_lt_is_Some_2 _n_ptcl_in_cluster K ltac:(lia)) as [x Hx].
      rewrite (list_lookup_total_correct _ _ _ Hx).
      assert (Hnx : <[K := x]> n !!! K = x).
      { apply list_lookup_total_correct. apply list_lookup_insert_eq. lia. }
      rewrite Hnx.
      split; [rewrite length_insert; exact Hn|].
      split.
      { intros i Hi. destruct (decide (i = K)) as [->|Hne].
        - rewrite list_lookup_insert_eq by lia. symmetry. exact Hx.
        - rewrite list_lookup_insert_ne by congruence. apply Hnl. lia. }
      split; [rewrite length_insert; exact Hd|].
      intros i Hi. destruct (decide (i = S K)) as [->|Hne].
      + rewrite list_lookup_insert_eq by lia.
        rewrite (list_lookup_total_correct _ _ _ (Hdl K (le_n K))).
        rewrite (sum_list_take_S _ _ _ Hx). reflexivity.
      + rewrite list_lookup_insert_ne by congruence. apply Hdl. lia. }
  subst P. cbv beta in HP. destruct HP as (Hn & Hnl & Hd & Hdl).
  split; [|split; assumption].
  apply list_eq. intros i. destruct (decide (i < N)) as [Hi|Hi]; [apply Hnl; exact Hi|].
  rewrite (lookup_ge_None_2 _ i) by lia.
  symmetry. apply lookup_ge_None_2. unfold N in Hi. lia.
Qed.

Section CopyProps.
Context {F : Type} `{F64Ops F} `{ClusterFns F}.

(** The copy loop, entry by entry. *)
Lemma copyFromStore_lookup (sys : list (FPSoft F)) (adr_array : list nat)
    (l : list (PtclH4 F)) (i : nat) :
  copyFromStore sys adr_array l !! i =
  match adr_array !! i with
  | Some adr =>
      match sys !! adr with
      | Some s => (fun h => set_adr_org (Z.of_nat adr) (DataCopy_hard h s)) <$> l !! i
      | None => l !! i
      end
  | None => l !! i
  end.
Proof.
  unfold copyFromStore.
  pose (entry := fun k : nat =>
    match adr_array !! k return option (PtclH4 F) with
    | Some adr =>
        match sys !! adr with
        | Some s => option_map (fun h => set_adr_org (Z.of_nat adr) (DataCopy_hard h s))
                      (l !! k)
        | None => l !! k
        end
    | None => l !! k
    end).
  change (for_range 0 (length adr_array)
            (fun i l =>
               let adr := adr_array !!! i in
               match sys !! adr with
               | Some s => alter (fun h => set_adr_org (Z.of_nat adr) (DataCopy_hard h s)) i l
               | None => l
               end) l !! i = entry i).
  pose (P := fun (K : nat) (st : list (PtclH4 F)) =>
    forall k, st !! k = if decide (k < K) then entry k else l !! k).
  match goal with
  | |- for_range 0 ?n ?body l !! i = _ => assert (HP : P n (for_range 0 n body l))
  end.
  { apply (for_range_ind P); subst P; cbv beta; [lia| |].
    - intros k. destruct (decide (k < 0)); [lia|reflexivity].
    - intros K st HK Hst k. cbv zeta.
      destruct (lookup_lt_is_Some_2 adr_array K ltac:(lia)) as [adr Hadr].
      rewrite (list_lookup_total_correct _ _ _ Hadr).
      destruct (decide (k = K)) as [->|Hne].
      + destruct (decide (K < S K)); [|lia]. unfold entry. rewrite Hadr.
        destruct (sys !! adr) as [s|].
        * rewrite list_lookup_alter_eq, Hst.
          destruct (decide (K < K)); [lia|reflexivity].
        * rewrite Hst. destruct (decide (K < K)); [lia|reflexivity].
      + assert (Hk : match sys !! adr with
                     | Some s =>
                         alter (fun h => set_adr_org (Z.of_nat adr) (DataCopy_hard h s)) K st
                     | None => st
                     end !! k = st !! k).
        { destruct (sys !! adr); [apply list_lookup_alter_ne; congruence|reflexivity]. }
        rewrite Hk, Hst.
        destruct (decide (k < K)), (decide (k < S K)); try lia; reflexivity. }
  subst P. cbv beta in HP. rewrite HP.
  destruct (decide (i < length adr_array)) as [Hi|Hi]; [reflexivity|].
  unfold entry. rewrite (lookup_ge_None_2 adr_array i) by lia. reflexivity.
Qed.

Lemma copyFromStore_length (sys : list (FPSoft F)) (adr_array : list nat)
    (l : list (PtclH4 F)) :
  length (copyFromStore sys adr_array l) = length l.
Proof.
  unfold copyFromStore.
  apply (for_range_inv (fun st : list (PtclH4 F) => length st = length l)); [reflexivity|].
  intros k st Hst. destruct (sys !! _); [rewrite length_alter|]; exact Hst.
Qed.

(** X17.  [setPtclForIsolatedMultiCluster] copies the cluster sizes it is
    given, sets the displacements to their running sums, from 0, with one
    entry more than there are clusters, and sizes [ptcl_hard_] to the
    address array; the particle at [i] is a copy of the store particle at
    [_adr_array[i]] and carries that address.  Nothing relates the sizes to
    the number of addresses. *)
Theorem isolated_cluster_setup (hard : SystemHard F) (sys : list (FPSoft F))
    (_adr_array _n_ptcl_in_cluster : list nat) :
  (forall adr, adr ∈ _adr_array -> adr < length sys) ->
  let hard' := setPtclForIsolatedMultiCluster hard sys _adr_array _n_ptcl_in_cluster in
  n_ptcl_in_cluster_ hard' = _n_ptcl_in_cluster
  /\ length (n_ptcl_in_cluster_disp_ hard') = S (length _n_ptcl_in_cluster)
  /\ (forall i, i <= length _n_ptcl_in_cluster ->
        n_ptcl_in_cluster_disp_ hard' !! i = Some (sum_list (take i _n_ptcl_in_cluster)))
  /\ length (ptcl_hard_ hard') = length _adr_array
  /\ (forall i adr, _adr_array !! i = Some adr ->
        exists h s,
          sys !! adr = Some s
          /\ ptcl_hard_ hard' !! i = Some (set_adr_org (Z.of_nat adr) (DataCopy_hard h s))).
Proof.
  intros Hrange hard'. unfold hard', setPtclForIsolatedMultiCluster.
  destruct (clusterTables_spec (n_ptcl_in_cluster_ hard) (n_ptcl_in_cluster_disp_ hard)
              _n_ptcl_in_cluster) as (Hn & Hlen & Hlook).
  destruct (clusterTables _ _ _) as [n disp]. cbn [fst snd] in Hn, Hlen, Hlook.
  cbn [n_ptcl_in_cluster_ n_ptcl_in_cluster_disp_ ptcl_hard_].
  split; [exact Hn|]. split; [exact Hlen|]. split; [exact Hlook|].
  split; [rewrite copyFromStore_length; apply length_resizeNoInitialize|].
  intros i adr Hadr.
  destruct (lookup_lt_is_Some_2 sys adr
              (Hrange adr (list_elem_of_lookup_2 _ _ _ Hadr))) as [s Hs].
  destruct (lookup_lt_is_Some_2
              (resizeNoInitialize blankPtclH4 (length _adr_array) (ptcl_hard_ hard)) i)
    as [h Hh].
  { rewrite length_resizeNoInitialize. eapply lookup_lt_Some. exact Hadr. }
  exists h, s. split; [exact Hs|].
  rewrite copyFromStore_lookup, Hadr, Hs, Hh. reflexivity.
Qed.

Section RoundTrip.
Context `{!CopyLaws F}.

(** X18.  Filling [ptcl_hard_] from the store and writing it back at once
    changes nothing in the store: after [initializeForOneCluster] with the
    number of addresses and [setPtclForOneCluster], each of the three
    write-back routines returns the store it is given. *)
Theorem set_then_write_back (hard : SystemHard F) (sys : list (FPSoft F))
    (adr_array removelist : list nat) :
  (forall adr, adr ∈ adr_array -> adr < length sys) ->
  let hard1 := initializeForOneCluster hard (length adr_array) in
  let hard2 := setPtclForOneCluster hard1 sys adr_array in
  writeBackPtclForOneClusterOMP hard2 sys = Some sys
  /\ writeBackPtclLocalOnlyOMP hard2 sys = sys
  /\ fst <$> writeBackPtclForOneCluster hard2 sys removelist = Some sys.
Proof.
  intros Hrange hard1 hard2.
  assert (Hcopy : forall i p,
            ptcl_hard_ hard2 !! i = Some p ->
            exists adr s h,
              adr_org p = Z.of_nat adr /\ sys !! adr = Some s
              /\ p = set_adr_org (Z.of_nat adr) (DataCopy_hard h s)).
  { intros i p Hp. unfold hard2, setPtclForOneCluster, hard1, initializeForOneCluster in Hp.
    cbn [ptcl_hard_ set_ptcl_hard_] in Hp.
    rewrite copyFromStore_lookup in Hp.
    destruct (adr_array !! i) as [adr|] eqn:Hadr.
    - destruct (lookup_lt_is_Some_2 sys adr
                  (Hrange adr (list_elem_of_lookup_2 _ _ _ Hadr))) as [s Hs].
      rewrite Hs in Hp.
      destruct (resizeNoInitialize _ _ _ !! i) as [h|]; [|discriminate Hp].
      cbn in Hp. injection Hp as <-. exists adr, s, h. repeat split. exact Hs.
    - apply lookup_lt_Some in Hp. rewrite length_resizeNoInitialize in Hp.
      apply lookup_ge_None_1 in Hadr. lia. }
  assert (Hfix : forall i p,
            ptcl_hard_ hard2 !! i = Some p ->
            exists s,
              sys_index (adr_org p) = Some (Z.to_nat (adr_org p))
              /\ (0 <=? adr_org p)%Z = true
              /\ sys !! Z.to_nat (adr_org p) = Some s
              /\ DataCopy_soft s p = s).
  { intros i p Hp. destruct (Hcopy i p Hp) as (adr & s & h & Ha & Hs & ->).
    cbn [adr_org set_adr_org]. rewrite sys_index_of_nat, Nat2Z.id.
    exists s. split; [reflexivity|]. split; [apply Z.leb_le; lia|].
    split; [exact Hs|]. apply DataCopy_round_trip. }
  split; [|split].
  - unfold writeBackPtclForOneClusterOMP.
    apply (for_range_inv (fun st : option (list (FPSoft F)) => st = Some sys));
      [reflexivity|].
    intros i st ->. cbn [mbind option_bind].
    destruct (ptcl_hard_ hard2 !! i) as [p|] eqn:Hp; [|reflexivity].
    destruct (Hfix i p Hp) as (s & Hidx & _ & Hs & Hrt).
    rewrite Hidx. cbn [mbind option_bind]. rewrite Hs. cbn [mbind option_bind].
    rewrite Hrt, list_insert_id by exact Hs. reflexivity.
  - unfold writeBackPtclLocalOnlyOMP. apply for_range_fix. intros i _.
    destruct (ptcl_hard_ hard2 !! i) as [p|] eqn:Hp; [|reflexivity].
    destruct (Hfix i p Hp) as (s & _ & Hge & Hs & Hrt). rewrite Hge.
    apply alter_id_at. intros x Hx. rewrite Hs in Hx. injection Hx as <-. exact Hrt.
  - unfold writeBackPtclForOneCluster.
    apply (for_range_inv
             (fun st : option (list (FPSoft F) * list nat) => fst <$> st = Some sys));
      [reflexivity|].
    intros i [[st rl]|] Hst; [|discriminate Hst].
    cbn in Hst. injection Hst as ->. cbn [mbind option_bind].
    destruct (ptcl_hard_ hard2 !! i) as [p|] eqn:Hp; [|reflexivity].
    destruct (Hfix i p Hp) as (s & Hidx & _ & Hs & Hrt).
    rewrite Hidx. cbn [mbind option_bind]. rewrite Hs. cbn [mbind option_bind].
    rewrite Hrt, list_insert_id by exact Hs. reflexivity.
Qed.

End RoundTrip.

End CopyProps.

(** In binary64, on [ex_store]: the particles 2 and 0 as one cluster of
    two. *)
Lemma isolated_cluster_setup_witness :
  let hard' :=
    @setPtclForIsolatedMultiCluster float (@ex_ClusterFns float _ ex_PtclFns)
      ex_hard ex_store [2; 0] [2] in
  n_ptcl_in_cluster_ hard' = [2]
  /\ n_ptcl_in_cluster_disp_ hard' !! 1 = Some 2
  /\ adr_org <$> ptcl_hard_ hard' !! 0 = Some 2%Z.
Proof.
  intros hard'.
  destruct (@isolated_cluster_setup float (@ex_ClusterFns float _ ex_PtclFns)
              ex_hard ex_store [2; 0] [2]) as (Hn & _ & Hd & _ & Hp).
  - intros adr Hadr.
    repeat (apply elem_of_cons in Hadr as [->|Hadr]); cbn; try lia. inversion Hadr.
  - split; [exact Hn|]. split; [exact (Hd 1 ltac:(cbn; lia))|].
    destruct (Hp 0 2 eq_refl) as (h & s & _ & Hl).
    unfold hard'. rewrite Hl. reflexivity.
Defined.

Lemma set_then_write_back_witness :
  let hard2 :=
    @setPtclForOneCluster float (@ex_ClusterFns float _ ex_PtclFns)
      (@initializeForOneCluster float (@ex_ClusterFns float _ ex_PtclFns) ex_hard 2)
      ex_store [2; 0] in
  @writeBackPtclLocalOnlyOMP float (@ex_ClusterFns float _ ex_PtclFns) hard2 ex_store
  = ex_store.
Proof.
  intros hard2.
  destruct (@set_then_write_back float _ (@ex_ClusterFns float _ ex_PtclFns) ex_CopyLaws
              ex_hard ex_store [2; 0] []) as (_ & Hlocal & _).
  - intros adr Hadr.
    repeat (apply elem_of_cons in Hadr as [->|Hadr]); cbn; try lia. inversion Hadr.
  - exact Hlocal.
Defined.

(** ** Writing [ptcl_hard_] back *)

Lemma for_range_ext {S : Type} (a b : nat) (body1 body2 : nat -> S -> S) (s : S) :
  (forall k st, body1 k st = body2 k st) ->
  for_range a b body1 s = for_range a b body2 s.
Proof.
  intros Hext. unfold for_range. revert s.
  induction (seq a (b - a)) as [|k ks IH]; intros s; [reflexivity|].
  cbn [fold_left]. rewrite Hext. apply IH.
Qed.

Section WriteBack.
Context {F : Type} `{F64Ops F} `{ClusterFns F}.

(** No two particles of [ptcl_hard_] have the same mirror in the store. *)
Let distinctMirrors (hard : SystemHard F) : Prop :=
  forall i j a, mirrorOf (ptcl_hard_ hard) i = Some a ->
                mirrorOf (ptcl_hard_ hard) j = Some a -> i = j.

(** The loop of [writeBackPtclLocalOnlyOMP], with its test read through
    [sys_index]. *)
Lemma writeBackPtclLocalOnlyOMP_eq (hard : SystemHard F) (sys : list (FPSoft F)) :
  writeBackPtclLocalOnlyOMP hard sys =
  for_range 0 (length (ptcl_hard_ hard))
    (fun i sys =>
       match ptcl_hard_ hard !! i with
       | Some p =>
           match sys_index (adr_org p) with
           | Some adr => alter (fun s => DataCopy_soft s p) adr sys
           | None => sys
           end
       | None => sys
       end) sys.
Proof.
  unfold writeBackPtclLocalOnlyOMP.
  apply for_range_ext. intros k st.
  destruct (ptcl_hard_ hard !! k) as [p|]; [|reflexivity].
  unfold sys_index. destruct (0 <=? adr_org p)%Z; reflexivity.
Qed.

(** The store after the first [K] iterations of the write-back loop. *)
Lemma writeBack_prefix (hard : SystemHard F) (sys : list (FPSoft F)) (K : nat) :
  distinctMirrors hard ->
  K <= length (ptcl_hard_ hard) ->
  (forall a, (forall j, j < K -> mirrorOf (ptcl_hard_ hard) j <> Some a) ->
     for_range 0 K
       (fun i sys =>
          match ptcl_hard_ hard !! i with
          | Some p =>
              match sys_index (adr_org p) with
              | Some adr => alter (fun s => DataCopy_soft s p) adr sys
              | None => sys
              end
          | None => sys
          end) sys !! a = sys !! a)
  /\ (forall j p a, j < K -> ptcl_hard_ hard !! j = Some p ->
        sys_index (adr_org p) = Some a ->
        for_range 0 K
          (fun i sys =>
             match ptcl_hard_ hard !! i with
             | Some p =>
                 match sys_index (adr_org p) with
                 | Some adr => alter (fun s => DataCopy_soft s p) adr sys
                 | None => sys
                 end
             | None => sys
             end) sys !! a = (fun s => DataCopy_soft s p) <$> sys !! a).
Proof.
  intros Hdist. induction K as [|K IH]; intros HK.
  - rewrite for_range_nil by lia. split; [reflexivity|]. intros j p a Hj. lia.
  - destruct (IH ltac:(lia)) as [IH1 IH2]. rewrite for_range_snoc by lia.
    set (st := for_range 0 K _ sys) in *.
    destruct (lookup_lt_is_Some_2 (ptcl_hard_ hard) K ltac:(lia)) as [pK HpK].
    rewrite HpK.
    assert (HmK : mirrorOf (ptcl_hard_ hard) K = sys_index (adr_org pK)).
    { unfold mirrorOf. rewrite HpK. reflexivity. }
    destruct (sys_index (adr_org pK)) as [adr|] eqn:Eadr.
    + split.
      * intros a Ha. rewrite list_lookup_alter_ne.
        -- apply IH1. intros j Hj. apply Ha. lia.
        -- intros ->. apply (Ha K); [lia|exact HmK].
      * intros j p a Hj Hp Hidx.
        assert (Hmj : mirrorOf (ptcl_hard_ hard) j = Some a).
        { unfold mirrorOf. rewrite Hp. exact Hidx. }
        destruct (decide (j = K)) as [->|Hne].
        -- assert (p = pK) by congruence. subst p.
           assert (a = adr) by congruence. subst a.
           rewrite list_lookup_alter_eq. f_equal.
           apply IH1. intros j' Hj' Hm'.
           assert (j' = K) by (eapply Hdist; [exact Hm'|exact Hmj]). lia.
        -- rewrite list_lookup_alter_ne.
           ++ apply (IH2 j p a); [lia|exact Hp|exact Hidx].
           ++ intros ->. apply Hne. eapply Hdist; [exact Hmj|exact HmK].
    + split.
      * intros a Ha. apply IH1. intros j Hj. apply Ha. lia.
      * intros j p a Hj Hp Hidx.
        destruct (decide (j = K)) as [->|Hne]; [congruence|].
        apply (IH2 j p a); [lia|exact Hp|exact Hidx].
Qed.

(** X19.  [writeBackPtclLocalOnlyOMP] writes the local mirrors and nothing
    else: when no two hard particles share a mirror, the store particle at
    the address of a hard particle becomes [DataCopy] of that particle, a
    store particle that is no mirror stays as it is, hard particles with a
    negative address are not written anywhere, and the store keeps its
    size. *)
Theorem write_back_local_only (hard : SystemHard F) (sys : list (FPSoft F)) :
  (forall i j a, mirrorOf (ptcl_hard_ hard) i = Some a ->
                 mirrorOf (ptcl_hard_ hard) j = Some a -> i = j) ->
  (forall j p a, ptcl_hard_ hard !! j = Some p -> adr_org p = Z.of_nat a ->
     writeBackPtclLocalOnlyOMP hard sys !! a = (fun s => DataCopy_soft s p) <$> sys !! a)
  /\ (forall a, (forall j p, ptcl_hard_ hard !! j = Some p -> adr_org p <> Z.of_nat a) ->
        writeBackPtclLocalOnlyOMP hard sys !! a = sys !! a)
  /\ length (writeBackPtclLocalOnlyOMP hard sys) = length sys.
Proof.
  intros Hdist.
  destruct (writeBack_prefix hard sys (length (ptcl_hard_ hard)) Hdist (le_n _))
    as [H1 H2].
  rewrite writeBackPtclLocalOnlyOMP_eq.
  split; [|split].
  - intros j p a Hp Ha. apply (H2 j p a); [eapply lookup_lt_Some; exact Hp|exact Hp|].
    rewrite Ha. apply sys_index_of_nat.
  - intros a Ha. apply H1. intros j _ Hm. unfold mirrorOf in Hm.
    destruct (ptcl_hard_ hard !! j) as [p|] eqn:Hp; [|discriminate Hm].
    cbn in Hm. apply sys_index_Some in Hm. exact (Ha j p Hp Hm).
  - apply (for_range_inv (fun st : list (FPSoft F) => length st = length sys));
      [reflexivity|].
    intros k st Hst. destruct (ptcl_hard_ hard !! k) as [p|]; [|exact Hst].
    destruct (sys_index (adr_org p)); [rewrite length_alter|]; exact Hst.
Qed.

(** The write-back loops that do not test the address stop at the first
    hard particle whose address is no index of the store. *)
Lemma writeBack_out_of_range (hard : SystemHard F) (sys : list (FPSoft F))
    (removelist : list nat) (p : PtclH4 F) :
  p ∈ ptcl_hard_ hard ->
  (adr_org p < 0 \/ Z.of_nat (length sys) <= adr_org p)%Z ->
  writeBackPtclForOneCluster hard sys removelist = None
  /\ writeBackPtclForOneClusterOMP hard sys = None.
Proof.
  intros Hin Hout. apply list_elem_of_lookup_1 in Hin as [k Hk].
  assert (Hidx : forall st : list (FPSoft F),
            length st = length sys -> (adr ← sys_index (adr_org p); st !! adr) = None).
  { intros st Hlen. unfold sys_index. destruct (0 <=? adr_org p)%Z eqn:E.
    - cbn [mbind option_bind]. apply lookup_ge_None_2.
      apply Z.leb_le in E. lia.
    - reflexivity. }
  pose proof (lookup_lt_Some _ _ _ Hk) as Hlt.
  split.
  - unfold writeBackPtclForOneCluster.
    pose (P := fun (K : nat) (st : option (list (FPSoft F) * list nat)) =>
      match st with
      | Some (st1, _) => length st1 = length sys /\ K <= k
      | None => True
      end).
    match goal with
    | |- for_range 0 ?n ?body ?s0 = None => assert (HP : P n (for_range 0 n body s0))
    end.
    { apply (for_range_ind P); subst P; cbv beta; [lia| |].
      - split; [reflexivity|lia].
      - intros K [[st1 rl]|] HK HPK; [|exact I]. destruct HPK as [Hlen HKk].
        cbn [mbind option_bind].
        destruct (ptcl_hard_ hard !! K) as [pK|] eqn:HpK;
          [|apply lookup_ge_None_1 in HpK; lia].
        destruct (decide (K = k)) as [->|Hne].
        + assert (pK = p) by congruence. subst pK.
          specialize (Hidx st1 Hlen).
          destruct (sys_index (adr_org p)) as [adr|]; [|exact I].
          cbn [mbind option_bind] in Hidx |- *. rewrite Hidx. exact I.
        + destruct (sys_index (adr_org pK)) as [adr|]; [|exact I].
          cbn [mbind option_bind].
          destruct (st1 !! adr) as [s0|]; [|exact I].
          cbn [mbind option_bind]. split; [rewrite length_insert; exact Hlen|lia]. }
    subst P. cbv beta in HP.
    destruct (for_range 0 _ _ _) as [[st1 rl]|]; [|reflexivity].
    destruct HP as [_ HP]. lia.
  - unfold writeBackPtclForOneClusterOMP.
    pose (P := fun (K : nat) (st : option (list (FPSoft F))) =>
      match st with
      | Some st1 => length st1 = length sys /\ K <= k
      | None => True
      end).
    match goal with
    | |- for_range 0 ?n ?body ?s0 = None => assert (HP : P n (for_range 0 n body s0))
    end.
    { apply (for_range_ind P); subst P; cbv beta; [lia| |].
      - split; [reflexivity|lia].
      - intros K [st1|] HK HPK; [|exact I]. destruct HPK as [Hlen HKk].
        cbn [mbind option_bind].
        destruct (ptcl_hard_ hard !! K) as [pK|] eqn:HpK;
          [|apply lookup_ge_None_1 in HpK; lia].
        destruct (decide (K = k)) as [->|Hne].
        + assert (pK = p) by congruence. subst pK.
          specialize (Hidx st1 Hlen).
          destruct (sys_index (adr_org p)) as [adr|]; [|exact I].
          cbn [mbind option_bind] in Hidx |- *. rewrite Hidx. exact I.
        + destruct (sys_index (adr_org pK)) as [adr|]; [|exact I].
          cbn [mbind option_bind].
          destruct (st1 !! adr) as [s0|]; [|exact I].
          cbn [mbind option_bind]. split; [rewrite length_insert; exact Hlen|lia]. }
    subst P. cbv beta in HP.
    destruct (for_range 0 _ _ _) as [st1|]; [|reflexivity].
    destruct HP as [_ HP]. lia.
Qed.

(** X20.  [writeBackPtclForOneCluster] and its OMP twin index the store with
    [adr_org] as it is: when a hard particle has a negative address, or one
    beyond the store, the access is out of range and nothing is defined.
    When every address is an index of the store and no two hard particles
    share one, both leave the store that [writeBackPtclLocalOnlyOMP]
    leaves, and [writeBackPtclForOneCluster] only appends to the removal
    list: in the order of [ptcl_hard_], the addresses of the particles that
    arrive in the store with a negative identifier and a negative
    status. *)
Theorem write_back_removelist (hard : SystemHard F) (sys : list (FPSoft F))
    (removelist : list nat) :
  ((exists p, p ∈ ptcl_hard_ hard
              /\ (adr_org p < 0 \/ Z.of_nat (length sys) <= adr_org p)%Z) ->
   writeBackPtclForOneCluster hard sys removelist = None
   /\ writeBackPtclForOneClusterOMP hard sys = None)
  /\ ((forall p, p ∈ ptcl_hard_ hard -> (0 <= adr_org p < Z.of_nat (length sys))%Z) ->
      (forall i j a, mirrorOf (ptcl_hard_ hard) i = Some a ->
                     mirrorOf (ptcl_hard_ hard) j = Some a -> i = j) ->
      writeBackPtclForOneCluster hard sys removelist =
      Some (writeBackPtclLocalOnlyOMP hard sys,
            removelist ++
            omap (fun p =>
                    adr ← sys_index (adr_org p);
                    s ← sys !! adr;
                    if (id (fp (DataCopy_soft s p)) <? 0)%Z
                       && (status (fp (DataCopy_soft s p)) <? f0)%f64
                    then Some adr else None) (ptcl_hard_ hard))
      /\ writeBackPtclForOneClusterOMP hard sys = Some (writeBackPtclLocalOnlyOMP hard sys)).
Proof.
  split.
  { intros (p & Hin & Hout). exact (writeBack_out_of_range hard sys removelist p Hin Hout). }
  intros Hrange Hdist.
  rewrite writeBackPtclLocalOnlyOMP_eq.
  unfold writeBackPtclForOneCluster, writeBackPtclForOneClusterOMP.
  set (g := fun p : PtclH4 F =>
              adr ← sys_index (adr_org p);
              s ← sys !! adr;
              if (id (fp (DataCopy_soft s p)) <? 0)%Z
                 && (status (fp (DataCopy_soft s p)) <? f0)%f64
              then Some adr else None).
  set (bodyO := fun (i : nat) (sys : list (FPSoft F)) =>
          match ptcl_hard_ hard !! i with
          | Some p =>
              match sys_index (adr_org p) with
              | Some adr => alter (fun s => DataCopy_soft s p) adr sys
              | None => sys
              end
          | None => sys
          end).
  (* what one iteration reads and writes *)
  assert (Hstep : forall K pK, K < length (ptcl_hard_ hard) ->
            ptcl_hard_ hard !! K = Some pK ->
            exists adr s,
              sys_index (adr_org pK) = Some adr
              /\ for_range 0 K bodyO sys !! adr = Some s
              /\ sys !! adr = Some s
              /\ bodyO K (for_range 0 K bodyO sys)
                 = <[adr := DataCopy_soft s pK]> (for_range 0 K bodyO sys)).
  { intros K pK HK HpK.
    destruct (writeBack_prefix hard sys K Hdist ltac:(lia)) as [Hframe _].
    fold bodyO in Hframe.
    destruct (Hrange pK (list_elem_of_lookup_2 _ _ _ HpK)) as [Hlo Hhi].
    assert (Hidx : sys_index (adr_org pK) = Some (Z.to_nat (adr_org pK))).
    { unfold sys_index. destruct (0 <=? adr_org pK)%Z eqn:E; [reflexivity|].
      apply Z.leb_gt in E. lia. }
    destruct (lookup_lt_is_Some_2 sys (Z.to_nat (adr_org pK)) ltac:(lia)) as [s Hs].
    assert (HmK : mirrorOf (ptcl_hard_ hard) K = Some (Z.to_nat (adr_org pK))).
    { unfold mirrorOf. rewrite HpK. exact Hidx. }
    assert (Hold : for_range 0 K bodyO sys !! Z.to_nat (adr_org pK) = Some s).
    { rewrite Hframe; [exact Hs|]. intros j Hj Hm.
      assert (j = K) by (eapply Hdist; [exact Hm|exact HmK]). lia. }
    exists (Z.to_nat (adr_org pK)), s. split; [exact Hidx|].
    split; [exact Hold|]. split; [exact Hs|].
    unfold bodyO at 1. rewrite HpK, Hidx.
    apply list_eq. intros i. destruct (decide (i = Z.to_nat (adr_org pK))) as [->|Hne].
    - rewrite list_lookup_alter_eq, Hold.
      rewrite list_lookup_insert_eq by (eapply lookup_lt_Some; exact Hold). reflexivity.
    - rewrite list_lookup_alter_ne, list_lookup_insert_ne by congruence. reflexivity. }
  split.
  - pose (P := fun (K : nat) (st : option (list (FPSoft F) * list nat)) =>
      st = Some (for_range 0 K bodyO sys,
                 removelist ++ omap g (take K (ptcl_hard_ hard)))).
    match goal with
    | |- for_range 0 ?n ?body ?s0 = _ => assert (HP : P n (for_range 0 n body s0))
    end.
    { apply (for_range_ind P); subst P; cbv beta; [lia| |].
      - rewrite for_range_nil by lia. cbn. rewrite app_nil_r. reflexivity.
      - intros K st HK ->. cbn [mbind option_bind].
        rewrite (for_range_snoc 0 K) by lia.
        destruct (lookup_lt_is_Some_2 (ptcl_hard_ hard) K ltac:(lia)) as [pK HpK].
        destruct (Hstep K pK ltac:(lia) HpK) as (adr & s & Hidx & Hold & Hs & Hbody).
        rewrite Hbody, (take_S_r _ _ _ HpK), omap_app, HpK, Hidx.
        cbn [mbind option_bind]. rewrite Hold. cbn [mbind option_bind].
        assert (Hg : omap g [pK] =
                     if (id (fp (DataCopy_soft s pK)) <? 0)%Z
                        && (status (fp (DataCopy_soft s pK)) <? f0)%f64
                     then [adr] else []).
        { cbn [omap list_omap]. unfold g. rewrite Hidx. cbn [mbind option_bind].
          rewrite Hs. cbn [mbind option_bind]. destruct (_ && _); reflexivity. }
        rewrite Hg.
        destruct (_ && _); [rewrite app_assoc|rewrite app_nil_r]; reflexivity. }
    subst P. cbv beta in HP. rewrite HP, firstn_all. reflexivity.
  - pose (P := fun (K : nat) (st : option (list (FPSoft F))) =>
      st = Some (for_range 0 K bodyO sys)).
    match goal with
    | |- for_range 0 ?n ?body ?s0 = _ => assert (HP : P n (for_range 0 n body s0))
    end.
    { apply (for_range_ind P); subst P; cbv beta; [lia| |].
      - rewrite for_range_nil by lia. reflexivity.
      - intros K st HK ->. cbn [mbind option_bind].
        rewrite (for_range_snoc 0 K) by lia.
        destruct (lookup_lt_is_Some_2 (ptcl_hard_ hard) K ltac:(lia)) as [pK HpK].
        destruct (Hstep K pK ltac:(lia) HpK) as (adr & s & Hidx & Hold & Hs & Hbody).
        rewrite Hbody, HpK, Hidx. cbn [mbind option_bind].
        rewrite Hold. reflexivity. }
    subst P. cbv beta in HP. exact HP.
Qed.

End WriteBack.

(** In binary64, on [ex_store]: the ghost goes to the address 1, which is
    appended to the removal list; the address 2 mirrors no hard particle. *)
Lemma write_back_local_only_witness :
  let run := @writeBackPtclLocalOnlyOMP float (@ex_ClusterFns float _ ex_PtclFns) in
  run ex_wb_hard ex_store !! 1
  = Some (mkFPSoft (ex_ptcl (-3) f1 f0 (- f1)%f64 ex_changeover) vzero f0)
  /\ run ex_wb_hard ex_store !! 2 = ex_store !! 2.
Proof.
  intros run.
  destruct (@write_back_local_only float (@ex_ClusterFns float _ ex_PtclFns)
              ex_wb_hard ex_store) as (Hw & Hf & _).
  - intros i j a Hi Hj.
    destruct i as [|[|[|i]]]; vm_compute in Hi; try discriminate Hi;
      destruct j as [|[|[|j]]]; vm_compute in Hj; try discriminate Hj;
      congruence.
  - split.
    + unfold run.
      rewrite (Hw 0 (mkPtclH4 (ex_ptcl (-3) f1 f0 (- f1)%f64 ex_changeover) 1 0) 1
                 eq_refl eq_refl).
      reflexivity.
    + apply Hf. intros j p Hp.
      destruct j as [|[|[|j]]]; vm_compute in Hp; try discriminate Hp;
        injection Hp as <-; cbn; lia.
Defined.

(** In binary64, on [ex_store]: with the remote particle of [ex_wb_hard]
    the routine leaves the store's range; without it, the ghost at the
    address 1 is the one appended to the removal list. *)
Lemma write_back_removelist_witness :
  @writeBackPtclForOneCluster float _ (@ex_ClusterFns float _ ex_PtclFns)
    ex_wb_hard ex_store [] = None
  /\ snd <$> @writeBackPtclForOneCluster float _ (@ex_ClusterFns float _ ex_PtclFns)
               ex_wb_local ex_store [] = Some [1].
Proof.
  split.
  - apply (proj1 (@write_back_removelist float _ (@ex_ClusterFns float _ ex_PtclFns)
                    ex_wb_hard ex_store [])).
    exists (mkPtclH4 (ex_ptcl 6 f2 f4 f0 ex_changeover) (-1) 0).
    split; [|left; cbn; lia].
    apply (list_elem_of_lookup_2 _ 2). reflexivity.
  - destruct (proj2 (@write_back_removelist float _ (@ex_ClusterFns float _ ex_PtclFns)
                       ex_wb_local ex_store [])) as [Hrun _].
    + intros p Hp.
      repeat (apply elem_of_cons in Hp as [->|Hp]); [cbn; lia..|inversion Hp].
    + intros i j a Hi Hj.
      destruct i as [|[|i]]; vm_compute in Hi; try discriminate Hi;
        destruct j as [|[|j]]; vm_compute in Hj; try discriminate Hj;
        congruence.
    + rewrite Hrun. vm_compute. reflexivity.
Defined.

(** ** The drive of a build without hard integration *)

Lemma for_range_alter_inj {A : Type} (f : A -> A) (idx : nat -> nat) (n : nat)
    (l : list A) :
  (forall i j, i < n -> j < n -> idx i = idx j -> i = j) ->
  (forall i, i < n ->
     for_range 0 n (fun i st => alter f (idx i) st) l !! idx i = f <$> l !! idx i)
  /\ (forall k, (forall i, i < n -> k <> idx i) ->
        for_range 0 n (fun i st => alter f (idx i) st) l !! k = l !! k).
Proof.
  induction n as [|n IH]; intros Hinj.
  - rewrite for_range_nil by lia. split; [intros i Hi; lia|reflexivity].
  - destruct (IH ltac:(intros i j Hi Hj; apply Hinj; lia)) as [IH1 IH2].
    rewrite for_range_snoc by lia. split.
    + intros i Hi. destruct (decide (i = n)) as [->|Hne].
      * rewrite list_lookup_alter_eq. f_equal. apply IH2.
        intros j Hj Heq. assert (n = j) by (apply Hinj; [lia|lia|exact Heq]). lia.
      * rewrite list_lookup_alter_ne.
        -- apply IH1. lia.
        -- intros Heq. apply Hne. symmetry. apply Hinj; [lia|lia|exact Heq].
    + intros k Hk. rewrite list_lookup_alter_ne.
      * apply IH2. intros i Hi. apply Hk. lia.
      * intros Heq. apply (Hk n); [lia|congruence].
Qed.

Section DriveSoftOnly.
Context {F : Type} `{F64Ops F} `{Config} `{SearchGroupFns F} `{EngineFns F}
        `{ClusterFns F}.
Variable manager : HardManager F.

(** X21.  In a build with [ONLY_SOFT], [driveForMultiCluster] and its OMP
    twin integrate nothing: when the displacements are the running sums of
    the cluster sizes, every particle of the clusters is drifted by
    [vel * dt] once, has its status and its backup mass cleared and its
    search radius recomputed; the particles behind the clusters, the store,
    and [hard_dE] are untouched, and nothing is dumped or aborted. *)
Theorem drive_soft_only (hard : SystemHard F) (dt : F) (_ptcl_soft : list (FPSoft F)) :
  ONLY_SOFT = true ->
  (forall i, i <= length (n_ptcl_in_cluster_ hard) ->
     n_ptcl_in_cluster_disp_ hard !! i = Some (sum_list (take i (n_ptcl_in_cluster_ hard)))) ->
  forall drive, drive = driveForMultiCluster \/ drive = driveForMultiClusterOMP ->
  let n_tot := sum_list (n_ptcl_in_cluster_ hard) in
  ds_ptcl_hard (drive manager hard dt _ptcl_soft)
  = (driftSoftOnly dt <$> take n_tot (ptcl_hard_ hard)) ++ drop n_tot (ptcl_hard_ hard)
  /\ ds_ptcl_soft (drive manager hard dt _ptcl_soft) = _ptcl_soft
  /\ ds_hard_dE (drive manager hard dt _ptcl_soft) = hard_dE hard
  /\ ds_events (drive manager hard dt _ptcl_soft) = Some [].
Proof.
  intros Hsoft Hdisp drive Hdrive n_tot.
  set (n := n_ptcl_in_cluster_ hard) in *.
  set (l := ptcl_hard_ hard) in *.
  pose (P := fun (K : nat) (st : DriveState) =>
    (forall k, ds_ptcl_hard st !! k =
               if decide (k < sum_list (take K n)) then driftSoftOnly dt <$> l !! k
               else l !! k)
    /\ ds_ptcl_soft st = _ptcl_soft
    /\ ds_hard_dE st = hard_dE hard
    /\ ds_events st = Some []).
  assert (HP : P (length n)
                 (for_range 0 (length n) (driveCluster manager hard dt)
                    (mkDriveState l _ptcl_soft (hard_dE hard) (Some [])))).
  { apply (for_range_ind P); subst P; cbv beta; [lia| |].
    - cbn. split; [|auto]. intros k. destruct (decide (k < 0)); [lia|reflexivity].
    - intros K st HK (Hl & Hs & Hd & He).
      unfold driveCluster. rewrite He, Hsoft. cbv zeta.
      cbn [ds_ptcl_hard ds_ptcl_soft ds_hard_dE ds_events].
      split; [|auto].
      destruct (lookup_lt_is_Some_2 n K ltac:(lia)) as [x Hx].
      fold n.
      assert (Hx' : n !!! K = x) by (apply list_lookup_total_correct; exact Hx).
      assert (Hd' : n_ptcl_in_cluster_disp_ hard !!! K = sum_list (take K n))
        by (apply list_lookup_total_correct, Hdisp; lia).
      rewrite Hx', Hd'.
      rewrite (sum_list_take_S _ _ _ Hx).
      set (a := sum_list (take K n)) in *.
      destruct (for_range_alter_inj (driftSoftOnly dt) (fun j => a + j) x
                  (ds_ptcl_hard st)) as [Hin1 Hout1]; [intros i j _ _ Hij; lia|].
      intros k. destruct (decide (a <= k < a + x)) as [Hin|Hout].
      + replace k with (a + (k - a)) by lia.
        rewrite (Hin1 (k - a) ltac:(lia)), Hl.
        destruct (decide (a + (k - a) < a)); [lia|].
        destruct (decide (a + (k - a) < a + x)); [reflexivity|lia].
      + rewrite (Hout1 k) by (intros i Hi; lia). rewrite Hl.
        destruct (decide (k < a)), (decide (k < a + x)); try lia; reflexivity. }
  subst P. cbv beta in HP. destruct HP as (Hl & Hs & Hd & He).
  rewrite firstn_all in Hl.
  assert (Hrun : drive manager hard dt _ptcl_soft
                 = for_range 0 (length n) (driveCluster manager hard dt)
                     (mkDriveState l _ptcl_soft (hard_dE hard) (Some []))).
  { destruct Hdrive as [-> | ->]; reflexivity. }
  rewrite Hrun. split; [|auto].
  apply list_eq. intros k. rewrite Hl. fold n_tot.
  destruct (decide (k < n_tot)) as [Hk|Hk].
  - destruct (decide (k < length l)) as [Hkl|Hkl].
    + rewrite lookup_app_l by (rewrite length_fmap, length_take; lia).
      rewrite list_lookup_fmap, lookup_take_lt by exact Hk. reflexivity.
    + rewrite (lookup_ge_None_2 l k) by lia. symmetry. apply lookup_ge_None_2.
      rewrite length_app, length_fmap, length_take, length_drop. lia.
  - destruct (decide (n_tot <= length l)) as [Hn|Hn].
    + rewrite lookup_app_r by (rewrite length_fmap, length_take; lia).
      rewrite length_fmap, length_take, lookup_drop. f_equal. lia.
    + rewrite (lookup_ge_None_2 l k) by lia. symmetry. apply lookup_ge_None_2.
      rewrite length_app, length_fmap, length_take, length_drop. lia.
Qed.

End DriveSoftOnly.

(** In binary64, with [ONLY_SOFT]: the three particles of [ex_cluster] in
    two clusters. *)
Lemma drive_soft_only_witness :
  let r :=
    @driveForMultiCluster float _ ex_config_soft ex_SearchGroupFns ex_EngineFns
      (@ex_ClusterFns float _ ex_PtclFns) ex_manager ex_two_clusters f1 ex_store in
  ds_ptcl_hard r
  = @driftSoftOnly float _ (@ex_ClusterFns float _ ex_PtclFns) f1 <$> ex_cluster
  /\ ds_events r = Some [].
Proof.
  intros r.
  destruct (@drive_soft_only float _ ex_config_soft ex_SearchGroupFns ex_EngineFns
              (@ex_ClusterFns float _ ex_PtclFns) ex_manager ex_two_clusters f1 ex_store
              eq_refl) with (drive := @driveForMultiCluster float _ ex_config_soft
                                        ex_SearchGroupFns ex_EngineFns
                                        (@ex_ClusterFns float _ ex_PtclFns))
    as (Hh & _ & _ & He).
  - intros i Hi. destruct i as [|[|[|i]]]; [reflexivity..|cbn in Hi; lia].
  - left. reflexivity.
  - split; [|exact He]. unfold r. rewrite Hh. reflexivity.
Defined.

(** ** The self-potential correction in each variant *)

Lemma occurrences_app (a : nat) (l1 l2 : list nat) :
  occurrences a (l1 ++ l2) = occurrences a l1 + occurrences a l2.
Proof. unfold occurrences. rewrite filter_app, length_app. reflexivity. Qed.

Lemma occurrences_zero (a : nat) (l : list nat) : occurrences a l = 0 <-> a ∉ l.
Proof.
  unfold occurrences. split.
  - intros Hz Hin.
    assert (Hf : a ∈ filter (fun x => x = a) l)
      by (apply list_elem_of_filter; split; [reflexivity|exact Hin]).
    destruct (filter (fun x => x = a) l); [inversion Hf|discriminate Hz].
  - intros Hnin. destruct (filter (fun x => x = a) l) as [|x t] eqn:E; [reflexivity|].
    assert (Hx : x ∈ filter (fun x => x = a) l) by (rewrite E; left).
    apply list_elem_of_filter in Hx as [-> Hx]. contradiction.
Qed.

Lemma omap_Some_id (l : list nat) : omap Some l = l.
Proof. induction l as [|x l IH]; [reflexivity|]. cbn. rewrite IH. reflexivity. Qed.

Lemma lookup_total_drop_nat (l : list nat) (d j : nat) :
  drop d l !!! j = l !!! (d + j).
Proof. rewrite !list_lookup_total_alt, lookup_drop. reflexivity. Qed.

(** A loop that works on the target [tgt j] of each index that has one:
    an invariant indexed by the number of times the address [a] has been
    the target. *)
Lemma for_range_targets {S : Type} (I : nat -> S -> Prop) (a : nat)
    (tgt : nat -> option nat) (step : nat -> nat -> S -> S) (s e c : nat) (st : S) :
  (forall j adr n st, s <= j < e -> tgt j = Some adr -> adr <> a ->
     I n st -> I n (step j adr st)) ->
  (forall j n st, s <= j < e -> tgt j = Some a ->
     I n st -> I (Datatypes.S n) (step j a st)) ->
  I c st ->
  I (c + occurrences a (omap tgt (seq s (e - s))))
    (for_range s e
       (fun j st => match tgt j with Some adr => step j adr st | None => st end) st).
Proof.
  intros Hother Hhit H0.
  destruct (le_lt_dec s e) as [Hle|Hgt].
  2:{ rewrite for_range_nil by lia. replace (e - s) with 0 by lia.
      cbn. rewrite Nat.add_0_r. exact H0. }
  pose (P := fun (J : nat) (st : S) =>
               I (c + occurrences a (omap tgt (seq s (J - s)))) st).
  apply (for_range_ind P); subst P; cbv beta; [exact Hle| |].
  - rewrite Nat.sub_diag. cbn. rewrite Nat.add_0_r. exact H0.
  - intros J stJ HJ HI.
    replace (Datatypes.S J - s) with (Datatypes.S (J - s)) by lia.
    rewrite seq_S, omap_app, occurrences_app.
    replace (s + (J - s)) with J by lia. cbn [omap list_omap].
    destruct (tgt J) as [adr|] eqn:Et.
    + unfold occurrences at 2. rewrite filter_cons, filter_nil.
      destruct (decide (adr = a)) as [->|Hne].
      * cbn [length]. rewrite Nat.add_assoc, Nat.add_1_r.
        apply Hhit; [exact HJ|exact Et|exact HI].
      * cbn [length]. rewrite Nat.add_0_r.
        apply Hother; [exact HJ|exact Et|exact Hne|exact HI].
    + unfold occurrences at 2. cbn. rewrite Nat.add_0_r. exact HI.
Qed.

Section SelfPotentialVariants.
Context {F : Type} `{F64Ops F} `{ChangeOverFns F} `{Config} `{SearchGroupFns F}.
Variable manager : HardManager F.
Local Open Scope f64_scope.

(** *** What a routine leaves of a particle it does not work on *)

Lemma elem_of_blockAddresses_pair (gpars : GroupPars) (j_start k : nat) :
  j_start <= k <= j_start + offset_cm gpars -> k ∈ blockAddresses gpars j_start.
Proof.
  intros Hk. unfold blockAddresses. apply elem_of_app. left.
  apply elem_of_seq. lia.
Qed.

Lemma elem_of_blockAddresses_tt (gpars : GroupPars) (j_start k : nat) :
  offset_tt gpars <= k < offset_orb gpars -> (j_start + k)%nat ∈ blockAddresses gpars j_start.
Proof.
  intros Hk. unfold blockAddresses. apply elem_of_app. right.
  apply list_elem_of_fmap. exists k. split; [reflexivity|].
  apply elem_of_seq. lia.
Qed.

Lemma artificialPairLoops_other (_ptcl_local : list (PtclH4 F)) (s e n_group : nat)
    (adr_first : list nat) (j_start a : nat) (_sys : list (FPSoft F)) :
  a ∉ blockAddresses (newGroupPars (n_split manager)) j_start ->
  artificialPairLoops manager _ptcl_local s e n_group adr_first j_start _sys !! a
  = _sys !! a.
Proof.
  intros Ha. unfold artificialPairLoops. cbv zeta.
  destruct (le_lt_dec j_start (Datatypes.S (j_start + offset_cm (newGroupPars (n_split manager)))))
    as [Hle|Hgt]; [|lia].
  pose (P := fun (_ : nat) (st : list (FPSoft F)) => st !! a = _sys !! a).
  apply (for_range_ind P); subst P; cbv beta; [exact Hle|reflexivity|].
  intros k st Hk Hst.
  assert (Hka : a <> k).
  { intros ->. apply Ha. apply elem_of_blockAddresses_pair. lia. }
  rewrite <- Hst.
  apply (for_range_inv (fun st1 : list (FPSoft F) => st1 !! a = st !! a)).
  - apply (for_range_inv (fun st1 : list (FPSoft F) => st1 !! a = st !! a));
      [reflexivity|].
    intros kj st1 Hst1. rewrite <- Hst1.
    apply (for_range_inv (fun st2 : list (FPSoft F) => st2 !! a = st1 !! a));
      [reflexivity|].
    intros kk st2 Hst2. rewrite <- Hst2.
    destruct (kk =? k)%nat; [reflexivity|]. apply correct_at_other. exact Hka.
  - intros kj st1 Hst1. rewrite <- Hst1. apply correct_at_other. exact Hka.
Qed.

Lemma cmForceBlock_other (gpars : GroupPars) (j_start a : nat) (_sys : list (FPSoft F)) :
  a ∉ blockAddresses gpars j_start -> cmForceBlock gpars j_start _sys !! a = _sys !! a.
Proof.
  intros Ha. unfold cmForceBlock. cbv zeta.
  assert (Hcm : a <> (j_start + offset_cm gpars)%nat).
  { intros ->. apply Ha. apply elem_of_blockAddresses_pair. lia. }
  match goal with
  | |- context [for_range ?s ?e ?body (?s2, f0)] =>
      assert (Hloop : (for_range s e body (s2, f0)).1 !! a = _sys !! a);
      [|destruct (for_range s e body (s2, f0)) as [sys3 m_ob_tot]]
  end.
  - apply (for_range_inv (fun st : list (FPSoft F) * F => st.1 !! a = _sys !! a)).
    + cbn [fst]. rewrite list_lookup_alter_ne by congruence.
      destruct (le_lt_dec (offset_tt gpars) (offset_orb gpars)) as [Hle|Hgt];
        [|rewrite for_range_nil by lia; reflexivity].
      pose (P := fun (_ : nat) (st : list (FPSoft F)) => st !! a = _sys !! a).
      apply (for_range_ind P); subst P; cbv beta; [exact Hle|reflexivity|].
      intros k st Hk Hst.
      destruct (st !! (j_start + offset_cm gpars)%nat) as [cm|]; [|exact Hst].
      rewrite list_lookup_alter_ne; [exact Hst|].
      intros Heq. apply Ha. rewrite <- Heq. apply elem_of_blockAddresses_tt. exact Hk.
    + intros k [st m] Hst. cbn [fst] in Hst |- *.
      destruct (st !! k) as [pk|]; [|exact Hst]. cbn [fst].
      rewrite list_lookup_alter_ne by congruence. exact Hst.
  - cbn [fst] in Hloop. rewrite list_lookup_alter_ne by congruence. exact Hloop.
Qed.

Lemma correctForceWithCutoffArtificalOneClusterImp_other (_sys : list (FPSoft F))
    (_ptcl_local : list (PtclH4 F)) (s e n_group : nat) (adr_first : list nat) (a : nat) :
  (forall j, j < n_group ->
     a ∉ blockAddresses (newGroupPars (n_split manager)) (adr_first !!! j)) ->
  correctForceWithCutoffArtificalOneClusterImp manager _sys _ptcl_local s e n_group
    adr_first !! a = _sys !! a.
Proof.
  intros Ha. unfold correctForceWithCutoffArtificalOneClusterImp. cbv zeta.
  pose (P := fun (_ : nat) (st : list (FPSoft F)) => st !! a = _sys !! a).
  apply (for_range_ind P); subst P; cbv beta; [lia|reflexivity|].
  intros j st Hj Hst.
  rewrite cmForceBlock_other by (apply Ha; lia).
  rewrite artificialPairLoops_other by (apply Ha; lia). exact Hst.
Qed.

Lemma clusterCorrectReal_other (_ptcl_local : list (PtclH4 F)) (s e n_group : nat)
    (adr_first : list nat) (j adr a : nat) (_sys : list (FPSoft F)) :
  adr <> a ->
  clusterCorrectReal manager _ptcl_local s e n_group adr_first j adr _sys !! a = _sys !! a.
Proof.
  intros Hne. unfold clusterCorrectReal, clusterPairLoops. cbv zeta.
  apply (for_range_inv (fun st : list (FPSoft F) => st !! a = _sys !! a)).
  - apply (for_range_inv (fun st : list (FPSoft F) => st !! a = _sys !! a)).
    + apply list_lookup_alter_ne. exact Hne.
    + intros k st Hst. destruct (k =? j)%nat; [exact Hst|].
      rewrite correct_at_other by congruence. exact Hst.
  - intros k st Hst. rewrite <- Hst.
    apply (for_range_inv (fun st1 : list (FPSoft F) => st1 !! a = st !! a));
      [reflexivity|].
    intros ki st1 Hst1. rewrite correct_at_other by congruence. exact Hst1.
Qed.

Lemma treeCorrect_at_other (_tree : Tree F) (adr a : nat) (_sys : list (FPSoft F)) :
  adr <> a -> treeCorrect_at manager _tree adr _sys !! a = _sys !! a.
Proof. intros Hne. unfold treeCorrect_at. apply list_lookup_alter_ne. exact Hne. Qed.

(** The closing block writes accelerations only. *)
Lemma cmForceBlock_pot (gpars : GroupPars) (j_start : nat) (_sys : list (FPSoft F)) :
  pot_tot <$> cmForceBlock gpars j_start _sys = pot_tot <$> _sys.
Proof.
  unfold cmForceBlock. cbv zeta.
  match goal with
  | |- context [for_range ?a ?b ?body (?s2, f0)] =>
      assert (Hloop : pot_tot <$> (for_range a b body (s2, f0)).1 = pot_tot <$> _sys);
      [|destruct (for_range a b body (s2, f0)) as [sys3 m_ob_tot]]
  end.
  - apply (for_range_inv
             (fun st : list (FPSoft F) * F => pot_tot <$> st.1 = pot_tot <$> _sys)).
    + cbn [fst]. rewrite fmap_alter_inv by (intros x; reflexivity).
      apply for_range_fmap_inv. intros k st.
      destruct (st !! _) as [cm|]; [|reflexivity].
      apply fmap_alter_inv. intros x. reflexivity.
    + intros k [st m] Hst. cbn [fst] in Hst |- *.
      destruct (st !! k) as [pk|]; [|exact Hst]. cbn [fst].
      rewrite fmap_alter_inv by (intros x; reflexivity). exact Hst.
  - cbn [fst] in Hloop. rewrite fmap_alter_inv by (intros x; reflexivity). exact Hloop.
Qed.

(** *** Pair corrections alone *)

Lemma pairCorrections_fp (srcs : list (Ptcl F)) (p : FPSoft F) :
  fp (pairCorrections manager srcs p) = fp p.
Proof.
  unfold pairCorrections. revert p.
  induction srcs as [|src srcs IH]; intros p; [reflexivity|].
  cbn [fold_left]. rewrite IH. reflexivity.
Qed.

Lemma pairCorrections_snoc (srcs : list (Ptcl F)) (src : Ptcl F) (p : FPSoft F) :
  pairCorrections manager (srcs ++ [src]) p
  = calcAccPotShortWithLinearCutoff manager (pairCorrections manager srcs p) src.
Proof. unfold pairCorrections. rewrite fold_left_app. reflexivity. Qed.

(** The potential that a pair correction leaves depends on the particle
    data and on the potential it finds, not on the acceleration. *)
Lemma calcAccPotShortWithLinearCutoff_pot_congr (p p' : FPSoft F) (src : Ptcl F) :
  fp p = fp p' -> pot_tot p = pot_tot p' ->
  pot_tot (calcAccPotShortWithLinearCutoff manager p src)
  = pot_tot (calcAccPotShortWithLinearCutoff manager p' src).
Proof. destruct p, p'. cbn. intros -> ->. reflexivity. Qed.

Section OneParticle.
Variable sys0 : list (FPSoft F).
Variable _ptcl_local : list (PtclH4 F).
Variable a : nat.
Variable p0 : FPSoft F.
Hypothesis Hp0 : sys0 !! a = Some p0.

(** The state of a run in which the particle at [a] has met pair
    corrections against other particles, and nothing else that writes its
    potential. *)
Let Paired (st : list (FPSoft F)) : Prop :=
  fp <$> st = fp <$> sys0
  /\ exists srcs,
       Forall (otherParticle sys0 _ptcl_local a None) srcs
       /\ pot_tot <$> st !! a = Some (pot_tot (pairCorrections manager srcs p0)).

Lemma Paired_init : Paired sys0.
Proof.
  split; [reflexivity|]. exists []. split; [constructor|].
  rewrite Hp0. reflexivity.
Qed.

Lemma Paired_frame (st st' : list (FPSoft F)) :
  Paired st -> fp <$> st' = fp <$> st -> pot_tot <$> st' !! a = pot_tot <$> st !! a ->
  Paired st'.
Proof.
  intros (Hfp & srcs & Hsrcs & Hpot) Hfp' Hpot'. split; [congruence|].
  exists srcs. split; [exact Hsrcs|]. rewrite Hpot'. exact Hpot.
Qed.

Lemma kept_lookup_fp (st : list (FPSoft F)) (k : nat) :
  fp <$> st = fp <$> sys0 -> fp <$> st !! k = fp <$> sys0 !! k.
Proof. intros Hfp. rewrite <- !list_lookup_fmap, Hfp. reflexivity. Qed.

Lemma kept_source (st : list (FPSoft F)) (j : option nat) (kk : nat) (src : Ptcl F) :
  fp <$> st = fp <$> sys0 -> kk <> a -> fp <$> st !! kk = Some src ->
  otherParticle sys0 _ptcl_local a j src.
Proof.
  intros Hfp Hkk Hsrc. rewrite (kept_lookup_fp st kk Hfp) in Hsrc.
  destruct (sys0 !! kk) as [q|] eqn:Eq; [|discriminate Hsrc].
  injection Hsrc as <-. right. exists kk, q. auto.
Qed.

Lemma local_source (j : option nat) (k : nat) (src : Ptcl F) :
  Some k <> j -> hp <$> _ptcl_local !! k = Some src ->
  otherParticle sys0 _ptcl_local a j src.
Proof.
  intros Hk Hsrc. destruct (_ptcl_local !! k) as [p|] eqn:Ep; [|discriminate Hsrc].
  injection Hsrc as <-. left. exists k, p. auto.
Qed.

Lemma Paired_correct_at (st : list (FPSoft F)) (k : nat) (pj : option (Ptcl F)) :
  Paired st ->
  (k = a -> forall src, pj = Some src -> otherParticle sys0 _ptcl_local a None src) ->
  Paired (correct_at manager k pj st).
Proof.
  intros HP Hsrc. destruct (decide (k = a)) as [->|Hne].
  - destruct pj as [src|]; [|exact HP].
    destruct HP as (Hfp & srcs & Hsrcs & Hpot).
    split; [rewrite correct_at_fp; exact Hfp|].
    exists (srcs ++ [src]). split.
    + apply Forall_app. split; [exact Hsrcs|]. constructor; [|constructor].
      apply (Hsrc eq_refl). reflexivity.
    + unfold correct_at. rewrite list_lookup_alter_eq.
      pose proof (kept_lookup_fp st a Hfp) as Hfa. rewrite Hp0 in Hfa.
      destruct (st !! a) as [p|]; [|discriminate Hpot].
      cbn in Hpot, Hfa |- *. injection Hpot as Hpot. injection Hfa as Hfa.
      f_equal. rewrite pairCorrections_snoc.
      apply calcAccPotShortWithLinearCutoff_pot_congr; [|exact Hpot].
      rewrite pairCorrections_fp. exact Hfa.
  - apply (Paired_frame st); [exact HP|apply correct_at_fp|].
    rewrite correct_at_other by congruence. reflexivity.
Qed.

Lemma Paired_artificialPairLoops (s e n_group : nat) (adr_first : list nat)
    (j_start : nat) (st : list (FPSoft F)) :
  Paired st ->
  Paired (artificialPairLoops manager _ptcl_local s e n_group adr_first j_start st).
Proof.
  intros HP. unfold artificialPairLoops. cbv zeta.
  apply (for_range_inv Paired); [exact HP|]. clear st HP. intros k st HP.
  apply (for_range_inv Paired).
  - apply (for_range_inv Paired); [exact HP|]. intros kj st1 HP1.
    apply (for_range_inv Paired); [exact HP1|]. intros kk st2 HP2.
    destruct (kk =? k)%nat eqn:Ekk; [exact HP2|]. apply Nat.eqb_neq in Ekk.
    apply Paired_correct_at; [exact HP2|].
    intros -> src Hsrc. apply (kept_source st2 None kk); [apply HP2|exact Ekk|exact Hsrc].
  - intros kj st1 HP1. apply Paired_correct_at; [exact HP1|].
    intros _ src Hsrc. apply (local_source None kj); [discriminate|exact Hsrc].
Qed.

Lemma Paired_artificial (s e n_group : nat) (adr_first : list nat)
    (st : list (FPSoft F)) :
  Paired st ->
  Paired (correctForceWithCutoffArtificalOneClusterImp manager st _ptcl_local s e n_group
            adr_first).
Proof.
  intros HP. unfold correctForceWithCutoffArtificalOneClusterImp. cbv zeta.
  apply (for_range_inv Paired); [exact HP|]. clear st HP. intros j st HP.
  apply (Paired_frame (artificialPairLoops manager _ptcl_local s e n_group adr_first
                         (adr_first !!! j) st)).
  - apply Paired_artificialPairLoops. exact HP.
  - apply cmForceBlock_fp.
  - rewrite <- !list_lookup_fmap, cmForceBlock_pot. reflexivity.
Qed.

Lemma Paired_other (st st' : list (FPSoft F)) :
  Paired st -> fp <$> st' = fp <$> st -> st' !! a = st !! a -> Paired st'.
Proof.
  intros HP Hfp Ha. apply (Paired_frame st); [exact HP|exact Hfp|].
  rewrite Ha. reflexivity.
Qed.

(** The state of a run in which the particle at [a], the mirror of the
    hard particle at [j], has had its correction for its own mass and then
    pair corrections against other particles. *)
Let Corrected (j : nat) (st : list (FPSoft F)) : Prop :=
  exists srcs,
    Forall (otherParticle sys0 _ptcl_local a (Some j)) srcs
    /\ st !! a = Some (pairCorrections manager srcs (selfPotentialCorrection manager p0)).

Lemma Corrected_correct_at (j : nat) (st : list (FPSoft F)) (pj : option (Ptcl F)) :
  Corrected j st ->
  (forall src, pj = Some src -> otherParticle sys0 _ptcl_local a (Some j) src) ->
  Corrected j (correct_at manager a pj st).
Proof.
  intros (srcs & Hsrcs & Hst) Hsrc. destruct pj as [src|]; [|exists srcs; auto].
  exists (srcs ++ [src]). split.
  - apply Forall_app. split; [exact Hsrcs|]. constructor; [|constructor].
    apply Hsrc. reflexivity.
  - unfold correct_at. rewrite list_lookup_alter_eq, Hst. cbn.
    rewrite pairCorrections_snoc. reflexivity.
Qed.

(** The step of the cluster-scoped variant on the particle at [a]. *)
Lemma clusterCorrectReal_hit (s e n_group : nat) (adr_first : list nat) (j : nat)
    (st : list (FPSoft F)) :
  fp <$> st = fp <$> sys0 -> st !! a = Some p0 ->
  (forall k, k < n_group ->
     a ∉ blockAddresses (newGroupPars (n_split manager)) (adr_first !!! k)) ->
  Corrected j (clusterCorrectReal manager _ptcl_local s e n_group adr_first j a st).
Proof.
  intros Hfp Hst Hblocks. unfold clusterCorrectReal, clusterPairLoops. cbv zeta.
  pose (Q := fun st1 : list (FPSoft F) => fp <$> st1 = fp <$> sys0 /\ Corrected j st1).
  assert (HQ0 : Q (alter (selfPotentialCorrection manager) a st)).
  { split.
    - rewrite fmap_alter_inv by apply selfPotentialCorrection_fp. exact Hfp.
    - exists []. split; [constructor|]. rewrite list_lookup_alter_eq, Hst. reflexivity. }
  assert (HQ1 : Q (for_range s e
                     (fun k sys =>
                        if (k =? j)%nat then sys
                        else correct_at manager a (hp <$> _ptcl_local !! k) sys)
                     (alter (selfPotentialCorrection manager) a st))).
  { apply (for_range_inv Q); [exact HQ0|]. intros k st1 [Hfp1 HC1].
    destruct (k =? j)%nat eqn:Ek; [split; assumption|]. apply Nat.eqb_neq in Ek.
    split; [rewrite correct_at_fp; exact Hfp1|].
    apply Corrected_correct_at; [exact HC1|].
    intros src Hsrc. apply (local_source (Some j) k); [congruence|exact Hsrc]. }
  match goal with
  | |- Corrected j (for_range 0 n_group ?body ?s1) =>
      assert (HQ2 : Q (for_range 0 n_group body s1)); [|exact (proj2 HQ2)]
  end.
  pose (P := fun (_ : nat) (st1 : list (FPSoft F)) => Q st1).
  apply (for_range_ind P); subst P; cbv beta; [lia|exact HQ1|].
  intros k st1 Hk HQk.
  set (k_start := adr_first !!! k).
  destruct (le_lt_dec (k_start + offset_orb (newGroupPars (n_split manager)))
              (k_start + offset_cm (newGroupPars (n_split manager)))) as [Hle|Hgt];
    [|rewrite for_range_nil by lia; exact HQk].
  pose (P := fun (_ : nat) (st2 : list (FPSoft F)) => Q st2).
  apply (for_range_ind P); subst P; cbv beta; [exact Hle|exact HQk|].
  intros ki st2 Hki [Hfp2 HC2].
  split; [rewrite correct_at_fp; exact Hfp2|].
  apply Corrected_correct_at; [exact HC2|].
  intros src Hsrc. apply (kept_source st2 (Some j) ki); [exact Hfp2| |exact Hsrc].
  intros ->. apply (Hblocks k ltac:(lia)).
  apply elem_of_blockAddresses_pair. fold k_start. lia.
Qed.

(** *** The cluster loop and its targets *)

Lemma mirror_match {S : Type} (j : nat) (f : nat -> S) (d : S) :
  match adr_org <$> _ptcl_local !! j with
  | Some adr_z => match sys_index adr_z with Some adr => f adr | None => d end
  | None => d
  end
  = match mirrorOf _ptcl_local j with Some adr => f adr | None => d end.
Proof. unfold mirrorOf. destruct (_ptcl_local !! j) as [p|]; reflexivity. Qed.

Lemma elem_of_clusterMirrors (n off : list nat) (i j : nat) :
  i < length n -> off !!! i <= j < off !!! (i + 1)%nat ->
  mirrorOf _ptcl_local j = Some a -> a ∈ clusterMirrors _ptcl_local n off.
Proof.
  intros Hi Hj Hm. unfold clusterMirrors, clusterIndices.
  apply list_elem_of_omap. exists j. split; [|exact Hm].
  apply list_elem_of_In, in_flat_map. exists i.
  split; apply list_elem_of_In; apply elem_of_seq; lia.
Qed.

Lemma elem_of_artificialAddresses (n_cluster : nat) (ng ngoff adr_first : list nat)
    (i j k : nat) :
  i < n_cluster -> j < ng !!! i ->
  k ∈ blockAddresses (newGroupPars (n_split manager)) (adr_first !!! (ngoff !!! i + j)%nat) ->
  k ∈ artificialAddresses manager n_cluster ng ngoff adr_first.
Proof.
  intros Hi Hj Hk. unfold artificialAddresses. cbv zeta.
  apply list_elem_of_In, in_flat_map. exists i.
  split; [apply list_elem_of_In, elem_of_seq; lia|].
  apply in_flat_map. exists j.
  split; [apply list_elem_of_In, elem_of_seq; lia|].
  apply list_elem_of_In. exact Hk.
Qed.

(** The cluster loop that the cluster-scoped and the combined variant
    share: for each cluster, [art] on its artificial particles, then [real]
    on the local mirror of each of its particles.  An invariant indexed by
    the number of times [a] has been such a mirror. *)
Lemma cluster_loop_inv (I : nat -> list (FPSoft F) -> Prop)
    (art : nat -> list (FPSoft F) -> list (FPSoft F))
    (real : nat -> nat -> nat -> list (FPSoft F) -> list (FPSoft F))
    (n off : list nat) (st0 : list (FPSoft F)) :
  (forall i c st, i < length n -> I c st -> I c (art i st)) ->
  (forall i j adr c st, i < length n -> off !!! i <= j < off !!! (i + 1)%nat ->
     mirrorOf _ptcl_local j = Some adr -> adr <> a -> I c st -> I c (real i j adr st)) ->
  (forall i j c st, i < length n -> off !!! i <= j < off !!! (i + 1)%nat ->
     mirrorOf _ptcl_local j = Some a -> I c st -> I (Datatypes.S c) (real i j a st)) ->
  I 0 st0 ->
  I (occurrences a (clusterMirrors _ptcl_local n off))
    (for_range 0 (length n)
       (fun i sys =>
          for_range (off !!! i) (off !!! (i + 1)%nat)
            (fun j sys =>
               match adr_org <$> _ptcl_local !! j with
               | Some adr_z =>
                   match sys_index adr_z with
                   | Some adr => real i j adr sys
                   | None => sys
                   end
               | None => sys
               end) (art i sys)) st0).
Proof.
  intros Hart Hother Hhit Hinit.
  unfold clusterMirrors, clusterIndices. cbv zeta.
  set (ranges := fun i => seq (off !!! i) (off !!! (i + 1)%nat - off !!! i)).
  pose (P := fun (K : nat) (st : list (FPSoft F)) =>
    I (occurrences a (omap (mirrorOf _ptcl_local) (flat_map ranges (seq 0 K)))) st).
  apply (for_range_ind P); subst P; cbv beta; [lia|exact Hinit|].
  intros K st HK HI.
  rewrite seq_S, flat_map_app, omap_app, occurrences_app. cbn [flat_map Nat.add].
  rewrite app_nil_r. unfold ranges at 2.
  rewrite (for_range_ext _ _ _
             (fun j sys => match mirrorOf _ptcl_local j with
                           | Some adr => real K j adr sys
                           | None => sys
                           end))
    by (intros j st1; apply mirror_match).
  apply (for_range_targets I a (mirrorOf _ptcl_local) (real K)).
  - intros j adr c st1 Hj Hm Hne. apply Hother; [lia|exact Hj|exact Hm|exact Hne].
  - intros j c st1 Hj Hm. apply Hhit; [lia|exact Hj|exact Hm].
  - apply Hart; [lia|exact HI].
Qed.

(** The same for a list of addresses, as the loop over the sending list. *)
Lemma fold_targets (I : nat -> list (FPSoft F) -> Prop)
    (step : nat -> list (FPSoft F) -> list (FPSoft F)) (l : list nat) :
  (forall adr c st, adr ∈ l -> adr <> a -> I c st -> I c (step adr st)) ->
  (forall c st, a ∈ l -> I c st -> I (Datatypes.S c) (step a st)) ->
  forall c st, I c st ->
    I (c + occurrences a l)%nat (fold_left (fun st adr => step adr st) l st).
Proof.
  induction l as [|adr l IH]; intros Hother Hhit c st HI.
  - cbn. rewrite Nat.add_0_r. exact HI.
  - cbn [fold_left]. change (adr :: l) with ([adr] ++ l). rewrite occurrences_app.
    unfold occurrences at 1. rewrite filter_cons, filter_nil.
    destruct (decide (adr = a)) as [->|Hne]; cbn [length].
    + rewrite Nat.add_assoc, Nat.add_1_r. apply IH.
      * intros adr' c' st' Hin. apply Hother. right. exact Hin.
      * intros c' st' Hin. apply Hhit. right. exact Hin.
      * apply Hhit; [left|exact HI].
    + rewrite Nat.add_0_l. apply IH.
      * intros adr' c' st' Hin. apply Hother. right. exact Hin.
      * intros c' st' Hin. apply Hhit. right. exact Hin.
      * apply Hother; [left|exact Hne|exact HI].
Qed.

(** *** The variants *)

Lemma blocks_of_cluster (n_cluster : nat) (ng ngoff adr_first : list nat) (i : nat) :
  a ∉ artificialAddresses manager n_cluster ng ngoff adr_first -> i < n_cluster ->
  (forall k, k < ng !!! i ->
     a ∉ blockAddresses (newGroupPars (n_split manager))
           ((if (0 <? ng !!! i)%nat then drop (ngoff !!! i) adr_first else []) !!! k))
  /\ (forall k, k < ng !!! i ->
        a ∉ blockAddresses (newGroupPars (n_split manager))
              (drop (ngoff !!! i) adr_first !!! k)).
Proof.
  intros Ha Hi.
  assert (Hdrop : forall k, k < ng !!! i ->
            a ∉ blockAddresses (newGroupPars (n_split manager))
                  (drop (ngoff !!! i) adr_first !!! k)).
  { intros k Hk Hin. apply Ha. rewrite lookup_total_drop_nat in Hin.
    exact (elem_of_artificialAddresses n_cluster ng ngoff adr_first i k a Hi Hk Hin). }
  split; [|exact Hdrop]. intros k Hk.
  destruct (0 <? ng !!! i)%nat eqn:E; [exact (Hdrop k Hk)|].
  apply Nat.ltb_ge in E. lia.
Qed.

(** The state of the particle at [a] while a variant runs: untouched until
    its turn comes, and once its turn has come, [done]. *)
Let Turn (done : list (FPSoft F) -> Prop) (c : nat) (st : list (FPSoft F)) : Prop :=
  fp <$> st = fp <$> sys0
  /\ (c = 0%nat -> st !! a = Some p0)
  /\ (c = 1%nat -> done st).

Lemma Turn_other (done : list (FPSoft F) -> Prop) (c : nat) (st st' : list (FPSoft F)) :
  (forall st st', done st -> st' !! a = st !! a -> done st') ->
  Turn done c st -> fp <$> st' = fp <$> st -> st' !! a = st !! a -> Turn done c st'.
Proof.
  intros Hdone (Hfp & H0c & H1c) Hfp' Ha. split; [congruence|]. split.
  - intros Hc. rewrite Ha. exact (H0c Hc).
  - intros Hc. exact (Hdone st st' (H1c Hc) Ha).
Qed.

Lemma Turn_hit (done : list (FPSoft F) -> Prop) (c : nat) (st st' : list (FPSoft F)) :
  Turn done c st -> fp <$> st' = fp <$> st ->
  (st !! a = Some p0 -> done st') -> Turn done (Datatypes.S c) st'.
Proof.
  intros (Hfp & H0c & H1c) Hfp' Hstep. split; [congruence|]. split; [discriminate|].
  intros Hc. apply Hstep, H0c. lia.
Qed.

(** The cluster-scoped variant, on the mirror of a real particle. *)
Lemma cluster_variant_real (n off ng ngoff adr_first : list nat) :
  occurrences a (clusterMirrors _ptcl_local n off) = 1%nat ->
  a ∉ artificialAddresses manager (length n) ng ngoff adr_first ->
  exists j srcs,
    mirrorOf _ptcl_local j = Some a
    /\ Forall (otherParticle sys0 _ptcl_local a (Some j)) srcs
    /\ correctForceWithCutoffClusterImp manager sys0 _ptcl_local n off ng ngoff adr_first
         !! a
       = Some (pairCorrections manager srcs (selfPotentialCorrection manager p0)).
Proof.
  intros Hocc Harts.
  pose (done := fun st : list (FPSoft F) =>
                  exists j, mirrorOf _ptcl_local j = Some a /\ Corrected j st).
  assert (Hdone : forall st st', done st -> st' !! a = st !! a -> done st').
  { intros st st' (j & Hm & srcs & Hsrcs & Hst) Ha.
    exists j. split; [exact Hm|]. exists srcs. split; [exact Hsrcs|]. congruence. }
  pose proof
    (cluster_loop_inv (Turn done)
       (fun i sys =>
          correctForceWithCutoffArtificalOneClusterImp manager sys _ptcl_local
            (off !!! i) (off !!! (i + 1)%nat) (ng !!! i)
            (if (0 <? ng !!! i)%nat then drop (ngoff !!! i) adr_first else []))
       (fun i j adr sys =>
          clusterCorrectReal manager _ptcl_local (off !!! i) (off !!! (i + 1)%nat)
            (ng !!! i)
            (if (0 <? ng !!! i)%nat then drop (ngoff !!! i) adr_first else [])
            j adr sys)
       n off sys0) as Hloop.
  cbv beta in Hloop. rewrite Hocc in Hloop.
  destruct Hloop as (_ & _ & Hfin).
  - intros i c st Hi HT.
    apply (Turn_other done c st); [exact Hdone|exact HT| |].
    + apply correctForceWithCutoffArtificalOneClusterImp_fp.
    + apply correctForceWithCutoffArtificalOneClusterImp_other.
      apply (blocks_of_cluster (length n) ng ngoff adr_first i Harts Hi).
  - intros i j adr c st Hi Hj Hm Hne HT.
    apply (Turn_other done c st); [exact Hdone|exact HT| |].
    + apply clusterCorrectReal_fp.
    + apply clusterCorrectReal_other. exact Hne.
  - intros i j c st Hi Hj Hm HT.
    apply (Turn_hit done c st); [exact HT|apply clusterCorrectReal_fp|].
    intros Hst. exists j. split; [exact Hm|].
    apply clusterCorrectReal_hit; [apply HT|exact Hst|].
    apply (blocks_of_cluster (length n) ng ngoff adr_first i Harts Hi).
  - split; [reflexivity|]. split; [intros _; exact Hp0|discriminate].
  - destruct (Hfin eq_refl) as (j & Hm & srcs & Hsrcs & Hst).
    exists j, srcs. split; [exact Hm|]. split; [exact Hsrcs|]. exact Hst.
Qed.

(** The cluster-scoped variant, on a particle that is no such mirror. *)
Lemma cluster_variant_artificial (n off ng ngoff adr_first : list nat) :
  a ∉ clusterMirrors _ptcl_local n off ->
  exists srcs,
    Forall (otherParticle sys0 _ptcl_local a None) srcs
    /\ pot_tot <$> correctForceWithCutoffClusterImp manager sys0 _ptcl_local n off ng
                     ngoff adr_first !! a
       = Some (pot_tot (pairCorrections manager srcs p0)).
Proof.
  intros Hnot.
  pose proof
    (cluster_loop_inv (fun _ => Paired)
       (fun i sys =>
          correctForceWithCutoffArtificalOneClusterImp manager sys _ptcl_local
            (off !!! i) (off !!! (i + 1)%nat) (ng !!! i)
            (if (0 <? ng !!! i)%nat then drop (ngoff !!! i) adr_first else []))
       (fun i j adr sys =>
          clusterCorrectReal manager _ptcl_local (off !!! i) (off !!! (i + 1)%nat)
            (ng !!! i)
            (if (0 <? ng !!! i)%nat then drop (ngoff !!! i) adr_first else [])
            j adr sys)
       n off sys0) as Hloop.
  cbv beta in Hloop.
  destruct Hloop as (_ & srcs & Hsrcs & Hpot).
  - intros i c st Hi HP. apply Paired_artificial. exact HP.
  - intros i j adr c st Hi Hj Hm Hne HP.
    apply (Paired_other st); [exact HP|apply clusterCorrectReal_fp|].
    apply clusterCorrectReal_other. exact Hne.
  - intros i j c st Hi Hj Hm HP. exfalso. apply Hnot.
    exact (elem_of_clusterMirrors n off i j Hi Hj Hm).
  - exact Paired_init.
  - exists srcs. split; [exact Hsrcs|exact Hpot].
Qed.

Section Trees.
Variable _tree : Tree F.

Let treated (st : list (FPSoft F)) : Prop :=
  st !! a = Some (correctForceWithCutoffTreeNeighborOneParticleImp manager _tree p0).

Lemma treated_other (st st' : list (FPSoft F)) :
  treated st -> st' !! a = st !! a -> treated st'.
Proof. unfold treated. congruence. Qed.

Lemma treeCorrect_at_hit (st : list (FPSoft F)) :
  st !! a = Some p0 -> treated (treeCorrect_at manager _tree a st).
Proof.
  intros Hst. unfold treated, treeCorrect_at.
  rewrite list_lookup_alter_eq, Hst. reflexivity.
Qed.

(** The combined variant, on the mirror of a real particle or a particle of
    the sending list. *)
Lemma combined_variant_real (n off ng ngoff adr_first _adr_send : list nat) :
  occurrences a (clusterMirrors _ptcl_local n off ++ _adr_send) = 1%nat ->
  a ∉ artificialAddresses manager (length n) ng ngoff adr_first ->
  correctForceWithCutoffTreeNeighborAndClusterImp manager sys0 _tree _ptcl_local n off ng
    ngoff adr_first _adr_send !! a
  = Some (correctForceWithCutoffTreeNeighborOneParticleImp manager _tree p0).
Proof.
  intros Hocc Harts.
  pose proof
    (cluster_loop_inv (Turn treated)
       (fun i sys =>
          correctForceWithCutoffArtificalOneClusterImp manager sys _ptcl_local
            (off !!! i) (off !!! (i + 1)%nat) (ng !!! i)
            (drop (ngoff !!! i) adr_first))
       (fun i j adr sys => treeCorrect_at manager _tree adr sys)
       n off sys0) as Hloop.
  cbv beta in Hloop.
  assert (Hcl : Turn treated (occurrences a (clusterMirrors _ptcl_local n off))
                  (for_range 0 (length n)
                     (fun i sys =>
                        for_range (off !!! i) (off !!! (i + 1)%nat)
                          (fun j sys =>
                             match adr_org <$> _ptcl_local !! j with
                             | Some adr_z =>
                                 match sys_index adr_z with
                                 | Some adr => treeCorrect_at manager _tree adr sys
                                 | None => sys
                                 end
                             | None => sys
                             end)
                          (correctForceWithCutoffArtificalOneClusterImp manager sys
                             _ptcl_local (off !!! i) (off !!! (i + 1)%nat) (ng !!! i)
                             (drop (ngoff !!! i) adr_first))) sys0)).
  { apply Hloop.
    - intros i c st Hi HT.
      apply (Turn_other treated c st); [exact treated_other|exact HT| |].
      + apply correctForceWithCutoffArtificalOneClusterImp_fp.
      + apply correctForceWithCutoffArtificalOneClusterImp_other.
        apply (blocks_of_cluster (length n) ng ngoff adr_first i Harts Hi).
    - intros i j adr c st Hi Hj Hm Hne HT.
      apply (Turn_other treated c st); [exact treated_other|exact HT| |].
      + apply treeCorrect_at_fp.
      + apply treeCorrect_at_other. exact Hne.
    - intros i j c st Hi Hj Hm HT.
      apply (Turn_hit treated c st); [exact HT|apply treeCorrect_at_fp|].
      apply treeCorrect_at_hit.
    - split; [reflexivity|]. split; [intros _; exact Hp0|discriminate]. }
  pose proof
    (fold_targets (Turn treated) (fun adr sys => treeCorrect_at manager _tree adr sys)
       _adr_send) as Hsend.
  cbv beta in Hsend.
  specialize (Hsend
    ltac:(intros adr c st _ Hne HT;
          apply (Turn_other treated c st);
            [exact treated_other|exact HT|apply treeCorrect_at_fp|
             apply treeCorrect_at_other; exact Hne])
    ltac:(intros c st _ HT;
          apply (Turn_hit treated c st);
            [exact HT|apply treeCorrect_at_fp|apply treeCorrect_at_hit])
    _ _ Hcl).
  rewrite <- occurrences_app, Hocc in Hsend.
  destruct Hsend as (_ & _ & Hfin). exact (Hfin eq_refl).
Qed.

(** The combined variant, on a particle that is neither. *)
Lemma combined_variant_artificial (n off ng ngoff adr_first _adr_send : list nat) :
  a ∉ clusterMirrors _ptcl_local n off ++ _adr_send ->
  exists srcs,
    Forall (otherParticle sys0 _ptcl_local a None) srcs
    /\ pot_tot <$> correctForceWithCutoffTreeNeighborAndClusterImp manager sys0 _tree
                     _ptcl_local n off ng ngoff adr_first _adr_send !! a
       = Some (pot_tot (pairCorrections manager srcs p0)).
Proof.
  intros Hnot.
  pose proof
    (cluster_loop_inv (fun _ => Paired)
       (fun i sys =>
          correctForceWithCutoffArtificalOneClusterImp manager sys _ptcl_local
            (off !!! i) (off !!! (i + 1)%nat) (ng !!! i)
            (drop (ngoff !!! i) adr_first))
       (fun i j adr sys => treeCorrect_at manager _tree adr sys)
       n off sys0) as Hloop.
  cbv beta in Hloop.
  assert (Hcl : Paired
                  (for_range 0 (length n)
                     (fun i sys =>
                        for_range (off !!! i) (off !!! (i + 1)%nat)
                          (fun j sys =>
                             match adr_org <$> _ptcl_local !! j with
                             | Some adr_z =>
                                 match sys_index adr_z with
                                 | Some adr => treeCorrect_at manager _tree adr sys
                                 | None => sys
                                 end
                             | None => sys
                             end)
                          (correctForceWithCutoffArtificalOneClusterImp manager sys
                             _ptcl_local (off !!! i) (off !!! (i + 1)%nat) (ng !!! i)
                             (drop (ngoff !!! i) adr_first))) sys0)).
  { apply Hloop.
    - intros i c st Hi HP. apply Paired_artificial. exact HP.
    - intros i j adr c st Hi Hj Hm Hne HP.
      apply (Paired_other st); [exact HP|apply treeCorrect_at_fp|].
      apply treeCorrect_at_other. exact Hne.
    - intros i j c st Hi Hj Hm HP. exfalso. apply Hnot. apply elem_of_app. left.
      exact (elem_of_clusterMirrors n off i j Hi Hj Hm).
    - exact Paired_init. }
  pose proof
    (fold_targets (fun _ => Paired) (fun adr sys => treeCorrect_at manager _tree adr sys)
       _adr_send) as Hsend.
  cbv beta in Hsend.
  specialize (Hsend
    ltac:(intros adr c st _ Hne HP;
          apply (Paired_other st);
            [exact HP|apply treeCorrect_at_fp|apply treeCorrect_at_other; exact Hne])
    ltac:(intros c st Hin _; exfalso; apply Hnot; apply elem_of_app; right; exact Hin)
    0%nat _ Hcl).
  destruct Hsend as (_ & srcs & Hsrcs & Hpot).
  exists srcs. split; [exact Hsrcs|exact Hpot].
Qed.

(** The overload with [_ptcl_local]: the closing blocks write accelerations
    only, so the potential at [a] is the one the per-particle routine left. *)
Lemma tree_variant_local (_n_ptcl start : nat) :
  let r := correctForceWithCutoffTreeNeighborImp manager sys0 _tree _ptcl_local _n_ptcl
             start in
  (occurrences a (treeTargets _ptcl_local _n_ptcl start (length sys0)) = 1%nat ->
     pot_tot <$> r !! a
     = Some (pot_tot (correctForceWithCutoffTreeNeighborOneParticleImp manager _tree p0)))
  /\ (a ∉ treeTargets _ptcl_local _n_ptcl start (length sys0) ->
        pot_tot <$> r !! a = Some (pot_tot p0)).
Proof.
  intros r.
  pose proof
    (for_range_targets (Turn treated) a (mirrorOf _ptcl_local)
       (fun _ adr sys => treeCorrect_at manager _tree adr sys) 0 _n_ptcl 0 sys0) as Hreal.
  cbv beta in Hreal.
  specialize (Hreal
    ltac:(intros j adr c st _ _ Hne HT;
          apply (Turn_other treated c st);
            [exact treated_other|exact HT|apply treeCorrect_at_fp|
             apply treeCorrect_at_other; exact Hne])
    ltac:(intros j c st _ _ HT;
          apply (Turn_hit treated c st);
            [exact HT|apply treeCorrect_at_fp|apply treeCorrect_at_hit])
    ltac:(split; [reflexivity|]; split; [intros _; exact Hp0|discriminate])).
  rewrite Nat.sub_0_r, Nat.add_0_l in Hreal.
  rewrite <- (for_range_ext _ _
                (fun i sys =>
                   match adr_org <$> _ptcl_local !! i with
                   | Some adr_z =>
                       match sys_index adr_z with
                       | Some adr => treeCorrect_at manager _tree adr sys
                       | None => sys
                       end
                   | None => sys
                   end)) in Hreal
    by (intros j st1; apply mirror_match).
  pose proof
    (for_range_targets (Turn treated) a Some
       (fun _ adr sys => treeCorrect_at manager _tree adr sys) start (length sys0)) as Hart.
  cbv beta iota in Hart.
  specialize (Hart _ _
    ltac:(intros j adr c st _ _ Hne HT;
          apply (Turn_other treated c st);
            [exact treated_other|exact HT|apply treeCorrect_at_fp|
             apply treeCorrect_at_other; exact Hne])
    ltac:(intros j c st _ _ HT;
          apply (Turn_hit treated c st);
            [exact HT|apply treeCorrect_at_fp|apply treeCorrect_at_hit])
    Hreal).
  rewrite omap_Some_id, <- occurrences_app in Hart.
  fold (treeTargets _ptcl_local _n_ptcl start (length sys0)) in Hart.
  assert (Hpot : pot_tot <$> r !! a
                 = pot_tot <$>
                     for_range start (length sys0)
                       (fun j st => treeCorrect_at manager _tree j st)
                       (for_range 0 _n_ptcl
                          (fun i sys =>
                             match adr_org <$> _ptcl_local !! i with
                             | Some adr_z =>
                                 match sys_index adr_z with
                                 | Some adr => treeCorrect_at manager _tree adr sys
                                 | None => sys
                                 end
                             | None => sys
                             end) sys0) !! a).
  { rewrite <- !list_lookup_fmap. f_equal.
    unfold r, correctForceWithCutoffTreeNeighborImp. cbv zeta.
    apply for_stride_fmap_inv. intros k st. apply cmForceBlock_pot. }
  rewrite Hpot. destruct Hart as (_ & Hc0 & Hc1). split.
  - intros Hocc. rewrite Hocc in Hc1. unfold treated in Hc1.
    rewrite (Hc1 eq_refl). reflexivity.
  - intros Hnot. apply occurrences_zero in Hnot. rewrite Hnot in Hc0.
    rewrite (Hc0 eq_refl). reflexivity.
Qed.

(** The overload that corrects every particle of the store. *)
Lemma tree_variant_all (start : nat) :
  pot_tot <$> correctForceWithCutoffTreeNeighborImp_all manager sys0 _tree start !! a
  = Some (pot_tot (correctForceWithCutoffTreeNeighborOneParticleImp manager _tree p0)).
Proof.
  rewrite <- list_lookup_fmap.
  unfold correctForceWithCutoffTreeNeighborImp_all. cbv zeta.
  rewrite for_stride_fmap_inv by (intros k st; apply cmForceBlock_pot).
  unfold treeCorrect_at. rewrite for_range_alter_all.
  rewrite !list_lookup_fmap, Hp0. reflexivity.
Qed.

End Trees.

End OneParticle.

End SelfPotentialVariants.

(** C9 (amended): in the cluster-scoped, the combined and the two
    neighbour-tree variants, a particle that the variant works on, once,
    has [mass / r_out_base] added to its potential if and only if its
    status is exactly 0; a group member (status < 0) and an artificial
    particle (status > 0) enter the pair corrections with the potential
    they have, and a particle that the variant does not work on keeps its
    potential.  For the particle [p] at the address [a] of the store, with
    [self] the particle after the test on its status:

    - [self] is [p] with the raised potential when the status is 0, and [p]
      itself when the status is not 0, in particular when it is negative or
      positive;
    - cluster-scoped variant, all cluster particles local: when [a] is the
      mirror of exactly one cluster particle and no address of an artificial
      block, the particle ends as [self] corrected against the data of
      other particles; when [a] is no such mirror, as the address of an
      artificial particle, its potential ends as the one of [p] corrected
      against the data of other particles, whatever its status;
    - combined variant: when [a] is exactly once among the mirrors and the
      sending list and no address of an artificial block, the particle ends
      as the neighbour loop leaves [self]; when [a] is not among them, its
      potential is the one of [p] corrected against other particles;
    - neighbour-tree variant with the hard particles: when [a] is exactly
      once among its targets, the potential ends as the neighbour loop
      leaves the one of [self]; when [a] is no target it is unchanged;
    - neighbour-tree variant on the whole store: the potential ends as the
      neighbour loop leaves the one of [self];
    - changeover-transition variant: the potential is unchanged, whatever
      the status. *)
Theorem self_potential_iff_single {F : Type} `{F64Order F} `{ChangeOverFns F} `{Config}
    `{SearchGroupFns F} (manager : HardManager F) (_sys : list (FPSoft F))
    (_ptcl_local : list (PtclH4 F)) (a : nat) (p : FPSoft F) :
  _sys !! a = Some p ->
  let self := selfPotentialCorrection manager p in
  (((status (fp p) == f0)%f64 = true ->
      self = set_pot_tot (pot_tot p + mass (fp p) / r_out_base manager)%f64 p)
   /\ ((status (fp p) == f0)%f64 = false -> self = p)
   /\ ((status (fp p) <? f0)%f64 = true -> self = p)
   /\ ((f0 <? status (fp p))%f64 = true -> self = p))
  /\ (forall n off ng ngoff adr_first : list nat,
        let r := correctForceWithCutoffClusterImp manager _sys _ptcl_local n off ng ngoff
                   adr_first in
        Forall (fun j => is_Some (mirrorOf _ptcl_local j)) (clusterIndices n off) ->
        (occurrences a (clusterMirrors _ptcl_local n off) = 1%nat ->
         a ∉ artificialAddresses manager (length n) ng ngoff adr_first ->
         exists j srcs,
           mirrorOf _ptcl_local j = Some a
           /\ Forall (otherParticle _sys _ptcl_local a (Some j)) srcs
           /\ r !! a = Some (pairCorrections manager srcs self))
        /\ (a ∉ clusterMirrors _ptcl_local n off ->
            exists srcs,
              Forall (otherParticle _sys _ptcl_local a None) srcs
              /\ pot_tot <$> r !! a = Some (pot_tot (pairCorrections manager srcs p))))
  /\ (forall (_tree : Tree F) (n off ng ngoff adr_first _adr_send : list nat),
        let r := correctForceWithCutoffTreeNeighborAndClusterImp manager _sys _tree
                   _ptcl_local n off ng ngoff adr_first _adr_send in
        (occurrences a (clusterMirrors _ptcl_local n off ++ _adr_send) = 1%nat ->
         a ∉ artificialAddresses manager (length n) ng ngoff adr_first ->
         r !! a = Some (neighborLoop manager (_tree p) self))
        /\ (a ∉ clusterMirrors _ptcl_local n off ++ _adr_send ->
            exists srcs,
              Forall (otherParticle _sys _ptcl_local a None) srcs
              /\ pot_tot <$> r !! a = Some (pot_tot (pairCorrections manager srcs p))))
  /\ (forall (_tree : Tree F) (_n_ptcl start : nat),
        let r := correctForceWithCutoffTreeNeighborImp manager _sys _tree _ptcl_local
                   _n_ptcl start in
        (occurrences a (treeTargets _ptcl_local _n_ptcl start (length _sys)) = 1%nat ->
         pot_tot <$> r !! a = Some (pot_tot (neighborLoop manager (_tree p) self)))
        /\ (a ∉ treeTargets _ptcl_local _n_ptcl start (length _sys) ->
            pot_tot <$> r !! a = Some (pot_tot p)))
  /\ (forall (_tree : Tree F) (start : nat),
        pot_tot <$> correctForceWithCutoffTreeNeighborImp_all manager _sys _tree start !! a
        = Some (pot_tot (neighborLoop manager (_tree p) self)))
  /\ (forall (hard : SystemHard F) (_tree : Tree F) (_adr_send : list nat),
        pot_tot <$> (correctForceForChangeOverUpdateOMP manager hard _sys _tree _adr_send).1
                      !! a
        = Some (pot_tot p)).
Proof.
  intros Hp self. split; [|split; [|split; [|split; [|split]]]].
  - split; [|split; [|split]].
    + apply selfPotentialCorrection_single.
    + apply selfPotentialCorrection_other.
    + intros Hneg. apply selfPotentialCorrection_other, neg_not_zero, Hneg.
    + intros Hpos. apply selfPotentialCorrection_other, pos_not_zero, Hpos.
  - intros n off ng ngoff adr_first r _. split.
    + intros Hocc Harts.
      exact (cluster_variant_real manager _sys _ptcl_local a p Hp n off ng ngoff adr_first
               Hocc Harts).
    + intros Hnot.
      exact (cluster_variant_artificial manager _sys _ptcl_local a p Hp n off ng ngoff
               adr_first Hnot).
  - intros _tree n off ng ngoff adr_first _adr_send r. split.
    + intros Hocc Harts.
      exact (combined_variant_real manager _sys _ptcl_local a p Hp _tree n off ng ngoff
               adr_first _adr_send Hocc Harts).
    + intros Hnot.
      exact (combined_variant_artificial manager _sys _ptcl_local a p Hp _tree n off ng
               ngoff adr_first _adr_send Hnot).
  - intros _tree _n_ptcl start.
    exact (tree_variant_local manager _sys _ptcl_local a p Hp _tree _n_ptcl start).
  - intros _tree start.
    exact (tree_variant_all manager _sys a p Hp _tree start).
  - intros hard _tree _adr_send.
    rewrite <- list_lookup_fmap, changeover_update_keeps_potential, list_lookup_fmap, Hp.
    reflexivity.
Qed.

(** In binary64, on the cluster [ex_mixed_hard] (two group members and a
    single, mirrors at the addresses 0 to 2, the artificial block at 3 to 7)
    and a tree without neighbours.  The single at the address 2, of status 0
    and unit mass: the cluster-scoped variant leaves it as the particle of
    potential [1/4] corrected against other particles, the combined variant
    as the particle of potential [1/4], the neighbour-tree variant with the
    potential [1/4].  The centre of mass at the address 7, of status 1 and
    mass 4: its potential ends as the one it had corrected against other
    particles in the cluster-scoped variant, and as it was in the
    neighbour-tree variant. *)
Lemma self_potential_iff_single_witness :
  let local := ptcl_hard_ (@ex_mixed_hard float _) in
  let single := ex_soft (F:=float) 3 f1 f2 f0 ex_changeover in
  let cm := ex_soft (F:=float) 0 f4 (f8 + f3)%f64 f1 ex_changeover in
  let cluster :=
    @correctForceWithCutoffClusterImp float _ ramp_ChangeOverFns ex_config
      ex_SearchGroupFns ex_manager ex_mixed_store local [3] [0; 3] [1] [0; 1] [3] in
  let combined :=
    @correctForceWithCutoffTreeNeighborAndClusterImp float _ ramp_ChangeOverFns ex_config
      ex_SearchGroupFns ex_manager ex_mixed_store ex_empty_tree local [3] [0; 3] [1] [0; 1]
      [3] [] in
  let pairs :=
    @pairCorrections float _ ramp_ChangeOverFns ex_config ex_manager in
  let all :=
    @correctForceWithCutoffTreeNeighborImp_all float _ ramp_ChangeOverFns ex_config
      ex_SearchGroupFns ex_manager ex_mixed_store ex_empty_tree 3 in
  (exists j srcs,
     mirrorOf local j = Some 2
     /\ Forall (otherParticle ex_mixed_store local 2 (Some j)) srcs
     /\ cluster !! 2
        = Some (pairs srcs (set_pot_tot (f1 / f4)%f64 single)))
  /\ (exists srcs,
        Forall (otherParticle ex_mixed_store local 7 None) srcs
        /\ pot_tot <$> cluster !! 7 = Some (pot_tot (pairs srcs cm)))
  /\ combined !! 2 = Some (set_pot_tot (f1 / f4)%f64 single)
  /\ pot_tot <$> all !! 2 = Some (f1 / f4)%f64
  /\ pot_tot <$> all !! 7 = Some f0.
Proof.
  intros local single cm cluster combined pairs all.
  pose proof (@self_potential_iff_single float float_F64Ops float_F64Order
                ramp_ChangeOverFns ex_config ex_SearchGroupFns ex_manager ex_mixed_store
                local 2 single eq_refl) as Hsingle.
  pose proof (@self_potential_iff_single float float_F64Ops float_F64Order
                ramp_ChangeOverFns ex_config ex_SearchGroupFns ex_manager ex_mixed_store
                local 7 cm eq_refl) as Hcm.
  cbv zeta in Hsingle, Hcm.
  destruct Hsingle as (_ & Hcl2 & Hcb2 & _ & Hall2 & _).
  destruct Hcm as (_ & Hcl7 & _ & _ & Hall7 & _).
  assert (Hlocal : Forall (fun j => is_Some (mirrorOf local j)) (clusterIndices [3] [0; 3]))
    by (apply (bool_decide_unpack _); vm_compute; exact I).
  split; [|split; [|split; [|split]]].
  - destruct (Hcl2 [3] [0; 3] [1] [0; 1] [3] Hlocal) as [Hreal _].
    destruct Hreal as (j & srcs & Hm & Hsrcs & Hr).
    + reflexivity.
    + apply (bool_decide_unpack _). vm_compute. exact I.
    + exists j, srcs. split; [exact Hm|]. split; [exact Hsrcs|]. exact Hr.
  - destruct (Hcl7 [3] [0; 3] [1] [0; 1] [3] Hlocal) as [_ Hart].
    apply Hart. apply (bool_decide_unpack _). vm_compute. exact I.
  - destruct (Hcb2 ex_empty_tree [3] [0; 3] [1] [0; 1] [3] []) as [Hreal _].
    unfold combined. rewrite Hreal.
    + reflexivity.
    + reflexivity.
    + apply (bool_decide_unpack _). vm_compute. exact I.
  - unfold all. rewrite (Hall2 ex_empty_tree 3). reflexivity.
  - unfold all. rewrite (Hall7 ex_empty_tree 3). reflexivity.
Defined.

(** C9 (as stated) fails.  In binary64, on [ex_mixed_store], where the
    particle at the address 2 is a single of status 0 and unit mass:

    - the changeover-transition variant, on the flagged cluster
      [ex_mixed_hard], corrects the single against its staged neighbour and
      leaves its potential at 0; the correction for its own mass would leave
      it with [1/4];
    - the cluster-scoped variant, handed the cluster of the two group
      members only, does not work on the single and returns it as it is. *)
Lemma self_potential_variants_counterexample :
  let run := @correctForceForChangeOverUpdateOMP float _ ramp_ChangeOverFns ex_SearchGroupFns
               ex_manager in
  let p := ex_soft (F:=float) 3 f1 f2 f0 ex_changeover in
  let r := run ex_mixed_hard ex_mixed_store ex_member_tree [] in
  let r_cluster :=
    @correctForceWithCutoffClusterImp float _ ramp_ChangeOverFns ex_config
      ex_SearchGroupFns ex_manager ex_mixed_store (ptcl_hard_ ex_mixed_hard) [2] [0; 2] [1]
      [0; 1] [3] in
  ex_mixed_store !! 2 = Some p
  /\ (status (fp p) == f0)%f64 = true
  /\ pot_tot <$> r.1 !! 2 = Some (pot_tot p)
  /\ pot_tot <$> r.1 !! 2 <> Some (pot_tot p + mass (fp p) / r_out_base ex_manager)%f64
  /\ r_cluster !! 2 = Some p
  /\ pot_tot <$> r_cluster !! 2
     <> Some (pot_tot p + mass (fp p) / r_out_base ex_manager)%f64.
Proof.
  intros run p r r_cluster. split; [reflexivity|]. split; [reflexivity|].
  split; [vm_compute; reflexivity|]. split; [|split; [vm_compute; reflexivity|]].
  - intros Heq.
    apply (f_equal (fun o => match o with
                             | Some v => PrimFloat.ltb v 0.125%float
                             | None => false
                             end)) in Heq.
    vm_compute in Heq. discriminate Heq.
  - intros Heq.
    apply (f_equal (fun o => match o with
                             | Some v => PrimFloat.ltb v 0.125%float
                             | None => false
                             end)) in Heq.
    vm_compute in Heq. discriminate Heq.
Qed.
